(** * DDSketch (sketches-cpp): a shallow embedding of [ddsketch.h]

    The development follows the header [includes/ddsketch/ddsketch.h]:
    [BinList], the three dense stores, the three key mappings and the
    sketch built from them.

    Modelling conventions.
    - [RealValue] (C++ [double]) is the type [R] of real numbers: arithmetic
      is exact, there is no rounding and no overflow.  The two places where
      the source leaves the finite numbers (the [std::nan] returned by
      [get_quantile_value] and the division of [avg]) produce an [ieee]
      value, which adds NaN and the two infinities to [R].
    - [Index] (C++ [int64_t]) is [Z].  Signed overflow is undefined in C++;
      the model computes in [Z] and is meant for keys far from the ends of
      the 64-bit range.  The sentinels of the empty store are the constants
      [INT64_MAX] and [INT64_MIN] of the source.  The [int] and [size_t]
      parameters of [BinList] receive [Index] values and are [Z] as well;
      the narrowing conversion is not modelled.
    - A C++ exception is [Throw e]; an operation whose behaviour the language
      leaves undefined (an index outside a deque, an iterator range that runs
      backwards) is [Undefined].  Both stop the computation.
    - Where rounding decides the result the source is modelled a second time
      with the binary64 numbers of [PrimFloat] (module [Binary64], for
      [key_at_rank]).
    - The lemmas on the model hold for all real numbers and all integers.
      The last three parts of the file restate, for the program, those that
      go beyond one concrete input: they keep to a range of inputs in which
      no [Index] expression overflows, every counter is a whole number that
      a [double] holds exactly and no [double] overflows, and they leave a
      margin for the rounding of the logarithm and of the power. *)

From Stdlib Require Import Reals ZArith List Bool Lia Lra.
From Stdlib Require PrimFloat.
Import ListNotations.

Set Implicit Arguments.

(** ** Outcomes of operations *)

Inductive result (E A : Type) : Type :=
| Ok (a : A)
| Throw (e : E)
| Undefined.

Arguments Ok {E A} a.
Arguments Throw {E A} e.
Arguments Undefined {E A}.

Definition bind {E A B : Type} (m : result E A) (k : A -> result E B)
  : result E B :=
  match m with
  | Ok a => k a
  | Throw e => Throw e
  | Undefined => Undefined
  end.

Declare Scope result_scope.
Delimit Scope result_scope with result.
Notation "x <- m ;; k" := (bind m (fun x => k))
  (at level 61, m at next level, right associativity) : result_scope.
Notation "' pat <- m ;; k" := (bind m (fun x => match x with pat => k end))
  (at level 61, pat pattern, m at next level, right associativity)
  : result_scope.

(** An exception of an inner layer travels unchanged through the outer one. *)
Definition lift {E E' A : Type} (f : E -> E') (m : result E A) : result E' A :=
  match m with
  | Ok a => Ok a
  | Throw e => Throw (f e)
  | Undefined => Undefined
  end.

(** The value of a [double] expression that may leave the finite numbers. *)
Inductive ieee : Type :=
| NaN
| PosInf
| NegInf
| Finite (r : R).

(** ** Real-number helpers standing for <cmath> *)

Definition Rgtb (a b : R) : bool := if Rlt_dec b a then true else false.
Definition Rgeb (a b : R) : bool := if Rle_dec b a then true else false.
Definition Rltb' (a b : R) : bool := if Rlt_dec a b then true else false.
Definition Rleb' (a b : R) : bool := if Rle_dec a b then true else false.
Definition Reqb' (a b : R) : bool := if Req_dec_T a b then true else false.

(** [std::floor], [std::ceil] and the conversion [static_cast<Index>], which
    truncates toward zero. *)
Definition Rfloor (x : R) : Z := Int_part x.
Definition Rceil (x : R) : Z := (- Int_part (- x))%Z.
Definition Rtrunc (x : R) : Z := if Rlt_dec x 0 then Rceil x else Rfloor x.

Definition log2 (x : R) : R := (ln x / ln 2)%R.
Definition exp2 (x : R) : R := Rpower 2 x.

(** [std::cbrt], defined on the whole line. *)
Definition cbrt (x : R) : R :=
  if Rlt_dec x 0 then (- Rpower (- x) (1 / 3))%R
  else if Req_dec_T x 0 then 0%R
  else Rpower x (1 / 3).

(** [std::frexp]: [v = m * 2 ^ e] with [1/2 <= |m| < 1], and [(0, 0)] at 0. *)
Definition frexp (v : R) : R * Z :=
  if Req_dec_T v 0 then (0%R, 0%Z)
  else let e := up (log2 (Rabs v)) in ((v / powerRZ 2 e)%R, e).

(** [std::ldexp]. *)
Definition ldexp (m : R) (e : Z) : R := (m * powerRZ 2 e)%R.

(** [std::numeric_limits<double>::min()] and [::max()]: the smallest positive
    normal number and the largest finite number of binary64. *)
Definition DBL_MIN : R := (/ 2 ^ 1022)%R.
Definition DBL_MAX : R := ((2 - / 2 ^ 52) * 2 ^ 1023)%R.

(** [std::numeric_limits<int64_t>::max()] and [::min()]. *)
Definition INT64_MAX : Z := (2 ^ 63 - 1)%Z.
Definition INT64_MIN : Z := (- 2 ^ 63)%Z.

(** ** BinList *)

Module BinList.

Local Open Scope Z_scope.
Local Open Scope result_scope.

Inductive error : Type := invalid_argument.

(** [Container data_], a [std::deque<RealValue>]. *)
Definition t : Type := list R.

Definition size (b : t) : Z := Z.of_nat (length b).

(** [index_outside_bounds(size_t idx)]: a negative [int] converts to a huge
    [size_t], which is outside too. *)
Definition index_outside_bounds (b : t) (idx : Z) : bool :=
  (idx <? 0) || (size b <? idx).

Definition in_bounds (b : t) (idx : Z) : bool :=
  (0 <=? idx) && (idx <? size b).

(** [operator[]] read. *)
Definition get (b : t) (idx : Z) : result error R :=
  if in_bounds b idx then Ok (nth (Z.to_nat idx) b 0%R) else Undefined.

Fixpoint update (n : nat) (f : R -> R) (b : t) : t :=
  match b, n with
  | [], _ => []
  | x :: r, O => f x :: r
  | x :: r, S n' => x :: update n' f r
  end.

(** [data_[idx] = v] and [data_[idx] += w] through the reference returned by
    [operator[]]. *)
Definition set (b : t) (idx : Z) (v : R) : result error t :=
  if in_bounds b idx then Ok (update (Z.to_nat idx) (fun _ => v) b)
  else Undefined.

Definition add_at (b : t) (idx : Z) (w : R) : result error t :=
  if in_bounds b idx then Ok (update (Z.to_nat idx) (fun x => (x + w)%R) b)
  else Undefined.

(** [first() = v], [first() += w], [last() = v], [last() += w]. *)
Definition set_first (b : t) (v : R) : result error t := set b 0 v.
Definition add_first (b : t) (w : R) : result error t := add_at b 0 w.
Definition set_last (b : t) (v : R) : result error t := set b (size b - 1) v.
Definition add_last (b : t) (w : R) : result error t :=
  add_at b (size b - 1) w.

(** [insert(elem)]: [push_back]. *)
Definition insert (b : t) (elem : R) : t := b ++ [elem].

(** [std::accumulate(first, last, 0)]: a left fold starting from 0. *)
Definition accumulate (l : list R) : R := fold_left Rplus l 0%R.

Definition slice (b : t) (start_idx end_idx : Z) : list R :=
  firstn (Z.to_nat (end_idx - start_idx)) (skipn (Z.to_nat start_idx) b).

Definition collapsed_count (b : t) (start_idx end_idx : Z) : result error R :=
  if index_outside_bounds b start_idx || index_outside_bounds b end_idx
  then Throw invalid_argument
  else if start_idx <=? end_idx
       then Ok (accumulate (slice b start_idx end_idx))
       else Undefined.

Definition has_only_zeros (b : t) : bool :=
  forallb (fun item => Reqb' item 0) b.

Definition sum (b : t) : result error R := collapsed_count b 0 (size b).

Definition zeros (n : Z) : list R := repeat 0%R (Z.to_nat n).

(** The [size_t] arguments below receive [Index] values; a negative one would
    ask for an absurd allocation, which the model leaves undefined. *)
Definition initialize_with_zeros (num_zeros : Z) : result error t :=
  if 0 <=? num_zeros then Ok (zeros num_zeros) else Undefined.

Definition extend_front_with_zeros (b : t) (count : Z) : result error t :=
  if 0 <=? count then Ok (zeros count ++ b) else Undefined.

Definition extend_back_with_zeros (b : t) (count : Z) : result error t :=
  if 0 <=? count then Ok (b ++ zeros count) else Undefined.

Definition remove_trailing_elements (b : t) (count : Z) : result error t :=
  if (0 <=? count) && (count <=? size b)
  then Ok (firstn (Z.to_nat (size b - count)) b)
  else Undefined.

Definition remove_leading_elements (b : t) (count : Z) : result error t :=
  if (0 <=? count) && (count <=? size b)
  then Ok (skipn (Z.to_nat count) b)
  else Undefined.

Definition replace_range_with_zeros (b : t) (start_idx end_idx num_zeros : Z)
  : result error t :=
  if (0 <=? start_idx) && (start_idx <=? end_idx) && (end_idx <=? size b)
     && (0 <=? num_zeros)
  then Ok (firstn (Z.to_nat start_idx) b ++ zeros num_zeros
           ++ skipn (Z.to_nat end_idx) b)
  else Undefined.

End BinList.

(** ** The dense stores

    [BaseDenseStore] and its two subclasses.  The subclasses add two fields
    and override the virtual functions [get_new_length], [adjust] and
    [get_index]; the dynamic type is the [kind] passed to every function
    that reaches a virtual call. *)

Module Store.

Local Open Scope Z_scope.
Local Open Scope result_scope.

Inductive kind : Type :=
| Dense
| CollapsingLowest
| CollapsingHighest.

Definition kChunkSize : Z := 128.

Record t : Type := mk {
  count_ : R;          (* The sum of the counts for the bins *)
  min_key_ : Z;        (* The minimum key bin *)
  max_key_ : Z;        (* The maximum key bin *)
  chunk_size_ : Z;     (* The number of bins to grow by *)
  offset_ : Z;         (* The difference btw the keys and the index *)
  bins_ : BinList.t;
  bin_limit_ : Z;      (* The maximum number of bins (collapsing stores) *)
  is_collapsed_ : bool (* (collapsing stores) *)
}.

Definition error : Type := BinList.error.
Definition M (A : Type) : Type := result error A.

Definition set_count (s : t) (c : R) : t :=
  mk c (min_key_ s) (max_key_ s) (chunk_size_ s) (offset_ s) (bins_ s)
     (bin_limit_ s) (is_collapsed_ s).
Definition set_min_key (s : t) (k : Z) : t :=
  mk (count_ s) k (max_key_ s) (chunk_size_ s) (offset_ s) (bins_ s)
     (bin_limit_ s) (is_collapsed_ s).
Definition set_max_key (s : t) (k : Z) : t :=
  mk (count_ s) (min_key_ s) k (chunk_size_ s) (offset_ s) (bins_ s)
     (bin_limit_ s) (is_collapsed_ s).
Definition set_offset (s : t) (o : Z) : t :=
  mk (count_ s) (min_key_ s) (max_key_ s) (chunk_size_ s) o (bins_ s)
     (bin_limit_ s) (is_collapsed_ s).
Definition set_bins (s : t) (b : BinList.t) : t :=
  mk (count_ s) (min_key_ s) (max_key_ s) (chunk_size_ s) (offset_ s) b
     (bin_limit_ s) (is_collapsed_ s).
Definition set_is_collapsed (s : t) (c : bool) : t :=
  mk (count_ s) (min_key_ s) (max_key_ s) (chunk_size_ s) (offset_ s) (bins_ s)
     (bin_limit_ s) c.

(** Constructors.  [BaseDenseStore(chunk_size)] leaves the two extra fields
    unused; they are given the values a collapsing store never has to read. *)
Definition BaseDenseStore (chunk_size : Z) : t :=
  mk 0%R INT64_MAX INT64_MIN chunk_size 0 [] 0 false.

Definition DenseStore : t := BaseDenseStore kChunkSize.

Definition CollapsingDenseStore (bin_limit chunk_size : Z) : t :=
  mk 0%R INT64_MAX INT64_MIN chunk_size 0 [] bin_limit false.

Definition bins (s : t) : BinList.t := bins_ s.
Definition offset (s : t) : Z := offset_ s.
Definition count (s : t) : R := count_ s.
Definition length (s : t) : Z := BinList.size (bins_ s).

Definition kEmptyStoreLength : Z := 0.
Definition is_empty (s : t) : bool := length s =? kEmptyStoreLength.

(** [copy]: the base class copies five fields ([chunk_size_] is kept); the
    collapsing stores copy [bin_limit_] and [is_collapsed_] as well. *)
Definition copy (k : kind) (s store : t) : t :=
  match k with
  | Dense =>
      mk (count_ store) (min_key_ store) (max_key_ store) (chunk_size_ s)
         (offset_ store) (bins_ store) (bin_limit_ s) (is_collapsed_ s)
  | CollapsingLowest | CollapsingHighest =>
      mk (count_ store) (min_key_ store) (max_key_ store) (chunk_size_ s)
         (offset_ store) (bins_ store) (bin_limit_ store) (is_collapsed_ store)
  end.

(** [std::ceil((1.0 * desired_length) / chunk_size_)], an integer-valued
    double; a zero [chunk_size_] divides by zero and the conversion of the
    result to [Index] is undefined. *)
Definition ceil_div (a b : Z) : Z := - ((- a) / b).

Definition get_new_length (k : kind) (s : t) (new_min_key new_max_key : Z)
  : M Z :=
  let desired_length := new_max_key - new_min_key + 1 in
  if chunk_size_ s =? 0 then Undefined
  else
    let num_chunks := ceil_div desired_length (chunk_size_ s) in
    match k with
    | Dense => Ok (chunk_size_ s * num_chunks)
    | CollapsingLowest | CollapsingHighest =>
        Ok (Z.min (chunk_size_ s * num_chunks) (bin_limit_ s))
    end.

(** Shift the bins; this changes the offset. *)
Definition shift_bins (s : t) (shift : Z) : M t :=
  b <- (if shift >? 0
        then b1 <- BinList.remove_trailing_elements (bins_ s) shift ;;
             BinList.extend_front_with_zeros b1 shift
        else let abs_shift := Z.abs shift in
             b1 <- BinList.remove_leading_elements (bins_ s) abs_shift ;;
             BinList.extend_back_with_zeros b1 abs_shift) ;;
  Ok (set_offset (set_bins s b) (offset_ s - shift)).

(** Center the bins; this changes the offset.  The division is the one of
    C++ on [Index], which truncates. *)
Definition center_bins (s : t) (new_min_key new_max_key : Z) : M t :=
  let middle_key :=
    new_min_key + Z.quot (new_max_key - new_min_key + 1) 2 in
  shift_bins s (offset_ s + Z.quot (length s) 2 - middle_key).

Definition adjust_dense (s : t) (new_min_key new_max_key : Z) : M t :=
  s1 <- center_bins s new_min_key new_max_key ;;
  Ok (set_max_key (set_min_key s1 new_min_key) new_max_key).

(** [CollapsingLowestDenseStore::adjust]. *)
Definition adjust_lowest (s : t) (new_min_key new_max_key : Z) : M t :=
  if new_max_key - new_min_key + 1 >? length s then
    (* The range of keys is too wide: the lowest bins are collapsed *)
    let new_min_key := new_max_key - length s + 1 in
    s1 <- (if new_min_key >=? max_key_ s then
             (* Put everything in the first bin *)
             let s' := set_min_key (set_offset s new_min_key) new_min_key in
             b0 <- BinList.initialize_with_zeros (length s') ;;
             b1 <- BinList.set_first b0 (count_ s') ;;
             Ok (set_bins s' b1)
           else
             let shift := offset_ s - new_min_key in
             if shift <? 0 then
               let collapse_start_index := min_key_ s - offset_ s in
               let collapse_end_index := new_min_key - offset_ s in
               collapsed_count <-
                 BinList.collapsed_count (bins_ s)
                   collapse_start_index collapse_end_index ;;
               b1 <- BinList.replace_range_with_zeros (bins_ s)
                       collapse_start_index collapse_end_index
                       (new_min_key - min_key_ s) ;;
               b2 <- BinList.add_at b1 collapse_end_index collapsed_count ;;
               shift_bins (set_min_key (set_bins s b2) new_min_key) shift
             else
               shift_bins (set_min_key s new_min_key) shift) ;;
    Ok (set_is_collapsed (set_max_key s1 new_max_key) true)
  else
    s1 <- center_bins s new_min_key new_max_key ;;
    Ok (set_max_key (set_min_key s1 new_min_key) new_max_key).

(** [CollapsingHighestDenseStore::adjust]. *)
Definition adjust_highest (s : t) (new_min_key new_max_key : Z) : M t :=
  if new_max_key - new_min_key + 1 >? length s then
    let new_max_key := new_min_key + length s - 1 in
    s1 <- (if new_max_key <=? min_key_ s then
             (* Put everything in the last bin *)
             let s' := set_max_key (set_offset s new_min_key) new_max_key in
             b0 <- BinList.initialize_with_zeros (length s') ;;
             b1 <- BinList.set_last b0 (count_ s') ;;
             Ok (set_bins s' b1)
           else
             let shift := offset_ s - new_min_key in
             if shift >? 0 then
               let collapse_start_index := new_max_key - offset_ s + 1 in
               let collapse_end_index := max_key_ s - offset_ s + 1 in
               collapsed_count <-
                 BinList.collapsed_count (bins_ s)
                   collapse_start_index collapse_end_index ;;
               b1 <- BinList.replace_range_with_zeros (bins_ s)
                       collapse_start_index collapse_end_index
                       (max_key_ s - new_max_key) ;;
               b2 <- BinList.add_at b1 (collapse_start_index - 1)
                       collapsed_count ;;
               shift_bins (set_max_key (set_bins s b2) new_max_key) shift
             else
               shift_bins (set_max_key s new_max_key) shift) ;;
    Ok (set_is_collapsed (set_min_key s1 new_min_key) true)
  else
    s1 <- center_bins s new_min_key new_max_key ;;
    Ok (set_max_key (set_min_key s1 new_min_key) new_max_key).

(** The virtual [adjust]. *)
Definition adjust (k : kind) (s : t) (new_min_key new_max_key : Z) : M t :=
  match k with
  | Dense => adjust_dense s new_min_key new_max_key
  | CollapsingLowest => adjust_lowest s new_min_key new_max_key
  | CollapsingHighest => adjust_highest s new_min_key new_max_key
  end.

(** Grow the bins as necessary and call [adjust]. *)
Definition extend_range (k : kind) (s : t) (key second_key : Z) : M t :=
  let new_min_key := Z.min key (Z.min second_key (min_key_ s)) in
  let new_max_key := Z.max key (Z.max second_key (max_key_ s)) in
  if is_empty s then
    (* Initialize bins *)
    new_length <- get_new_length k s new_min_key new_max_key ;;
    b <- BinList.initialize_with_zeros new_length ;;
    adjust k (set_offset (set_bins s b) new_min_key) new_min_key new_max_key
  else if (new_min_key >=? min_key_ s)
          && (new_max_key <? offset_ s + length s) then
    (* No need to change the range; just update min/max keys *)
    Ok (set_max_key (set_min_key s new_min_key) new_max_key)
  else
    (* Grow the bins *)
    new_length <- get_new_length k s new_min_key new_max_key ;;
    s1 <- (if new_length >? length s
           then b <- BinList.extend_back_with_zeros (bins_ s)
                       (new_length - length s) ;;
                Ok (set_bins s b)
           else Ok s) ;;
    adjust k s1 new_min_key new_max_key.

(** Calculate the bin index for the key, extending the range if necessary.
    The result is the index together with the store after the call. *)
Definition get_index (k : kind) (s : t) (key : Z) : M (Z * t) :=
  match k with
  | Dense =>
      s1 <- (if (key <? min_key_ s) || (key >? max_key_ s)
             then extend_range k s key key else Ok s) ;;
      Ok (key - offset_ s1, s1)
  | CollapsingLowest =>
      if key <? min_key_ s then
        if is_collapsed_ s then Ok (0, s)
        else
          s1 <- extend_range k s key key ;;
          if is_collapsed_ s1 then Ok (0, s1)
          else Ok (key - offset_ s1, s1)
      else if key >? max_key_ s then
        s1 <- extend_range k s key key ;;
        Ok (key - offset_ s1, s1)
      else Ok (key - offset_ s, s)
  | CollapsingHighest =>
      if key >? max_key_ s then
        if is_collapsed_ s then Ok (length s - 1, s)
        else
          s1 <- extend_range k s key key ;;
          if is_collapsed_ s1 then Ok (length s1 - 1, s1)
          else Ok (key - offset_ s1, s1)
      else if key <? min_key_ s then
        s1 <- extend_range k s key key ;;
        Ok (key - offset_ s1, s1)
      else Ok (key - offset_ s, s)
  end.

(** [add(key, weight)]. *)
Definition add (k : kind) (s : t) (key : Z) (weight : R) : M t :=
  '(idx, s1) <- get_index k s key ;;
  b <- BinList.add_at (bins_ s1) idx weight ;;
  Ok (set_count (set_bins s1 b) (count_ s1 + weight)%R).

(** [key_at_rank(rank, lower)]: the loop over the bins, with the running
    count and the index as loop variables. *)
Definition rank_reached (lower : bool) (running_ct rank : R) : bool :=
  (lower && Rgtb running_ct rank)
  || (negb lower && Rgeb running_ct (rank + 1)%R).

Fixpoint key_at_rank_loop (bins : list R) (running_ct : R) (idx : Z)
    (rank : R) (lower : bool) (offset max_key : Z) : Z :=
  match bins with
  | [] => max_key
  | bin_ct :: rest =>
      let running_ct := (running_ct + bin_ct)%R in
      if rank_reached lower running_ct rank then idx + offset
      else key_at_rank_loop rest running_ct (idx + 1) rank lower
             offset max_key
  end.

Definition key_at_rank (s : t) (rank : R) (lower : bool) : Z :=
  key_at_rank_loop (bins_ s) 0%R 0 rank lower (offset_ s) (max_key_ s).

(** The loop [for (key = from; key <= to; ++key)
                bins_[key - offset_] += store.bins_[key - store.offset_]]. *)
Fixpoint add_bins_loop (n : nat) (key : Z) (offset : Z) (b : BinList.t)
    (store : t) : M BinList.t :=
  match n with
  | O => Ok b
  | S n' =>
      c <- BinList.get (bins_ store) (key - offset_ store) ;;
      b1 <- BinList.add_at b (key - offset) c ;;
      add_bins_loop n' (key + 1) offset b1 store
  end.

(** Keys [from], [from + 1], ..., [to], none when [to < from]. *)
Definition add_bins (s store : t) (from to : Z) : M t :=
  b <- add_bins_loop (Z.to_nat (to - from + 1)) from (offset_ s) (bins_ s)
         store ;;
  Ok (set_bins s b).

Definition merge_extend (k : kind) (s store : t) : M t :=
  if (min_key_ store <? min_key_ s) || (max_key_ store >? max_key_ s)
  then extend_range k s (min_key_ store) (max_key_ store)
  else Ok s.

(** [BaseDenseStore::merge]. *)
Definition merge_dense (s store : t) : M t :=
  if Req_dec_T (count_ store) 0 then Ok s
  else if Req_dec_T (count_ s) 0 then Ok (copy Dense s store)
  else
    s1 <- merge_extend Dense s store ;;
    s2 <- add_bins s1 store (min_key_ store) (max_key_ store) ;;
    Ok (set_count s2 (count_ s2 + count_ store)%R).

(** [CollapsingLowestDenseStore::merge].  The count that goes to the first
    bin is read from [bins_], the receiver's own bins, at the indices
    computed from [store.offset_]. *)
Definition merge_lowest (s store : t) : M t :=
  if Req_dec_T (count_ store) 0 then Ok s
  else if Req_dec_T (count_ s) 0 then Ok (copy CollapsingLowest s store)
  else
    s1 <- merge_extend CollapsingLowest s store ;;
    let collapse_start_idx := min_key_ store - offset_ store in
    let collapse_end_idx :=
      Z.min (min_key_ s1) (max_key_ store + 1) - offset_ store in
    '(s2, collapse_end_idx) <-
      (if collapse_end_idx >? collapse_start_idx then
         collapsed_count <-
           BinList.collapsed_count (bins_ s1)
             collapse_start_idx collapse_end_idx ;;
         b <- BinList.add_first (bins_ s1) collapsed_count ;;
         Ok (set_bins s1 b, collapse_end_idx)
       else Ok (s1, collapse_start_idx)) ;;
    s3 <- add_bins s2 store (collapse_end_idx + offset_ store)
            (max_key_ store) ;;
    Ok (set_count s3 (count_ s3 + count_ store)%R).

(** [CollapsingHighestDenseStore::merge]. *)
Definition merge_highest (s store : t) : M t :=
  if Req_dec_T (count_ store) 0 then Ok s
  else if Req_dec_T (count_ s) 0 then Ok (copy CollapsingHighest s store)
  else
    s1 <- merge_extend CollapsingHighest s store ;;
    let collapse_end_idx := max_key_ store - offset_ store + 1 in
    let collapse_start_idx :=
      Z.max (max_key_ s1 + 1) (min_key_ store) - offset_ store in
    '(s2, collapse_start_idx) <-
      (if collapse_end_idx >? collapse_start_idx then
         collapsed_count <-
           BinList.collapsed_count (bins_ s1)
             collapse_start_idx collapse_end_idx ;;
         b <- BinList.add_last (bins_ s1) collapsed_count ;;
         Ok (set_bins s1 b, collapse_start_idx)
       else Ok (s1, collapse_end_idx)) ;;
    s3 <- add_bins s2 store (min_key_ store)
            (collapse_start_idx + offset_ store - 1) ;;
    Ok (set_count s3 (count_ s3 + count_ store)%R).

Definition merge (k : kind) (s store : t) : M t :=
  match k with
  | Dense => merge_dense s store
  | CollapsingLowest => merge_lowest s store
  | CollapsingHighest => merge_highest s store
  end.

End Store.

(** ** [key_at_rank] in binary64

    The comparison [running_ct >= rank + 1] of [key_at_rank] adds 1 to the
    rank before it compares, and in a [double] that sum is rounded.  This
    second model of the function computes with the binary64 numbers of the
    source ([PrimFloat]: [+] rounds to nearest, ties to even); it reads the
    three members of the store that [key_at_rank] reads. *)

Module Binary64.

Import PrimFloat.
Local Open Scope Z_scope.

Record t : Type := mk {
  bins_ : list float;
  offset_ : Z;
  max_key_ : Z
}.

Definition rank_reached (lower : bool) (running_ct rank : float) : bool :=
  (lower && (rank <? running_ct)%float)
  || (negb lower && (rank + 1 <=? running_ct)%float).

Fixpoint key_at_rank_loop (bins : list float) (running_ct : float) (idx : Z)
    (rank : float) (lower : bool) (offset max_key : Z) : Z :=
  match bins with
  | [] => max_key
  | bin_ct :: rest =>
      let running_ct := (running_ct + bin_ct)%float in
      if rank_reached lower running_ct rank then idx + offset
      else key_at_rank_loop rest running_ct (idx + 1) rank lower
             offset max_key
  end.

Definition key_at_rank (s : t) (rank : float) (lower : bool) : Z :=
  key_at_rank_loop (bins_ s) 0%float 0 rank lower (offset_ s) (max_key_ s).

End Binary64.

(** ** Exceptions of the mapping and sketch layer *)

Inductive exception : Type :=
| IllegalArgumentException
| UnequalSketchParametersException
| FromBinList (e : BinList.error).

(** ** Key mappings

    [KeyMapping] with its three subclasses; the pure virtual [log_gamma] and
    [pow_gamma] dispatch on the [kind] stored with the fields. *)

Module Mapping.

Local Open Scope R_scope.
Local Open Scope result_scope.

Inductive kind : Type :=
| Logarithmic
| LinearlyInterpolated
| CubicallyInterpolated.

Record t : Type := mk {
  kind_ : kind;
  relative_accuracy_ : R;
  offset_ : R;          (* An offset that can be used to shift all bin keys *)
  gamma_ : R;           (* The base for the exponential buckets *)
  min_possible_ : R;    (* The smallest value the sketch can distinguish from 0 *)
  max_possible_ : R;    (* The largest value the sketch can handle *)
  multiplier_ : R       (* Used for calculating log_gamma(value) *)
}.

Definition relative_accuracy (m : t) : R := relative_accuracy_ m.
Definition min_possible (m : t) : R := min_possible_ m.
Definition max_possible (m : t) : R := max_possible_ m.
Definition gamma (m : t) : R := gamma_ m.

Definition log1p (x : R) : R := ln (1 + x).

Definition A_ : R := 6 / 35.
Definition B_ : R := - 3 / 5.
Definition C_ : R := 10 / 7.

Definition kDefaultRelativeAccuracy : R := 1 / 100.

(** The private helper [adjust_accuracy]; no constructor calls it. *)
Definition adjust_accuracy (relative_accuracy : R) : R :=
  if Rleb' relative_accuracy 0 || Rgeb relative_accuracy 1
  then kDefaultRelativeAccuracy
  else relative_accuracy.

(** The protected constructor [KeyMapping(relative_accuracy, offset)]
    followed by the adjustment of [multiplier_] made by the subclass. *)
Definition KeyMapping (k : kind) (relative_accuracy offset : R)
  : result exception t :=
  if Rleb' relative_accuracy 0 || Rgeb relative_accuracy 1
  then Throw IllegalArgumentException
  else
    let gamma_mantissa := 2 * relative_accuracy / (1 - relative_accuracy) in
    let gamma := 1 + gamma_mantissa in
    let multiplier := 1 / log1p gamma_mantissa in
    Ok (mk k relative_accuracy offset gamma
           (DBL_MIN * gamma) (DBL_MAX / gamma)
           match k with
           | Logarithmic => multiplier * ln 2
           | LinearlyInterpolated => multiplier
           | CubicallyInterpolated => multiplier / C_
           end).

Definition LogarithmicMapping := KeyMapping Logarithmic.
Definition LinearlyInterpolatedMapping := KeyMapping LinearlyInterpolated.
Definition CubicallyInterpolatedMapping := KeyMapping CubicallyInterpolated.

(** Approximates log2 by s + f where v = (s+1) * 2 ** f for s in [0, 1). *)
Definition log2_approx (value : R) : R :=
  let '(mantissa, exponent) := frexp value in
  let significand := 2 * mantissa - 1 in
  significand + (IZR exponent - 1).

(** Inverse of log2_approx. *)
Definition exp2_approx (value : R) : R :=
  let exponent := (Rfloor value + 1)%Z in
  let mantissa := (value - IZR exponent + 2) / 2 in
  ldexp mantissa exponent.

(** Approximates log2 using a cubic polynomial. *)
Definition cubic_log2_approx (value : R) : R :=
  let '(mantissa, exponent) := frexp value in
  let significand := 2 * mantissa - 1 in
  ((A_ * significand + B_) * significand + C_) * significand
  + (IZR exponent - 1).

(** Derived from Cardano's formula. *)
Definition cubic_exp2_approx (value : R) : R :=
  let exponent := Rfloor value in
  let delta_0 := B_ * B_ - 3 * A_ * C_ in
  let delta_1 :=
    2 * B_ * B_ * B_ - 9 * A_ * B_ * C_
    - 27 * A_ * A_ * (value - IZR exponent) in
  let cardano :=
    cbrt ((delta_1
           - sqrt (delta_1 * delta_1 - 4 * delta_0 * delta_0 * delta_0))
          / 2) in
  let significand_plus_one :=
    - (B_ + cardano + delta_0 / cardano) / (3 * A_) + 1 in
  let mantissa := significand_plus_one / 2 in
  ldexp mantissa (exponent + 1)%Z.

(** Return (an approximation of) the logarithm of the value base gamma. *)
Definition log_gamma (m : t) (value : R) : R :=
  match kind_ m with
  | Logarithmic => log2 value * multiplier_ m
  | LinearlyInterpolated => log2_approx value * multiplier_ m
  | CubicallyInterpolated => cubic_log2_approx value * multiplier_ m
  end.

(** Return (an approximation of) gamma to the power value. *)
Definition pow_gamma (m : t) (value : R) : R :=
  match kind_ m with
  | Logarithmic => exp2 (value / multiplier_ m)
  | LinearlyInterpolated => exp2_approx (value / multiplier_ m)
  | CubicallyInterpolated => cubic_exp2_approx (value / multiplier_ m)
  end.

(** The key specifying the bucket for value. *)
Definition key (m : t) (value : R) : Z :=
  Rtrunc (IZR (Rceil (log_gamma m value)) + offset_ m).

(** The value represented by the bucket specified by the key. *)
Definition value (m : t) (key : Z) : R :=
  pow_gamma m (IZR key - offset_ m) * (2 / (1 + gamma_ m)).

End Mapping.

(** ** The sketch

    [BaseDDSketch<Store, Mapping>]; the template argument [Store] is the
    [Store.kind] given to every operation, [Mapping] is the kind held by the
    mapping itself. *)

Module Sketch.

Local Open Scope R_scope.
Local Open Scope result_scope.

Record t : Type := mk {
  mapping_ : Mapping.t;       (* Map btw values and store bins *)
  store_ : Store.t;           (* Storage for positive values *)
  negative_store_ : Store.t;  (* Storage for negative values *)
  zero_count_ : R;            (* The count of zero values *)
  count_ : R;                 (* The number of values seen by the sketch *)
  min_ : R;                   (* The minimum value seen by the sketch *)
  max_ : R;                   (* The maximum value seen by the sketch *)
  sum_ : R                    (* The sum of the values seen by the sketch *)
}.

Definition M (A : Type) : Type := result exception A.

Definition from_store {A : Type} (m : Store.M A) : M A := lift FromBinList m.

Definition BaseDDSketch (mapping : Mapping.t) (store negative_store : Store.t)
  : t :=
  mk mapping store negative_store 0 0 DBL_MAX DBL_MIN 0.

Definition kDefaultBinLimit : Z := 2048.

Definition adjust_bin_limit (bin_limit : Z) : Z :=
  if (bin_limit <=? 0)%Z then kDefaultBinLimit else bin_limit.

(** The three concrete sketches; each goes with its store kind. *)
Definition DDSketch (relative_accuracy : R) : M t :=
  m <- Mapping.LogarithmicMapping relative_accuracy 0 ;;
  Ok (BaseDDSketch m Store.DenseStore Store.DenseStore).

Definition LogCollapsingDenseDDSketch (relative_accuracy : R) (bin_limit : Z)
  : M t :=
  m <- Mapping.LogarithmicMapping relative_accuracy 0 ;;
  let s := Store.CollapsingDenseStore (adjust_bin_limit bin_limit)
             Store.kChunkSize in
  Ok (BaseDDSketch m s s).

Definition LogCollapsingLowestDenseDDSketch := LogCollapsingDenseDDSketch.
Definition LogCollapsingHighestDenseDDSketch := LogCollapsingDenseDDSketch.

Definition num_values (s : t) : R := count_ s.
Definition sum (s : t) : R := sum_ s.

(** The division of two doubles, on finite operands. *)
Definition fdiv (a b : R) : ieee :=
  if Req_dec_T b 0 then
    if Req_dec_T a 0 then NaN
    else if Rlt_dec 0 a then PosInf else NegInf
  else Finite (a / b).

Definition avg (s : t) : ieee := fdiv (sum_ s) (count_ s).

(** Add a value to the sketch. *)
Definition add (k : Store.kind) (s : t) (val weight : R) : M t :=
  if Rleb' weight 0 then Throw IllegalArgumentException
  else
    s1 <- (if Rgtb val (Mapping.min_possible (mapping_ s)) then
             st <- from_store
                     (Store.add k (store_ s)
                        (Mapping.key (mapping_ s) val) weight) ;;
             Ok (mk (mapping_ s) st (negative_store_ s) (zero_count_ s)
                    (count_ s) (min_ s) (max_ s) (sum_ s))
           else if Rltb' val (- Mapping.min_possible (mapping_ s)) then
             st <- from_store
                     (Store.add k (negative_store_ s)
                        (Mapping.key (mapping_ s) (- val)) weight) ;;
             Ok (mk (mapping_ s) (store_ s) st (zero_count_ s)
                    (count_ s) (min_ s) (max_ s) (sum_ s))
           else
             Ok (mk (mapping_ s) (store_ s) (negative_store_ s)
                    (zero_count_ s + weight)
                    (count_ s) (min_ s) (max_ s) (sum_ s))) ;;
    (* Keep track of summary stats *)
    Ok (mk (mapping_ s1) (store_ s1) (negative_store_ s1) (zero_count_ s1)
           (count_ s1 + weight)
           (if Rltb' val (min_ s1) then val else min_ s1)
           (if Rgtb val (max_ s1) then val else max_ s1)
           (sum_ s1 + val * weight)).

(** The approximate value at the specified quantile. *)
Definition get_quantile_value (s : t) (quantile : R) : ieee :=
  if Rltb' quantile 0 || Rgtb quantile 1 || Reqb' (count_ s) 0 then NaN
  else
    let rank := quantile * (count_ s - 1) in
    if Rltb' rank (Store.count (negative_store_ s)) then
      let reversed_rank := Store.count (negative_store_ s) - rank - 1 in
      let key := Store.key_at_rank (negative_store_ s) reversed_rank false in
      Finite (- Mapping.value (mapping_ s) key)
    else if Rltb' rank (zero_count_ s + Store.count (negative_store_ s)) then
      Finite 0
    else
      let key :=
        Store.key_at_rank (store_ s)
          (rank - zero_count_ s - Store.count (negative_store_ s)) true in
      Finite (Mapping.value (mapping_ s) key).

(** Two sketches can be merged only if their gammas are equal. *)
Definition mergeable (s other : t) : bool :=
  Reqb' (Mapping.gamma (mapping_ s)) (Mapping.gamma (mapping_ other)).

(** Copy the input sketch into this one; [mapping_] is not assigned. *)
Definition copy (k : Store.kind) (s sketch : t) : t :=
  mk (mapping_ s)
     (Store.copy k (store_ s) (store_ sketch))
     (Store.copy k (negative_store_ s) (negative_store_ sketch))
     (zero_count_ sketch) (count_ sketch) (min_ sketch) (max_ sketch)
     (sum_ sketch).

(** Merges the other sketch into this one. *)
Definition merge (k : Store.kind) (s sketch : t) : M t :=
  if negb (mergeable s sketch) then Throw UnequalSketchParametersException
  else if Req_dec_T (count_ sketch) 0 then Ok s
  else if Req_dec_T (count_ s) 0 then Ok (copy k s sketch)
  else
    (* Merge the stores *)
    st <- from_store (Store.merge k (store_ s) (store_ sketch)) ;;
    nst <- from_store
             (Store.merge k (negative_store_ s) (negative_store_ sketch)) ;;
    (* Merge summary stats *)
    Ok (mk (mapping_ s) st nst
           (zero_count_ s + zero_count_ sketch)
           (count_ s + count_ sketch)
           (if Rltb' (min_ sketch) (min_ s) then min_ sketch else min_ s)
           (if Rgtb (max_ sketch) (max_ s) then max_ sketch else max_ s)
           (sum_ s + sum_ sketch)).

End Sketch.

(** ** The reference data set of the tests

    [DataSet<double>] of [include/test/datasets.h], against which the tests
    compare a sketch: the values themselves, kept in a vector. *)

Module DataSet.

Local Open Scope R_scope.

(** [DataSetValueContainer data_]. *)
Definition t : Type := list R.

Definition len (d : t) : Z := Z.of_nat (length d).

(** [sort(begin, end, std::less<Value>())]: the values in ascending order.
    The order of the reals is total, so every sorting algorithm returns the
    same list; insertion sort stands for [std::sort]. *)
Fixpoint insert_sorted (x : R) (l : list R) : list R :=
  match l with
  | [] => [x]
  | y :: rest => if Rle_dec x y then x :: l else y :: insert_sorted x rest
  end.

Fixpoint sort (l : list R) : list R :=
  match l with
  | [] => []
  | x :: rest => insert_sorted x (sort rest)
  end.

(** [data_.size() - 1] is computed in [size_t], so it wraps around for an
    empty vector; a vector has fewer than [2 ^ 64] elements. *)
Definition size_minus_one (d : t) : Z :=
  (if len d =? 0 then 2 ^ 64 - 1 else len d - 1)%Z.

(** [quantile(q)]: the element of the sorted values at the index
    [Index(q * (size - 1))], a truncating conversion; reading a vector
    outside its bounds is undefined. *)
Definition quantile (d : t) (quantile : R) : result Empty_set R :=
  let tmp_data := sort d in
  let item_rank := Rtrunc (quantile * IZR (size_minus_one d)) in
  if ((0 <=? item_rank) && (item_rank <? len d))%Z
  then Ok (nth (Z.to_nat item_rank) tmp_data 0)
  else Undefined.

(** [std::accumulate(begin, end, Value(0.0))]. *)
Definition sum (d : t) : R := fold_left Rplus d 0.

Definition avg (d : t) : ieee := Sketch.fdiv (sum d) (IZR (len d)).

End DataSet.

(** ** The drivers of the tests

    The loops of [tests/ddsketch_tests.cpp] that fill a store or a sketch,
    and the expectations of [DenseStoreTest::test_values]. *)

Module StoreTest.

Import Store.
Local Open Scope Z_scope.
Local Open Scope result_scope.

(** [Counter]: a [std::map] from a value to the number of its occurrences.
    The map is a list of pairs with distinct keys; the order of the entries
    plays no role in what is computed from it. *)
Definition KeyValueContainer : Type := list (Z * Z).

(** One step of the constructor: [map_[value] = 1] for a new value,
    [++map_[value]] otherwise. *)
Fixpoint count_value (map_ : KeyValueContainer) (value : Z)
  : KeyValueContainer :=
  match map_ with
  | [] => [(value, 1)]
  | (key, n) :: rest =>
      if key =? value then (key, n + 1) :: rest
      else (key, n) :: count_value rest value
  end.

Definition Counter (values : list Z) : KeyValueContainer :=
  fold_left count_value values [].

Definition sum_values (counter : KeyValueContainer) : Z :=
  fold_left (fun partial_sum p => partial_sum + snd p) counter 0.

(** [operator[]]: a key that is not in the map reads as 0. *)
Fixpoint at_key (counter : KeyValueContainer) (key : Z) : Z :=
  match counter with
  | [] => 0
  | (k, n) :: rest => if k =? key then n else at_key rest key
  end.

(** [for (const auto& value : values) store.add(value);] *)
Fixpoint add_values (k : kind) (store : Store.t) (values : list Z)
  : M Store.t :=
  match values with
  | [] => Ok store
  | value :: rest =>
      s1 <- add k store value 1%R ;;
      add_values k s1 rest
  end.

(** The loop of [test_values] over the bins: every bin that is not zero
    equals the counter of its key. *)
Fixpoint expect_bins (counter : KeyValueContainer) (offset idx : Z)
    (bins : list R) : bool :=
  match bins with
  | [] => true
  | item :: rest =>
      (if Reqb' item 0 then true
       else Reqb' (IZR (at_key counter (idx + offset))) item)
      && expect_bins counter offset (idx + 1) rest
  end.

(** [DenseStoreTest::test_values]; the result tells whether every
    expectation holds. *)
Definition test_values (store : Store.t) (values : list Z) : M bool :=
  let counter := Counter values in
  let expected_total_count := sum_values counter in
  total <- BinList.sum (bins store) ;;
  Ok (Reqb' (IZR expected_total_count) total
      && if expected_total_count =? 0
         then Bool.eqb (BinList.has_only_zeros (bins store)) true
         else Bool.eqb (BinList.has_only_zeros (bins store)) false
              && expect_bins counter (offset store) 0 (bins store)).

(** [DenseStoreTest::test_store]. *)
Definition test_store (values : list Z) : M bool :=
  store <- add_values Dense DenseStore values ;;
  test_values store values.

(** [Counter::max_value]: the greatest key of the map, the least [Index]
    for an empty map. *)
Definition max_value (counter : KeyValueContainer) : Z :=
  fold_left (fun partial_max p => Z.max partial_max (fst p)) counter
    INT64_MIN.

(** [Counter::min_value]: the least key of the map, the greatest [Index]
    for an empty map. *)
Definition min_value (counter : KeyValueContainer) : Z :=
  fold_left (fun partial_min p => Z.min partial_min (fst p)) counter
    INT64_MAX.

End StoreTest.

Module CollapsingLowestDenseStoreTest.

Import Store StoreTest.
Local Open Scope Z_scope.
Local Open Scope result_scope.

Definition normalize_smaller_values (store_values : list Z)
    (min_storable_index : Z) : list Z :=
  map (fun value => Z.max value min_storable_index) store_values.

(** [test_values]: as for the dense store, but the bins are compared with
    the counter of the values raised to the least index that the store can
    still hold. *)
Definition test_values (store : Store.t) (values : list Z) : M bool :=
  let counter := Counter values in
  let expected_total_count := sum_values counter in
  total <- BinList.sum (bins store) ;;
  Ok (Reqb' (IZR expected_total_count) total
      && if expected_total_count =? 0
         then Bool.eqb (BinList.has_only_zeros (bins store)) true
         else Bool.eqb (BinList.has_only_zeros (bins store)) false
              && (let max_index := max_value counter in
                  let min_storable_index :=
                    Z.max INT64_MIN (max_index - bin_limit_ store + 1) in
                  let normalized_values :=
                    normalize_smaller_values values min_storable_index in
                  let normalized_counter := Counter normalized_values in
                  expect_bins normalized_counter (offset store) 0
                    (bins store))).

(** The body of the loop of [test_store], for one bin limit. *)
Definition test_store_with (bin_limit : Z) (values : list Z) : M bool :=
  store <- add_values CollapsingLowest
             (CollapsingDenseStore bin_limit kChunkSize) values ;;
  test_values store values.

Fixpoint test_store_loop (test_bin_limits : list Z) (values : list Z)
  : M bool :=
  match test_bin_limits with
  | [] => Ok true
  | bin_limit :: rest =>
      passed <- test_store_with bin_limit values ;;
      others <- test_store_loop rest values ;;
      Ok (passed && others)
  end.

Definition test_store (values : list Z) : M bool :=
  test_store_loop [1; 20; 1000] values.

End CollapsingLowestDenseStoreTest.

Module CollapsingHighestDenseStoreTest.

Import Store StoreTest.
Local Open Scope Z_scope.
Local Open Scope result_scope.

Definition normalize_bigger_values (store_values : list Z)
    (max_storable_index : Z) : list Z :=
  map (fun value => Z.min value max_storable_index) store_values.

(** [test_values]: the bins are compared with the counter of the values
    lowered to the greatest index that the store can still hold. *)
Definition test_values (store : Store.t) (values : list Z) : M bool :=
  let counter := Counter values in
  let expected_total_count := sum_values counter in
  total <- BinList.sum (bins store) ;;
  Ok (Reqb' (IZR expected_total_count) total
      && if expected_total_count =? 0
         then Bool.eqb (BinList.has_only_zeros (bins store)) true
         else Bool.eqb (BinList.has_only_zeros (bins store)) false
              && (let min_index := min_value counter in
                  let max_storable_index :=
                    Z.min INT64_MAX (min_index + bin_limit_ store - 1) in
                  let normalized_values :=
                    normalize_bigger_values values max_storable_index in
                  let normalized_counter := Counter normalized_values in
                  expect_bins normalized_counter (offset store) 0
                    (bins store))).

(** The body of the loop of [test_store], for one bin limit. *)
Definition test_store_with (bin_limit : Z) (values : list Z) : M bool :=
  store <- add_values CollapsingHighest
             (CollapsingDenseStore bin_limit kChunkSize) values ;;
  test_values store values.

Fixpoint test_store_loop (test_bin_limits : list Z) (values : list Z)
  : M bool :=
  match test_bin_limits with
  | [] => Ok true
  | bin_limit :: rest =>
      passed <- test_store_with bin_limit values ;;
      others <- test_store_loop rest values ;;
      Ok (passed && others)
  end.

Definition test_store (values : list Z) : M bool :=
  test_store_loop [20] values.

End CollapsingHighestDenseStoreTest.

Module SketchTest.

Local Open Scope result_scope.

(** [for (const auto& value : *dataset) sketch.add(value);] of
    [BaseDDSketchTest::test_distributions]. *)
Fixpoint add_values (k : Store.kind) (sketch : Sketch.t) (values : list R)
  : Sketch.M Sketch.t :=
  match values with
  | [] => Ok sketch
  | value :: rest =>
      s1 <- Sketch.add k sketch value 1%R ;;
      add_values k s1 rest
  end.

End SketchTest.

(** * Properties *)

(** ** Comparisons and rounding on the reals *)

Lemma Rgtb_true (a b : R) : Rgtb a b = true <-> (a > b)%R.
Proof. unfold Rgtb; destruct (Rlt_dec b a); split; intros; try easy; lra. Qed.

Lemma Rgtb_false (a b : R) : Rgtb a b = false <-> (a <= b)%R.
Proof. unfold Rgtb; destruct (Rlt_dec b a); split; intros; try easy; lra. Qed.

Lemma Rgeb_true (a b : R) : Rgeb a b = true <-> (a >= b)%R.
Proof. unfold Rgeb; destruct (Rle_dec b a); split; intros; try easy; lra. Qed.

Lemma Rgeb_false (a b : R) : Rgeb a b = false <-> (a < b)%R.
Proof. unfold Rgeb; destruct (Rle_dec b a); split; intros; try easy; lra. Qed.

Lemma Rltb'_true (a b : R) : Rltb' a b = true <-> (a < b)%R.
Proof. unfold Rltb'; destruct (Rlt_dec a b); split; intros; try easy; lra. Qed.

Lemma Rltb'_false (a b : R) : Rltb' a b = false <-> (b <= a)%R.
Proof. unfold Rltb'; destruct (Rlt_dec a b); split; intros; try easy; lra. Qed.

Lemma Rleb'_true (a b : R) : Rleb' a b = true <-> (a <= b)%R.
Proof. unfold Rleb'; destruct (Rle_dec a b); split; intros; try easy; lra. Qed.

Lemma Rleb'_false (a b : R) : Rleb' a b = false <-> (b < a)%R.
Proof. unfold Rleb'; destruct (Rle_dec a b); split; intros; try easy; lra. Qed.

Lemma Reqb'_true (a b : R) : Reqb' a b = true <-> a = b.
Proof. unfold Reqb'; destruct (Req_dec_T a b); split; intros; easy. Qed.

Lemma Reqb'_false (a b : R) : Reqb' a b = false <-> a <> b.
Proof. unfold Reqb'; destruct (Req_dec_T a b); split; intros; easy. Qed.

Lemma Rfloor_spec (x : R) (z : Z) :
  (IZR z <= x < IZR z + 1)%R -> Rfloor x = z.
Proof.
  intros H. unfold Rfloor. symmetry. apply Int_part_spec. lra.
Qed.

Lemma Rceil_spec (x : R) (z : Z) :
  (IZR z - 1 < x <= IZR z)%R -> Rceil x = z.
Proof.
  intros H. unfold Rceil.
  assert (E : (- z)%Z = Int_part (- x)).
  { apply Int_part_spec. rewrite opp_IZR. lra. }
  rewrite <- E. lia.
Qed.

Lemma Rceil_bounds (x : R) : (IZR (Rceil x) - 1 < x <= IZR (Rceil x))%R.
Proof.
  unfold Rceil. rewrite opp_IZR.
  destruct (base_Int_part (- x)) as [H1 H2]. lra.
Qed.

Lemma Rtrunc_IZR (z : Z) : Rtrunc (IZR z) = z.
Proof.
  unfold Rtrunc. destruct (Rlt_dec (IZR z) 0).
  - apply Rceil_spec. lra.
  - apply Rfloor_spec. lra.
Qed.

Lemma Rtrunc_nonneg (x : R) (z : Z) :
  (0 <= IZR z <= x)%R -> (x < IZR z + 1)%R -> Rtrunc x = z.
Proof.
  intros H1 H2. unfold Rtrunc. destruct (Rlt_dec x 0); [lra|].
  apply Rfloor_spec. lra.
Qed.

Lemma Rtrunc_neg (x : R) (z : Z) :
  (x < 0)%R -> (IZR z - 1 < x <= IZR z)%R -> Rtrunc x = z.
Proof.
  intros H1 H2. unfold Rtrunc. destruct (Rlt_dec x 0); [|lra].
  now apply Rceil_spec.
Qed.

(** ** Bounds on the two limits of binary64 *)

Local Open Scope R_scope.

Lemma pow2_ge_1 (n : nat) : 1 <= 2 ^ n.
Proof. apply pow_R1_Rle. lra. Qed.

Lemma DBL_MIN_bounds : 0 < DBL_MIN <= 1 / 2.
Proof.
  unfold DBL_MIN.
  change (2 ^ 1022) with (2 * 2 ^ 1021).
  pose proof (pow2_ge_1 1021) as H.
  split.
  - apply Rinv_0_lt_compat. lra.
  - replace (1 / 2) with (/ 2) by lra.
    apply Rinv_le_contravar; lra.
Qed.

Lemma DBL_MAX_bound : 2 <= DBL_MAX.
Proof.
  unfold DBL_MAX.
  change (2 ^ 1023) with (2 * 2 ^ 1022).
  pose proof (pow2_ge_1 1022) as H.
  pose proof (pow2_ge_1 52) as H52.
  assert (I : 0 < / 2 ^ 52 <= 1).
  { split; [apply Rinv_0_lt_compat; lra|].
    rewrite <- Rinv_1. apply Rinv_le_contravar; lra. }
  nra.
Qed.

Local Close Scope R_scope.

(** ** Key mappings *)

Module MappingFacts.

Import Mapping.
Local Open Scope R_scope.

Lemma log2_1 : log2 1 = 0.
Proof. unfold log2. rewrite ln_1. lra. Qed.

Lemma frexp_1 : frexp 1 = (1 / 2, 1%Z).
Proof.
  unfold frexp. destruct (Req_dec_T 1 0) as [E|_]; [lra|].
  rewrite Rabs_R1, log2_1.
  assert (U : up 0 = 1%Z) by (symmetry; apply tech_up; simpl; lra).
  rewrite U. simpl. f_equal. lra.
Qed.

(** The three approximations of the logarithm vanish at 1, whatever the
    multiplier. *)
Lemma log_gamma_1 (m : t) : log_gamma m 1 = 0.
Proof.
  unfold log_gamma, log2_approx, cubic_log2_approx.
  destruct (kind_ m); rewrite ?log2_1, ?frexp_1; simpl; lra.
Qed.

Lemma key_1 (m : t) : key m 1 = Rtrunc (offset_ m).
Proof.
  unfold key. rewrite log_gamma_1.
  replace (Rceil 0) with 0%Z by (symmetry; apply Rceil_spec; simpl; lra).
  f_equal. simpl. lra.
Qed.

Lemma KeyMapping_ok (k : kind) (alpha offset : R) :
  0 < alpha < 1 ->
  exists m, KeyMapping k alpha offset = Ok m
            /\ kind_ m = k /\ offset_ m = offset
            /\ relative_accuracy_ m = alpha
            /\ gamma_ m = 1 + 2 * alpha / (1 - alpha)
            /\ min_possible_ m = DBL_MIN * gamma_ m
            /\ max_possible_ m = DBL_MAX / gamma_ m
            /\ multiplier_ m =
                 match k with
                 | Logarithmic => 1 / ln (gamma_ m) * ln 2
                 | LinearlyInterpolated => 1 / ln (gamma_ m)
                 | CubicallyInterpolated => 1 / ln (gamma_ m) / C_
                 end.
Proof.
  intros H. unfold KeyMapping.
  assert (E1 : Rleb' alpha 0 = false) by (apply Rleb'_false; lra).
  assert (E2 : Rgeb alpha 1 = false) by (apply Rgeb_false; lra).
  rewrite E1, E2. simpl. eexists. split; [reflexivity|].
  simpl. unfold log1p. repeat split; destruct k; reflexivity.
Qed.

Lemma KeyMapping_throws (k : kind) (alpha offset : R) :
  alpha <= 0 \/ 1 <= alpha ->
  KeyMapping k alpha offset = Throw IllegalArgumentException.
Proof.
  intros H. unfold KeyMapping.
  destruct H as [H|H].
  - assert (E : Rleb' alpha 0 = true) by (apply Rleb'_true; lra).
    now rewrite E.
  - assert (E : Rgeb alpha 1 = true) by (apply Rgeb_true; lra).
    rewrite E. now rewrite orb_true_r.
Qed.

(** The offsets exercised by the test suite, each with the key of 1 that the
    suite expects, [static_cast<int>(offset)]. *)
Definition test_offsets : list (R * Z) :=
  [ (0, 0%Z); (1, 1%Z); (- 1223 / 100, (-12)%Z); (77683 / 10, 7768%Z) ].

Lemma test_offsets_trunc (off : R) (expected : Z) :
  In (off, expected) test_offsets -> Rtrunc off = expected.
Proof.
  unfold test_offsets. simpl.
  intros [E|[E|[E|[E|[]]]]]; inversion E; subst; clear E.
  - apply (Rtrunc_IZR 0).
  - apply (Rtrunc_IZR 1).
  - apply Rtrunc_neg; simpl; lra.
  - apply Rtrunc_nonneg; simpl; lra.
Qed.

(** C3, as the code has it: for each of the three mappings built with
    relative accuracy 0.01 and an offset among 0, 1, -12.23 and 7768.3, the
    constructor succeeds and [key(1)] is the offset truncated toward zero,
    that is 0, 1, -12 and 7768. *)
Theorem key_of_one_is_truncated_offset :
  forall (k : kind) (off : R) (expected : Z),
    In (off, expected) test_offsets ->
    exists m, KeyMapping k (1 / 100) off = Ok m
              /\ key m 1 = expected
              /\ expected = Rtrunc off.
Proof.
  intros k off expected Hin.
  destruct (@KeyMapping_ok k (1 / 100) off) as (m & Hm & _ & Hoff & _);
    [lra|].
  exists m. split; [exact Hm|].
  rewrite key_1, Hoff.
  pose proof (test_offsets_trunc Hin) as E. now rewrite E.
Qed.

Lemma key_of_one_is_truncated_offset_witness :
  In (- 1223 / 100, (-12)%Z) test_offsets
  /\ exists m, KeyMapping Logarithmic (1 / 100) (- 1223 / 100) = Ok m
               /\ key m 1 = (-12)%Z
               /\ (-12)%Z = Rtrunc (- 1223 / 100).
Proof.
  assert (H : In (- 1223 / 100, (-12)%Z) test_offsets)
    by (unfold test_offsets; simpl; auto).
  split; [exact H|].
  exact (@key_of_one_is_truncated_offset Logarithmic _ _ H).
Defined.

(** C3 as stated fails at the offset -12.23: the floor of the offset is -13,
    the key of 1 is -12. *)
Lemma key_of_one_is_not_floor_of_offset :
  exists m, LogarithmicMapping (1 / 100) (- 1223 / 100) = Ok m
            /\ key m 1 = (-12)%Z
            /\ Rfloor (- 1223 / 100) = (-13)%Z
            /\ key m 1 <> Rfloor (- 1223 / 100).
Proof.
  destruct (@KeyMapping_ok Logarithmic (1 / 100) (- 1223 / 100))
    as (m & Hm & _ & Hoff & _); [lra|].
  exists m. split; [exact Hm|].
  assert (K : key m 1 = (-12)%Z).
  { rewrite key_1, Hoff. apply Rtrunc_neg; simpl; lra. }
  assert (F : Rfloor (- 1223 / 100) = (-13)%Z)
    by (apply Rfloor_spec; simpl; lra).
  rewrite K, F. repeat split; lia.
Qed.

Section Logarithmic.

Variables (alpha offset : R) (m : t).
Hypothesis alpha_range : 0 < alpha < 1.
Hypothesis built : LogarithmicMapping alpha offset = Ok m.

Let L : R := ln (gamma_ m).

Lemma log_fields :
  kind_ m = Logarithmic /\ offset_ m = offset
  /\ relative_accuracy_ m = alpha
  /\ gamma_ m = 1 + 2 * alpha / (1 - alpha)
  /\ min_possible_ m = DBL_MIN * gamma_ m
  /\ max_possible_ m = DBL_MAX / gamma_ m
  /\ multiplier_ m = 1 / ln (gamma_ m) * ln 2.
Proof.
  destruct (@KeyMapping_ok Logarithmic alpha offset alpha_range)
    as (m' & Hm' & H).
  unfold LogarithmicMapping in built. rewrite built in Hm'.
  inversion Hm'; subst m'. exact H.
Qed.

Lemma gamma_gt_1 : 1 < gamma_ m.
Proof.
  destruct log_fields as (_ & _ & _ & G & _). rewrite G.
  assert (0 < 2 * alpha / (1 - alpha)); [|lra].
  apply Rdiv_lt_0_compat; lra.
Qed.

Lemma gamma_alpha : 2 / (1 + gamma_ m) = 1 - alpha.
Proof.
  destruct log_fields as (_ & _ & _ & G & _). rewrite G. field. lra.
Qed.

Lemma gamma_alpha_mult : gamma_ m * (1 - alpha) = 1 + alpha.
Proof.
  destruct log_fields as (_ & _ & _ & G & _). rewrite G. field. lra.
Qed.

Lemma L_pos : 0 < L.
Proof.
  unfold L. rewrite <- ln_1. apply ln_increasing; [lra|apply gamma_gt_1].
Qed.

Lemma ln2_pos : 0 < ln 2.
Proof. rewrite <- ln_1. apply ln_increasing; lra. Qed.

Lemma log_gamma_log (v : R) : log_gamma m v = ln v / L.
Proof.
  destruct log_fields as (K & _ & _ & _ & _ & _ & Mu).
  unfold log_gamma. rewrite K, Mu. unfold log2. fold L.
  pose proof L_pos. pose proof ln2_pos. field. lra.
Qed.

Lemma pow_gamma_log (x : R) : pow_gamma m x = exp (x * L).
Proof.
  destruct log_fields as (K & _ & _ & _ & _ & _ & Mu).
  unfold pow_gamma. rewrite K, Mu. unfold exp2, Rpower. fold L.
  pose proof L_pos. pose proof ln2_pos. f_equal. field. lra.
Qed.

Lemma exp_L : exp L = gamma_ m.
Proof. unfold L. apply exp_ln. pose proof gamma_gt_1. lra. Qed.

(** The key of a positive value, when the offset is an integer. *)
Lemma key_integer_offset (z : Z) (v : R) :
  offset = IZR z -> key m v = (Rceil (ln v / L) + z)%Z.
Proof.
  intros Hz. destruct log_fields as (_ & O & _).
  unfold key. rewrite log_gamma_log, O, Hz, <- plus_IZR.
  apply Rtrunc_IZR.
Qed.

(** With an integer offset the round trip stays within [alpha]. *)
Lemma round_trip_integer_offset (z : Z) (v : R) :
  offset = IZR z -> 0 < v ->
  Rabs (value m (key m v) - v) / v <= alpha.
Proof.
  intros Hz Hv.
  destruct log_fields as (_ & O & _).
  rewrite (@key_integer_offset z v Hz).
  unfold value. rewrite pow_gamma_log, O, Hz, gamma_alpha.
  set (c := Rceil (ln v / L)).
  replace (IZR (c + z) - IZR z) with (IZR c) by (rewrite plus_IZR; lra).
  pose proof (Rceil_bounds (ln v / L)) as [B1 B2]. fold c in B1, B2.
  pose proof L_pos as HL.
  (* exp ((c - 1) L) < v <= exp (c L) *)
  assert (U : v <= exp (IZR c * L)).
  { rewrite <- (exp_ln v Hv) at 1.
    destruct (Req_dec_T (ln v) (IZR c * L)) as [E|N].
    - rewrite E. lra.
    - left. apply exp_increasing.
      apply Rmult_le_compat_r with (r := L) in B2; [|lra].
      unfold Rdiv in B2. rewrite Rmult_assoc, Rinv_l, Rmult_1_r in B2; lra. }
  assert (D : exp (IZR c * L) < gamma_ m * v).
  { replace (gamma_ m * v) with (exp (L + ln v))
      by (now rewrite exp_plus, exp_L, (exp_ln v Hv)).
    apply exp_increasing.
    apply Rmult_lt_compat_r with (r := L) in B1; [|lra].
    unfold Rdiv in B1. rewrite Rmult_assoc, Rinv_l, Rmult_1_r in B1; lra. }
  pose proof gamma_alpha_mult as GA.
  set (E := exp (IZR c * L)) in *.
  apply Rmult_le_reg_r with (r := v); [lra|].
  unfold Rdiv. rewrite Rmult_assoc, Rinv_l, Rmult_1_r by lra.
  apply Rabs_le. split; nra.
Qed.

End Logarithmic.

(** In the model.
    The logarithmic mapping with an integer offset
    keeps the relative accuracy on every value between [min_possible] and
    [max_possible].  The default offset of the constructors is 0, so every
    sketch of the library has a mapping to which the bound applies. *)
Corollary logarithmic_round_trip (alpha v : R) (z : Z) (m : t) :
  0 < alpha < 1 ->
  LogarithmicMapping alpha (IZR z) = Ok m ->
  min_possible m <= v <= max_possible m ->
  Rabs (value m (key m v) - v) / v <= alpha.
Proof.
  intros Ha Hm [Hv _].
  apply round_trip_integer_offset with (offset := IZR z) (z := z);
    [exact Ha|exact Hm|reflexivity|].
  destruct (@log_fields _ _ _ Ha Hm) as (_ & _ & _ & _ & Mi & _).
  unfold min_possible in Hv. rewrite Mi in Hv.
  pose proof (@gamma_gt_1 _ _ _ Ha Hm). pose proof DBL_MIN_bounds. nra.
Qed.

(** C1 at an offset of the test suite that is not an integer: the
    logarithmic mapping of accuracy 0.01 and offset 7768.3 sends 1, a value
    between [min_possible] and [max_possible], to the key 7768, whose value
    is 0.99 * gamma ^ (-0.3); the relative error is above 0.01. *)
Theorem round_trip_at_fractional_offset :
  exists m,
    LogarithmicMapping (1 / 100) (77683 / 10) = Ok m
    /\ min_possible m <= 1 <= max_possible m
    /\ key m 1 = 7768%Z
    /\ Rabs (value m (key m 1) - 1) / 1 > relative_accuracy m.
Proof.
  assert (Ha : 0 < 1 / 100 < 1) by lra.
  destruct (@KeyMapping_ok Logarithmic (1 / 100) (77683 / 10) Ha)
    as (m & Hm & H).
  exists m. split; [exact Hm|].
  destruct H as (_ & O & RA & G & Mi & Ma & _).
  pose proof (@gamma_gt_1 _ _ _ Ha Hm) as G1.
  assert (G2 : gamma_ m <= 2) by (rewrite G; lra).
  pose proof DBL_MIN_bounds. pose proof DBL_MAX_bound.
  split.
  { unfold min_possible, max_possible. rewrite Mi, Ma. split; [nra|].
    apply Rmult_le_reg_r with (r := gamma_ m); [lra|].
    unfold Rdiv. rewrite Rmult_assoc, Rinv_l, Rmult_1_r, Rmult_1_l; lra. }
  assert (K : key m 1 = 7768%Z).
  { rewrite key_1, O. apply Rtrunc_nonneg; simpl; lra. }
  split; [exact K|].
  rewrite K. unfold value, relative_accuracy.
  rewrite (@pow_gamma_log _ _ _ Ha Hm), (@gamma_alpha _ _ _ Ha Hm), O, RA.
  pose proof (@L_pos _ _ _ Ha Hm) as HL.
  assert (X : exp ((7768 - 77683 / 10) * ln (gamma_ m)) < 1).
  { rewrite <- exp_0. apply exp_increasing. nra. }
  pose proof (exp_pos ((7768 - 77683 / 10) * ln (gamma_ m))) as P.
  set (e := exp ((7768 - 77683 / 10) * ln (gamma_ m))) in *.
  unfold Rdiv at 1. rewrite Rinv_1, Rmult_1_r.
  rewrite Rabs_left by nra. nra.
Qed.

End MappingFacts.

(** ** Bin lists *)

Module BinListFacts.

Import BinList.
Local Open Scope R_scope.

Lemma fold_left_Rplus (l : list R) (a : R) :
  fold_left Rplus l a = a + accumulate l.
Proof.
  unfold accumulate. revert a.
  induction l as [|x l IH]; intros a; simpl.
  - lra.
  - rewrite IH, (IH (0 + x)). lra.
Qed.

Lemma accumulate_nil : accumulate [] = 0.
Proof. reflexivity. Qed.

Lemma accumulate_cons (x : R) (l : list R) :
  accumulate (x :: l) = x + accumulate l.
Proof.
  unfold accumulate at 1. simpl. rewrite fold_left_Rplus. lra.
Qed.

Lemma accumulate_app (l1 l2 : list R) :
  accumulate (l1 ++ l2) = accumulate l1 + accumulate l2.
Proof.
  induction l1 as [|x l1 IH]; simpl.
  - rewrite accumulate_nil. lra.
  - rewrite !accumulate_cons, IH. lra.
Qed.

Lemma accumulate_repeat_0 (n : nat) : accumulate (repeat 0 n) = 0.
Proof.
  induction n as [|n IH]; simpl.
  - reflexivity.
  - rewrite accumulate_cons, IH. lra.
Qed.

Lemma accumulate_zeros (n : Z) : accumulate (zeros n) = 0.
Proof. apply accumulate_repeat_0. Qed.

Lemma accumulate_nonneg (l : list R) :
  Forall (fun c => 0 <= c) l -> 0 <= accumulate l.
Proof.
  induction 1 as [|x l Hx _ IH].
  - rewrite accumulate_nil. lra.
  - rewrite accumulate_cons. lra.
Qed.

Lemma accumulate_firstn_le (l : list R) (n : nat) :
  Forall (fun c => 0 <= c) l -> accumulate (firstn n l) <= accumulate l.
Proof.
  intros H. rewrite <- (firstn_skipn n l) at 2.
  rewrite accumulate_app.
  assert (0 <= accumulate (skipn n l)); [|lra].
  apply accumulate_nonneg.
  rewrite <- (firstn_skipn n l) in H. now apply Forall_app in H.
Qed.

(** The prefix sums grow by one bin at a time. *)
Lemma accumulate_firstn_S (l : list R) (n : nat) :
  (n < length l)%nat ->
  accumulate (firstn (S n) l) = accumulate (firstn n l) + nth n l 0.
Proof.
  revert n. induction l as [|x l IH]; intros n Hn; simpl in Hn; [lia|].
  destruct n as [|n].
  - simpl. rewrite accumulate_cons, !accumulate_nil. lra.
  - change (firstn (S (S n)) (x :: l)) with (x :: firstn (S n) l).
    change (firstn (S n) (x :: l)) with (x :: firstn n l).
    rewrite !accumulate_cons, IH by lia. simpl. lra.
Qed.

Lemma update_length (n : nat) (f : R -> R) (b : t) :
  length (update n f b) = length b.
Proof.
  revert n. induction b as [|x b IH]; intros [|n]; simpl; auto.
Qed.

Lemma accumulate_update (n : nat) (w : R) (b : t) :
  (n < length b)%nat ->
  accumulate (update n (fun x => x + w) b) = accumulate b + w.
Proof.
  revert n. induction b as [|x b IH]; intros n Hn; simpl in Hn; [lia|].
  destruct n as [|n]; simpl.
  - rewrite !accumulate_cons. lra.
  - rewrite !accumulate_cons, IH by lia. lra.
Qed.

Lemma accumulate_update_gen (n : nat) (f : R -> R) (b : t) :
  (n < length b)%nat ->
  accumulate (update n f b) = accumulate b - nth n b 0 + f (nth n b 0).
Proof.
  revert n. induction b as [|x b IH]; intros n Hn; simpl in Hn; [lia|].
  destruct n as [|n]; simpl.
  - rewrite !accumulate_cons. lra.
  - rewrite !accumulate_cons, IH by lia. lra.
Qed.

Lemma nth_update (n i : nat) (f : R -> R) (b : t) :
  (n < length b)%nat ->
  nth i (update n f b) 0 = if Nat.eqb i n then f (nth i b 0) else nth i b 0.
Proof.
  revert n i. induction b as [|x b IH]; intros n i Hn; simpl in Hn; [lia|].
  destruct n as [|n], i as [|i]; simpl; auto.
  apply IH. lia.
Qed.

Lemma accumulate_firstn_skipn (n : nat) (l : list R) :
  accumulate l = accumulate (firstn n l) + accumulate (skipn n l).
Proof. now rewrite <- accumulate_app, firstn_skipn. Qed.

Lemma accumulate_all_zero (l : list R) :
  (forall i : nat, (i < length l)%nat -> nth i l 0 = 0) -> accumulate l = 0.
Proof.
  induction l as [|x l IH]; intros H.
  - apply accumulate_nil.
  - rewrite accumulate_cons, IH.
    + specialize (H 0%nat). simpl in H. rewrite H by lia. lra.
    + intros i Hi. apply (H (S i)). simpl. lia.
Qed.

Lemma size_nonneg (b : t) : (0 <= size b)%Z.
Proof. unfold size. lia. Qed.

Lemma slice_all (b : t) : slice b 0 (size b) = b.
Proof.
  unfold slice, size. simpl skipn.
  rewrite Z.sub_0_r, Nat2Z.id. apply firstn_all.
Qed.

(** [sum()] never fails: both indices are within bounds. *)
Lemma sum_ok (b : t) : sum b = Ok (accumulate b).
Proof.
  unfold sum, collapsed_count, index_outside_bounds.
  pose proof (size_nonneg b) as H.
  replace (0 <? 0)%Z with false by reflexivity.
  replace (size b <? 0)%Z with false by (symmetry; apply Z.ltb_ge; lia).
  replace (size b <? size b)%Z with false by (symmetry; apply Z.ltb_irrefl).
  simpl orb. cbv iota.
  replace (0 <=? size b)%Z with true by (symmetry; apply Z.leb_le; lia).
  now rewrite slice_all.
Qed.

(** One more element at the front of a slice. *)
Lemma slice_step (b : t) (a : Z) (n : nat) :
  (0 <= a < size b)%Z ->
  slice b a (a + Z.of_nat (S n))
  = nth (Z.to_nat a) b 0 :: slice b (a + 1) (a + 1 + Z.of_nat n).
Proof.
  unfold slice, size. intros Ha.
  replace (Z.to_nat (a + Z.of_nat (S n) - a)) with (S n) by lia.
  replace (Z.to_nat (a + 1 + Z.of_nat n - (a + 1))) with n by lia.
  replace (Z.to_nat (a + 1)) with (S (Z.to_nat a)) by lia.
  assert (L : (Z.to_nat a < length b)%nat) by lia.
  revert L. generalize (Z.to_nat a) as k. clear Ha a.
  induction b as [|x b IH]; intros k L; simpl in L; [lia|].
  destruct k as [|k].
  - reflexivity.
  - simpl skipn at 1. rewrite (IH k) by lia. reflexivity.
Qed.

(** A list is its first [a] elements, the slice up to [e], and the rest. *)
Lemma accumulate_three_parts (b : t) (a e : Z) :
  (0 <= a <= e)%Z -> (e <= size b)%Z ->
  accumulate b
  = accumulate (firstn (Z.to_nat a) b) + accumulate (slice b a e)
    + accumulate (skipn (Z.to_nat e) b).
Proof.
  intros H1 H2. unfold slice.
  rewrite (accumulate_firstn_skipn (Z.to_nat a) b) at 1.
  rewrite (accumulate_firstn_skipn (Z.to_nat (e - a))
             (skipn (Z.to_nat a) b)).
  rewrite skipn_skipn.
  replace (Z.to_nat (e - a) + Z.to_nat a)%nat with (Z.to_nat e) by lia.
  lra.
Qed.

(** The bins after [replace_range_with_zeros(a, e, e - a)]. *)
Lemma nth_replace_range (b : t) (a e i : nat) :
  (a <= e)%nat -> (e <= length b)%nat ->
  nth i (firstn a b ++ repeat 0 (e - a) ++ skipn e b) 0
  = if (a <=? i)%nat && (i <? e)%nat then 0 else nth i b 0.
Proof.
  intros H1 H2.
  assert (La : length (firstn a b) = a) by (rewrite length_firstn; lia).
  destruct (Nat.lt_ge_cases i a) as [Lt|Ge].
  - rewrite app_nth1 by lia. rewrite nth_firstn.
    replace (i <? a)%nat with true by (symmetry; apply Nat.ltb_lt; lia).
    now replace (a <=? i)%nat with false by (symmetry; apply Nat.leb_gt; lia).
  - rewrite app_nth2 by lia. rewrite La.
    replace (a <=? i)%nat with true by (symmetry; apply Nat.leb_le; lia).
    destruct (Nat.lt_ge_cases i e) as [Lt'|Ge'].
    + replace (i <? e)%nat with true by (symmetry; apply Nat.ltb_lt; lia).
      rewrite app_nth1 by (rewrite repeat_length; lia).
      apply nth_repeat_lt. lia.
    + replace (i <? e)%nat with false by (symmetry; apply Nat.ltb_ge; lia).
      rewrite app_nth2 by (rewrite repeat_length; lia).
      rewrite repeat_length, nth_skipn. simpl. f_equal. lia.
Qed.

Lemma length_replace_range (b : t) (a e : nat) :
  (a <= e)%nat -> (e <= length b)%nat ->
  length (firstn a b ++ repeat 0 (e - a) ++ skipn e b) = length b.
Proof.
  intros H1 H2.
  rewrite !length_app, length_firstn, repeat_length, length_skipn. lia.
Qed.

End BinListFacts.

(** ** Rank queries on a store *)

Module RankFacts.

Import BinList BinListFacts Store.
Local Open Scope Z_scope.

(** The keys that have a bin. *)
Definition in_window (s : Store.t) (K : Z) : Prop :=
  offset_ s <= K < offset_ s + length s.

(** The counter of the bin of key [K]. *)
Definition bin_at (s : Store.t) (K : Z) : R :=
  nth (Z.to_nat (K - offset_ s)) (bins_ s) 0%R.

(** The cumulative count over the bins with key [<= K]. *)
Definition cumulative (s : Store.t) (K : Z) : R :=
  accumulate (firstn (Z.to_nat (K - offset_ s + 1)) (bins_ s)).

Definition total (s : Store.t) : R := accumulate (bins_ s).

(** The test of the loop, as a proposition. *)
Definition reached (lower : bool) (c rank : R) : Prop :=
  if lower then (c > rank)%R else (c >= rank + 1)%R.

(** What [key_at_rank] has to return: the smallest key of the window whose
    cumulative count reaches the rank, and [max_key_] when none does. *)
Definition rank_key (s : Store.t) (rank : R) (lower : bool) (K : Z) : Prop :=
  (in_window s K
   /\ reached lower (cumulative s K) rank
   /\ forall K', in_window s K' -> K' < K ->
                 ~ reached lower (cumulative s K') rank)
  \/ (K = max_key_ s
      /\ forall K', in_window s K' -> ~ reached lower (cumulative s K') rank).

(** Bins of count 1 at the keys [a] and [b], and 0 elsewhere. *)
Definition unit_bins (s : Store.t) (a b : Z) : Prop :=
  in_window s a /\ in_window s b /\ a < b
  /\ bin_at s a = 1%R /\ bin_at s b = 1%R
  /\ forall K, in_window s K -> K <> a -> K <> b -> bin_at s K = 0%R.

Lemma rank_reached_iff (lower : bool) (c rank : R) :
  rank_reached lower c rank = true <-> reached lower c rank.
Proof.
  unfold rank_reached, reached. destruct lower; simpl.
  - rewrite orb_false_r. apply Rgtb_true.
  - apply Rgeb_true.
Qed.

Lemma rank_reached_false (lower : bool) (c rank : R) :
  rank_reached lower c rank = false <-> ~ reached lower c rank.
Proof.
  rewrite <- rank_reached_iff.
  destruct (rank_reached lower c rank); split; intros H;
    try discriminate; try tauto; congruence.
Qed.

Section Loop.

Variables (rank : R) (lower : bool) (offset max_key : Z).

(** The loop stops at the first prefix that reaches the rank. *)
Lemma key_at_rank_loop_spec (bins : list R) (running_ct : R) (idx : Z) :
  let res :=
    key_at_rank_loop bins running_ct idx rank lower offset max_key in
  (exists i : nat,
      (i < List.length bins)%nat
      /\ res = idx + Z.of_nat i + offset
      /\ reached lower (running_ct + accumulate (firstn (S i) bins)) rank
      /\ forall j : nat, (j < i)%nat ->
           ~ reached lower (running_ct + accumulate (firstn (S j) bins))
               rank)
  \/ (res = max_key
      /\ forall j : nat, (j < List.length bins)%nat ->
           ~ reached lower (running_ct + accumulate (firstn (S j) bins))
               rank).
Proof.
  revert running_ct idx.
  induction bins as [|c rest IH]; intros running_ct idx; simpl.
  - right. split; [reflexivity|]. intros j Hj. lia.
  - assert (P : forall l : list R,
               (running_ct + accumulate (c :: l))%R
               = (running_ct + c + accumulate l)%R).
    { intros l. rewrite accumulate_cons. lra. }
    assert (P0 : (running_ct + accumulate [c])%R = (running_ct + c)%R).
    { rewrite P, accumulate_nil. lra. }
    destruct (rank_reached lower (running_ct + c) rank) eqn:E.
    + left. exists 0%nat. split; [lia|]. split; [lia|]. split.
      * apply rank_reached_iff in E. simpl. now rewrite P0.
      * intros j Hj. lia.
    + apply rank_reached_false in E.
      destruct (IH (running_ct + c)%R (idx + 1))
        as [(i & Hi & Hr & Hc & Hm)|(Hr & Hm)].
      * left. exists (S i). split; [lia|]. split; [lia|]. split.
        -- now rewrite P.
        -- intros [|j] Hj.
           ++ simpl. now rewrite P0.
           ++ rewrite P. apply Hm. lia.
      * right. split; [exact Hr|]. intros [|j] Hj.
        -- simpl. now rewrite P0.
        -- rewrite P. apply Hm. lia.
Qed.

End Loop.

Lemma length_nonneg (s : Store.t) : 0 <= length s.
Proof. unfold length, size. lia. Qed.

Lemma window_index (s : Store.t) (K : Z) :
  in_window s K ->
  exists j : nat, (j < List.length (bins_ s))%nat
                  /\ K = Z.of_nat j + offset_ s
                  /\ cumulative s K = accumulate (firstn (S j) (bins_ s)).
Proof.
  unfold in_window, length, size, cumulative. intros H.
  exists (Z.to_nat (K - offset_ s)). split; [lia|]. split; [lia|].
  f_equal. f_equal. lia.
Qed.

Lemma index_window (s : Store.t) (j : nat) :
  (j < List.length (bins_ s))%nat ->
  in_window s (Z.of_nat j + offset_ s)
  /\ cumulative s (Z.of_nat j + offset_ s)
     = accumulate (firstn (S j) (bins_ s)).
Proof.
  unfold in_window, length, size, cumulative. intros H.
  split; [lia|]. f_equal. f_equal. lia.
Qed.

(** [key_at_rank] returns the key described by [rank_key]. *)
Lemma key_at_rank_rank_key (s : Store.t) (rank : R) (lower : bool) :
  rank_key s rank lower (key_at_rank s rank lower).
Proof.
  unfold key_at_rank.
  destruct (key_at_rank_loop_spec rank lower (offset_ s) (max_key_ s)
              (bins_ s) 0%R 0)
    as [(i & Hi & Hr & Hc & Hm)|(Hr & Hm)].
  - left. rewrite Hr. simpl.
    destruct (index_window s Hi) as (W & C).
    split; [exact W|]. split.
    + rewrite C. now rewrite Rplus_0_l in Hc.
    + intros K' W' Hlt.
      destruct (window_index W') as (j & Hj & EK & EC).
      rewrite EC. specialize (Hm j). rewrite Rplus_0_l in Hm.
      apply Hm. lia.
  - right. split; [exact Hr|].
    intros K' W'.
    destruct (window_index W') as (j & Hj & EK & EC).
    rewrite EC. specialize (Hm j Hj). now rewrite Rplus_0_l in Hm.
Qed.

(** The description determines the key. *)
Lemma key_at_rank_least (s : Store.t) (rank : R) (lower : bool) (K : Z) :
  in_window s K ->
  reached lower (cumulative s K) rank ->
  (forall K', in_window s K' -> K' < K ->
              ~ reached lower (cumulative s K') rank) ->
  key_at_rank s rank lower = K.
Proof.
  intros W HK Hmin.
  destruct (key_at_rank_rank_key s rank lower) as [(W' & H' & M')|(_ & N)].
  - destruct (Z.lt_trichotomy (key_at_rank s rank lower) K) as [L|[E|G]].
    + exfalso. exact (Hmin _ W' L H').
    + exact E.
    + exfalso. exact (M' _ W G HK).
  - exfalso. exact (N _ W HK).
Qed.

Lemma key_at_rank_none (s : Store.t) (rank : R) (lower : bool) :
  (forall K, in_window s K -> ~ reached lower (cumulative s K) rank) ->
  key_at_rank s rank lower = max_key_ s.
Proof.
  intros N.
  destruct (key_at_rank_rank_key s rank lower) as [(W' & H' & _)|(E & _)].
  - exfalso. exact (N _ W' H').
  - exact E.
Qed.

(** A rank at or above the total count is beyond every bin. *)
Lemma key_at_rank_beyond (s : Store.t) (rank : R) (lower : bool) :
  Forall (fun c => (0 <= c)%R) (bins_ s) ->
  (rank >= total s)%R ->
  key_at_rank s rank lower = max_key_ s.
Proof.
  intros NonNeg Hr. apply key_at_rank_none. intros K W Hreach.
  pose proof (accumulate_firstn_le (Z.to_nat (K - offset_ s + 1)) NonNeg)
    as Hle.
  fold (cumulative s K) in Hle. unfold total in Hr.
  unfold reached in Hreach. destruct lower; lra.
Qed.

Lemma cumulative_before (s : Store.t) : cumulative s (offset_ s - 1) = 0%R.
Proof.
  unfold cumulative.
  replace (offset_ s - 1 - offset_ s + 1) with 0 by lia. reflexivity.
Qed.

Lemma cumulative_step (s : Store.t) (K : Z) :
  in_window s K ->
  cumulative s K = (cumulative s (K - 1) + bin_at s K)%R.
Proof.
  unfold in_window, length, size, cumulative, bin_at. intros W.
  replace (Z.to_nat (K - offset_ s + 1)) with (S (Z.to_nat (K - offset_ s)))
    by lia.
  replace (K - 1 - offset_ s + 1) with (K - offset_ s) by lia.
  apply accumulate_firstn_S. lia.
Qed.

(** With unit bins at [a < b] the cumulative count is 0 below [a], 1 from
    [a] to [b - 1] and 2 from [b] on. *)
Lemma unit_bins_cumulative (s : Store.t) (a b : Z) :
  unit_bins s a b ->
  forall K, in_window s K ->
    cumulative s K = if K <? a then 0%R else if K <? b then 1%R else 2%R.
Proof.
  intros (Wa & Wb & Hab & Ba & Bb & B0).
  assert (G : forall n : nat, forall K, K = offset_ s + Z.of_nat n ->
            in_window s K ->
            cumulative s K
            = if K <? a then 0%R else if K <? b then 1%R else 2%R).
  { induction n as [|n IH]; intros K EK W.
    - rewrite (cumulative_step W).
      replace (K - 1) with (offset_ s - 1) by lia.
      rewrite cumulative_before.
      unfold in_window in Wa, Wb.
      destruct (K <? a) eqn:E1; [|destruct (K <? b) eqn:E2].
      + apply Z.ltb_lt in E1. rewrite B0 by (auto; lia). lra.
      + apply Z.ltb_ge in E1. replace K with a by lia. rewrite Ba. lra.
      + apply Z.ltb_ge in E1. apply Z.ltb_ge in E2. lia.
    - rewrite (cumulative_step W).
      assert (W1 : in_window s (K - 1)) by (unfold in_window in *; lia).
      rewrite (IH (K - 1)) by (auto; lia).
      destruct (K <? a) eqn:E1; [|destruct (K <? b) eqn:E2].
      + apply Z.ltb_lt in E1.
        replace (K - 1 <? a) with true by (symmetry; apply Z.ltb_lt; lia).
        rewrite B0 by (auto; lia). lra.
      + apply Z.ltb_ge in E1. apply Z.ltb_lt in E2.
        replace (K - 1 <? b) with true by (symmetry; apply Z.ltb_lt; lia).
        destruct (Z.eq_dec K a) as [->|N].
        * replace (a - 1 <? a) with true by (symmetry; apply Z.ltb_lt; lia).
          rewrite Ba. lra.
        * replace (K - 1 <? a) with false by (symmetry; apply Z.ltb_ge; lia).
          rewrite B0 by (auto; lia). lra.
      + apply Z.ltb_ge in E1. apply Z.ltb_ge in E2.
        replace (K - 1 <? a) with false by (symmetry; apply Z.ltb_ge; lia).
        destruct (Z.eq_dec K b) as [->|N].
        * replace (b - 1 <? b) with true by (symmetry; apply Z.ltb_lt; lia).
          rewrite Bb. lra.
        * replace (K - 1 <? b) with false by (symmetry; apply Z.ltb_ge; lia).
          rewrite B0 by (auto; lia). lra. }
  intros K W. apply (G (Z.to_nat (K - offset_ s))); [|exact W].
  unfold in_window in W. lia.
Qed.

Lemma unit_bins_ties (s : Store.t) (a b : Z) (rank : R) :
  unit_bins s a b ->
  ((0 <= rank < 1)%R -> key_at_rank s rank true = a)
  /\ ((1 <= rank < 2)%R -> key_at_rank s rank true = b)
  /\ ((-1 < rank <= 0)%R -> key_at_rank s rank false = a)
  /\ ((0 < rank <= 1)%R -> key_at_rank s rank false = b).
Proof.
  intros U. pose proof (unit_bins_cumulative U) as C.
  destruct U as (Wa & Wb & Hab & _).
  assert (Ca : cumulative s a = 1%R).
  { rewrite (C a Wa), Z.ltb_irrefl.
    now replace (a <? b) with true by (symmetry; apply Z.ltb_lt; lia). }
  assert (Cb : cumulative s b = 2%R).
  { rewrite (C b Wb), Z.ltb_irrefl.
    now replace (b <? a) with false by (symmetry; apply Z.ltb_ge; lia). }
  assert (Below_a : forall K, in_window s K -> K < a -> cumulative s K = 0%R).
  { intros K W L. rewrite (C K W).
    now replace (K <? a) with true by (symmetry; apply Z.ltb_lt; lia). }
  assert (Below_b : forall K, in_window s K -> K < b ->
                              (cumulative s K <= 1)%R).
  { intros K W L. rewrite (C K W).
    replace (K <? b) with true by (symmetry; apply Z.ltb_lt; lia).
    destruct (K <? a); lra. }
  repeat split; intros Hr; apply key_at_rank_least; auto; unfold reached;
    try (rewrite ?Ca, ?Cb; lra);
    intros K W L;
    try (rewrite (Below_a K W L); lra);
    pose proof (Below_b K W L); lra.
Qed.

(** In the model, where [rank + 1] is not rounded: for every store (the
    three kinds share [key_at_rank]), every rank and both values of [lower],
    [key_at_rank] returns the smallest key among
    the bins whose cumulative count is above the rank ([lower]) or at least
    the rank plus one (not [lower]), and [max_key_] when no bin reaches it;
    with counters that are not negative a rank at or above the total count
    gives [max_key_]; and with unit bins at keys [a < b] and zeros elsewhere
    the ties fall as in the comment of [BaseStore::key_at_rank]. *)
Theorem key_at_rank_spec :
  forall (s : Store.t) (rank : R) (lower : bool),
    rank_key s rank lower (key_at_rank s rank lower)
    /\ (Forall (fun c => (0 <= c)%R) (bins_ s) ->
        (rank >= total s)%R ->
        key_at_rank s rank lower = max_key_ s)
    /\ (forall a b : Z,
          unit_bins s a b ->
          ((0 <= rank < 1)%R -> key_at_rank s rank true = a)
          /\ ((1 <= rank < 2)%R -> key_at_rank s rank true = b)
          /\ ((-1 < rank <= 0)%R -> key_at_rank s rank false = a)
          /\ ((0 < rank <= 1)%R -> key_at_rank s rank false = b)).
Proof.
  intros s rank lower. split; [apply key_at_rank_rank_key|]. split.
  - apply key_at_rank_beyond.
  - intros a b U. now apply unit_bins_ties.
Qed.

(** A dense store of chunk size 2 after [add(5)] and [add(6)]. *)
Definition two_bins : Store.t :=
  Store.mk (0 + 1 + 1) 5 6 2 5 [(0 + 1)%R; (0 + 1)%R] 0 false.

Lemma two_bins_built :
  bind (add Dense (BaseDenseStore 2) 5 1%R) (fun s => add Dense s 6 1%R)
  = Ok two_bins.
Proof. cbv -[Rplus IZR]. reflexivity. Qed.

Lemma two_bins_unit : unit_bins two_bins 5 6.
Proof.
  unfold unit_bins, in_window, bin_at, length, size. simpl.
  repeat split; try lia; lra.
Qed.

Lemma key_at_rank_spec_witness :
  key_at_rank two_bins (1 / 2) true = 5
  /\ key_at_rank two_bins (1 / 2) false = 6
  /\ key_at_rank two_bins 2 true = 6.
Proof.
  split; [|split].
  - destruct (key_at_rank_spec two_bins (1 / 2) true) as (_ & _ & T).
    destruct (T 5 6 two_bins_unit) as (T1 & _). apply T1. lra.
  - destruct (key_at_rank_spec two_bins (1 / 2) false) as (_ & _ & T).
    destruct (T 5 6 two_bins_unit) as (_ & _ & _ & T4). apply T4. lra.
  - destruct (key_at_rank_spec two_bins 2 true) as (_ & B & _).
    apply B.
    + simpl. repeat constructor; lra.
    + unfold total. simpl. rewrite !accumulate_cons, accumulate_nil. lra.
Defined.

End RankFacts.

(** ** [key_at_rank] with the rounding of binary64 *)

Module Binary64Facts.

Import PrimFloat.
Local Open Scope Z_scope.

(** The bins, the offset and the greatest key of a dense store of chunk size
    2 after [add(5)] and [add(6)] ([RankFacts.two_bins]), the counters being
    the doubles [0.0 + 1.0]. *)
Definition two_bins : Binary64.t :=
  Binary64.mk [(0 + 1)%float; (0 + 1)%float] 5 6.

(** C6.  With unit bins at the keys 5 and 6 and [lower == false],
    [key_at_rank] does not return 6 for every rank in (0, 1]: at the rank
    2^-1000, which is positive and at most 1, the sum [rank + 1] is rounded
    to 1, the first bin satisfies [running_ct >= rank + 1] and the function
    returns 5.  The smallest key whose cumulative count is at least the rank
    plus one is 6, and 6 is what the function returns when the sum is not
    rounded (the model over the real numbers) and, in binary64, at the rank
    2^-52. *)
Theorem key_at_rank_rounds_the_rank_plus_one :
  (0 <? 0x1p-1000)%float = true
  /\ (0x1p-1000 <=? 1)%float = true
  /\ (0x1p-1000 + 1 =? 1)%float = true
  /\ Binary64.key_at_rank two_bins 0x1p-1000%float false = 5
  /\ Binary64.key_at_rank two_bins 0x1p-52%float false = 6
  /\ RankFacts.unit_bins RankFacts.two_bins 5 6
  /\ Store.key_at_rank RankFacts.two_bins (/ 2 ^ 1000) false = 6.
Proof.
  repeat (split; [reflexivity|]).
  split; [exact RankFacts.two_bins_unit|].
  destruct (@RankFacts.unit_bins_ties RankFacts.two_bins 5 6 (/ 2 ^ 1000)
              RankFacts.two_bins_unit) as (_ & _ & _ & T).
  apply T.
  assert (P : (0 < 2 ^ 1000)%R) by (apply pow_lt; lra).
  split; [now apply Rinv_0_lt_compat|].
  rewrite <- Rinv_1. apply Rinv_le_contravar; [lra|].
  apply pow_R1_Rle. lra.
Qed.

End Binary64Facts.

(** ** The dense store keeps its invariant *)

Module DenseFacts.

Import BinList BinListFacts Store.
Local Open Scope Z_scope.

(** Every bin whose key lies outside [[lo, hi]] is zero. *)
Definition zero_outside (b : BinList.t) (offset lo hi : Z) : Prop :=
  forall i : nat,
    (i < List.length b)%nat ->
    offset + Z.of_nat i < lo \/ hi < offset + Z.of_nat i ->
    nth i b 0%R = 0%R.

(** The window of bins covers the keys from [lo] to [hi]. *)
Definition covers (s : Store.t) (lo hi : Z) : Prop :=
  offset_ s <= lo /\ lo <= hi /\ hi < offset_ s + length s.

(** The invariant of a store: the bins sum to the count, and either there
    are no bins and the two keys are the sentinels, or the window covers
    [[min_key_, max_key_]] and all the weight lies between the two. *)
Definition wf (s : Store.t) : Prop :=
  0 < chunk_size_ s
  /\ accumulate (bins_ s) = count_ s
  /\ ((bins_ s = [] /\ min_key_ s = INT64_MAX /\ max_key_ s = INT64_MIN)
      \/ (covers s (min_key_ s) (max_key_ s)
          /\ zero_outside (bins_ s) (offset_ s) (min_key_ s) (max_key_ s))).

(** The keys an [Index] can hold. *)
Definition is_index (key : Z) : Prop := INT64_MIN <= key <= INT64_MAX.

Lemma zero_outside_widen (b : BinList.t) (offset lo hi lo' hi' : Z) :
  zero_outside b offset lo hi -> lo' <= lo -> hi <= hi' ->
  zero_outside b offset lo' hi'.
Proof.
  intros H Hlo Hhi i Hi Hout. apply H; [exact Hi|lia].
Qed.

Lemma zero_outside_zeros (n : nat) (offset lo hi : Z) :
  zero_outside (repeat 0%R n) offset lo hi.
Proof.
  intros i Hi _. rewrite repeat_length in Hi. now apply nth_repeat_lt.
Qed.

(** Shifting the bins keeps the weight, provided the old window and the new
    one both cover the keys that carry it. *)
Lemma shift_bins_spec (s : Store.t) (shift lo hi : Z) :
  zero_outside (bins_ s) (offset_ s) lo hi ->
  covers s lo hi ->
  offset_ s - shift <= lo ->
  hi < offset_ s - shift + length s ->
  exists b,
    shift_bins s shift = Ok (set_offset (set_bins s b) (offset_ s - shift))
    /\ size b = length s
    /\ accumulate b = accumulate (bins_ s)
    /\ zero_outside b (offset_ s - shift) lo hi.
Proof.
  intros Z0 (C1 & C2 & C3) N1 N2.
  unfold shift_bins, length, size in *.
  set (b := bins_ s) in *. set (len := List.length b) in *.
  destruct (shift >? 0) eqn:E.
  - apply Z.gtb_lt in E.
    unfold remove_trailing_elements, extend_front_with_zeros, size. fold len.
    replace ((0 <=? shift) && (shift <=? Z.of_nat len)) with true
      by (symmetry; apply andb_true_iff; split; apply Z.leb_le; lia).
    simpl bind.
    replace (0 <=? shift) with true by (symmetry; apply Z.leb_le; lia).
    set (keep := Z.to_nat (Z.of_nat len - shift)).
    exists (zeros shift ++ firstn keep b).
    split; [reflexivity|].
    assert (Lk : List.length (firstn keep b) = keep).
    { rewrite length_firstn. unfold keep. fold len. lia. }
    split; [|split].
    + rewrite length_app, Lk. unfold zeros. rewrite repeat_length.
      unfold keep. lia.
    + rewrite accumulate_app, accumulate_zeros.
      rewrite (accumulate_firstn_skipn keep b).
      rewrite (@accumulate_all_zero (skipn keep b)); [lra|].
      intros i Hi. rewrite nth_skipn. rewrite length_skipn in Hi.
      apply Z0; [fold len; lia|]. right. unfold keep. lia.
    + intros i Hi Hout.
      rewrite length_app, Lk in Hi. unfold zeros in *.
      rewrite repeat_length in Hi.
      destruct (Nat.lt_ge_cases i (Z.to_nat shift)) as [Lt|Ge].
      * rewrite app_nth1 by (rewrite repeat_length; exact Lt).
        now apply nth_repeat_lt.
      * rewrite app_nth2 by (rewrite repeat_length; exact Ge).
        rewrite repeat_length, nth_firstn.
        replace (i - Z.to_nat shift <? keep)%nat with true
          by (symmetry; apply Nat.ltb_lt; lia).
        apply Z0; [fold len; unfold keep in *; lia|]. lia.
  - rewrite Z.gtb_ltb in E. apply Z.ltb_ge in E.
    unfold remove_leading_elements, extend_back_with_zeros, size. fold len.
    replace ((0 <=? Z.abs shift) && (Z.abs shift <=? Z.of_nat len)) with true
      by (symmetry; apply andb_true_iff; split; apply Z.leb_le; lia).
    simpl bind.
    replace (0 <=? Z.abs shift) with true by (symmetry; apply Z.leb_le; lia).
    set (drop := Z.to_nat (Z.abs shift)).
    exists (skipn drop b ++ zeros (Z.abs shift)).
    split; [reflexivity|].
    assert (Ld : List.length (skipn drop b) = (len - drop)%nat).
    { rewrite length_skipn. reflexivity. }
    split; [|split].
    + rewrite length_app, Ld. unfold zeros. rewrite repeat_length.
      unfold drop. lia.
    + rewrite accumulate_app, accumulate_zeros.
      rewrite (accumulate_firstn_skipn drop b).
      rewrite (@accumulate_all_zero (firstn drop b)); [lra|].
      intros i Hi. rewrite length_firstn in Hi. rewrite nth_firstn.
      replace (i <? drop)%nat with true by (symmetry; apply Nat.ltb_lt; lia).
      apply Z0; [fold len; lia|]. left. unfold drop in *. lia.
    + intros i Hi Hout.
      rewrite length_app, Ld in Hi. unfold zeros in *.
      rewrite repeat_length in Hi. fold drop in Hi.
      destruct (Nat.lt_ge_cases i (len - drop)) as [Lt|Ge].
      * rewrite app_nth1 by (rewrite Ld; exact Lt).
        rewrite nth_skipn.
        apply Z0; [fold len; lia|]. unfold drop in *. lia.
      * rewrite app_nth2 by (rewrite Ld; exact Ge).
        apply nth_repeat_lt. rewrite Ld. fold drop. lia.
Qed.

Lemma quot2_bounds (x : Z) :
  0 <= x -> 2 * Z.quot x 2 <= x <= 2 * Z.quot x 2 + 1.
Proof.
  intros H. pose proof (Z.quot_rem' x 2) as E.
  pose proof (Z.rem_bound_pos x 2 H ltac:(lia)) as B. lia.
Qed.

Lemma ceil_div_bounds (d c : Z) :
  0 < c -> d <= c * ceil_div d c < d + c.
Proof.
  intros Hc. unfold ceil_div.
  pose proof (Z.div_mod (- d) c ltac:(lia)) as E.
  pose proof (Z.mod_pos_bound (- d) c Hc) as B. nia.
Qed.

(** [adjust] of the dense store when the bins are long enough for the new
    range: the window is re-centred on it and no weight is lost. *)
Lemma adjust_dense_spec (s : Store.t) (new_min new_max lo hi : Z) :
  zero_outside (bins_ s) (offset_ s) lo hi ->
  covers s lo hi ->
  new_min <= lo -> hi <= new_max ->
  new_max - new_min + 1 <= length s ->
  exists b o,
    adjust_dense s new_min new_max
    = Ok (set_max_key (set_min_key (set_offset (set_bins s b) o) new_min)
            new_max)
    /\ size b = length s
    /\ accumulate b = accumulate (bins_ s)
    /\ zero_outside b o lo hi
    /\ o <= new_min /\ new_max < o + length s.
Proof.
  intros Z0 C Hlo Hhi Hlen.
  pose proof C as (C1 & C2 & C3).
  unfold adjust_dense, center_bins.
  set (middle := new_min + Z.quot (new_max - new_min + 1) 2).
  set (shift := offset_ s + Z.quot (length s) 2 - middle).
  pose proof (@quot2_bounds (new_max - new_min + 1) ltac:(lia)) as Q1.
  pose proof (@quot2_bounds (length s) ltac:(unfold length, size; lia)) as Q2.
  assert (N1 : offset_ s - shift <= new_min) by (unfold shift, middle; lia).
  assert (N2 : new_max < offset_ s - shift + length s)
    by (unfold shift, middle; lia).
  destruct (@shift_bins_spec s shift lo hi Z0 C) as (b & Hb & L & A & Z1);
    [lia|lia|].
  rewrite Hb. simpl bind.
  exists b, (offset_ s - shift). repeat split; auto.
Qed.

Lemma zero_outside_app_zeros (b : BinList.t) (n : Z) (offset lo hi : Z) :
  zero_outside b offset lo hi ->
  zero_outside (b ++ zeros n) offset lo hi.
Proof.
  intros Z0 i Hi Hout.
  destruct (Nat.lt_ge_cases i (List.length b)) as [Lt|Ge].
  - rewrite app_nth1 by exact Lt. now apply Z0.
  - rewrite app_nth2 by exact Ge. unfold zeros in *.
    rewrite length_app, repeat_length in Hi.
    apply nth_repeat_lt. lia.
Qed.

(** [extend_range] on a dense store that satisfies the invariant. *)
Lemma extend_range_dense (s : Store.t) (k1 k2 : Z) :
  wf s ->
  (bins_ s = [] -> is_index k1 /\ is_index k2) ->
  exists s',
    extend_range Dense s k1 k2 = Ok s'
    /\ wf s'
    /\ covers s' (min_key_ s') (max_key_ s')
    /\ min_key_ s' = Z.min k1 (Z.min k2 (min_key_ s))
    /\ max_key_ s' = Z.max k1 (Z.max k2 (max_key_ s))
    /\ count_ s' = count_ s
    /\ chunk_size_ s' = chunk_size_ s.
Proof.
  intros (Hc & Hsum & Hshape) I.
  unfold extend_range.
  set (new_min := Z.min k1 (Z.min k2 (min_key_ s))).
  set (new_max := Z.max k1 (Z.max k2 (max_key_ s))).
  assert (Hcs : (chunk_size_ s =? 0) = false) by (apply Z.eqb_neq; lia).
  pose proof (@ceil_div_bounds (new_max - new_min + 1) _ Hc) as CB.
  destruct Hshape as [(Hnil & Hmin & Hmax)|(Cov & Z0)].
  - (* no bins yet *)
    destruct (I Hnil) as (I1 & I2). unfold is_index in I1, I2.
    unfold is_empty, length, kEmptyStoreLength. rewrite Hnil. simpl size.
    simpl Z.eqb. cbv iota.
    unfold get_new_length. rewrite Hcs. simpl bind.
    set (len := chunk_size_ s * ceil_div (new_max - new_min + 1) (chunk_size_ s))
      in *.
    assert (Hrange : new_min <= new_max) by (unfold new_min, new_max; lia).
    unfold initialize_with_zeros.
    replace (0 <=? len) with true by (symmetry; apply Z.leb_le; lia).
    simpl bind.
    set (s0 := set_offset (set_bins s (zeros len)) new_min).
    assert (L0 : length s0 = len).
    { unfold length, size, s0, zeros. simpl. rewrite repeat_length. lia. }
    destruct (@adjust_dense_spec s0 new_min new_max new_min new_max)
      as (b & o & Hadj & Lb & Ab & Zb & O1 & O2).
    + apply zero_outside_zeros.
    + unfold covers. rewrite L0. simpl. lia.
    + lia.
    + lia.
    + rewrite L0. lia.
    + unfold adjust. rewrite Hadj. eexists. split; [reflexivity|].
      rewrite L0 in *.
      assert (Cov' : covers
                (set_max_key (set_min_key (set_offset (set_bins s0 b) o)
                                new_min) new_max) new_min new_max).
      { unfold covers, length. simpl. lia. }
      split; [|repeat split; try reflexivity; apply Cov'].
      split; [exact Hc|]. split.
      * simpl. rewrite Ab. unfold s0. simpl.
        rewrite accumulate_zeros, <- Hsum, Hnil. reflexivity.
      * right. split; [exact Cov'|exact Zb].
  - (* some bins *)
    pose proof Cov as (C1 & C2 & C3).
    assert (Hne : is_empty s = false).
    { unfold is_empty, kEmptyStoreLength. apply Z.eqb_neq. lia. }
    rewrite Hne.
    destruct ((new_min >=? min_key_ s) && (new_max <? offset_ s + length s))
      eqn:E.
    + (* the range fits the bins as they are *)
      apply andb_true_iff in E. destruct E as (E1 & E2).
      apply Z.geb_le in E1. apply Z.ltb_lt in E2.
      eexists. split; [reflexivity|].
      assert (Cov' : covers (set_max_key (set_min_key s new_min) new_max)
                       new_min new_max).
      { unfold covers, length. simpl. unfold length in E2.
        unfold new_min, new_max in *. lia. }
      split; [|repeat split; try reflexivity; apply Cov'].
      split; [exact Hc|]. split; [exact Hsum|].
      right. split; [exact Cov'|].
      simpl. apply (zero_outside_widen Z0); unfold new_min, new_max; lia.
    + (* grow the bins *)
      clear E. unfold get_new_length. rewrite Hcs. simpl bind.
      set (len := chunk_size_ s
                  * ceil_div (new_max - new_min + 1) (chunk_size_ s)) in *.
      assert (Hext : exists b1,
                 (if len >? length s
                  then bind (extend_back_with_zeros (bins_ s)
                               (len - length s))
                         (fun b => Ok (set_bins s b))
                  else Ok s) = Ok (set_bins s b1)
                 /\ accumulate b1 = accumulate (bins_ s)
                 /\ zero_outside b1 (offset_ s) (min_key_ s) (max_key_ s)
                 /\ size b1 = Z.max len (length s)).
      { destruct (len >? length s) eqn:E.
        - apply Z.gtb_lt in E. unfold extend_back_with_zeros.
          replace (0 <=? len - length s) with true
            by (symmetry; apply Z.leb_le; lia).
          simpl bind. eexists. split; [reflexivity|]. split; [|split].
          + rewrite accumulate_app, accumulate_zeros. lra.
          + now apply zero_outside_app_zeros.
          + unfold size, zeros. rewrite length_app, repeat_length.
            unfold length, size in *. lia.
        - rewrite Z.gtb_ltb in E. apply Z.ltb_ge in E.
          exists (bins_ s). split; [now destruct s|].
          split; [reflexivity|]. split; [exact Z0|].
          unfold length in *. lia. }
      destruct Hext as (b1 & Hb1 & A1 & Z1 & L1). rewrite Hb1. simpl bind.
      set (s1 := set_bins s b1).
      assert (Ls1 : length s1 = Z.max len (length s)) by exact L1.
      destruct (@adjust_dense_spec s1 new_min new_max
                  (min_key_ s) (max_key_ s))
        as (b & o & Hadj & Lb & Ab & Zb & O1 & O2).
      * exact Z1.
      * unfold covers. rewrite Ls1. simpl. lia.
      * unfold new_min. lia.
      * unfold new_max. lia.
      * rewrite Ls1. lia.
      * unfold adjust. rewrite Hadj. eexists. split; [reflexivity|].
        rewrite Ls1 in *.
        assert (Hrange : new_min <= new_max)
          by (unfold new_min, new_max; lia).
        assert (Cov' : covers
                  (set_max_key (set_min_key (set_offset (set_bins s1 b) o)
                                  new_min) new_max) new_min new_max).
        { unfold covers, length. simpl. lia. }
        split; [|repeat split; try reflexivity; apply Cov'].
        split; [exact Hc|]. split.
        -- simpl. rewrite Ab. unfold s1. simpl. rewrite A1. exact Hsum.
        -- right. split; [exact Cov'|].
           simpl. apply (zero_outside_widen Zb);
             unfold new_min, new_max; lia.
Qed.

(** [add] on a dense store: it returns, the invariant is kept and the count
    grows by the weight. *)
Lemma add_dense (s : Store.t) (key : Z) (weight : R) :
  wf s -> is_index key ->
  exists s',
    add Dense s key weight = Ok s'
    /\ wf s'
    /\ count_ s' = (count_ s + weight)%R
    /\ chunk_size_ s' = chunk_size_ s.
Proof.
  intros W I.
  assert (G : exists s1,
             get_index Dense s key = Ok (key - offset_ s1, s1)
             /\ wf s1
             /\ covers s1 (min_key_ s1) (max_key_ s1)
             /\ min_key_ s1 <= key <= max_key_ s1
             /\ count_ s1 = count_ s
             /\ chunk_size_ s1 = chunk_size_ s).
  { unfold get_index.
    destruct ((key <? min_key_ s) || (key >? max_key_ s)) eqn:E.
    - destruct (@extend_range_dense s key key W (fun _ => conj I I))
        as (s1 & H1 & W1 & C1 & Mi & Ma & Ct & Ch).
      rewrite H1. simpl bind. exists s1.
      split; [reflexivity|]. split; [exact W1|]. split; [exact C1|].
      split; [lia|]. split; assumption.
    - apply orb_false_iff in E. destruct E as (E1 & E2).
      apply Z.ltb_ge in E1. rewrite Z.gtb_ltb in E2. apply Z.ltb_ge in E2.
      simpl bind. exists s.
      split; [reflexivity|]. split; [exact W|].
      split; [|split; [lia|split; reflexivity]].
      destruct W as (_ & _ & [(_ & Hmin & Hmax)|(C & _)]).
      + unfold is_index, INT64_MAX, INT64_MIN in *. lia.
      + exact C. }
  destruct G as (s1 & H1 & W1 & (C1 & C2 & C3) & K & Ct & Ch).
  unfold add. rewrite H1. simpl bind.
  unfold add_at, in_bounds. unfold length in C3.
  replace ((0 <=? key - offset_ s1) && (key - offset_ s1 <? size (bins_ s1)))
    with true
    by (symmetry; apply andb_true_iff; split;
        [apply Z.leb_le|apply Z.ltb_lt]; lia).
  simpl bind. eexists. split; [reflexivity|].
  destruct W1 as (Hc & Hsum & Hshape).
  assert (Li : (Z.to_nat (key - offset_ s1) < List.length (bins_ s1))%nat)
    by (unfold size in C3; lia).
  split; [|simpl; split; [now rewrite Ct|exact Ch]].
  split; [exact Hc|]. split.
  - simpl. rewrite accumulate_update by exact Li. now rewrite Hsum.
  - right. destruct Hshape as [(Hnil & _)|(Cov & Z0)].
    + rewrite Hnil in Li. simpl in Li. lia.
    + split.
      * unfold covers, length, size in *. simpl.
        rewrite update_length. exact Cov.
      * simpl. intros i Hi Hout. rewrite update_length in Hi.
        rewrite nth_update by exact Li.
        replace (i =? Z.to_nat (key - offset_ s1))%nat with false
          by (symmetry; apply Nat.eqb_neq; lia).
        now apply Z0.
Qed.

(** The loop of [merge] over the keys [key], ..., [key + n - 1]. *)
Lemma add_bins_loop_spec (store : Store.t) (off : Z) :
  forall (n : nat) (key : Z) (b : BinList.t),
    0 <= key - offset_ store ->
    key - offset_ store + Z.of_nat n <= size (bins_ store) ->
    0 <= key - off ->
    key - off + Z.of_nat n <= size b ->
    exists b',
      add_bins_loop n key off b store = Ok b'
      /\ List.length b' = List.length b
      /\ accumulate b'
         = (accumulate b
            + accumulate (slice (bins_ store) (key - offset_ store)
                            (key - offset_ store + Z.of_nat n)))%R
      /\ forall i : nat,
           (i < List.length b)%nat ->
           off + Z.of_nat i < key \/ key + Z.of_nat n <= off + Z.of_nat i ->
           nth i b' 0%R = nth i b 0%R.
Proof.
  induction n as [|n IH]; intros key b S1 S2 B1 B2.
  - exists b. split; [reflexivity|]. split; [reflexivity|]. split; [|auto].
    unfold slice. rewrite Z.add_0_r, Z.sub_diag. simpl.
    rewrite accumulate_nil. lra.
  - simpl add_bins_loop. unfold get, add_at, in_bounds.
    replace ((0 <=? key - offset_ store)
             && (key - offset_ store <? size (bins_ store))) with true
      by (symmetry; apply andb_true_iff; split;
          [apply Z.leb_le|apply Z.ltb_lt]; lia).
    simpl bind.
    replace ((0 <=? key - off) && (key - off <? size b)) with true
      by (symmetry; apply andb_true_iff; split;
          [apply Z.leb_le|apply Z.ltb_lt]; lia).
    simpl bind.
    set (c := nth (Z.to_nat (key - offset_ store)) (bins_ store) 0%R).
    set (b1 := update (Z.to_nat (key - off)) (fun x => (x + c)%R) b).
    assert (L1 : List.length b1 = List.length b) by apply update_length.
    assert (Li : (Z.to_nat (key - off) < List.length b)%nat)
      by (unfold size in B2; lia).
    destruct (IH (key + 1) b1) as (b' & Hb' & L' & A' & F');
      [lia|lia|lia|unfold size in *; lia|].
    exists b'. split; [exact Hb'|]. split; [congruence|]. split.
    + rewrite A'. unfold b1. rewrite accumulate_update by exact Li.
      rewrite (@slice_step (bins_ store) (key - offset_ store) n) by lia.
      rewrite accumulate_cons. fold c.
      replace (key + 1 - offset_ store) with (key - offset_ store + 1) by lia.
      lra.
    + intros i Hi Hout. rewrite F' by (rewrite ?L1; lia).
      unfold b1. rewrite nth_update by exact Li.
      now replace (i =? Z.to_nat (key - off))%nat with false
        by (symmetry; apply Nat.eqb_neq; lia).
Qed.

(** The bins between [lo] and [hi] carry the whole weight. *)
Lemma accumulate_support (b : BinList.t) (offset lo hi : Z) :
  zero_outside b offset lo hi ->
  offset <= lo -> lo <= hi -> hi < offset + size b ->
  accumulate (slice b (lo - offset)
                (lo - offset + Z.of_nat (Z.to_nat (hi - lo + 1))))
  = accumulate b.
Proof.
  intros Z0 H1 H2 H3. unfold slice, size in *.
  set (a := Z.to_nat (lo - offset)).
  replace (Z.to_nat (lo - offset + Z.of_nat (Z.to_nat (hi - lo + 1))
                     - (lo - offset)))
    with (Z.to_nat (hi - lo + 1)) by lia.
  set (n := Z.to_nat (hi - lo + 1)).
  rewrite (accumulate_firstn_skipn a b).
  rewrite (accumulate_firstn_skipn n (skipn a b)).
  rewrite (@accumulate_all_zero (firstn a b)).
  - rewrite (@accumulate_all_zero (skipn n (skipn a b))); [lra|].
    intros i Hi. rewrite !length_skipn in Hi. rewrite !nth_skipn.
    apply Z0; [lia|]. right. unfold a, n. lia.
  - intros i Hi. rewrite length_firstn in Hi. rewrite nth_firstn.
    replace (i <? a)%nat with true by (symmetry; apply Nat.ltb_lt; lia).
    apply Z0; [lia|]. left. unfold a in *. lia.
Qed.

Lemma wf_nonzero_count (s : Store.t) :
  wf s -> count_ s <> 0%R ->
  covers s (min_key_ s) (max_key_ s)
  /\ zero_outside (bins_ s) (offset_ s) (min_key_ s) (max_key_ s).
Proof.
  intros (_ & Hsum & [(Hnil & _)|H]) Hc; [|exact H].
  exfalso. apply Hc. rewrite <- Hsum, Hnil. apply accumulate_nil.
Qed.

(** [merge] on dense stores: it returns, the invariant is kept and the
    counts add up. *)
Lemma merge_dense_wf (s store : Store.t) :
  wf s -> wf store ->
  exists s',
    merge Dense s store = Ok s'
    /\ wf s'
    /\ count_ s' = (count_ s + count_ store)%R
    /\ chunk_size_ s' = chunk_size_ s.
Proof.
  intros W Wo. unfold merge, merge_dense.
  destruct (Req_dec_T (count_ store) 0) as [E0|N0].
  { exists s. rewrite E0. repeat split; auto; try apply W. lra. }
  destruct (Req_dec_T (count_ s) 0) as [E1|N1].
  { exists (copy Dense s store). split; [reflexivity|]. split.
    - destruct W as (Hc & _). destruct Wo as (_ & Hsum & Hshape).
      split; [exact Hc|]. split; [exact Hsum|exact Hshape].
    - simpl. rewrite E1. split; [lra|reflexivity]. }
  destruct (wf_nonzero_count Wo N0) as ((O1 & O2 & O3) & Zo).
  destruct (wf_nonzero_count W N1) as (Cs & Zs).
  assert (G : exists s1,
             merge_extend Dense s store = Ok s1
             /\ wf s1
             /\ covers s1 (min_key_ s1) (max_key_ s1)
             /\ min_key_ s1 <= min_key_ store
             /\ max_key_ store <= max_key_ s1
             /\ count_ s1 = count_ s
             /\ chunk_size_ s1 = chunk_size_ s).
  { unfold merge_extend.
    destruct ((min_key_ store <? min_key_ s) || (max_key_ store >? max_key_ s))
      eqn:E.
    - destruct (@extend_range_dense s (min_key_ store) (max_key_ store) W)
        as (s1 & H1 & W1 & C1 & Mi & Ma & Ct & Ch).
      + intros Hnil. exfalso. destruct Cs as (C1 & C2 & C3).
        unfold length, size in C3. rewrite Hnil in C3. simpl in C3. lia.
      + exists s1. split; [exact H1|]. split; [exact W1|].
        split; [exact C1|]. split; [lia|]. split; [lia|]. split; assumption.
    - apply orb_false_iff in E. destruct E as (E1 & E2).
      apply Z.ltb_ge in E1. rewrite Z.gtb_ltb in E2. apply Z.ltb_ge in E2.
      exists s. split; [reflexivity|]. split; [exact W|].
      split; [exact Cs|]. split; [lia|]. split; [lia|]. split; reflexivity. }
  destruct G as (s1 & H1 & W1 & (C1 & C2 & C3) & Mi & Ma & Ct & Ch).
  rewrite H1. simpl bind. unfold add_bins.
  unfold length in *.
  destruct (@add_bins_loop_spec store (offset_ s1)
              (Z.to_nat (max_key_ store - min_key_ store + 1))
              (min_key_ store) (bins_ s1))
    as (b' & Hb' & L' & A' & F'); [lia|lia|lia|lia|].
  rewrite Hb'. simpl bind. eexists. split; [reflexivity|].
  simpl. split; [|split; [now rewrite Ct|exact Ch]].
  destruct W1 as (Hc1 & Hsum1 & Hshape1).
  split; [exact Hc1|]. split.
  - simpl. rewrite A', (@accumulate_support _ _ _ _ Zo) by lia.
    rewrite Hsum1. destruct Wo as (_ & Hsumo & _). now rewrite Hsumo.
  - right. simpl. split.
    + unfold covers, length, size in *. simpl. rewrite L'. lia.
    + destruct Hshape1 as [(Hnil & _)|(_ & Z1)].
      * unfold size in C3. rewrite Hnil in C3. simpl in C3. lia.
      * intros i Hi Hout. rewrite L' in Hi.
        rewrite F' by (auto; lia). now apply Z1.
Qed.

(** The stores that [add] and [merge] can produce from a new dense store. *)
Inductive reachable : Store.t -> Prop :=
| reach_new (chunk_size : Z) :
    0 < chunk_size -> reachable (BaseDenseStore chunk_size)
| reach_add (s s' : Store.t) (key : Z) (weight : R) :
    reachable s -> is_index key ->
    add Dense s key weight = Ok s' -> reachable s'
| reach_merge (s store s' : Store.t) :
    reachable s -> reachable store ->
    merge Dense s store = Ok s' -> reachable s'.

Lemma reachable_wf (s : Store.t) : reachable s -> wf s.
Proof.
  induction 1 as [c Hc|s s' key w _ IH I H|s o s' _ IH1 _ IH2 H].
  - split; [exact Hc|]. split; [reflexivity|]. left. auto.
  - destruct (@add_dense s key w IH I) as (s2 & H2 & W2 & _).
    rewrite H in H2. now inversion H2.
  - destruct (@merge_dense_wf s o IH1 IH2) as (s2 & H2 & W2 & _).
    rewrite H in H2. now inversion H2.
Qed.

(** In the model.
    On dense stores the first half of the store invariant
    holds as stated: after any sequence of [add] and [merge], none of which
    can fail, the bins sum to the count. *)
Theorem dense_sum_is_count (s : Store.t) :
  reachable s ->
  BinList.sum (bins s) = Ok (count s)
  /\ (forall key weight, is_index key ->
        exists s', add Dense s key weight = Ok s'
                   /\ count s' = (count s + weight)%R)
  /\ (forall store, reachable store ->
        exists s', merge Dense s store = Ok s'
                   /\ count s' = (count s + count store)%R).
Proof.
  intros Hr. pose proof (reachable_wf Hr) as W. split; [|split].
  - unfold bins, count. rewrite sum_ok. destruct W as (_ & Hsum & _).
    now rewrite Hsum.
  - intros key weight I.
    destruct (@add_dense s key weight W I) as (s' & H & _ & Ct & _).
    exists s'. split; [exact H|exact Ct].
  - intros store Hs.
    destruct (@merge_dense_wf s store W (reachable_wf Hs))
      as (s' & H & _ & Ct & _).
    exists s'. split; [exact H|exact Ct].
Qed.

End DenseFacts.

(** ** The collapsing stores under [add] *)

Module CollapsingAddFacts.

Import BinList BinListFacts Store DenseFacts.
Local Open Scope Z_scope.

Local Arguments BinList.update : simpl never.
Local Arguments BinList.zeros : simpl never.

Lemma covers_length (s : Store.t) (lo hi : Z) : covers s lo hi -> 0 < length s.
Proof. unfold covers. lia. Qed.

(** Reads the fields of a store written with the setters. *)
Ltac fields :=
  unfold length, set_is_collapsed, set_max_key, set_min_key, set_offset,
    set_bins, set_count in *;
  cbn [count_ min_key_ max_key_ chunk_size_ offset_ bins_ bin_limit_
       is_collapsed_] in *.

(** A too wide range on a collapsing-lowest store: the window ends at
    [new_max], the weight of the keys below it goes to the first bin. *)
Lemma adjust_lowest_collapse (s : Store.t) (new_min new_max : Z) :
  covers s (min_key_ s) (max_key_ s) ->
  zero_outside (bins_ s) (offset_ s) (min_key_ s) (max_key_ s) ->
  accumulate (bins_ s) = count_ s ->
  new_min <= min_key_ s -> max_key_ s <= new_max ->
  new_min = min_key_ s \/ new_max = max_key_ s ->
  length s < new_max - new_min + 1 ->
  exists s',
    adjust_lowest s new_min new_max = Ok s'
    /\ offset_ s' = new_max - length s + 1
    /\ min_key_ s' = new_max - length s + 1
    /\ max_key_ s' = new_max
    /\ is_collapsed_ s' = true
    /\ count_ s' = count_ s
    /\ chunk_size_ s' = chunk_size_ s
    /\ bin_limit_ s' = bin_limit_ s
    /\ length s' = length s
    /\ accumulate (bins_ s') = count_ s
    /\ zero_outside (bins_ s') (offset_ s') (min_key_ s') (max_key_ s').
Proof.
  intros Cov Z0 Hsum Hmin Hmax Hone Hwide.
  pose proof Cov as (C1 & C2 & C3).
  unfold adjust_lowest.
  replace (new_max - new_min + 1 >? length s) with true
    by (symmetry; apply Z.gtb_lt; lia).
  set (nm := new_max - length s + 1).
  destruct (nm >=? max_key_ s) eqn:Ea.
  - (* everything goes to the first bin *)
    apply Z.geb_le in Ea.
    change (length (set_min_key (set_offset s nm) nm)) with (length s).
    unfold initialize_with_zeros.
    replace (0 <=? length s) with true by (symmetry; apply Z.leb_le; lia).
    simpl bind.
    assert (Lz : size (zeros (length s)) = length s).
    { unfold size, zeros. rewrite repeat_length. lia. }
    unfold set_first, set, in_bounds. rewrite Lz.
    replace ((0 <=? 0) && (0 <? length s)) with true
      by (symmetry; apply andb_true_iff; split;
          [apply Z.leb_le|apply Z.ltb_lt]; lia).
    simpl bind. eexists. split; [reflexivity|].
    assert (L0 : (0 < List.length (zeros (length s)))%nat)
      by (unfold size in Lz; lia).
    fields. repeat (split; [first [reflexivity|lia]|]).
    split; [|split].
    + unfold size in *. rewrite update_length. lia.
    + rewrite accumulate_update_gen by exact L0.
      rewrite accumulate_zeros. unfold zeros. rewrite nth_repeat. lra.
    + intros i Hi Hout. rewrite update_length in Hi.
      rewrite nth_update by exact L0.
      destruct i as [|i]; [unfold nm in *; lia|].
      simpl Nat.eqb. cbv iota. unfold zeros. apply nth_repeat.
  - rewrite Z.geb_leb in Ea. apply Z.leb_gt in Ea.
    destruct (offset_ s - nm <? 0) eqn:Eb.
    + (* fold the lowest keys into the bin of [nm], then shift *)
      apply Z.ltb_lt in Eb.
      assert (Hnm : min_key_ s < nm) by (unfold nm in *; lia).
      set (cs := min_key_ s - offset_ s).
      set (ce := nm - offset_ s).
      unfold length in *.
      unfold collapsed_count, index_outside_bounds.
      replace ((cs <? 0) || (size (bins_ s) <? cs)) with false
        by (symmetry; apply orb_false_iff; split; apply Z.ltb_ge;
            unfold cs; lia).
      replace ((ce <? 0) || (size (bins_ s) <? ce)) with false
        by (symmetry; apply orb_false_iff; split; apply Z.ltb_ge;
            unfold ce; lia).
      simpl orb. cbv iota.
      replace (cs <=? ce) with true
        by (symmetry; apply Z.leb_le; unfold cs, ce; lia).
      simpl bind. unfold replace_range_with_zeros.
      replace ((0 <=? cs) && (cs <=? ce) && (ce <=? size (bins_ s))
               && (0 <=? nm - min_key_ s)) with true
        by (symmetry; rewrite !andb_true_iff; repeat split; apply Z.leb_le;
            unfold cs, ce; lia).
      simpl bind.
      set (b1 := firstn (Z.to_nat cs) (bins_ s) ++ zeros (nm - min_key_ s)
                 ++ skipn (Z.to_nat ce) (bins_ s)).
      assert (Eb1 : b1 = firstn (Z.to_nat cs) (bins_ s)
                         ++ repeat 0%R (Z.to_nat ce - Z.to_nat cs)
                         ++ skipn (Z.to_nat ce) (bins_ s)).
      { unfold b1, zeros. do 3 f_equal. unfold cs, ce. lia. }
      assert (Lb1 : List.length b1 = List.length (bins_ s)).
      { rewrite Eb1. apply length_replace_range; unfold size, cs, ce in *; lia. }
      unfold add_at, in_bounds.
      replace ((0 <=? ce) && (ce <? size b1)) with true
        by (symmetry; apply andb_true_iff; split;
            [apply Z.leb_le|apply Z.ltb_lt]; unfold size, ce in *; lia).
      simpl bind.
      set (cc := accumulate (slice (bins_ s) cs ce)).
      set (b2 := update (Z.to_nat ce) (fun x => (x + cc)%R) b1).
      assert (Lce : (Z.to_nat ce < List.length b1)%nat)
        by (unfold size, ce in *; lia).
      assert (Lb2 : List.length b2 = List.length (bins_ s))
        by (unfold b2; now rewrite update_length).
      set (s2 := set_min_key (set_bins s b2) nm).
      assert (Z2 : zero_outside b2 (offset_ s) nm (max_key_ s)).
      { intros i Hi Hout. rewrite Lb2 in Hi. unfold b2.
        rewrite nth_update by exact Lce.
        replace (i =? Z.to_nat ce)%nat with false
          by (symmetry; apply Nat.eqb_neq; unfold ce; lia).
        rewrite Eb1, nth_replace_range by (unfold size, cs, ce in *; lia).
        destruct ((Z.to_nat cs <=? i)%nat && (i <? Z.to_nat ce)%nat) eqn:E;
          [reflexivity|].
        apply Z0; [exact Hi|].
        apply andb_false_iff in E. destruct E as [E|E].
        - apply Nat.leb_gt in E. left. unfold cs in E. lia.
        - apply Nat.ltb_ge in E. destruct Hout as [Hout|Hout]; [|lia].
          unfold ce in E. lia. }
      destruct (@shift_bins_spec s2 (offset_ s - nm) nm (max_key_ s))
        as (b' & Hb' & L' & A' & Z');
        [exact Z2
        |unfold covers, length, size, s2; simpl; rewrite Lb2;
         unfold size in C3; lia
        |simpl; lia
        |unfold covers, length, size, s2; simpl; rewrite Lb2;
         unfold size in *; unfold nm; lia|].
      fold s2. rewrite Hb'. simpl bind. eexists. split; [reflexivity|].
      unfold s2 in *. fields.
      replace (offset_ s - (offset_ s - nm)) with nm in * by lia.
      repeat (split; [first [reflexivity|lia]|]).
      split; [|split].
      * unfold size in *. lia.
      * rewrite A'. unfold b2.
        rewrite accumulate_update by exact Lce.
        rewrite Eb1, !accumulate_app, accumulate_repeat_0.
        rewrite <- Hsum.
        rewrite (@accumulate_three_parts (bins_ s) cs ce)
          by (unfold cs, ce; lia).
        fold cc. lra.
      * apply (zero_outside_widen Z'); lia.
    + (* no key to fold: shift only *)
      apply Z.ltb_ge in Eb.
      set (s2 := set_min_key s nm).
      destruct (@shift_bins_spec s2 (offset_ s - nm)
                  (min_key_ s) (max_key_ s))
        as (b' & Hb' & L' & A' & Z');
        [exact Z0|exact Cov|simpl; lia
        |simpl; unfold nm; unfold length; simpl; lia|].
      rewrite Hb'. simpl bind. eexists. split; [reflexivity|].
      unfold s2 in *. fields.
      replace (offset_ s - (offset_ s - nm)) with nm in * by lia.
      repeat (split; [first [reflexivity|lia]|]).
      split.
      * rewrite A'. exact Hsum.
      * apply (zero_outside_widen Z'); lia.
Qed.

(** The step of [extend_range] that lengthens the bins. *)
Lemma grow_spec (s : Store.t) (len lo hi : Z) :
  zero_outside (bins_ s) (offset_ s) lo hi ->
  exists b1,
    (if len >? length s
     then bind (extend_back_with_zeros (bins_ s) (len - length s))
            (fun b => Ok (set_bins s b))
     else Ok s) = Ok (set_bins s b1)
    /\ accumulate b1 = accumulate (bins_ s)
    /\ zero_outside b1 (offset_ s) lo hi
    /\ size b1 = Z.max len (length s).
Proof.
  intros Z0. destruct (len >? length s) eqn:E.
  - apply Z.gtb_lt in E. unfold extend_back_with_zeros.
    replace (0 <=? len - length s) with true
      by (symmetry; apply Z.leb_le; lia).
    simpl bind. eexists. split; [reflexivity|]. split; [|split].
    + rewrite accumulate_app, accumulate_zeros. lra.
    + now apply zero_outside_app_zeros.
    + unfold size, zeros. rewrite length_app, repeat_length.
      unfold length, size in *. lia.
  - rewrite Z.gtb_ltb in E. apply Z.ltb_ge in E.
    exists (bins_ s). split; [now destruct s|].
    split; [reflexivity|]. split; [exact Z0|].
    unfold length in *. lia.
Qed.

(** The state of a collapsing store once it has collapsed: the window is
    full, from [min_key_] to [max_key_], and as long as the limit. *)
Definition full_window (s : Store.t) : Prop :=
  offset_ s = min_key_ s
  /\ max_key_ s = offset_ s + length s - 1
  /\ bin_limit_ s <= length s.

(** The invariant of the collapsing stores. *)
Definition wfc (s : Store.t) : Prop :=
  0 < chunk_size_ s
  /\ 0 < bin_limit_ s
  /\ accumulate (bins_ s) = count_ s
  /\ ((bins_ s = [] /\ min_key_ s = INT64_MAX /\ max_key_ s = INT64_MIN
       /\ is_collapsed_ s = false)
      \/ (covers s (min_key_ s) (max_key_ s)
          /\ zero_outside (bins_ s) (offset_ s) (min_key_ s) (max_key_ s)
          /\ (is_collapsed_ s = true -> full_window s))).

Lemma adjust_lowest_fit (s : Store.t) (new_min new_max : Z) :
  new_max - new_min + 1 <= length s ->
  adjust_lowest s new_min new_max = adjust_dense s new_min new_max.
Proof.
  intros H. unfold adjust_lowest, adjust_dense.
  now replace (new_max - new_min + 1 >? length s) with false
    by (symmetry; rewrite Z.gtb_ltb; apply Z.ltb_ge; lia).
Qed.

(** [extend_range(key)] as [get_index] of the collapsing-lowest store calls
    it: below [min_key_] when the store has not collapsed, or above
    [max_key_]. *)
Lemma extend_range_lowest (s : Store.t) (key : Z) :
  wfc s ->
  (bins_ s = [] -> is_index key) ->
  (key < min_key_ s /\ is_collapsed_ s = false) \/ max_key_ s < key ->
  exists s',
    extend_range CollapsingLowest s key key = Ok s'
    /\ wfc s'
    /\ covers s' (min_key_ s') (max_key_ s')
    /\ count_ s' = count_ s
    /\ (max_key_ s < key -> max_key_ s' = key)
    /\ (is_collapsed_ s' = false -> min_key_ s' = Z.min key (min_key_ s)).
Proof.
  intros (Hc & Hl & Hsum & Hshape) I Hpre.
  unfold extend_range.
  set (new_min := Z.min key (Z.min key (min_key_ s))).
  set (new_max := Z.max key (Z.max key (max_key_ s))).
  assert (Hcs : (chunk_size_ s =? 0) = false) by (apply Z.eqb_neq; lia).
  pose proof (@ceil_div_bounds (new_max - new_min + 1) _ Hc) as CB.
  unfold get_new_length. rewrite Hcs.
  set (len := Z.min (chunk_size_ s
                     * ceil_div (new_max - new_min + 1) (chunk_size_ s))
                (bin_limit_ s)) in *.
  destruct Hshape as [(Hnil & Hmin & Hmax & Hnc)|(Cov & Z0 & Hfull)].
  - (* no bins yet *)
    specialize (I Hnil). unfold is_index in I.
    unfold is_empty, length, kEmptyStoreLength. rewrite Hnil.
    change (size [] =? 0) with true. cbv iota. simpl bind.
    assert (Hrange : new_min = key /\ new_max = key)
      by (unfold new_min, new_max; lia).
    destruct Hrange as (En & Ex).
    unfold initialize_with_zeros.
    replace (0 <=? len) with true
      by (symmetry; apply Z.leb_le; unfold len; lia).
    simpl bind.
    set (s0 := set_offset (set_bins s (zeros len)) new_min).
    assert (L0 : length s0 = len).
    { unfold length, size, s0, zeros. simpl. rewrite repeat_length.
      unfold len. lia. }
    unfold adjust. rewrite adjust_lowest_fit by (rewrite L0; unfold len; lia).
    destruct (@adjust_dense_spec s0 new_min new_max new_min new_max)
      as (b & o & Hadj & Lb & Ab & Zb & O1 & O2).
    + apply zero_outside_zeros.
    + unfold covers. rewrite L0. unfold s0, len. simpl. lia.
    + lia.
    + lia.
    + rewrite L0. unfold len. lia.
    + rewrite Hadj. eexists. split; [reflexivity|].
      rewrite L0 in *.
      assert (Cov' : covers
                (set_max_key (set_min_key (set_offset (set_bins s0 b) o)
                                new_min) new_max) new_min new_max).
      { unfold covers, length. simpl. lia. }
      split; [|split; [exact Cov'|]].
      * split; [exact Hc|]. split; [exact Hl|]. split.
        -- simpl. rewrite Ab. unfold s0. simpl.
           rewrite accumulate_zeros, <- Hsum, Hnil. reflexivity.
        -- right. split; [exact Cov'|]. split; [exact Zb|].
           simpl. rewrite Hnc. discriminate.
      * simpl. split; [reflexivity|]. split; [lia|]. intros _. lia.
  - (* some bins *)
    pose proof Cov as (C1 & C2 & C3).
    assert (Hne : is_empty s = false).
    { unfold is_empty, kEmptyStoreLength. apply Z.eqb_neq. lia. }
    rewrite Hne.
    assert (Hone : new_min = min_key_ s \/ new_max = max_key_ s)
      by (unfold new_min, new_max; lia).
    destruct ((new_min >=? min_key_ s) && (new_max <? offset_ s + length s))
      eqn:E.
    + (* the range fits the bins as they are *)
      apply andb_true_iff in E. destruct E as (E1 & E2).
      apply Z.geb_le in E1. apply Z.ltb_lt in E2.
      assert (Hnc : is_collapsed_ s = false).
      { destruct (is_collapsed_ s) eqn:Ec; [|reflexivity].
        destruct (Hfull eq_refl) as (F1 & F2 & F3).
        unfold new_min, new_max in *. lia. }
      eexists. split; [reflexivity|].
      assert (Cov' : covers (set_max_key (set_min_key s new_min) new_max)
                       new_min new_max).
      { unfold covers, length. simpl. unfold length in E2.
        unfold new_min, new_max in *. lia. }
      split; [|split; [exact Cov'|]].
      * split; [exact Hc|]. split; [exact Hl|]. split; [exact Hsum|].
        right. split; [exact Cov'|]. split.
        -- simpl. apply (zero_outside_widen Z0);
             unfold new_min, new_max; lia.
        -- simpl. rewrite Hnc. discriminate.
      * simpl. split; [reflexivity|].
        split; [intros Hk; unfold new_max; lia|]. intros _. unfold new_min. lia.
    + (* grow the bins, then adjust *)
      clear E. simpl bind.
      destruct (@grow_spec s len (min_key_ s) (max_key_ s) Z0)
        as (b1 & Hb1 & A1 & Z1 & L1).
      rewrite Hb1. simpl bind.
      set (s1 := set_bins s b1).
      assert (Ls1 : length s1 = Z.max len (length s)) by exact L1.
      unfold adjust.
      destruct (Z_lt_le_dec (length s1) (new_max - new_min + 1)) as [Wide|Fit].
      * (* collapse *)
        destruct (@adjust_lowest_collapse s1 new_min new_max)
          as (s' & Hs' & F1 & F2 & F3 & F4 & F5 & F6 & F7 & F8 & F9 & F10).
        -- unfold covers. rewrite Ls1. simpl. lia.
        -- exact Z1.
        -- simpl. now rewrite A1.
        -- simpl. unfold new_min. lia.
        -- simpl. unfold new_max. lia.
        -- exact Hone.
        -- exact Wide.
        -- rewrite Hs'. exists s'. split; [reflexivity|].
           simpl in F5, F6, F7, F9.
           assert (Cov' : covers s' (min_key_ s') (max_key_ s')).
           { unfold covers. rewrite F1, F2, F3, F8. lia. }
           split; [|split; [exact Cov'|]].
           ++ split; [lia|]. split; [lia|]. split; [now rewrite F5|].
              right. split; [exact Cov'|]. split; [exact F10|].
              intros _. unfold full_window. rewrite F1, F2, F3, F7, F8.
              repeat split; unfold len in *; lia.
           ++ split; [exact F5|]. split.
              ** intros Hk. rewrite F3. unfold new_max. lia.
              ** rewrite F4. discriminate.
      * (* the grown bins hold the range *)
        assert (Hnc : is_collapsed_ s = false).
        { destruct (is_collapsed_ s) eqn:Ec; [|reflexivity].
          destruct (Hfull eq_refl) as (G1 & G2 & G3).
          destruct Hpre as [(_ & Hpre)|Hpre]; [discriminate|].
          unfold new_min, new_max, len in *. lia. }
        rewrite adjust_lowest_fit by exact Fit.
        destruct (@adjust_dense_spec s1 new_min new_max
                    (min_key_ s) (max_key_ s))
          as (b & o & Hadj & Lb & Ab & Zb & O1 & O2).
        -- exact Z1.
        -- unfold covers. rewrite Ls1. simpl. lia.
        -- unfold new_min. lia.
        -- unfold new_max. lia.
        -- exact Fit.
        -- rewrite Hadj. eexists. split; [reflexivity|].
           rewrite Ls1 in *.
           assert (Hrange : new_min <= new_max)
             by (unfold new_min, new_max; lia).
           assert (Cov' : covers
                     (set_max_key (set_min_key (set_offset (set_bins s1 b) o)
                                     new_min) new_max) new_min new_max).
           { unfold covers, length. simpl. lia. }
           split; [|split; [exact Cov'|]].
           ++ split; [exact Hc|]. split; [exact Hl|]. split.
              ** simpl. rewrite Ab. unfold s1. simpl. rewrite A1.
                 exact Hsum.
              ** right. split; [exact Cov'|]. split.
                 --- simpl. apply (zero_outside_widen Zb);
                       unfold new_min, new_max; lia.
                 --- simpl. rewrite Hnc. discriminate.
           ++ simpl. split; [reflexivity|].
              split; [intros Hk; unfold new_max; lia|]. intros _. unfold new_min. lia.
Qed.

(** Adding a weight to a bin whose key lies between [min_key_] and
    [max_key_] keeps the invariant. *)
Lemma add_at_wfc (s : Store.t) (idx : Z) (weight : R) :
  wfc s ->
  covers s (min_key_ s) (max_key_ s) ->
  min_key_ s <= offset_ s + idx <= max_key_ s ->
  exists b,
    add_at (bins_ s) idx weight = Ok b
    /\ wfc (set_count (set_bins s b) (count_ s + weight)%R).
Proof.
  intros (Hc & Hl & Hsum & Hshape) (C1 & C2 & C3) K.
  unfold add_at, in_bounds. unfold length in C3.
  replace ((0 <=? idx) && (idx <? size (bins_ s))) with true
    by (symmetry; apply andb_true_iff; split;
        [apply Z.leb_le|apply Z.ltb_lt]; lia).
  eexists. split; [reflexivity|].
  assert (Li : (Z.to_nat idx < List.length (bins_ s))%nat)
    by (unfold size in C3; lia).
  split; [exact Hc|]. split; [exact Hl|]. split.
  - fields. rewrite accumulate_update by exact Li. now rewrite Hsum.
  - right. destruct Hshape as [(Hnil & _)|(Cov & Z0 & Hfull)].
    + rewrite Hnil in Li. simpl in Li. lia.
    + split; [|split].
      * unfold covers in *. fields. unfold size in *.
        rewrite update_length. exact Cov.
      * fields. intros i Hi Hout. rewrite update_length in Hi.
        rewrite nth_update by exact Li.
        replace (i =? Z.to_nat idx)%nat with false
          by (symmetry; apply Nat.eqb_neq; lia).
        now apply Z0.
      * unfold full_window in *. fields. unfold size in *.
        rewrite update_length. exact Hfull.
Qed.

(** An empty store gives way at one of the two first tests of
    [get_index]. *)
Lemma wfc_between (s : Store.t) (key : Z) :
  wfc s -> is_index key ->
  min_key_ s <= key <= max_key_ s ->
  covers s (min_key_ s) (max_key_ s).
Proof.
  intros (_ & _ & _ & [(_ & Hmin & Hmax & _)|(Cov & _)]) I K.
  - unfold is_index, INT64_MAX, INT64_MIN in *. lia.
  - exact Cov.
Qed.

(** [add] on a collapsing-lowest store: it returns, the invariant is kept
    and the count grows by the weight. *)
Lemma add_lowest (s : Store.t) (key : Z) (weight : R) :
  wfc s -> is_index key ->
  exists s',
    add CollapsingLowest s key weight = Ok s'
    /\ wfc s'
    /\ count_ s' = (count_ s + weight)%R.
Proof.
  intros W I.
  assert (G : exists idx s1,
             get_index CollapsingLowest s key = Ok (idx, s1)
             /\ wfc s1
             /\ covers s1 (min_key_ s1) (max_key_ s1)
             /\ min_key_ s1 <= offset_ s1 + idx <= max_key_ s1
             /\ count_ s1 = count_ s).
  { unfold get_index.
    destruct (key <? min_key_ s) eqn:E1.
    - apply Z.ltb_lt in E1.
      destruct (is_collapsed_ s) eqn:Ec.
      + (* collapsed already: the first bin *)
        exists 0, s. split; [reflexivity|]. split; [exact W|].
        destruct W as (_ & _ & _ & [(_ & _ & _ & Hnc)|(Cov & _ & Hfull)]);
          [congruence|].
        destruct (Hfull Ec) as (F1 & F2 & F3).
        split; [exact Cov|]. split; [|reflexivity].
        destruct Cov as (C1 & C2 & C3). lia.
      + destruct (@extend_range_lowest s key W (fun _ => I))
          as (s1 & H1 & W1 & C1 & Ct & Mx & Mn); [left; auto|].
        rewrite H1. simpl bind.
        destruct (is_collapsed_ s1) eqn:Ec1.
        * exists 0, s1. split; [reflexivity|]. split; [exact W1|].
          split; [exact C1|]. split; [|exact Ct].
          destruct W1
            as (_ & _ & _ & [(_ & _ & _ & Hnc)|(_ & _ & Hfull)]);
            [congruence|].
          destruct (Hfull Ec1) as (F1 & F2 & F3).
          destruct C1 as (C1 & C2 & C3). lia.
        * exists (key - offset_ s1), s1. split; [reflexivity|].
          split; [exact W1|]. split; [exact C1|]. split; [|exact Ct].
          specialize (Mn eq_refl). destruct C1 as (C1 & C2 & C3). lia.
    - apply Z.ltb_ge in E1.
      destruct (key >? max_key_ s) eqn:E2.
      + apply Z.gtb_lt in E2.
        destruct (@extend_range_lowest s key W (fun _ => I))
          as (s1 & H1 & W1 & C1 & Ct & Mx & Mn); [right; exact E2|].
        rewrite H1. simpl bind.
        exists (key - offset_ s1), s1. split; [reflexivity|].
        split; [exact W1|]. split; [exact C1|]. split; [|exact Ct].
        specialize (Mx E2). destruct C1 as (C1 & C2 & C3). lia.
      + rewrite Z.gtb_ltb in E2. apply Z.ltb_ge in E2.
        exists (key - offset_ s), s. split; [reflexivity|].
        split; [exact W|].
        split; [apply (wfc_between W I); lia|]. split; [lia|reflexivity]. }
  destruct G as (idx & s1 & H1 & W1 & C1 & K & Ct).
  unfold add. rewrite H1. simpl bind.
  destruct (@add_at_wfc s1 idx weight W1 C1 K) as (b & Hb & Wb).
  rewrite Hb. simpl bind. eexists. split; [reflexivity|].
  split; [exact Wb|]. simpl. now rewrite Ct.
Qed.

(** A too wide range on a collapsing-highest store: the window starts at
    [new_min], the weight of the keys above it goes to the last bin. *)
Lemma adjust_highest_collapse (s : Store.t) (new_min new_max : Z) :
  covers s (min_key_ s) (max_key_ s) ->
  zero_outside (bins_ s) (offset_ s) (min_key_ s) (max_key_ s) ->
  accumulate (bins_ s) = count_ s ->
  new_min <= min_key_ s -> max_key_ s <= new_max ->
  new_min = min_key_ s \/ new_max = max_key_ s ->
  length s < new_max - new_min + 1 ->
  exists s',
    adjust_highest s new_min new_max = Ok s'
    /\ offset_ s' = new_min
    /\ min_key_ s' = new_min
    /\ max_key_ s' = new_min + length s - 1
    /\ is_collapsed_ s' = true
    /\ count_ s' = count_ s
    /\ chunk_size_ s' = chunk_size_ s
    /\ bin_limit_ s' = bin_limit_ s
    /\ length s' = length s
    /\ accumulate (bins_ s') = count_ s
    /\ zero_outside (bins_ s') (offset_ s') (min_key_ s') (max_key_ s').
Proof.
  intros Cov Z0 Hsum Hmin Hmax Hone Hwide.
  pose proof Cov as (C1 & C2 & C3).
  unfold adjust_highest.
  replace (new_max - new_min + 1 >? length s) with true
    by (symmetry; apply Z.gtb_lt; lia).
  set (nx := new_min + length s - 1).
  destruct (nx <=? min_key_ s) eqn:Ea.
  - (* everything goes to the last bin *)
    apply Z.leb_le in Ea.
    change (length (set_max_key (set_offset s new_min) nx)) with (length s).
    unfold initialize_with_zeros.
    replace (0 <=? length s) with true by (symmetry; apply Z.leb_le; lia).
    simpl bind.
    assert (Lz : size (zeros (length s)) = length s).
    { unfold size, zeros. rewrite repeat_length. lia. }
    unfold set_last, set, in_bounds. rewrite Lz.
    replace ((0 <=? length s - 1) && (length s - 1 <? length s)) with true
      by (symmetry; apply andb_true_iff; split;
          [apply Z.leb_le|apply Z.ltb_lt]; lia).
    simpl bind. eexists. split; [reflexivity|].
    assert (L0 : (Z.to_nat (length s - 1)
                  < List.length (zeros (length s)))%nat)
      by (unfold size in Lz; lia).
    fields. repeat (split; [first [reflexivity|lia]|]).
    split; [|split].
    + unfold size in *. rewrite update_length. lia.
    + rewrite accumulate_update_gen by exact L0.
      rewrite accumulate_zeros. unfold zeros. rewrite nth_repeat. lra.
    + intros i Hi Hout. rewrite update_length in Hi.
      rewrite nth_update by exact L0.
      replace (i =? Z.to_nat (size (bins_ s) - 1))%nat with false
        by (symmetry; apply Nat.eqb_neq; unfold nx, size in *; lia).
      unfold zeros. apply nth_repeat.
  - apply Z.leb_gt in Ea.
    destruct (offset_ s - new_min >? 0) eqn:Eb.
    + (* fold the highest keys into the bin of [nx], then shift *)
      apply Z.gtb_lt in Eb.
      assert (Hnx : nx < max_key_ s) by (unfold nx in *; lia).
      set (cs := nx - offset_ s + 1).
      set (ce := max_key_ s - offset_ s + 1).
      unfold length in *.
      unfold collapsed_count, index_outside_bounds.
      replace ((cs <? 0) || (size (bins_ s) <? cs)) with false
        by (symmetry; apply orb_false_iff; split; apply Z.ltb_ge;
            unfold cs; lia).
      replace ((ce <? 0) || (size (bins_ s) <? ce)) with false
        by (symmetry; apply orb_false_iff; split; apply Z.ltb_ge;
            unfold ce; lia).
      simpl orb. cbv iota.
      replace (cs <=? ce) with true
        by (symmetry; apply Z.leb_le; unfold cs, ce; lia).
      simpl bind. unfold replace_range_with_zeros.
      replace ((0 <=? cs) && (cs <=? ce) && (ce <=? size (bins_ s))
               && (0 <=? max_key_ s - nx)) with true
        by (symmetry; rewrite !andb_true_iff; repeat split; apply Z.leb_le;
            unfold cs, ce; lia).
      simpl bind.
      set (b1 := firstn (Z.to_nat cs) (bins_ s) ++ zeros (max_key_ s - nx)
                 ++ skipn (Z.to_nat ce) (bins_ s)).
      assert (Eb1 : b1 = firstn (Z.to_nat cs) (bins_ s)
                         ++ repeat 0%R (Z.to_nat ce - Z.to_nat cs)
                         ++ skipn (Z.to_nat ce) (bins_ s)).
      { unfold b1, zeros. do 3 f_equal. unfold cs, ce. lia. }
      assert (Lb1 : List.length b1 = List.length (bins_ s)).
      { rewrite Eb1. apply length_replace_range; unfold size, cs, ce in *; lia. }
      unfold add_at, in_bounds.
      replace ((0 <=? cs - 1) && (cs - 1 <? size b1)) with true
        by (symmetry; apply andb_true_iff; split;
            [apply Z.leb_le|apply Z.ltb_lt]; unfold size, cs in *; lia).
      simpl bind.
      set (cc := accumulate (slice (bins_ s) cs ce)).
      set (b2 := update (Z.to_nat (cs - 1)) (fun x => (x + cc)%R) b1).
      assert (Lcs : (Z.to_nat (cs - 1) < List.length b1)%nat)
        by (unfold size, cs in *; lia).
      assert (Lb2 : List.length b2 = List.length (bins_ s))
        by (unfold b2; now rewrite update_length).
      set (s2 := set_max_key (set_bins s b2) nx).
      assert (Z2 : zero_outside b2 (offset_ s) (min_key_ s) nx).
      { intros i Hi Hout. rewrite Lb2 in Hi. unfold b2.
        rewrite nth_update by exact Lcs.
        replace (i =? Z.to_nat (cs - 1))%nat with false
          by (symmetry; apply Nat.eqb_neq; unfold cs; lia).
        rewrite Eb1, nth_replace_range by (unfold size, cs, ce in *; lia).
        destruct ((Z.to_nat cs <=? i)%nat && (i <? Z.to_nat ce)%nat) eqn:E;
          [reflexivity|].
        apply Z0; [exact Hi|].
        apply andb_false_iff in E. destruct E as [E|E].
        - apply Nat.leb_gt in E. destruct Hout as [Hout|Hout]; [lia|].
          unfold cs in E. lia.
        - apply Nat.ltb_ge in E. right. unfold ce in E. lia. }
      destruct (@shift_bins_spec s2 (offset_ s - new_min) (min_key_ s) nx)
        as (b' & Hb' & L' & A' & Z');
        [exact Z2
        |unfold covers, length, size, s2; simpl; rewrite Lb2;
         unfold size in C3; lia
        |simpl; lia
        |unfold covers, length, size, s2; simpl; rewrite Lb2;
         unfold size in *; unfold nx; lia|].
      fold s2. rewrite Hb'. simpl bind. eexists. split; [reflexivity|].
      unfold s2 in *. fields.
      replace (offset_ s - (offset_ s - new_min)) with new_min in * by lia.
      repeat (split; [first [reflexivity|lia]|]).
      split; [|split].
      * unfold size in *. lia.
      * rewrite A'. unfold b2.
        rewrite accumulate_update by exact Lcs.
        rewrite Eb1, !accumulate_app, accumulate_repeat_0.
        rewrite <- Hsum.
        rewrite (@accumulate_three_parts (bins_ s) cs ce)
          by (unfold cs, ce; lia).
        fold cc. lra.
      * apply (zero_outside_widen Z'); lia.
    + (* no key to fold: shift only *)
      rewrite Z.gtb_ltb in Eb. apply Z.ltb_ge in Eb.
      set (s2 := set_max_key s nx).
      destruct (@shift_bins_spec s2 (offset_ s - new_min)
                  (min_key_ s) (max_key_ s))
        as (b' & Hb' & L' & A' & Z');
        [exact Z0|exact Cov|simpl; lia
        |simpl; unfold length; simpl; unfold length in C3; lia|].
      rewrite Hb'. simpl bind. eexists. split; [reflexivity|].
      unfold s2 in *. fields.
      replace (offset_ s - (offset_ s - new_min)) with new_min in * by lia.
      repeat (split; [first [reflexivity|lia]|]).
      split.
      * rewrite A'. exact Hsum.
      * apply (zero_outside_widen Z'); unfold nx, size in *; lia.
Qed.

Lemma adjust_highest_fit (s : Store.t) (new_min new_max : Z) :
  new_max - new_min + 1 <= length s ->
  adjust_highest s new_min new_max = adjust_dense s new_min new_max.
Proof.
  intros H. unfold adjust_highest, adjust_dense.
  now replace (new_max - new_min + 1 >? length s) with false
    by (symmetry; rewrite Z.gtb_ltb; apply Z.ltb_ge; lia).
Qed.

(** [extend_range(key)] as [get_index] of the collapsing-highest store
    calls it: above [max_key_] when the store has not collapsed, or below
    [min_key_]. *)
Lemma extend_range_highest (s : Store.t) (key : Z) :
  wfc s ->
  (bins_ s = [] -> is_index key) ->
  (max_key_ s < key /\ is_collapsed_ s = false) \/ key < min_key_ s ->
  exists s',
    extend_range CollapsingHighest s key key = Ok s'
    /\ wfc s'
    /\ covers s' (min_key_ s') (max_key_ s')
    /\ count_ s' = count_ s
    /\ (key < min_key_ s -> min_key_ s' = key)
    /\ (is_collapsed_ s' = false -> max_key_ s' = Z.max key (max_key_ s)).
Proof.
  intros (Hc & Hl & Hsum & Hshape) I Hpre.
  unfold extend_range.
  set (new_min := Z.min key (Z.min key (min_key_ s))).
  set (new_max := Z.max key (Z.max key (max_key_ s))).
  assert (Hcs : (chunk_size_ s =? 0) = false) by (apply Z.eqb_neq; lia).
  pose proof (@ceil_div_bounds (new_max - new_min + 1) _ Hc) as CB.
  unfold get_new_length. rewrite Hcs.
  set (len := Z.min (chunk_size_ s
                     * ceil_div (new_max - new_min + 1) (chunk_size_ s))
                (bin_limit_ s)) in *.
  destruct Hshape as [(Hnil & Hmin & Hmax & Hnc)|(Cov & Z0 & Hfull)].
  - (* no bins yet *)
    specialize (I Hnil). unfold is_index in I.
    unfold is_empty, length, kEmptyStoreLength. rewrite Hnil.
    change (size [] =? 0) with true. cbv iota. simpl bind.
    assert (Hrange : new_min = key /\ new_max = key)
      by (unfold new_min, new_max; lia).
    destruct Hrange as (En & Ex).
    unfold initialize_with_zeros.
    replace (0 <=? len) with true
      by (symmetry; apply Z.leb_le; unfold len; lia).
    simpl bind.
    set (s0 := set_offset (set_bins s (zeros len)) new_min).
    assert (L0 : length s0 = len).
    { unfold length, size, s0, zeros. simpl. rewrite repeat_length.
      unfold len. lia. }
    unfold adjust. rewrite adjust_highest_fit by (rewrite L0; unfold len; lia).
    destruct (@adjust_dense_spec s0 new_min new_max new_min new_max)
      as (b & o & Hadj & Lb & Ab & Zb & O1 & O2).
    + apply zero_outside_zeros.
    + unfold covers. rewrite L0. unfold s0, len. simpl. lia.
    + lia.
    + lia.
    + rewrite L0. unfold len. lia.
    + rewrite Hadj. eexists. split; [reflexivity|].
      rewrite L0 in *.
      assert (Cov' : covers
                (set_max_key (set_min_key (set_offset (set_bins s0 b) o)
                                new_min) new_max) new_min new_max).
      { unfold covers, length. simpl. lia. }
      split; [|split; [exact Cov'|]].
      * split; [exact Hc|]. split; [exact Hl|]. split.
        -- simpl. rewrite Ab. unfold s0. simpl.
           rewrite accumulate_zeros, <- Hsum, Hnil. reflexivity.
        -- right. split; [exact Cov'|]. split; [exact Zb|].
           simpl. rewrite Hnc. discriminate.
      * simpl. split; [reflexivity|]. split; [lia|]. intros _. lia.
  - (* some bins *)
    pose proof Cov as (C1 & C2 & C3).
    assert (Hne : is_empty s = false).
    { unfold is_empty, kEmptyStoreLength. apply Z.eqb_neq. lia. }
    rewrite Hne.
    assert (Hone : new_min = min_key_ s \/ new_max = max_key_ s)
      by (unfold new_min, new_max; lia).
    destruct ((new_min >=? min_key_ s) && (new_max <? offset_ s + length s))
      eqn:E.
    + (* the range fits the bins as they are *)
      apply andb_true_iff in E. destruct E as (E1 & E2).
      apply Z.geb_le in E1. apply Z.ltb_lt in E2.
      assert (Hnc : is_collapsed_ s = false).
      { destruct (is_collapsed_ s) eqn:Ec; [|reflexivity].
        destruct (Hfull eq_refl) as (F1 & F2 & F3).
        destruct Hpre as [(_ & Hpre)|Hpre]; [discriminate|].
        unfold new_min, new_max in *. lia. }
      eexists. split; [reflexivity|].
      assert (Cov' : covers (set_max_key (set_min_key s new_min) new_max)
                       new_min new_max).
      { unfold covers, length. simpl. unfold length in E2.
        unfold new_min, new_max in *. lia. }
      split; [|split; [exact Cov'|]].
      * split; [exact Hc|]. split; [exact Hl|]. split; [exact Hsum|].
        right. split; [exact Cov'|]. split.
        -- simpl. apply (zero_outside_widen Z0);
             unfold new_min, new_max; lia.
        -- simpl. rewrite Hnc. discriminate.
      * simpl. split; [reflexivity|].
        split; [intros Hk; unfold new_min; lia|].
        intros _. unfold new_max. lia.
    + (* grow the bins, then adjust *)
      clear E. simpl bind.
      destruct (@grow_spec s len (min_key_ s) (max_key_ s) Z0)
        as (b1 & Hb1 & A1 & Z1 & L1).
      rewrite Hb1. simpl bind.
      set (s1 := set_bins s b1).
      assert (Ls1 : length s1 = Z.max len (length s)) by exact L1.
      unfold adjust.
      destruct (Z_lt_le_dec (length s1) (new_max - new_min + 1)) as [Wide|Fit].
      * (* collapse *)
        destruct (@adjust_highest_collapse s1 new_min new_max)
          as (s' & Hs' & F1 & F2 & F3 & F4 & F5 & F6 & F7 & F8 & F9 & F10).
        -- unfold covers. rewrite Ls1. simpl. lia.
        -- exact Z1.
        -- simpl. now rewrite A1.
        -- simpl. unfold new_min. lia.
        -- simpl. unfold new_max. lia.
        -- exact Hone.
        -- exact Wide.
        -- rewrite Hs'. exists s'. split; [reflexivity|].
           simpl in F5, F6, F7, F9.
           assert (Cov' : covers s' (min_key_ s') (max_key_ s')).
           { unfold covers. rewrite F1, F2, F3, F8. lia. }
           split; [|split; [exact Cov'|]].
           ++ split; [lia|]. split; [lia|]. split; [now rewrite F5|].
              right. split; [exact Cov'|]. split; [exact F10|].
              intros _. unfold full_window. rewrite F1, F2, F3, F7, F8.
              repeat split; unfold len in *; lia.
           ++ split; [exact F5|]. split.
              ** intros Hk. rewrite F2. unfold new_min. lia.
              ** rewrite F4. discriminate.
      * (* the grown bins hold the range *)
        assert (Hnc : is_collapsed_ s = false).
        { destruct (is_collapsed_ s) eqn:Ec; [|reflexivity].
          destruct (Hfull eq_refl) as (G1 & G2 & G3).
          destruct Hpre as [(_ & Hpre)|Hpre]; [discriminate|].
          unfold new_min, new_max, len in *. lia. }
        rewrite adjust_highest_fit by exact Fit.
        destruct (@adjust_dense_spec s1 new_min new_max
                    (min_key_ s) (max_key_ s))
          as (b & o & Hadj & Lb & Ab & Zb & O1 & O2).
        -- exact Z1.
        -- unfold covers. rewrite Ls1. simpl. lia.
        -- unfold new_min. lia.
        -- unfold new_max. lia.
        -- exact Fit.
        -- rewrite Hadj. eexists. split; [reflexivity|].
           rewrite Ls1 in *.
           assert (Hrange : new_min <= new_max)
             by (unfold new_min, new_max; lia).
           assert (Cov' : covers
                     (set_max_key (set_min_key (set_offset (set_bins s1 b) o)
                                     new_min) new_max) new_min new_max).
           { unfold covers, length. simpl. lia. }
           split; [|split; [exact Cov'|]].
           ++ split; [exact Hc|]. split; [exact Hl|]. split.
              ** simpl. rewrite Ab. unfold s1. simpl. rewrite A1.
                 exact Hsum.
              ** right. split; [exact Cov'|]. split.
                 --- simpl. apply (zero_outside_widen Zb);
                       unfold new_min, new_max; lia.
                 --- simpl. rewrite Hnc. discriminate.
           ++ simpl. split; [reflexivity|].
              split; [intros Hk; unfold new_min; lia|].
              intros _. unfold new_max. lia.
Qed.

(** [add] on a collapsing-highest store. *)
Lemma add_highest (s : Store.t) (key : Z) (weight : R) :
  wfc s -> is_index key ->
  exists s',
    add CollapsingHighest s key weight = Ok s'
    /\ wfc s'
    /\ count_ s' = (count_ s + weight)%R.
Proof.
  intros W I.
  assert (G : exists idx s1,
             get_index CollapsingHighest s key = Ok (idx, s1)
             /\ wfc s1
             /\ covers s1 (min_key_ s1) (max_key_ s1)
             /\ min_key_ s1 <= offset_ s1 + idx <= max_key_ s1
             /\ count_ s1 = count_ s).
  { unfold get_index.
    destruct (key >? max_key_ s) eqn:E1.
    - apply Z.gtb_lt in E1.
      destruct (is_collapsed_ s) eqn:Ec.
      + (* collapsed already: the last bin *)
        exists (length s - 1), s. split; [reflexivity|]. split; [exact W|].
        destruct W as (_ & _ & _ & [(_ & _ & _ & Hnc)|(Cov & _ & Hfull)]);
          [congruence|].
        destruct (Hfull Ec) as (F1 & F2 & F3).
        split; [exact Cov|]. split; [|reflexivity].
        destruct Cov as (C1 & C2 & C3). lia.
      + destruct (@extend_range_highest s key W (fun _ => I))
          as (s1 & H1 & W1 & C1 & Ct & Mn & Mx); [left; auto|].
        rewrite H1. simpl bind.
        destruct (is_collapsed_ s1) eqn:Ec1.
        * exists (length s1 - 1), s1. split; [reflexivity|].
          split; [exact W1|]. split; [exact C1|]. split; [|exact Ct].
          destruct W1
            as (_ & _ & _ & [(_ & _ & _ & Hnc)|(_ & _ & Hfull)]);
            [congruence|].
          destruct (Hfull Ec1) as (F1 & F2 & F3).
          destruct C1 as (C1 & C2 & C3). lia.
        * exists (key - offset_ s1), s1. split; [reflexivity|].
          split; [exact W1|]. split; [exact C1|]. split; [|exact Ct].
          specialize (Mx eq_refl). destruct C1 as (C1 & C2 & C3). lia.
    - rewrite Z.gtb_ltb in E1. apply Z.ltb_ge in E1.
      destruct (key <? min_key_ s) eqn:E2.
      + apply Z.ltb_lt in E2.
        destruct (@extend_range_highest s key W (fun _ => I))
          as (s1 & H1 & W1 & C1 & Ct & Mn & Mx); [right; exact E2|].
        rewrite H1. simpl bind.
        exists (key - offset_ s1), s1. split; [reflexivity|].
        split; [exact W1|]. split; [exact C1|]. split; [|exact Ct].
        specialize (Mn E2). destruct C1 as (C1 & C2 & C3). lia.
      + apply Z.ltb_ge in E2.
        exists (key - offset_ s), s. split; [reflexivity|].
        split; [exact W|].
        split; [apply (wfc_between W I); lia|]. split; [lia|reflexivity]. }
  destruct G as (idx & s1 & H1 & W1 & C1 & K & Ct).
  unfold add. rewrite H1. simpl bind.
  destruct (@add_at_wfc s1 idx weight W1 C1 K) as (b & Hb & Wb).
  rewrite Hb. simpl bind. eexists. split; [reflexivity|].
  split; [exact Wb|]. simpl. now rewrite Ct.
Qed.

(** The stores that a sequence of [add]s produces from a new store of the
    given kind. *)
Definition new_store (k : Store.kind) (bin_limit chunk_size : Z) : Store.t :=
  match k with
  | Dense => BaseDenseStore chunk_size
  | CollapsingLowest | CollapsingHighest =>
      CollapsingDenseStore bin_limit chunk_size
  end.

Inductive added (k : Store.kind) : Store.t -> Prop :=
| added_new (bin_limit chunk_size : Z) :
    (k <> Dense -> 0 < bin_limit) -> 0 < chunk_size ->
    added k (new_store k bin_limit chunk_size)
| added_add (s s' : Store.t) (key : Z) (weight : R) :
    added k s -> is_index key ->
    add k s key weight = Ok s' -> added k s'.

(** In the model.
    Sum preservation for every kind of store: after any
    sequence of [add] calls the bins sum to the count, and the next [add]
    returns a store whose count has grown by the weight. *)
Theorem add_keeps_sum (k : Store.kind) (s : Store.t) :
  added k s ->
  BinList.sum (bins s) = Ok (count s)
  /\ forall key weight, is_index key ->
       exists s', add k s key weight = Ok s'
                  /\ count s' = (count s + weight)%R.
Proof.
  intros Ha.
  destruct k.
  - (* dense *)
    assert (W : wf s).
    { induction Ha as [bl c Hb Hc|s s' key w _ IH I H].
      - split; [exact Hc|]. split; [reflexivity|]. left. auto.
      - destruct (@add_dense s key w IH I) as (s2 & H2 & W2 & _).
        rewrite H in H2. now inversion H2. }
    split.
    + unfold bins, count. rewrite sum_ok. destruct W as (_ & Hsum & _).
      now rewrite Hsum.
    + intros key weight I.
      destruct (@add_dense s key weight W I) as (s' & H & _ & Ct & _).
      exists s'. split; [exact H|exact Ct].
  - (* collapsing lowest *)
    assert (W : wfc s).
    { induction Ha as [bl c Hb Hc|s s' key w _ IH I H].
      - split; [exact Hc|]. split; [apply Hb; discriminate|].
        split; [reflexivity|]. left. auto.
      - destruct (@add_lowest s key w IH I) as (s2 & H2 & W2 & _).
        rewrite H in H2. now inversion H2. }
    split.
    + unfold bins, count. rewrite sum_ok.
      destruct W as (_ & _ & Hsum & _). now rewrite Hsum.
    + intros key weight I.
      destruct (@add_lowest s key weight W I) as (s' & H & _ & Ct).
      exists s'. split; [exact H|exact Ct].
  - (* collapsing highest *)
    assert (W : wfc s).
    { induction Ha as [bl c Hb Hc|s s' key w _ IH I H].
      - split; [exact Hc|]. split; [apply Hb; discriminate|].
        split; [reflexivity|]. left. auto.
      - destruct (@add_highest s key w IH I) as (s2 & H2 & W2 & _).
        rewrite H in H2. now inversion H2. }
    split.
    + unfold bins, count. rewrite sum_ok.
      destruct W as (_ & _ & Hsum & _). now rewrite Hsum.
    + intros key weight I.
      destruct (@add_highest s key weight W I) as (s' & H & _ & Ct).
      exists s'. split; [exact H|exact Ct].
Qed.

End CollapsingAddFacts.

(** ** Merging collapsing stores *)

Module CollapsingFacts.

Import BinList BinListFacts Store.
Local Open Scope Z_scope.
Local Open Scope result_scope.

(** The merge of two collapsing-lowest stores as section 4.3.4 of the
    specification words it: the count folded into the first bin is the sum
    of the counters of [store], the other store.  It differs from
    [Store.merge_lowest] in the list given to [collapsed_count] only. *)
Definition merge_lowest_as_specified (s store : Store.t) : Store.M Store.t :=
  if Req_dec_T (count_ store) 0 then Ok s
  else if Req_dec_T (count_ s) 0 then Ok (copy CollapsingLowest s store)
  else
    s1 <- merge_extend CollapsingLowest s store ;;
    let collapse_start_idx := min_key_ store - offset_ store in
    let collapse_end_idx :=
      Z.min (min_key_ s1) (max_key_ store + 1) - offset_ store in
    '(s2, collapse_end_idx) <-
      (if collapse_end_idx >? collapse_start_idx then
         collapsed_count <-
           BinList.collapsed_count (bins_ store)
             collapse_start_idx collapse_end_idx ;;
         b <- BinList.add_first (bins_ s1) collapsed_count ;;
         Ok (set_bins s1 b, collapse_end_idx)
       else Ok (s1, collapse_start_idx)) ;;
    s3 <- add_bins s2 store (collapse_end_idx + offset_ store)
            (max_key_ store) ;;
    Ok (set_count s3 (count_ s3 + count_ store)%R).

(** Two stores of bin limit 2: one after [add(10, 5)], one after
    [add(0, 1)]. *)
Definition high_store : Store.t :=
  Store.mk (0 + 5) 10 10 128 9 [0%R; (0 + 5)%R] 2 false.

Definition low_store : Store.t :=
  Store.mk (0 + 1) 0 0 128 (-1) [0%R; (0 + 1)%R] 2 false.

Lemma high_store_built :
  add CollapsingLowest (CollapsingDenseStore 2 kChunkSize) 10 5%R
  = Ok high_store.
Proof. cbv -[Rplus IZR]. reflexivity. Qed.

Lemma low_store_built :
  add CollapsingLowest (CollapsingDenseStore 2 kChunkSize) 0 1%R
  = Ok low_store.
Proof. cbv -[Rplus IZR]. reflexivity. Qed.

(** Both stores come from [add] alone, so each of them satisfies the sum
    invariant before the merge. *)
Lemma high_store_added : CollapsingAddFacts.added CollapsingLowest high_store.
Proof.
  apply CollapsingAddFacts.added_add
    with (s := CollapsingAddFacts.new_store CollapsingLowest 2 kChunkSize)
         (key := 10) (weight := 5%R).
  - apply CollapsingAddFacts.added_new; unfold kChunkSize; lia.
  - unfold DenseFacts.is_index, INT64_MIN, INT64_MAX. lia.
  - exact high_store_built.
Qed.

Lemma low_store_added : CollapsingAddFacts.added CollapsingLowest low_store.
Proof.
  apply CollapsingAddFacts.added_add
    with (s := CollapsingAddFacts.new_store CollapsingLowest 2 kChunkSize)
         (key := 0) (weight := 1%R).
  - apply CollapsingAddFacts.added_new; unfold kChunkSize; lia.
  - unfold DenseFacts.is_index, INT64_MIN, INT64_MAX. lia.
  - exact low_store_built.
Qed.

Lemma sums_before_merge :
  BinList.sum (bins high_store) = Ok (count high_store)
  /\ BinList.sum (bins low_store) = Ok (count low_store).
Proof.
  unfold bins, count. rewrite !BinListFacts.sum_ok.
  split; f_equal; unfold BinList.accumulate; simpl; lra.
Qed.

Lemma add_keeps_sum_witness :
  CollapsingAddFacts.added CollapsingLowest high_store
  /\ BinList.sum (bins high_store) = Ok (count high_store)
  /\ forall key weight,
       DenseFacts.is_index key ->
       exists s', add CollapsingLowest high_store key weight = Ok s'
                  /\ count s' = (count high_store + weight)%R.
Proof.
  split; [exact high_store_added|].
  exact (CollapsingAddFacts.add_keeps_sum high_store_added).
Defined.

(** What the code returns for [high_store.merge(low_store)]. *)
Definition merged_by_code : Store.t :=
  Store.mk (0 + 5 + (0 + 1)) 9 10 128 9
    [(0 + (0 + (0 + 5)))%R; (0 + 5)%R] 2 true.

(** What the specified merge returns. *)
Definition merged_as_specified : Store.t :=
  Store.mk (0 + 5 + (0 + 1)) 9 10 128 9
    [(0 + (0 + (0 + 1)))%R; (0 + 5)%R] 2 true.

Lemma merge_lowest_run :
  merge CollapsingLowest high_store low_store = Ok merged_by_code.
Proof.
  cbv -[Rplus IZR Req_dec_T].
  destruct (Req_dec_T (0 + 1) 0) as [E|_]; [exfalso; lra|].
  destruct (Req_dec_T (0 + 5) 0) as [E|_]; [exfalso; lra|].
  reflexivity.
Qed.

Lemma merge_lowest_as_specified_run :
  merge_lowest_as_specified high_store low_store = Ok merged_as_specified.
Proof.
  cbv -[Rplus IZR Req_dec_T].
  destruct (Req_dec_T (0 + 1) 0) as [E|_]; [exfalso; lra|].
  destruct (Req_dec_T (0 + 5) 0) as [E|_]; [exfalso; lra|].
  reflexivity.
Qed.

(** C2 on the code: merging a store that holds weight 1 at key 0 into a
    store of bin limit 2 that holds weight 5 at key 10 collapses key 0 into
    the first bin.  The specified merge adds 1, the sum of the other store
    over the collapsed keys, to that bin; the code adds 5, the receiver's
    own counter found at the same indices. *)
Theorem merge_lowest_folds_receiver_bins :
  add CollapsingLowest (CollapsingDenseStore 2 kChunkSize) 10 5%R
  = Ok high_store
  /\ add CollapsingLowest (CollapsingDenseStore 2 kChunkSize) 0 1%R
     = Ok low_store
  /\ (exists r, merge CollapsingLowest high_store low_store = Ok r
                /\ bins_ r = [5%R; 5%R] /\ offset_ r = 9)
  /\ (exists r, merge_lowest_as_specified high_store low_store = Ok r
                /\ bins_ r = [1%R; 5%R] /\ offset_ r = 9)
  /\ merge CollapsingLowest high_store low_store
     <> merge_lowest_as_specified high_store low_store.
Proof.
  split; [exact high_store_built|]. split; [exact low_store_built|].
  rewrite merge_lowest_run, merge_lowest_as_specified_run.
  split; [|split].
  - exists merged_by_code. split; [reflexivity|]. split; [|reflexivity].
    simpl. repeat f_equal; lra.
  - exists merged_as_specified. split; [reflexivity|]. split; [|reflexivity].
    simpl. repeat f_equal; lra.
  - intros E. inversion E as [E1]. lra.
Qed.

Lemma is_empty_iff (s : Store.t) : is_empty s = true <-> length s = 0.
Proof. unfold is_empty, kEmptyStoreLength. apply Z.eqb_eq. Qed.

(** The mirror image on collapsing-highest stores: weight 5 at key 0, then
    a merge of weight 1 at key 10.  The weight of the other store is lost,
    the bins sum to 5 and the count is 6. *)
Lemma merge_highest_run :
  exists a b r total,
    add CollapsingHighest (CollapsingDenseStore 2 kChunkSize) 0 5%R = Ok a
    /\ add CollapsingHighest (CollapsingDenseStore 2 kChunkSize) 10 1%R
       = Ok b
    /\ merge CollapsingHighest a b = Ok r
    /\ BinList.sum (bins r) = Ok total
    /\ total = 5%R /\ count r = 6%R.
Proof.
  do 4 eexists. split; [cbv -[Rplus IZR]; reflexivity|].
  split; [cbv -[Rplus IZR]; reflexivity|]. split.
  - cbv -[Rplus IZR Req_dec_T].
    destruct (Req_dec_T (0 + 1) 0) as [E|_]; [exfalso; lra|].
    destruct (Req_dec_T (0 + 5) 0) as [E|_]; [exfalso; lra|].
    reflexivity.
  - split; [cbv -[Rplus IZR]; reflexivity|]. split; simpl; lra.
Qed.

(** C5 on the code: after the two [add]s and the merge above, the bins of
    the receiver sum to 10 while its count is 6. *)
Theorem merge_lowest_breaks_sum :
  exists r total,
    bind (add CollapsingLowest (CollapsingDenseStore 2 kChunkSize) 10 5%R)
      (fun a =>
         bind (add CollapsingLowest (CollapsingDenseStore 2 kChunkSize) 0 1%R)
           (fun b => merge CollapsingLowest a b))
    = Ok r
    /\ BinList.sum (bins r) = Ok total
    /\ total = 10%R
    /\ count r = 6%R
    /\ BinList.sum (bins r) <> Ok (count r).
Proof.
  exists merged_by_code. eexists.
  rewrite high_store_built, low_store_built. simpl bind.
  split; [exact merge_lowest_run|].
  split; [apply sum_ok|].
  assert (T : accumulate (bins merged_by_code) = 10%R).
  { simpl. rewrite !accumulate_cons, accumulate_nil. lra. }
  split; [exact T|]. split; [simpl; lra|].
  rewrite sum_ok, T. intros E. inversion E as [E1]. simpl in E1. lra.
Qed.

End CollapsingFacts.

(** ** The sketch: construction, queries, merge *)

Module SketchFacts.

Import Sketch.
Local Open Scope R_scope.

(** C10: on a sketch as the constructor leaves it, whatever the mapping and
    the two stores it is given, [avg()] divides 0 by 0 and returns NaN. *)
Theorem avg_of_new_sketch_is_nan :
  forall (mapping : Mapping.t) (store negative_store : Store.t),
    count_ (BaseDDSketch mapping store negative_store) = 0
    /\ sum_ (BaseDDSketch mapping store negative_store) = 0
    /\ avg (BaseDDSketch mapping store negative_store) = NaN.
Proof.
  intros. unfold avg, fdiv, BaseDDSketch. simpl.
  destruct (Req_dec_T 0 0) as [_|N]; [auto|lra].
Qed.

(** [avg] has no guard: it is NaN exactly when both scalars are 0. *)
Lemma avg_nan_iff (s : t) : avg s = NaN <-> count_ s = 0 /\ sum_ s = 0.
Proof.
  unfold avg, fdiv.
  destruct (Req_dec_T (count_ s) 0) as [C|C];
    [destruct (Req_dec_T (sum_ s) 0) as [S|S];
     [|destruct (Rlt_dec 0 (sum_ s))]|];
    split; intros H; try discriminate; try tauto; now destruct H.
Qed.


(** C9: [mergeable] holds exactly when the two gammas are equal, and [merge]
    throws [UnequalSketchParametersException] exactly when they differ; the
    test comes first, so the counts of the two sketches play no part. *)
Theorem merge_unequal_parameters :
  forall (k : Store.kind) (s other : t),
    (mergeable s other = true
     <-> Mapping.gamma (mapping_ s) = Mapping.gamma (mapping_ other))
    /\ (merge k s other = Throw UnequalSketchParametersException
        <-> Mapping.gamma (mapping_ s) <> Mapping.gamma (mapping_ other)).
Proof.
  intros k s other. split.
  - unfold mergeable. apply Reqb'_true.
  - unfold merge. destruct (mergeable s other) eqn:E; simpl.
    + apply Reqb'_true in E. split; [|contradiction].
      destruct (Req_dec_T (count_ other) 0); [discriminate|].
      destruct (Req_dec_T (count_ s) 0); [discriminate|].
      unfold from_store.
      destruct (Store.merge k (store_ s) (store_ other)); simpl;
        try discriminate.
      destruct (Store.merge k (negative_store_ s) (negative_store_ other));
        simpl; discriminate.
    + apply Reqb'_false in E. tauto.
Qed.

(** The scalars after [add], whatever happens in the stores. *)
Lemma add_scalars (k : Store.kind) (s s' : t) (val weight : R) :
  add k s val weight = Ok s' ->
  mapping_ s' = mapping_ s
  /\ count_ s' = count_ s + weight
  /\ sum_ s' = sum_ s + val * weight
  /\ min_ s' = (if Rltb' val (min_ s) then val else min_ s)
  /\ max_ s' = (if Rgtb val (max_ s) then val else max_ s).
Proof.
  unfold add. destruct (Rleb' weight 0); [discriminate|].
  destruct (Rgtb val (Mapping.min_possible (mapping_ s))).
  - unfold from_store.
    destruct (Store.add k (store_ s) _ weight); simpl; try discriminate.
    intros E; inversion E; subst; simpl; auto.
  - destruct (Rltb' val (- Mapping.min_possible (mapping_ s))).
    + unfold from_store.
      destruct (Store.add k (negative_store_ s) _ weight); simpl;
        try discriminate.
      intros E; inversion E; subst; simpl; auto.
    + simpl. intros E; inversion E; subst; simpl; auto.
Qed.

(** The first key put into a fresh dense store: the bins are centred on
    the key. *)
Definition one_key_store (weight : R) : Store.t :=
  Store.mk (0 + weight) 0 0 128 (-64)
    (repeat 0 64 ++ [0 + weight] ++ repeat 0 63) 0 false.

Lemma dense_first_add (weight : R) :
  Store.add Store.Dense Store.DenseStore 0 weight
  = Ok (one_key_store weight).
Proof. cbv -[Rplus IZR]. reflexivity. Qed.

(** C4 on the code: the constructor sets [min_] to the largest finite double
    and [max_] to the smallest positive normal double, and the other three
    scalars to 0.  The first [add(-1, 1)] on [DDSketch(0.01)] succeeds, sets
    [min_] to -1 and leaves [max_] at that positive constant: the maximum
    recorded after a single negative value is not the value. *)
Theorem first_add_of_a_negative_value :
  exists s s',
    DDSketch (1 / 100) = Ok s
    /\ zero_count_ s = 0 /\ count_ s = 0 /\ sum_ s = 0
    /\ min_ s = DBL_MAX /\ max_ s = DBL_MIN
    /\ add Store.Dense s (-1) 1 = Ok s'
    /\ min_ s' = -1
    /\ max_ s' = DBL_MIN
    /\ max_ s' <> -1.
Proof.
  assert (Ha : 0 < 1 / 100 < 1) by lra.
  destruct (@MappingFacts.KeyMapping_ok Mapping.Logarithmic (1 / 100) 0 Ha)
    as (m & Hm & H).
  destruct H as (_ & O & _ & G & Mi & _).
  pose proof DBL_MIN_bounds as [D1 D2].
  pose proof DBL_MAX_bound as D3.
  assert (G2 : 1 < Mapping.gamma_ m < 2) by (rewrite G; lra).
  assert (MP : 0 < Mapping.min_possible m < 1).
  { unfold Mapping.min_possible. rewrite Mi. nra. }
  pose proof (dense_first_add 1) as Hst.
  set (s := BaseDDSketch m Store.DenseStore Store.DenseStore).
  assert (Hs : DDSketch (1 / 100) = Ok s).
  { unfold DDSketch, Mapping.LogarithmicMapping. rewrite Hm. reflexivity. }
  assert (Hadd : exists s', add Store.Dense s (-1) 1 = Ok s').
  { unfold add.
    replace (Rleb' 1 0) with false by (symmetry; apply Rleb'_false; lra).
    replace (Rgtb (-1) (Mapping.min_possible (mapping_ s))) with false
      by (symmetry; apply Rgtb_false; simpl; lra).
    replace (Rltb' (-1) (- Mapping.min_possible (mapping_ s))) with true
      by (symmetry; apply Rltb'_true; simpl; lra).
    replace (- -1) with 1 by lra.
    simpl mapping_. rewrite MappingFacts.key_1, O.
    rewrite (Rtrunc_IZR 0). simpl negative_store_.
    rewrite Hst. simpl. eauto. }
  destruct Hadd as (s' & Hs').
  exists s, s'. split; [exact Hs|].
  do 5 (split; [reflexivity|]).
  split; [exact Hs'|].
  destruct (add_scalars _ _ _ _ Hs') as (_ & _ & _ & Emin & Emax).
  simpl in Emin, Emax.
  replace (Rltb' (-1) DBL_MAX) with true in Emin
    by (symmetry; apply Rltb'_true; lra).
  replace (Rgtb (-1) DBL_MIN) with false in Emax
    by (symmetry; apply Rgtb_false; lra).
  rewrite Emin, Emax. repeat split; lra.
Qed.

(** [add] of a value above [min_possible]. *)
Lemma add_positive (k : Store.kind) (s : t) (val weight : R) (st : Store.t) :
  0 < weight ->
  val > Mapping.min_possible (mapping_ s) ->
  Store.add k (store_ s) (Mapping.key (mapping_ s) val) weight = Ok st ->
  add k s val weight
  = Ok (mk (mapping_ s) st (negative_store_ s) (zero_count_ s)
           (count_ s + weight)
           (if Rltb' val (min_ s) then val else min_ s)
           (if Rgtb val (max_ s) then val else max_ s)
           (sum_ s + val * weight)).
Proof.
  intros Hw Hv Hst. unfold add.
  replace (Rleb' weight 0) with false by (symmetry; apply Rleb'_false; lra).
  replace (Rgtb val (Mapping.min_possible (mapping_ s))) with true
    by (symmetry; apply Rgtb_true; lra).
  rewrite Hst. reflexivity.
Qed.

Lemma key_at_rank_copy (k : Store.kind) (a b : Store.t) (r : R) (l : bool) :
  Store.key_at_rank (Store.copy k a b) r l = Store.key_at_rank b r l.
Proof. destruct k; reflexivity. Qed.

Lemma count_copy (k : Store.kind) (a b : Store.t) :
  Store.count (Store.copy k a b) = Store.count b.
Proof. destruct k; reflexivity. Qed.

(** What [copy] takes from the other sketch: the contents of the two
    stores and the five scalars. *)
Lemma copy_fields (k : Store.kind) (s o : t) :
  mapping_ (copy k s o) = mapping_ s
  /\ Store.bins (store_ (copy k s o)) = Store.bins (store_ o)
  /\ Store.offset (store_ (copy k s o)) = Store.offset (store_ o)
  /\ Store.bins (negative_store_ (copy k s o))
     = Store.bins (negative_store_ o)
  /\ Store.offset (negative_store_ (copy k s o))
     = Store.offset (negative_store_ o)
  /\ zero_count_ (copy k s o) = zero_count_ o
  /\ count_ (copy k s o) = count_ o
  /\ min_ (copy k s o) = min_ o
  /\ max_ (copy k s o) = max_ o
  /\ sum_ (copy k s o) = sum_ o.
Proof. destruct k; repeat split; reflexivity. Qed.

(** The copy answers as the original does, through the receiver's mapping. *)
Lemma get_quantile_value_copy (k : Store.kind) (s o : t) (q : R) :
  mapping_ s = mapping_ o ->
  get_quantile_value (copy k s o) q = get_quantile_value o q.
Proof.
  intros E. unfold get_quantile_value, copy. simpl.
  now rewrite !key_at_rank_copy, !count_copy, E.
Qed.

(** Two mappings of one class, built by its constructor, with the same
    gamma and the same offset are the same mapping. *)
Lemma built_mappings_equal (kd : Mapping.kind) (a1 a2 off : R)
    (m1 m2 : Mapping.t) :
  Mapping.KeyMapping kd a1 off = Ok m1 ->
  Mapping.KeyMapping kd a2 off = Ok m2 ->
  Mapping.gamma m1 = Mapping.gamma m2 ->
  m1 = m2.
Proof.
  unfold Mapping.KeyMapping, Mapping.gamma.
  destruct (Rleb' a1 0) eqn:L1; [discriminate|].
  destruct (Rgeb a1 1) eqn:G1; [discriminate|].
  destruct (Rleb' a2 0) eqn:L2; [discriminate|].
  destruct (Rgeb a2 1) eqn:G2; [discriminate|].
  apply Rleb'_false in L1, L2. apply Rgeb_false in G1, G2. simpl.
  intros E1 E2. inversion E1; inversion E2; subst; simpl. intros G.
  assert (A : a1 = a2).
  { assert (G' : 2 * a1 / (1 - a1) = 2 * a2 / (1 - a2)) by lra.
    apply (f_equal (fun x => x * (1 - a1) * (1 - a2))) in G'.
    field_simplify in G'; lra. }
  now subst.
Qed.

(** [merge] with an empty sketch on either side, as the code has it.
    [merge] returns the receiver after the call and has no access to the
    other sketch but to read it.  With equal gammas: if
    the other sketch is empty the receiver is returned as it was; if the
    receiver is empty and the other is not, the receiver becomes [copy],
    which takes the stores and scalars of the other sketch and keeps its own
    mapping, and then every quantile query is answered as by the other
    sketch provided the two mappings are equal. *)
Theorem merge_with_an_empty_sketch :
  forall (k : Store.kind) (s other : t),
    Mapping.gamma (mapping_ s) = Mapping.gamma (mapping_ other) ->
    (count_ other = 0 -> merge k s other = Ok s)
    /\ (count_ other <> 0 -> count_ s = 0 ->
        merge k s other = Ok (copy k s other)
        /\ (mapping_ s = mapping_ other ->
            forall q,
              get_quantile_value (copy k s other) q
              = get_quantile_value other q)).
Proof.
  intros k s other G.
  assert (Mg : mergeable s other = true) by (now apply Reqb'_true).
  unfold merge. rewrite Mg. simpl. split.
  - intros C. destruct (Req_dec_T (count_ other) 0); [reflexivity|easy].
  - intros C1 C2.
    destruct (Req_dec_T (count_ other) 0); [easy|].
    destruct (Req_dec_T (count_ s) 0); [|easy].
    split; [reflexivity|]. intros E q. now apply get_quantile_value_copy.
Qed.

(** A logarithmic mapping of accuracy 0.01 sends 1 above [min_possible]. *)
Lemma one_above_min_possible (off : R) (m : Mapping.t) :
  Mapping.LogarithmicMapping (1 / 100) off = Ok m ->
  0 < Mapping.min_possible m < 1.
Proof.
  intros Hm.
  assert (Ha : 0 < 1 / 100 < 1) by lra.
  destruct (@MappingFacts.log_fields _ _ _ Ha Hm) as (_ & _ & _ & G & Mi & _).
  pose proof DBL_MIN_bounds as [D1 D2].
  assert (G2 : 1 < Mapping.gamma_ m < 2) by (rewrite G; lra).
  unfold Mapping.min_possible. rewrite Mi. nra.
Qed.

(** [DDSketch(0.01)] after [add(1)]: the result exists, its count is 1 and
    its positive store holds the single key 0. *)
Lemma add_one_to_new_sketch (m : Mapping.t) :
  Mapping.LogarithmicMapping (1 / 100) 0 = Ok m ->
  exists o,
    add Store.Dense (BaseDDSketch m Store.DenseStore Store.DenseStore) 1 1
    = Ok o
    /\ mapping_ o = m
    /\ store_ o = one_key_store 1
    /\ negative_store_ o = Store.DenseStore
    /\ zero_count_ o = 0
    /\ count_ o = 0 + 1.
Proof.
  intros Hm.
  assert (Ha : 0 < 1 / 100 < 1) by lra.
  destruct (@MappingFacts.log_fields _ _ _ Ha Hm) as (_ & O & _).
  pose proof (@one_above_min_possible _ _ Hm) as MP.
  eexists. split.
  - apply add_positive; [lra|simpl; lra|].
    simpl mapping_. rewrite MappingFacts.key_1, O, (Rtrunc_IZR 0).
    apply dense_first_add.
  - simpl. repeat split; reflexivity.
Qed.

Lemma key_at_rank_one_key (rank : R) :
  0 <= rank < 1 -> Store.key_at_rank (one_key_store 1) rank true = 0%Z.
Proof.
  intros Hr. apply RankFacts.key_at_rank_least.
  - unfold RankFacts.in_window, Store.length, BinList.size. simpl. lia.
  - unfold RankFacts.reached, RankFacts.cumulative. simpl Store.offset_.
    change (firstn (Z.to_nat (0 - -64 + 1)) (Store.bins_ (one_key_store 1)))
      with (repeat 0 64 ++ [0 + 1]).
    rewrite BinListFacts.accumulate_app, BinListFacts.accumulate_repeat_0,
      BinListFacts.accumulate_cons, BinListFacts.accumulate_nil.
    lra.
  - intros K' W L. unfold RankFacts.in_window in W. simpl in W.
    unfold RankFacts.reached, RankFacts.cumulative. simpl Store.offset_.
    change (Store.bins_ (one_key_store 1))
      with (repeat 0 64 ++ ([0 + 1] ++ repeat 0 63)).
    rewrite firstn_app, repeat_length, BinListFacts.accumulate_app.
    replace (Z.to_nat (K' - -64 + 1) - 64)%nat with 0%nat by lia.
    rewrite firstn_O, BinListFacts.accumulate_nil.
    assert (N : Forall (fun c => 0 <= c) (repeat 0 64)).
    { apply Forall_forall. intros x Hx. apply repeat_spec in Hx. lra. }
    pose proof (BinListFacts.accumulate_firstn_le
                  (Z.to_nat (K' - -64 + 1)) N) as Hle.
    rewrite BinListFacts.accumulate_repeat_0 in Hle. lra.
Qed.

(** The median of a sketch that holds one positive value in key 0. *)
Lemma median_of_one_key (x : t) :
  store_ x = one_key_store 1 ->
  negative_store_ x = Store.DenseStore ->
  zero_count_ x = 0 ->
  count_ x = 0 + 1 ->
  get_quantile_value x (1 / 2) = Finite (Mapping.value (mapping_ x) 0).
Proof.
  intros Hs Hn Hz Hc. unfold get_quantile_value.
  rewrite Hs, Hn, Hz, Hc. simpl Store.count.
  replace (Rltb' (1 / 2) 0) with false by (symmetry; apply Rltb'_false; lra).
  replace (Rgtb (1 / 2) 1) with false by (symmetry; apply Rgtb_false; lra).
  replace (Reqb' (0 + 1) 0) with false by (symmetry; apply Reqb'_false; lra).
  simpl orb. cbv iota.
  replace (Rltb' (1 / 2 * (0 + 1 - 1)) 0) with false
    by (symmetry; apply Rltb'_false; lra).
  replace (Rltb' (1 / 2 * (0 + 1 - 1)) (0 + 0)) with false
    by (symmetry; apply Rltb'_false; lra).
  rewrite key_at_rank_one_key by lra. reflexivity.
Qed.

Lemma merge_with_an_empty_sketch_witness :
  exists s o,
    DDSketch (1 / 100) = Ok s
    /\ add Store.Dense s 1 1 = Ok o
    /\ merge Store.Dense o s = Ok o
    /\ merge Store.Dense s o = Ok (copy Store.Dense s o)
    /\ forall q,
         get_quantile_value (copy Store.Dense s o) q
         = get_quantile_value o q.
Proof.
  assert (Ha : 0 < 1 / 100 < 1) by lra.
  destruct (@MappingFacts.KeyMapping_ok Mapping.Logarithmic (1 / 100) 0 Ha)
    as (m & Hm & _).
  destruct (add_one_to_new_sketch Hm) as (o & Ho & Mo & _ & _ & _ & Co).
  exists (BaseDDSketch m Store.DenseStore Store.DenseStore), o.
  split.
  { unfold DDSketch. unfold Mapping.LogarithmicMapping. rewrite Hm.
    reflexivity. }
  split; [exact Ho|].
  split.
  - apply (merge_with_an_empty_sketch Store.Dense o
             (BaseDDSketch m Store.DenseStore Store.DenseStore)).
    + rewrite Mo. reflexivity.
    + reflexivity.
  - destruct (merge_with_an_empty_sketch Store.Dense
                (BaseDDSketch m Store.DenseStore Store.DenseStore) o)
      as (_ & H).
    + rewrite Mo. reflexivity.
    + destruct H as (H1 & H2).
      * rewrite Co. lra.
      * reflexivity.
      * split; [exact H1|]. apply H2. rewrite Mo. reflexivity.
Defined.

(** C8.  [merge] into an empty receiver does not make it answer as the
    other sketch.  The receiver has a mapping of offset 1, the other sketch
    one of offset 0 and the same gamma, and holds the single value 1: [merge]
    accepts the pair, [copy] takes over the stores and scalars and keeps the
    receiver's mapping, so the key 0 stored for the value 1 is read back as
    0.99 / gamma where the other sketch reads it as 0.99.  The median of the
    receiver is then further from 1 than the relative accuracy 0.01 that both
    sketches were built with, while the median of the other sketch is within
    it. *)
Lemma merge_into_empty_keeps_receiver_mapping :
  exists m1 m0 o,
    Mapping.LogarithmicMapping (1 / 100) 1 = Ok m1
    /\ Mapping.LogarithmicMapping (1 / 100) 0 = Ok m0
    /\ add Store.Dense (BaseDDSketch m0 Store.DenseStore Store.DenseStore)
         1 1 = Ok o
    /\ Mapping.gamma m1 = Mapping.gamma (mapping_ o)
    /\ count_ (BaseDDSketch m1 Store.DenseStore Store.DenseStore) = 0
    /\ merge Store.Dense
         (BaseDDSketch m1 Store.DenseStore Store.DenseStore) o
       = Ok (copy Store.Dense
               (BaseDDSketch m1 Store.DenseStore Store.DenseStore) o)
    /\ get_quantile_value
         (copy Store.Dense
            (BaseDDSketch m1 Store.DenseStore Store.DenseStore) o) (1 / 2)
       <> get_quantile_value o (1 / 2)
    /\ (exists x, get_quantile_value o (1 / 2) = Finite x
                  /\ Rabs (x - 1) <= 1 / 100 * Rabs 1)
    /\ (exists y,
          get_quantile_value
            (copy Store.Dense
               (BaseDDSketch m1 Store.DenseStore Store.DenseStore) o) (1 / 2)
          = Finite y
          /\ 1 / 100 * Rabs 1 < Rabs (y - 1)).
Proof.
  assert (Ha : 0 < 1 / 100 < 1) by lra.
  destruct (@MappingFacts.KeyMapping_ok Mapping.Logarithmic (1 / 100) 1 Ha)
    as (m1 & Hm1 & _ & O1 & _ & G1 & _).
  destruct (@MappingFacts.KeyMapping_ok Mapping.Logarithmic (1 / 100) 0 Ha)
    as (m0 & Hm0 & _ & O0 & _ & G0 & _).
  destruct (add_one_to_new_sketch Hm0) as (o & Ho & Mo & So & No & Zo & Co).
  exists m1, m0, o.
  split; [exact Hm1|]. split; [exact Hm0|]. split; [exact Ho|].
  assert (G : Mapping.gamma m1 = Mapping.gamma (mapping_ o)).
  { rewrite Mo. unfold Mapping.gamma. now rewrite G1, G0. }
  split; [exact G|]. split; [reflexivity|].
  split.
  { unfold merge, mergeable. simpl mapping_.
    replace (Reqb' (Mapping.gamma m1) (Mapping.gamma (mapping_ o))) with true
      by (symmetry; now apply Reqb'_true).
    simpl negb. cbv iota.
    destruct (Req_dec_T (count_ o) 0) as [E|_]; [rewrite Co in E; lra|].
    simpl count_.
    destruct (Req_dec_T 0 0) as [_|N]; [reflexivity|lra]. }
  rewrite (median_of_one_key o So No Zo Co).
  rewrite median_of_one_key;
    [|simpl; now rewrite So|simpl; now rewrite No|exact Zo|exact Co].
  simpl mapping_. rewrite Mo. unfold Mapping.value.
  rewrite (@MappingFacts.pow_gamma_log _ _ _ Ha Hm1),
    (@MappingFacts.pow_gamma_log _ _ _ Ha Hm0),
    (@MappingFacts.gamma_alpha _ _ _ Ha Hm1),
    (@MappingFacts.gamma_alpha _ _ _ Ha Hm0), O1, O0.
  pose proof (@MappingFacts.L_pos _ _ _ Ha Hm1) as L1.
  replace ((0 - 0) * ln (Mapping.gamma_ m0)) with 0 by lra.
  rewrite exp_0.
  assert (X : exp ((0 - 1) * ln (Mapping.gamma_ m1)) < exp 0)
    by (apply exp_increasing; lra).
  rewrite exp_0 in X.
  pose proof (exp_pos ((0 - 1) * ln (Mapping.gamma_ m1))) as P.
  set (e := exp ((0 - 1) * ln (Mapping.gamma_ m1))) in *.
  rewrite Rabs_R1.
  split; [|split].
  - intros E. inversion E as [E']. lra.
  - eexists. split; [reflexivity|]. rewrite Rabs_left by lra. lra.
  - eexists. split; [reflexivity|]. rewrite Rabs_left by nra. nra.
Qed.

End SketchFacts.

Module ContentFacts.

Import BinList BinListFacts Store DenseFacts.
Local Open Scope Z_scope.

(** The weight a list of bins with the given offset holds for the key [K];
    a key outside the window has no bin and no weight. *)
Definition weight_in (b : BinList.t) (offset K : Z) : R :=
  if K <? offset then 0%R else nth (Z.to_nat (K - offset)) b 0%R.

Definition weight_at (s : Store.t) (K : Z) : R :=
  weight_in (bins_ s) (offset_ s) K.

Definition in_window_b (s : Store.t) (K : Z) : bool :=
  (offset_ s <=? K) && (K <? offset_ s + length s).

Lemma weight_in_outside (b : BinList.t) (offset K : Z) :
  K < offset \/ offset + size b <= K -> weight_in b offset K = 0%R.
Proof.
  intros H. unfold weight_in, size in *.
  destruct (K <? offset) eqn:E; [reflexivity|].
  apply Z.ltb_ge in E. apply nth_overflow. lia.
Qed.

Lemma weight_in_nth (b : BinList.t) (offset : Z) (i : nat) :
  weight_in b offset (offset + Z.of_nat i) = nth i b 0%R.
Proof.
  unfold weight_in.
  replace (offset + Z.of_nat i <? offset) with false
    by (symmetry; apply Z.ltb_ge; lia).
  f_equal. lia.
Qed.

Lemma weight_in_inside (b : BinList.t) (offset K : Z) :
  offset <= K -> weight_in b offset K = nth (Z.to_nat (K - offset)) b 0%R.
Proof.
  intros H. unfold weight_in.
  now replace (K <? offset) with false by (symmetry; apply Z.ltb_ge; lia).
Qed.

Lemma weight_in_nil (offset K : Z) : weight_in [] offset K = 0%R.
Proof. apply weight_in_outside. unfold size. simpl. lia. Qed.

Lemma weight_in_zero_outside (b : BinList.t) (offset lo hi K : Z) :
  zero_outside b offset lo hi -> K < lo \/ hi < K ->
  weight_in b offset K = 0%R.
Proof.
  intros Z0 H.
  destruct (Z_lt_ge_dec K offset) as [L|G];
    [apply weight_in_outside; now left|].
  destruct (Z_lt_ge_dec K (offset + size b)) as [L2|G2];
    [|apply weight_in_outside; right; lia].
  rewrite weight_in_inside by lia. unfold size in L2.
  apply Z0; lia.
Qed.

Lemma weight_in_zeros (n offset K : Z) : weight_in (zeros n) offset K = 0%R.
Proof.
  unfold weight_in, zeros. destruct (K <? offset); [reflexivity|].
  apply nth_repeat.
Qed.

Lemma weight_in_app_zeros (b : BinList.t) (n offset K : Z) :
  weight_in (b ++ zeros n) offset K = weight_in b offset K.
Proof.
  unfold weight_in. destruct (K <? offset); [reflexivity|].
  set (j := Z.to_nat (K - offset)).
  destruct (Nat.lt_ge_cases j (List.length b)) as [L|G].
  - now rewrite app_nth1.
  - rewrite app_nth2 by exact G. unfold zeros. rewrite nth_repeat.
    symmetry. now apply nth_overflow.
Qed.

(** What [shift_bins] does to the bins, key by key: the window moves, the
    weights inside the new window stay with their keys and the bins that
    leave the window are dropped. *)
Lemma shift_bins_content (s s' : Store.t) (shift : Z) :
  shift_bins s shift = Ok s' ->
  offset_ s' = offset_ s - shift
  /\ length s' = length s
  /\ min_key_ s' = min_key_ s /\ max_key_ s' = max_key_ s
  /\ count_ s' = count_ s /\ chunk_size_ s' = chunk_size_ s
  /\ forall K, weight_at s' K
               = if in_window_b s' K then weight_at s K else 0%R.
Proof.
  unfold shift_bins, in_window_b, weight_at, length, size.
  set (b := bins_ s). set (len := List.length b).
  destruct (shift >? 0) eqn:E.
  - apply Z.gtb_lt in E.
    unfold remove_trailing_elements, extend_front_with_zeros, size. fold len.
    destruct ((0 <=? shift) && (shift <=? Z.of_nat len)) eqn:B;
      [|discriminate].
    apply andb_true_iff in B. destruct B as (_ & B). apply Z.leb_le in B.
    simpl bind.
    replace (0 <=? shift) with true by (symmetry; apply Z.leb_le; lia).
    simpl bind. intros H. inversion H; subst s'; clear H. simpl.
    set (keep := Z.to_nat (Z.of_nat len - shift)).
    assert (Lk : List.length (firstn keep b) = keep).
    { rewrite length_firstn. unfold keep. fold len. lia. }
    assert (Ln : List.length (zeros shift ++ firstn keep b) = len).
    { rewrite length_app, Lk. unfold zeros. rewrite repeat_length.
      unfold keep. lia. }
    repeat (split; [first [reflexivity|lia]|]).
    intros K. rewrite Ln.
    unfold weight_in.
    destruct (K <? offset_ s - shift) eqn:E1.
    + apply Z.ltb_lt in E1.
      replace (offset_ s - shift <=? K) with false
        by (symmetry; apply Z.leb_gt; lia).
      reflexivity.
    + apply Z.ltb_ge in E1.
      replace (offset_ s - shift <=? K) with true
        by (symmetry; apply Z.leb_le; lia).
      simpl andb.
      set (j := Z.to_nat (K - (offset_ s - shift))).
      destruct (Nat.lt_ge_cases j (Z.to_nat shift)) as [Lt|Ge].
      * unfold zeros. rewrite app_nth1 by (rewrite repeat_length; exact Lt).
        rewrite nth_repeat.
        replace (K <? offset_ s) with true
          by (symmetry; apply Z.ltb_lt; unfold j in Lt; lia).
        now destruct (K <? offset_ s - shift + Z.of_nat len).
      * unfold zeros. rewrite app_nth2 by (rewrite repeat_length; exact Ge).
        rewrite repeat_length, nth_firstn.
        replace (K <? offset_ s) with false
          by (symmetry; apply Z.ltb_ge; unfold j in Ge; lia).
        replace (j - Z.to_nat shift)%nat with (Z.to_nat (K - offset_ s))
          by (unfold j; lia).
        destruct (K <? offset_ s - shift + Z.of_nat len) eqn:E2.
        -- apply Z.ltb_lt in E2.
           now replace (Z.to_nat (K - offset_ s) <? keep)%nat with true
             by (symmetry; apply Nat.ltb_lt; unfold keep; lia).
        -- apply Z.ltb_ge in E2.
           now replace (Z.to_nat (K - offset_ s) <? keep)%nat with false
             by (symmetry; apply Nat.ltb_ge; unfold keep; lia).
  - rewrite Z.gtb_ltb in E. apply Z.ltb_ge in E.
    unfold remove_leading_elements, extend_back_with_zeros, size. fold len.
    destruct ((0 <=? Z.abs shift) && (Z.abs shift <=? Z.of_nat len)) eqn:B;
      [|discriminate].
    apply andb_true_iff in B. destruct B as (_ & B). apply Z.leb_le in B.
    simpl bind.
    replace (0 <=? Z.abs shift) with true by (symmetry; apply Z.leb_le; lia).
    simpl bind. intros H. inversion H; subst s'; clear H. simpl.
    set (drop := Z.to_nat (Z.abs shift)).
    assert (Ld : List.length (skipn drop b) = (len - drop)%nat).
    { rewrite length_skipn. reflexivity. }
    assert (Ln : List.length (skipn drop b ++ zeros (Z.abs shift)) = len).
    { rewrite length_app, Ld. unfold zeros. rewrite repeat_length.
      unfold drop. lia. }
    repeat (split; [first [reflexivity|lia]|]).
    intros K. rewrite Ln.
    unfold weight_in.
    destruct (K <? offset_ s - shift) eqn:E1.
    + apply Z.ltb_lt in E1.
      replace (offset_ s - shift <=? K) with false
        by (symmetry; apply Z.leb_gt; lia).
      reflexivity.
    + apply Z.ltb_ge in E1.
      replace (offset_ s - shift <=? K) with true
        by (symmetry; apply Z.leb_le; lia).
      simpl andb.
      replace (K <? offset_ s) with false by (symmetry; apply Z.ltb_ge; lia).
      set (j := Z.to_nat (K - (offset_ s - shift))).
      destruct (Nat.lt_ge_cases j (len - drop)) as [Lt|Ge].
      * rewrite app_nth1 by (rewrite Ld; exact Lt).
        rewrite nth_skipn.
        replace (K <? offset_ s - shift + Z.of_nat len) with true
          by (symmetry; apply Z.ltb_lt; unfold j, drop in Lt; lia).
        f_equal. unfold drop, j. lia.
      * rewrite app_nth2 by (rewrite Ld; exact Ge).
        unfold zeros. rewrite nth_repeat.
        destruct (K <? offset_ s - shift + Z.of_nat len); [|reflexivity].
        symmetry. apply nth_overflow. fold len. unfold j, drop in Ge. lia.
Qed.

Lemma adjust_dense_content (s s' : Store.t) (new_min new_max : Z) :
  adjust_dense s new_min new_max = Ok s' ->
  length s' = length s
  /\ min_key_ s' = new_min /\ max_key_ s' = new_max
  /\ count_ s' = count_ s /\ chunk_size_ s' = chunk_size_ s
  /\ forall K, weight_at s' K
               = if in_window_b s' K then weight_at s K else 0%R.
Proof.
  unfold adjust_dense, center_bins.
  destruct (shift_bins s _) as [s1| |] eqn:H; try discriminate.
  simpl bind. intros E. inversion E; subst s'; clear E.
  destruct (shift_bins_content _ _ H) as (O & L & _ & _ & C & Ch & W).
  repeat (split; [first [reflexivity|assumption]|]).
  exact W.
Qed.

(** [extend_range] on a dense store never moves a weight to another key: a
    key of the new window holds what it held before. *)
Lemma extend_range_dense_content (s s' : Store.t) (k1 k2 : Z) :
  extend_range Dense s k1 k2 = Ok s' ->
  forall K, weight_at s' K = if in_window_b s' K then weight_at s K else 0%R.
Proof.
  unfold extend_range.
  set (new_min := Z.min k1 (Z.min k2 (min_key_ s))).
  set (new_max := Z.max k1 (Z.max k2 (max_key_ s))).
  destruct (is_empty s) eqn:Em.
  - (* no bins yet *)
    apply CollapsingFacts.is_empty_iff in Em.
    destruct (get_new_length Dense s new_min new_max) as [len| |];
      try discriminate.
    simpl bind. unfold initialize_with_zeros.
    destruct (0 <=? len); try discriminate. simpl bind.
    unfold adjust. intros H K.
    destruct (adjust_dense_content _ _ _ H) as (_ & _ & _ & _ & _ & W).
    rewrite W. unfold weight_at at 1 2. simpl bins_.
    rewrite weight_in_zeros.
    rewrite (@weight_in_outside (bins_ s));
      [now destruct (in_window_b s' K)|].
    unfold length in Em. lia.
  - destruct ((new_min >=? min_key_ s) && (new_max <? offset_ s + length s)).
    + (* the range fits the bins as they are *)
      intros H K. inversion H; subst s'; clear H.
      unfold in_window_b, weight_at, length. simpl.
      destruct ((offset_ s <=? K) && (K <? offset_ s + size (bins_ s))) eqn:E;
        [reflexivity|].
      apply weight_in_outside. apply andb_false_iff in E.
      destruct E as [E|E]; [apply Z.leb_gt in E|apply Z.ltb_ge in E]; lia.
    + (* grow the bins *)
      destruct (get_new_length Dense s new_min new_max) as [len| |];
        try discriminate.
      simpl bind.
      assert (G : forall s1,
                 (if len >? length s
                  then bind (extend_back_with_zeros (bins_ s)
                               (len - length s))
                         (fun b => Ok (set_bins s b))
                  else Ok s) = Ok s1 ->
                 forall K, weight_at s1 K = weight_at s K).
      { intros s1. destruct (len >? length s).
        - unfold extend_back_with_zeros.
          destruct (0 <=? len - length s); try discriminate.
          simpl bind. intros H K. inversion H; subst s1.
          unfold weight_at. simpl. apply weight_in_app_zeros.
        - intros H K. now inversion H. }
      destruct (if len >? length s then _ else _) as [s1| |];
        try discriminate.
      simpl bind. unfold adjust. intros H K.
      destruct (adjust_dense_content _ _ _ H) as (_ & _ & _ & _ & _ & W).
      rewrite W. now rewrite (G s1 eq_refl).
Qed.

(** [add] on a dense store, key by key: the weight goes to the bin of the
    key and every other key keeps what it had. *)
Lemma add_dense_content (s s' : Store.t) (key : Z) (weight : R) :
  wf s -> is_index key ->
  add Dense s key weight = Ok s' ->
  forall K, weight_at s' K
            = (weight_at s K + if K =? key then weight else 0)%R.
Proof.
  intros W I H K.
  assert (G : exists s1,
             get_index Dense s key = Ok (key - offset_ s1, s1)
             /\ covers s1 (min_key_ s1) (max_key_ s1)
             /\ min_key_ s1 <= key <= max_key_ s1
             /\ forall K, weight_at s1 K = weight_at s K).
  { unfold get_index.
    destruct ((key <? min_key_ s) || (key >? max_key_ s)) eqn:E.
    - destruct (@extend_range_dense s key key W (fun _ => conj I I))
        as (s1 & H1 & W1 & C1 & Mi & Ma & Ct & Ch).
      rewrite H1. simpl bind. exists s1.
      split; [reflexivity|]. split; [exact C1|]. split; [lia|].
      intros K'. rewrite (extend_range_dense_content _ _ _ H1).
      unfold in_window_b.
      destruct ((offset_ s1 <=? K') && (K' <? offset_ s1 + length s1)) eqn:B;
        [reflexivity|].
      symmetry. destruct W as (_ & _ & [(Hnil & _)|(Cs & Z0)]).
      + unfold weight_at. rewrite Hnil. apply weight_in_nil.
      + apply (@weight_in_zero_outside _ _ _ _ _ Z0).
        destruct C1 as (C1 & C2 & C3).
        apply andb_false_iff in B.
        destruct B as [B|B]; [apply Z.leb_gt in B|apply Z.ltb_ge in B]; lia.
    - apply orb_false_iff in E. destruct E as (E1 & E2).
      apply Z.ltb_ge in E1. rewrite Z.gtb_ltb in E2. apply Z.ltb_ge in E2.
      simpl bind. exists s.
      split; [reflexivity|]. split; [|split; [lia|reflexivity]].
      destruct W as (_ & _ & [(_ & Hmin & Hmax)|(C & _)]).
      + unfold is_index, INT64_MAX, INT64_MIN in *. lia.
      + exact C. }
  destruct G as (s1 & H1 & (C1 & C2 & C3) & Kr & Ws).
  unfold add in H. rewrite H1 in H. simpl bind in H.
  unfold add_at, in_bounds in H. unfold length in C3.
  replace ((0 <=? key - offset_ s1) && (key - offset_ s1 <? size (bins_ s1)))
    with true in H
    by (symmetry; apply andb_true_iff; split;
        [apply Z.leb_le|apply Z.ltb_lt]; lia).
  simpl bind in H. inversion H; subst s'; clear H.
  rewrite <- Ws. unfold weight_at, weight_in. simpl.
  assert (Li : (Z.to_nat (key - offset_ s1) < List.length (bins_ s1))%nat)
    by (unfold size in C3; lia).
  destruct (K <? offset_ s1) eqn:E.
  - apply Z.ltb_lt in E.
    replace (K =? key) with false by (symmetry; apply Z.eqb_neq; lia). lra.
  - apply Z.ltb_ge in E. rewrite nth_update by exact Li.
    destruct (K =? key) eqn:E2.
    + apply Z.eqb_eq in E2. subst K. now rewrite Nat.eqb_refl.
    + apply Z.eqb_neq in E2.
      replace (Z.to_nat (K - offset_ s1) =? Z.to_nat (key - offset_ s1))%nat
        with false by (symmetry; apply Nat.eqb_neq; lia).
      lra.
Qed.

(** The number of occurrences of a key in a list, as an integer. *)
Definition occurrences (values : list Z) (K : Z) : Z :=
  Z.of_nat (count_occ Z.eq_dec values K).

Lemma occurrences_cons (v : Z) (values : list Z) (K : Z) :
  occurrences (v :: values) K
  = (if K =? v then 1 else 0) + occurrences values K.
Proof.
  unfold occurrences. simpl. destruct (Z.eq_dec v K) as [E|N].
  - subst. rewrite Z.eqb_refl. lia.
  - replace (K =? v) with false by (symmetry; apply Z.eqb_neq; lia). lia.
Qed.

Lemma occurrences_nonneg (values : list Z) (K : Z) : 0 <= occurrences values K.
Proof. unfold occurrences. lia. Qed.

Lemma occurrences_In (values : list Z) (K : Z) :
  In K values -> 1 <= occurrences values K.
Proof.
  intros H. unfold occurrences.
  apply (count_occ_In Z.eq_dec) in H. lia.
Qed.

(** A sequence of [add] calls with the default weight on a dense store: none
    fails, and every key gains one unit of weight for each of its
    occurrences. *)
Lemma add_values_dense (values : list Z) :
  forall s : Store.t,
    wf s -> Forall is_index values ->
    exists s',
      StoreTest.add_values Dense s values = Ok s'
      /\ wf s'
      /\ count_ s' = (count_ s + IZR (Z.of_nat (List.length values)))%R
      /\ chunk_size_ s' = chunk_size_ s
      /\ forall K, weight_at s' K
                   = (weight_at s K + IZR (occurrences values K))%R.
Proof.
  induction values as [|v values IH]; intros s W I.
  - exists s. split; [reflexivity|]. split; [exact W|].
    split; [simpl; lra|]. split; [reflexivity|].
    intros K. unfold occurrences. simpl. lra.
  - inversion I as [|? ? Iv Ir]; subst.
    destruct (@add_dense s v 1%R W Iv) as (s1 & H1 & W1 & C1 & Ch1).
    destruct (IH s1 W1 Ir) as (s' & H' & W' & C' & Ch' & Wt').
    exists s'. simpl StoreTest.add_values. rewrite H1. simpl bind.
    split; [exact H'|]. split; [exact W'|]. split; [|split].
    + rewrite C', C1. simpl List.length.
      rewrite Nat2Z.inj_succ, succ_IZR. lra.
    + congruence.
    + intros K. rewrite Wt'.
      rewrite (@add_dense_content s s1 v 1%R W Iv H1).
      rewrite occurrences_cons, plus_IZR.
      destruct (K =? v); lra.
Qed.

(** The counter of the tests counts occurrences. *)
Lemma at_key_count_value (m : StoreTest.KeyValueContainer) (v K : Z) :
  StoreTest.at_key (StoreTest.count_value m v) K
  = StoreTest.at_key m K + if K =? v then 1 else 0.
Proof.
  induction m as [|(k, n) m IH]; simpl.
  - rewrite (Z.eqb_sym K v). destruct (v =? K); lia.
  - destruct (k =? v) eqn:E1; simpl.
    + apply Z.eqb_eq in E1. subst k. rewrite (Z.eqb_sym K v).
      destruct (v =? K); lia.
    + destruct (k =? K) eqn:E2.
      * apply Z.eqb_eq in E2. subst k. rewrite E1. lia.
      * exact IH.
Qed.

Lemma sum_values_from (m : StoreTest.KeyValueContainer) (a : Z) :
  fold_left (fun partial_sum p => partial_sum + snd p) m a
  = a + StoreTest.sum_values m.
Proof.
  unfold StoreTest.sum_values. revert a.
  induction m as [|p m IH]; intros a; simpl; [lia|].
  rewrite IH, (IH (snd p)). lia.
Qed.

Lemma sum_values_count_value (m : StoreTest.KeyValueContainer) (v : Z) :
  StoreTest.sum_values (StoreTest.count_value m v)
  = StoreTest.sum_values m + 1.
Proof.
  induction m as [|(k, n) m IH].
  - reflexivity.
  - simpl. destruct (k =? v).
    + unfold StoreTest.sum_values. simpl.
      rewrite sum_values_from, (sum_values_from m n). lia.
    + unfold StoreTest.sum_values in *. simpl.
      rewrite sum_values_from, (sum_values_from m n).
      unfold StoreTest.sum_values. lia.
Qed.

Lemma Counter_from (values : list Z) :
  forall m : StoreTest.KeyValueContainer,
    (forall K, StoreTest.at_key (fold_left StoreTest.count_value values m) K
               = StoreTest.at_key m K + occurrences values K)
    /\ StoreTest.sum_values (fold_left StoreTest.count_value values m)
       = StoreTest.sum_values m + Z.of_nat (List.length values).
Proof.
  induction values as [|v values IH]; intros m.
  - split; [intros K; unfold occurrences; simpl; lia|simpl; lia].
  - destruct (IH (StoreTest.count_value m v)) as (A & B). split.
    + intros K. simpl fold_left. rewrite A, at_key_count_value.
      rewrite occurrences_cons. lia.
    + simpl fold_left. rewrite B, sum_values_count_value.
      simpl List.length. lia.
Qed.

Lemma Counter_spec (values : list Z) :
  (forall K, StoreTest.at_key (StoreTest.Counter values) K
             = occurrences values K)
  /\ StoreTest.sum_values (StoreTest.Counter values)
     = Z.of_nat (List.length values).
Proof.
  destruct (Counter_from values []) as (A & B). split.
  - intros K. unfold StoreTest.Counter. rewrite A. reflexivity.
  - unfold StoreTest.Counter. rewrite B. reflexivity.
Qed.

Lemma has_only_zeros_iff (b : BinList.t) :
  has_only_zeros b = true
  <-> forall i : nat, (i < List.length b)%nat -> nth i b 0%R = 0%R.
Proof.
  unfold has_only_zeros. induction b as [|x b IH]; simpl.
  - split; [intros _ i Hi; lia|reflexivity].
  - rewrite andb_true_iff, Reqb'_true, IH. split.
    + intros (Hx & Hb) [|i] Hi; [exact Hx|apply Hb; lia].
    + intros H. split; [apply (H O); lia|].
      intros i Hi. apply (H (S i)). lia.
Qed.

Lemma expect_bins_true (counter : StoreTest.KeyValueContainer) (offset : Z)
    (bins : list R) :
  forall idx : Z,
    (forall i : nat,
        (i < List.length bins)%nat ->
        nth i bins 0%R
        = IZR (StoreTest.at_key counter (idx + Z.of_nat i + offset))) ->
    StoreTest.expect_bins counter offset idx bins = true.
Proof.
  induction bins as [|item rest IH]; intros idx H; [reflexivity|].
  simpl. apply andb_true_iff. split.
  - destruct (Reqb' item 0); [reflexivity|].
    apply Reqb'_true. specialize (H O ltac:(simpl; lia)). simpl in H.
    rewrite H. do 2 f_equal. lia.
  - apply IH. intros i Hi. specialize (H (S i) ltac:(simpl; lia)).
    simpl nth in H. rewrite H. do 2 f_equal. lia.
Qed.

Lemma wf_new (chunk_size : Z) :
  0 < chunk_size -> wf (BaseDenseStore chunk_size).
Proof. intros H. split; [exact H|]. split; [reflexivity|]. left. auto. Qed.

Lemma weight_at_new (chunk_size K : Z) :
  weight_at (BaseDenseStore chunk_size) K = 0%R.
Proof. apply weight_in_nil. Qed.

(** In the model.
    [DenseStoreTest::test_store] passes on every list of keys: after
    the loop of [add] calls on a new [DenseStore] the bins sum to the number
    of values, [has_only_zeros] tells whether the list was empty, and every
    bin that is not zero holds the number of occurrences of its key. *)
Theorem dense_test_store_passes (values : list Z) :
  Forall is_index values ->
  StoreTest.test_store values = Ok true.
Proof.
  intros I.
  assert (W0 : wf DenseStore) by (apply wf_new; unfold kChunkSize; lia).
  destruct (@add_values_dense values DenseStore W0 I)
    as (s & H & W & C & _ & Wt).
  unfold StoreTest.test_store. rewrite H. simpl bind.
  unfold StoreTest.test_values, bins, offset. rewrite sum_ok. simpl bind.
  destruct (Counter_spec values) as (At & Sm). rewrite Sm.
  f_equal. apply andb_true_iff. split.
  - apply Reqb'_true. destruct W as (_ & Hsum & _). rewrite Hsum, C.
    unfold DenseStore, BaseDenseStore. simpl. lra.
  - destruct values as [|v values].
    + simpl in H. inversion H; subst s. reflexivity.
    + replace (Z.of_nat (List.length (v :: values)) =? 0) with false
        by (symmetry; apply Z.eqb_neq; simpl List.length; lia).
      apply andb_true_iff. split.
      * destruct (has_only_zeros (bins_ s)) eqn:E; [|reflexivity].
        exfalso. rewrite has_only_zeros_iff in E.
        pose proof (Wt v) as Hv. unfold DenseStore in Hv.
        rewrite weight_at_new in Hv.
        pose proof (@occurrences_In (v :: values) v ltac:(now left)) as O.
        apply IZR_le in O.
        assert (Z0 : weight_at s v = 0%R).
        { unfold weight_at, weight_in. destruct (v <? offset_ s);
            [reflexivity|].
          destruct (Nat.lt_ge_cases (Z.to_nat (v - offset_ s))
                      (List.length (bins_ s))) as [L|G].
          - now apply E.
          - now apply nth_overflow. }
        lra.
      * apply expect_bins_true. intros i Hi. rewrite At.
        replace (0 + Z.of_nat i + offset_ s) with (offset_ s + Z.of_nat i)
          by lia.
        pose proof (Wt (offset_ s + Z.of_nat i)) as Hw.
        unfold DenseStore in Hw. rewrite weight_at_new in Hw.
        unfold weight_at in Hw.
        rewrite weight_in_nth in Hw. lra.
Qed.

Lemma dense_test_store_passes_witness :
  Forall is_index [4; 10; 100; 10]
  /\ StoreTest.test_store [4; 10; 100; 10] = Ok true.
Proof.
  assert (I : Forall is_index [4; 10; 100; 10]).
  { repeat constructor; unfold INT64_MIN, INT64_MAX; lia. }
  split; [exact I|exact (dense_test_store_passes I)].
Defined.

(** The loop of [merge], key by key: each key from [key] to [key + n - 1]
    gains the weight the other store holds for it. *)
Lemma add_bins_loop_content (store : Store.t) (off : Z) :
  forall (n : nat) (key : Z) (b : BinList.t),
    0 <= key - offset_ store ->
    key - offset_ store + Z.of_nat n <= size (bins_ store) ->
    0 <= key - off ->
    key - off + Z.of_nat n <= size b ->
    exists b',
      add_bins_loop n key off b store = Ok b'
      /\ List.length b' = List.length b
      /\ forall K,
           weight_in b' off K
           = (weight_in b off K
              + if (key <=? K) && (K <? key + Z.of_nat n)
                then weight_at store K else 0)%R.
Proof.
  induction n as [|n IH]; intros key b S1 S2 B1 B2.
  - exists b. split; [reflexivity|]. split; [reflexivity|].
    intros K.
    replace ((key <=? K) && (K <? key + Z.of_nat 0)) with false; [lra|].
    symmetry. apply andb_false_iff.
    destruct (Z_lt_ge_dec K key); [left; apply Z.leb_gt|right; apply Z.ltb_ge];
      lia.
  - simpl add_bins_loop. unfold get, add_at, in_bounds.
    replace ((0 <=? key - offset_ store)
             && (key - offset_ store <? size (bins_ store))) with true
      by (symmetry; apply andb_true_iff; split;
          [apply Z.leb_le|apply Z.ltb_lt]; lia).
    simpl bind.
    replace ((0 <=? key - off) && (key - off <? size b)) with true
      by (symmetry; apply andb_true_iff; split;
          [apply Z.leb_le|apply Z.ltb_lt]; lia).
    simpl bind.
    set (c := nth (Z.to_nat (key - offset_ store)) (bins_ store) 0%R).
    set (b1 := update (Z.to_nat (key - off)) (fun x => (x + c)%R) b).
    assert (L1 : List.length b1 = List.length b) by apply update_length.
    assert (Li : (Z.to_nat (key - off) < List.length b)%nat)
      by (unfold size in B2; lia).
    destruct (IH (key + 1) b1) as (b' & Hb' & L' & F');
      [lia|lia|lia|unfold size in *; lia|].
    exists b'. split; [exact Hb'|]. split; [congruence|].
    intros K. rewrite F'. unfold b1, weight_in.
    destruct (K <? off) eqn:E.
    + apply Z.ltb_lt in E.
      replace (key + 1 <=? K) with false by (symmetry; apply Z.leb_gt; lia).
      replace (key <=? K) with false by (symmetry; apply Z.leb_gt; lia).
      reflexivity.
    + apply Z.ltb_ge in E. rewrite nth_update by exact Li.
      destruct (Z.eq_dec K key) as [Eq|Ne].
      * subst K. rewrite Nat.eqb_refl.
        replace (key + 1 <=? key) with false
          by (symmetry; apply Z.leb_gt; lia).
        replace (key <=? key) with true by (symmetry; apply Z.leb_le; lia).
        replace (key <? key + Z.of_nat (S n)) with true
          by (symmetry; apply Z.ltb_lt; lia).
        simpl andb. unfold weight_at. rewrite weight_in_inside by lia.
        fold c. lra.
      * replace (Z.to_nat (K - off) =? Z.to_nat (key - off))%nat with false
          by (symmetry; apply Nat.eqb_neq; lia).
        replace (key + 1 + Z.of_nat n) with (key + Z.of_nat (S n)) by lia.
        destruct (Z_lt_ge_dec K key) as [L|G].
        -- replace (key <=? K) with false by (symmetry; apply Z.leb_gt; lia).
           now replace (key + 1 <=? K) with false
             by (symmetry; apply Z.leb_gt; lia).
        -- replace (key <=? K) with true by (symmetry; apply Z.leb_le; lia).
           now replace (key + 1 <=? K) with true
             by (symmetry; apply Z.leb_le; lia).
Qed.

Definition nonneg (s : Store.t) : Prop :=
  Forall (fun c => (0 <= c)%R) (bins_ s).

Lemma accumulate_zero_nonneg (l : list R) :
  Forall (fun c => (0 <= c)%R) l -> accumulate l = 0%R ->
  forall i : nat, nth i l 0%R = 0%R.
Proof.
  induction 1 as [|x l Hx Hl IH]; intros A i.
  - now destruct i.
  - rewrite accumulate_cons in A.
    pose proof (accumulate_nonneg Hl) as P.
    destruct i as [|i]; simpl; [lra|]. apply IH. lra.
Qed.

Lemma weight_at_count_zero (s : Store.t) (K : Z) :
  wf s -> nonneg s -> count_ s = 0%R -> weight_at s K = 0%R.
Proof.
  intros (_ & Hsum & _) N C. unfold weight_at, weight_in.
  destruct (K <? offset_ s); [reflexivity|].
  apply accumulate_zero_nonneg; [exact N|congruence].
Qed.

Lemma weight_at_nonneg (s : Store.t) (K : Z) :
  nonneg s -> (0 <= weight_at s K)%R.
Proof.
  intros N. unfold weight_at, weight_in.
  destruct (K <? offset_ s); [lra|].
  destruct (Nat.lt_ge_cases (Z.to_nat (K - offset_ s))
              (List.length (bins_ s))) as [L|G].
  - unfold nonneg in N. rewrite Forall_forall in N. apply N.
    now apply nth_In.
  - rewrite nth_overflow by exact G. lra.
Qed.

Lemma nonneg_weights (s : Store.t) :
  (forall K, (0 <= weight_at s K)%R) -> nonneg s.
Proof.
  intros H. unfold nonneg. apply Forall_forall. intros x Hx.
  destruct (In_nth _ _ 0%R Hx) as (i & Hi & E).
  specialize (H (offset_ s + Z.of_nat i)). unfold weight_at in H.
  rewrite weight_in_nth in H. now rewrite <- E.
Qed.

(** [merge] on dense stores, key by key. *)
Lemma merge_dense_content (s store s' : Store.t) :
  wf s -> wf store -> nonneg s -> nonneg store ->
  merge Dense s store = Ok s' ->
  forall K, weight_at s' K = (weight_at s K + weight_at store K)%R.
Proof.
  intros W Wo N No H K. unfold merge, merge_dense in H.
  destruct (Req_dec_T (count_ store) 0) as [E0|N0].
  { inversion H; subst s'. rewrite (weight_at_count_zero K Wo No E0). lra. }
  destruct (Req_dec_T (count_ s) 0) as [E1|N1].
  { inversion H; subst s'. rewrite (weight_at_count_zero K W N E1).
    unfold weight_at. simpl. lra. }
  destruct (wf_nonzero_count Wo N0) as ((O1 & O2 & O3) & Zo).
  destruct (wf_nonzero_count W N1) as (Cs & Zs).
  assert (G : exists s1,
             merge_extend Dense s store = Ok s1
             /\ covers s1 (min_key_ s1) (max_key_ s1)
             /\ min_key_ s1 <= min_key_ store
             /\ max_key_ store <= max_key_ s1
             /\ forall K, weight_at s1 K = weight_at s K).
  { unfold merge_extend.
    destruct ((min_key_ store <? min_key_ s) || (max_key_ store >? max_key_ s))
      eqn:E.
    - destruct (@extend_range_dense s (min_key_ store) (max_key_ store) W)
        as (s1 & H1 & W1 & C1 & Mi & Ma & Ct & Ch).
      + intros Hnil. exfalso. destruct Cs as (C1 & C2 & C3).
        unfold length, size in C3. rewrite Hnil in C3. simpl in C3. lia.
      + exists s1. split; [exact H1|]. split; [exact C1|].
        split; [lia|]. split; [lia|].
        intros K'. rewrite (extend_range_dense_content _ _ _ H1).
        unfold in_window_b.
        destruct ((offset_ s1 <=? K') && (K' <? offset_ s1 + length s1))
          eqn:B; [reflexivity|].
        symmetry. apply (@weight_in_zero_outside _ _ _ _ _ Zs).
        destruct C1 as (C1 & C2 & C3). destruct Cs as (C4 & C5 & C6).
        apply andb_false_iff in B.
        destruct B as [B|B]; [apply Z.leb_gt in B|apply Z.ltb_ge in B]; lia.
    - apply orb_false_iff in E. destruct E as (E1 & E2).
      apply Z.ltb_ge in E1. rewrite Z.gtb_ltb in E2. apply Z.ltb_ge in E2.
      exists s. split; [reflexivity|].
      split; [exact Cs|]. split; [lia|]. split; [lia|reflexivity]. }
  destruct G as (s1 & H1 & (C1 & C2 & C3) & Mi & Ma & Ws).
  rewrite H1 in H. simpl bind in H. unfold add_bins in H.
  unfold length in *.
  destruct (@add_bins_loop_content store (offset_ s1)
              (Z.to_nat (max_key_ store - min_key_ store + 1))
              (min_key_ store) (bins_ s1))
    as (b' & Hb' & L' & F'); [lia|lia|lia|lia|].
  rewrite Hb' in H. simpl bind in H. inversion H; subst s'; clear H.
  unfold weight_at at 1. simpl. rewrite F'. fold (weight_at s1 K).
  rewrite Ws.
  destruct ((min_key_ store <=? K)
            && (K <? min_key_ store
                     + Z.of_nat (Z.to_nat (max_key_ store - min_key_ store + 1))))
    eqn:B; [reflexivity|].
  f_equal. symmetry. apply (@weight_in_zero_outside _ _ _ _ _ Zo).
  apply andb_false_iff in B.
  destruct B as [B|B]; [apply Z.leb_gt in B|apply Z.ltb_ge in B]; lia.
Qed.

(** The dense stores that [add] with weights that are not negative and
    [merge] can produce from a new store. *)
Inductive built : Store.t -> Prop :=
| built_new (chunk_size : Z) :
    0 < chunk_size -> built (BaseDenseStore chunk_size)
| built_add (s s' : Store.t) (key : Z) (weight : R) :
    built s -> is_index key -> (0 <= weight)%R ->
    add Dense s key weight = Ok s' -> built s'
| built_merge (s store s' : Store.t) :
    built s -> built store ->
    merge Dense s store = Ok s' -> built s'.

Lemma built_wf (s : Store.t) : built s -> wf s /\ nonneg s.
Proof.
  induction 1 as [c Hc|s s' key w _ (W & N) I Hw H
                 |s o s' _ (W1 & N1) _ (W2 & N2) H].
  - split; [now apply wf_new|]. constructor.
  - destruct (@add_dense s key w W I) as (s2 & H2 & W2 & _).
    rewrite H in H2. inversion H2; subst s2. split; [exact W2|].
    apply nonneg_weights. intros K.
    rewrite (@add_dense_content s s' key w W I H).
    pose proof (@weight_at_nonneg s K N). destruct (K =? key); lra.
  - destruct (@merge_dense_wf s o W1 W2) as (s2 & H2 & W3 & _).
    rewrite H in H2. inversion H2; subst s2. split; [exact W3|].
    apply nonneg_weights. intros K.
    rewrite (@merge_dense_content s o s' W1 W2 N1 N2 H).
    pose proof (@weight_at_nonneg s K N1).
    pose proof (@weight_at_nonneg o K N2). lra.
Qed.

Lemma built_add_values (values : list Z) :
  forall s s' : Store.t,
    built s -> Forall is_index values ->
    StoreTest.add_values Dense s values = Ok s' -> built s'.
Proof.
  induction values as [|v values IH]; intros s s' B I H.
  - simpl in H. now inversion H; subst.
  - inversion I as [|? ? Iv Ir]; subst. simpl in H.
    destruct (add Dense s v 1%R) as [s1| |] eqn:E; try discriminate.
    simpl bind in H. apply (IH s1 s'); [|exact Ir|exact H].
    apply (@built_add s s1 v 1%R); [exact B|exact Iv|lra|exact E].
Qed.

(** In the model.
    [merge] on dense stores does what replaying the [add] calls of the
    other store would do: it returns, the counts add up and every key holds
    the sum of the two weights it had in the two stores. *)
Theorem merge_dense_adds_the_bins (s store : Store.t) :
  built s -> built store ->
  exists s',
    merge Dense s store = Ok s'
    /\ count s' = (count s + count store)%R
    /\ forall K, weight_at s' K = (weight_at s K + weight_at store K)%R.
Proof.
  intros B Bo.
  destruct (built_wf B) as (W & N). destruct (built_wf Bo) as (Wo & No).
  destruct (@merge_dense_wf s store W Wo) as (s' & H & _ & C & _).
  exists s'. split; [exact H|]. split; [exact C|].
  exact (@merge_dense_content s store s' W Wo N No H).
Qed.

Definition store_4_10 : Store.t :=
  Store.mk (0 + 1 + 1) 4 10 8 3
    [0; (0 + 1); 0; 0; 0; 0; 0; (0 + 1)]%R 0 false.

Definition store_10_12 : Store.t :=
  Store.mk (0 + 1 + 1) 10 12 8 6
    [0; 0; 0; 0; (0 + 1); 0; (0 + 1); 0]%R 0 false.

Lemma store_4_10_built :
  StoreTest.add_values Dense (BaseDenseStore 8) [4; 10] = Ok store_4_10.
Proof. cbv -[Rplus IZR]. reflexivity. Qed.

Lemma store_10_12_built :
  StoreTest.add_values Dense (BaseDenseStore 8) [10; 12] = Ok store_10_12.
Proof. cbv -[Rplus IZR]. reflexivity. Qed.

Lemma merge_dense_adds_the_bins_witness :
  built store_4_10 /\ built store_10_12
  /\ exists s',
       merge Dense store_4_10 store_10_12 = Ok s'
       /\ count s' = (count store_4_10 + count store_10_12)%R
       /\ forall K, weight_at s' K
                    = (weight_at store_4_10 K + weight_at store_10_12 K)%R.
Proof.
  assert (I : forall a b, 0 <= a <= 100 -> 0 <= b <= 100 ->
                          Forall is_index [a; b]).
  { intros a b Ha Hb.
    repeat constructor; unfold INT64_MIN, INT64_MAX; lia. }
  assert (B1 : built store_4_10).
  { apply (@built_add_values [4; 10] (BaseDenseStore 8));
      [apply built_new; lia|apply I; lia|exact store_4_10_built]. }
  assert (B2 : built store_10_12).
  { apply (@built_add_values [10; 12] (BaseDenseStore 8));
      [apply built_new; lia|apply I; lia|exact store_10_12_built]. }
  split; [exact B1|]. split; [exact B2|].
  exact (merge_dense_adds_the_bins B1 B2).
Defined.

Lemma reachable_add_values (values : list Z) :
  forall s s' : Store.t,
    reachable s -> Forall is_index values ->
    StoreTest.add_values Dense s values = Ok s' -> reachable s'.
Proof.
  induction values as [|v values IH]; intros s s' B I H.
  - simpl in H. now inversion H; subst.
  - inversion I as [|? ? Iv Ir]; subst. simpl in H.
    destruct (add Dense s v 1%R) as [s1| |] eqn:E; try discriminate.
    simpl bind in H. apply (IH s1 s'); [|exact Ir|exact H].
    apply (@reach_add s s1 v 1%R); [exact B|exact Iv|exact E].
Qed.

Lemma store_4_10_reachable : reachable store_4_10.
Proof.
  apply (@reachable_add_values [4; 10] (BaseDenseStore 8)).
  - apply reach_new. lia.
  - repeat constructor; unfold INT64_MIN, INT64_MAX; lia.
  - exact store_4_10_built.
Qed.

Lemma dense_sum_is_count_witness :
  reachable store_4_10
  /\ BinList.sum (bins store_4_10) = Ok (count store_4_10)
  /\ (forall key weight, is_index key ->
        exists s', add Dense store_4_10 key weight = Ok s'
                   /\ count s' = (count store_4_10 + weight)%R)
  /\ (forall store, reachable store ->
        exists s', merge Dense store_4_10 store = Ok s'
                   /\ count s' = (count store_4_10 + count store)%R).
Proof.
  split; [exact store_4_10_reachable|].
  exact (dense_sum_is_count store_4_10_reachable).
Defined.

(** In the model.
    [add] on a dense store, for any weight: it returns, the
    count grows by the weight, the weight is added to what the store holds
    for the key, and every other key keeps its weight, whether or not the
    bins had to grow or to be shifted. *)
Theorem add_dense_puts_the_weight_at_the_key (s : Store.t) (key : Z)
    (weight : R) :
  built s -> is_index key ->
  exists s',
    add Dense s key weight = Ok s'
    /\ count s' = (count s + weight)%R
    /\ weight_at s' key = (weight_at s key + weight)%R
    /\ forall K, K <> key -> weight_at s' K = weight_at s K.
Proof.
  intros B I. destruct (built_wf B) as (W & _).
  destruct (@add_dense s key weight W I) as (s' & H & _ & C & _).
  exists s'. split; [exact H|]. split; [exact C|].
  pose proof (@add_dense_content s s' key weight W I H) as Wt. split.
  - rewrite Wt, Z.eqb_refl. reflexivity.
  - intros K N. rewrite Wt.
    replace (K =? key) with false by (symmetry; now apply Z.eqb_neq). lra.
Qed.

Lemma add_dense_puts_the_weight_at_the_key_witness :
  built store_4_10 /\ is_index 20
  /\ exists s',
       add Dense store_4_10 20 (5 / 2) = Ok s'
       /\ count s' = (count store_4_10 + 5 / 2)%R
       /\ weight_at s' 20 = (weight_at store_4_10 20 + 5 / 2)%R
       /\ forall K, K <> 20 -> weight_at s' K = weight_at store_4_10 K.
Proof.
  assert (B : built store_4_10).
  { apply (@built_add_values [4; 10] (BaseDenseStore 8));
      [apply built_new; lia| |exact store_4_10_built].
    repeat constructor; unfold INT64_MIN, INT64_MAX; lia. }
  assert (I : is_index 20) by (unfold is_index, INT64_MIN, INT64_MAX; lia).
  split; [exact B|]. split; [exact I|].
  exact (add_dense_puts_the_weight_at_the_key (5 / 2) B I).
Defined.
End ContentFacts.

Module CountFacts.

Local Open Scope Z_scope.

Section Counting.

Variable A : Type.

(** The number of values of a list that satisfy a test. *)
Fixpoint count_if (P : A -> bool) (l : list A) : Z :=
  match l with
  | [] => 0
  | v :: rest => (if P v then 1 else 0) + count_if P rest
  end.

Lemma count_if_nonneg (P : A -> bool) (l : list A) : 0 <= count_if P l.
Proof.
  induction l as [|v l IH]; cbn [count_if]; [lia|destruct (P v); lia].
Qed.

Lemma count_if_mono (P Q : A -> bool) (l : list A) :
  (forall v, In v l -> P v = true -> Q v = true) ->
  count_if P l <= count_if Q l.
Proof.
  induction l as [|v l IH]; intros H; cbn [count_if]; [lia|].
  assert (IH' : count_if P l <= count_if Q l).
  { apply IH. intros w Hw. apply H. now right. }
  specialize (H v (or_introl eq_refl)).
  destruct (P v); [rewrite H by reflexivity; lia|destruct (Q v); lia].
Qed.

Lemma count_if_ext (P Q : A -> bool) (l : list A) :
  (forall v, In v l -> P v = Q v) -> count_if P l = count_if Q l.
Proof.
  intros H. apply Z.le_antisymm; apply count_if_mono; intros v Hv E.
  - now rewrite <- H.
  - now rewrite H.
Qed.

Lemma count_if_split (P C : A -> bool) (l : list A) :
  count_if P l
  = count_if (fun v => P v && C v) l + count_if (fun v => P v && negb (C v)) l.
Proof.
  induction l as [|v l IH]; cbn [count_if]; [reflexivity|].
  rewrite IH. destruct (P v), (C v); cbn [andb negb]; lia.
Qed.

Lemma count_if_In (P : A -> bool) (l : list A) (v : A) :
  In v l -> P v = true -> 1 <= count_if P l.
Proof.
  induction l as [|w l IH]; intros H E; [destruct H|].
  cbn [count_if]. pose proof (count_if_nonneg P l).
  destruct H as [H|H].
  - subst w. rewrite E. lia.
  - specialize (IH H E). destruct (P w); lia.
Qed.

Lemma count_if_none (P : A -> bool) (l : list A) :
  (forall v, In v l -> P v = false) -> count_if P l = 0.
Proof.
  induction l as [|w l IH]; intros H; cbn [count_if]; [reflexivity|].
  rewrite (H w (or_introl eq_refl)), IH; [reflexivity|].
  intros v Hv. apply H. now right.
Qed.

Lemma count_if_all (l : list A) :
  count_if (fun _ => true) l = Z.of_nat (length l).
Proof.
  induction l as [|w l IH]; cbn [length count_if]; [reflexivity|]. lia.
Qed.

Lemma count_if_app (P : A -> bool) (l1 l2 : list A) :
  count_if P (l1 ++ l2) = count_if P l1 + count_if P l2.
Proof.
  induction l1 as [|w l IH]; cbn [count_if app]; [reflexivity|].
  rewrite IH. lia.
Qed.

End Counting.

(** *** The sorted copy of the data *)

Fixpoint ascending (l : list R) : Prop :=
  match l with
  | [] => True
  | x :: rest => (forall y, In y rest -> (x <= y)%R) /\ ascending rest
  end.

Lemma In_insert_sorted (x y : R) (l : list R) :
  In y (DataSet.insert_sorted x l) <-> y = x \/ In y l.
Proof.
  induction l as [|z l IH]; simpl.
  - intuition.
  - destruct (Rle_dec x z); simpl; [intuition|].
    rewrite IH. intuition.
Qed.

Lemma insert_sorted_ascending (x : R) (l : list R) :
  ascending l -> ascending (DataSet.insert_sorted x l).
Proof.
  induction l as [|z l IH]; intros A; simpl.
  - split; [intros y []|exact I].
  - destruct A as (Hz & A). destruct (Rle_dec x z) as [L|G].
    + split; [|split; assumption].
      intros y [Hy|Hy]; [subst; exact L|].
      specialize (Hz y Hy). lra.
    + split; [|now apply IH].
      intros y Hy. apply In_insert_sorted in Hy.
      destruct Hy as [Hy|Hy]; [subst; lra|now apply Hz].
Qed.

Lemma sort_ascending (l : list R) : ascending (DataSet.sort l).
Proof.
  induction l as [|x l IH]; simpl; [exact I|].
  now apply insert_sorted_ascending.
Qed.

Lemma count_if_insert_sorted (P : R -> bool) (x : R) (l : list R) :
  count_if P (DataSet.insert_sorted x l) = count_if P (x :: l).
Proof.
  induction l as [|z l IH]; cbn [DataSet.insert_sorted]; [reflexivity|].
  destruct (Rle_dec x z); [reflexivity|].
  cbn [count_if] in *. rewrite IH. lia.
Qed.

Lemma count_if_sort (P : R -> bool) (l : list R) :
  count_if P (DataSet.sort l) = count_if P l.
Proof.
  induction l as [|x l IH]; cbn [DataSet.sort]; [reflexivity|].
  rewrite count_if_insert_sorted. cbn [count_if]. now rewrite IH.
Qed.

Lemma length_sort (l : list R) : length (DataSet.sort l) = length l.
Proof.
  pose proof (count_if_sort (fun _ => true) l) as H.
  rewrite !count_if_all in H. lia.
Qed.

Lemma In_sort (l : list R) (v : R) : In v (DataSet.sort l) <-> In v l.
Proof.
  induction l as [|x l IH]; simpl; [reflexivity|].
  rewrite In_insert_sorted, IH. intuition.
Qed.

(** In a sorted list at least [i + 1] values are at most the one at index
    [i], and at most [i] values are below it. *)
Lemma ascending_count_le (l : list R) :
  ascending l ->
  forall i : nat,
    (i < length l)%nat ->
    Z.of_nat i + 1 <= count_if (fun v => Rleb' v (nth i l 0%R)) l.
Proof.
  induction l as [|a l IH]; intros A i Hi; [simpl in Hi; lia|].
  destruct A as (Ha & A). destruct i as [|i].
  - cbn [nth count_if].
    replace (Rleb' a a) with true by (symmetry; apply Rleb'_true; lra).
    pose proof (count_if_nonneg (fun v => Rleb' v a) l). lia.
  - cbn [nth count_if]. simpl in Hi.
    specialize (IH A i ltac:(lia)).
    replace (Rleb' a (nth i l 0%R)) with true; [lia|].
    symmetry. apply Rleb'_true. apply Ha. apply nth_In. lia.
Qed.

Lemma ascending_count_lt (l : list R) :
  ascending l ->
  forall i : nat,
    (i < length l)%nat ->
    count_if (fun v => Rltb' v (nth i l 0%R)) l <= Z.of_nat i.
Proof.
  induction l as [|a l IH]; intros A i Hi; [simpl in Hi; lia|].
  destruct A as (Ha & A). destruct i as [|i].
  - cbn [nth count_if].
    replace (Rltb' a a) with false by (symmetry; apply Rltb'_false; lra).
    rewrite count_if_none; [lia|].
    intros v Hv. apply Rltb'_false. now apply Ha.
  - cbn [nth count_if]. simpl in Hi.
    specialize (IH A i ltac:(lia)).
    destruct (Rltb' a (nth i l 0%R)); lia.
Qed.

Lemma ascending_nth_le (l : list R) :
  ascending l ->
  forall i j : nat,
    (i <= j)%nat -> (j < length l)%nat -> (nth i l 0 <= nth j l 0)%R.
Proof.
  induction l as [|a l IH]; intros A i j Hij Hj; [simpl in Hj; lia|].
  destruct A as (Ha & A). simpl in Hj.
  destruct i as [|i], j as [|j]; cbn [nth]; try lia.
  - lra.
  - apply Ha. apply nth_In. lia.
  - apply IH; [exact A|lia|lia].
Qed.

End CountFacts.

(** ** The sketch against the data it has seen *)

Module QuantileFacts.

Import CountFacts ContentFacts DenseFacts.
Import Mapping Sketch.
Local Open Scope R_scope.

Lemma Rceil_monotone (x y : R) : x <= y -> (Rceil x <= Rceil y)%Z.
Proof.
  intros H. pose proof (Rceil_bounds x) as [A _].
  pose proof (Rceil_bounds y) as [_ B].
  assert (L : IZR (Rceil x) < IZR (Rceil y + 1)) by (rewrite plus_IZR; lra).
  apply lt_IZR in L. lia.
Qed.

Lemma Rtrunc_floor (r : R) :
  0 <= r -> IZR (Rtrunc r) <= r < IZR (Rtrunc r) + 1 /\ (0 <= Rtrunc r)%Z.
Proof.
  intros H. unfold Rtrunc. destruct (Rlt_dec r 0) as [L|_]; [lra|].
  unfold Rfloor. destruct (base_Int_part r) as [A B].
  split; [lra|].
  assert (L : IZR (-1) < IZR (Int_part r)) by lra.
  apply lt_IZR in L. lia.
Qed.

Section Cumulative.

Variables (A : Type) (s : Store.t) (P : A -> bool) (keyf : A -> Z).
Variable vs : list A.
Hypothesis content :
  forall K, weight_at s K
            = IZR (count_if (fun v => P v && (keyf v =? K)%Z) vs).

(** A value that has been counted has its key inside the window. *)
Lemma value_in_window (v : A) :
  In v vs -> P v = true -> RankFacts.in_window s (keyf v).
Proof.
  intros Hin Hp.
  assert (C : (1 <= count_if (fun w => P w && (keyf w =? keyf v)%Z) vs)%Z).
  { apply (@count_if_In A _ vs v Hin). now rewrite Hp, Z.eqb_refl. }
  apply IZR_le in C. rewrite <- content in C.
  unfold RankFacts.in_window, Store.length.
  destruct (Z_lt_ge_dec (keyf v) (Store.offset_ s)) as [L|G].
  - unfold weight_at in C. rewrite weight_in_outside in C by (now left). lra.
  - destruct (Z_lt_ge_dec (keyf v)
                (Store.offset_ s + BinList.size (Store.bins_ s))) as [L2|G2];
      [lia|].
    unfold weight_at in C. rewrite weight_in_outside in C by (right; lia).
    lra.
Qed.

Lemma prefix_counts (j : nat) :
  (j <= length (Store.bins_ s))%nat ->
  BinList.accumulate (firstn j (Store.bins_ s))
  = IZR (count_if
           (fun v => P v && (keyf v <? Store.offset_ s + Z.of_nat j)%Z) vs).
Proof.
  induction j as [|j IH]; intros Hj.
  - rewrite count_if_none; [reflexivity|].
    intros v Hv. destruct (P v) eqn:Hp; [|reflexivity].
    destruct (@value_in_window v Hv Hp) as (L & _).
    cbn [andb]. apply Z.ltb_ge. lia.
  - rewrite BinListFacts.accumulate_firstn_S by lia.
    rewrite IH by lia.
    rewrite <- (weight_in_nth (Store.bins_ s) (Store.offset_ s) j).
    fold (weight_at s (Store.offset_ s + Z.of_nat j)). rewrite content.
    rewrite <- plus_IZR. f_equal.
    rewrite (count_if_split
               (fun v => P v && (keyf v <? Store.offset_ s + Z.of_nat (S j))%Z)
               (fun v => (keyf v <? Store.offset_ s + Z.of_nat j)%Z)).
    f_equal; apply count_if_ext; intros v _; destruct (P v); cbn [andb];
      try reflexivity.
    + destruct (keyf v <? Store.offset_ s + Z.of_nat j)%Z eqn:E.
      * apply Z.ltb_lt in E. rewrite andb_true_r. symmetry.
        apply Z.ltb_lt. lia.
      * symmetry. apply andb_false_r.
    + destruct (keyf v =? Store.offset_ s + Z.of_nat j)%Z eqn:E.
      * apply Z.eqb_eq in E. symmetry. apply andb_true_iff. split.
        -- apply Z.ltb_lt. lia.
        -- apply negb_true_iff. apply Z.ltb_ge. lia.
      * apply Z.eqb_neq in E. symmetry. apply andb_false_iff.
        destruct (Z_lt_ge_dec (keyf v) (Store.offset_ s + Z.of_nat j))
          as [L|G].
        -- right. apply negb_false_iff. apply Z.ltb_lt. lia.
        -- left. apply Z.ltb_ge. lia.
Qed.

(** The running count of [key_at_rank] at a key of the window is the number
    of counted values whose key is at most that key. *)
Lemma cumulative_counts (K : Z) :
  RankFacts.in_window s K ->
  RankFacts.cumulative s K
  = IZR (count_if (fun v => P v && (keyf v <=? K)%Z) vs).
Proof.
  intros (L1 & L2). unfold RankFacts.cumulative.
  unfold Store.length, BinList.size in L2.
  rewrite prefix_counts by lia. f_equal.
  apply count_if_ext. intros v _. f_equal.
  destruct (keyf v <=? K)%Z eqn:E.
  - apply Z.leb_le in E. apply Z.ltb_lt. lia.
  - apply Z.leb_gt in E. apply Z.ltb_ge. lia.
Qed.

(** The same for every key: below the window the count is zero, above it
    the count is the total. *)
Lemma cumulative_counts_all (K : Z) :
  RankFacts.cumulative s K
  = IZR (count_if (fun v => P v && (keyf v <=? K)%Z) vs).
Proof.
  unfold RankFacts.cumulative.
  set (len := length (Store.bins_ s)).
  destruct (Z_lt_ge_dec K (Store.offset_ s)) as [L|G].
  - (* below the window *)
    replace (Z.to_nat (K - Store.offset_ s + 1)) with O by lia.
    rewrite count_if_none; [reflexivity|].
    intros v Hv. destruct (P v) eqn:Hp; [|reflexivity].
    destruct (@value_in_window v Hv Hp) as (L1 & _).
    cbn [andb]. apply Z.leb_gt. lia.
  - destruct (Z_lt_ge_dec K (Store.offset_ s + Z.of_nat len)) as [L2|G2].
    + apply cumulative_counts. unfold RankFacts.in_window, Store.length,
        BinList.size. fold len. lia.
    + (* above the window *)
      rewrite firstn_all2 by (fold len; lia).
      rewrite <- (firstn_all (Store.bins_ s)) at 1.
      rewrite prefix_counts by reflexivity. f_equal.
      apply count_if_ext. intros v Hv. destruct (P v) eqn:Hp; [|reflexivity].
      destruct (@value_in_window v Hv Hp) as (L1 & L3).
      unfold Store.length, BinList.size in L3. fold len in L3.
      cbn [andb]. transitivity true.
      * apply Z.ltb_lt. exact L3.
      * symmetry. apply Z.leb_le. lia.
Qed.

End Cumulative.

Section Represented.

Variables (alpha : R) (z : Z) (m : Mapping.t).
Hypothesis alpha_range : 0 < alpha < 1.
Hypothesis mapping_built : LogarithmicMapping alpha (IZR z) = Ok m.

Lemma min_possible_pos : 0 < min_possible m.
Proof.
  destruct (@MappingFacts.log_fields alpha (IZR z) m alpha_range mapping_built)
    as (_ & _ & _ & _ & Hmin & _).
  unfold min_possible. rewrite Hmin.
  pose proof (@MappingFacts.gamma_gt_1 alpha (IZR z) m alpha_range
                mapping_built).
  pose proof DBL_MIN_bounds. nra.
Qed.

Lemma key_monotone (v w : R) : 0 < v <= w -> (key m v <= key m w)%Z.
Proof.
  intros (Hv & Hw).
  rewrite !(@MappingFacts.key_integer_offset alpha (IZR z) m alpha_range
              mapping_built z _ eq_refl).
  apply Z.add_le_mono_r. apply Rceil_monotone.
  pose proof (@MappingFacts.L_pos alpha (IZR z) m alpha_range mapping_built)
    as HL.
  apply Rmult_le_compat_r; [left; now apply Rinv_0_lt_compat|].
  destruct (Req_dec_T v w) as [E|N]; [subst; lra|].
  left. apply ln_increasing; lra.
Qed.

Lemma value_pos (k : Z) : 0 < value m k.
Proof.
  unfold value.
  rewrite (@MappingFacts.pow_gamma_log alpha (IZR z) m alpha_range
             mapping_built).
  rewrite (@MappingFacts.gamma_alpha alpha (IZR z) m alpha_range
             mapping_built).
  apply Rmult_lt_0_compat; [apply exp_pos|lra].
Qed.

Lemma value_monotone (k1 k2 : Z) : (k1 <= k2)%Z -> value m k1 <= value m k2.
Proof.
  intros H. unfold value.
  rewrite !(@MappingFacts.pow_gamma_log alpha (IZR z) m alpha_range
              mapping_built).
  rewrite (@MappingFacts.gamma_alpha alpha (IZR z) m alpha_range
             mapping_built).
  pose proof (@MappingFacts.L_pos alpha (IZR z) m alpha_range mapping_built)
    as HL.
  apply IZR_le in H.
  apply Rmult_le_compat_r; [lra|].
  destruct (Req_dec_T (IZR k1) (IZR k2)) as [E|N]; [rewrite E; lra|].
  left. apply exp_increasing. apply Rmult_lt_compat_r; [exact HL|lra].
Qed.

(** The three classes of values of [BaseDDSketch::add]. *)
Definition is_pos (v : R) : bool := Rgtb v (min_possible m).
Definition is_neg (v : R) : bool :=
  negb (is_pos v) && Rltb' v (- min_possible m).
Definition is_zero (v : R) : bool :=
  negb (is_pos v) && negb (Rltb' v (- min_possible m)).

(** The sketch [s] holds the values [vs]: the two stores hold one unit of
    weight for each value, at the key of its magnitude, and the counters
    agree with the list. *)
Definition represents (s : Sketch.t) (vs : list R) : Prop :=
  mapping_ s = m
  /\ wf (store_ s) /\ wf (negative_store_ s)
  /\ (forall K, weight_at (store_ s) K
                = IZR (count_if (fun v => is_pos v && (key m v =? K)%Z) vs))
  /\ (forall K, weight_at (negative_store_ s) K
                = IZR (count_if (fun v => is_neg v && (key m (- v) =? K)%Z)
                         vs))
  /\ Store.count (negative_store_ s) = IZR (count_if is_neg vs)
  /\ zero_count_ s = IZR (count_if is_zero vs)
  /\ count_ s = IZR (Z.of_nat (length vs))
  /\ sum_ s = DataSet.sum vs.

(** The keys of the value fit an [Index]. *)
Definition storable (v : R) : Prop :=
  (is_pos v = true -> is_index (key m v))
  /\ (is_neg v = true -> is_index (key m (- v))).

Lemma sum_snoc (vs : list R) (v : R) :
  DataSet.sum (vs ++ [v]) = DataSet.sum vs + v.
Proof. unfold DataSet.sum. now rewrite fold_left_app. Qed.

Lemma length_snoc (vs : list R) (v : R) :
  IZR (Z.of_nat (length (vs ++ [v]))) = IZR (Z.of_nat (length vs)) + 1.
Proof.
  rewrite length_app. simpl length. rewrite Nat2Z.inj_add, plus_IZR.
  reflexivity.
Qed.

Lemma count_if_snoc (P : R -> bool) (vs : list R) (v : R) :
  IZR (count_if P (vs ++ [v]))
  = IZR (count_if P vs) + if P v then 1 else 0.
Proof.
  rewrite count_if_app, plus_IZR. cbn [count_if].
  destruct (P v); rewrite plus_IZR; lra.
Qed.

(** One [add] with the default weight. *)
Lemma add_represents (s : Sketch.t) (vs : list R) (v : R) :
  represents s vs -> storable v ->
  exists s', Sketch.add Store.Dense s v 1 = Ok s'
             /\ represents s' (vs ++ [v]).
Proof.
  intros (Hm & W & Wn & Cp & Cn & Nn & Zc & Ct & Sm) (Sp & Sn).
  unfold Sketch.add.
  replace (Rleb' 1 0) with false by (symmetry; apply Rleb'_false; lra).
  rewrite Hm. fold (is_pos v).
  destruct (is_pos v) eqn:Ep.
  - (* above [min_possible] *)
    destruct (@add_dense (store_ s) (key m v) 1 W (Sp eq_refl))
      as (st & H & W' & C' & _).
    rewrite H. simpl bind. eexists. split; [reflexivity|].
    unfold represents. cbn [mapping_ store_ negative_store_ zero_count_
                              count_ sum_].
    split; [first [exact Hm|reflexivity]|]. split; [exact W'|].
    split; [exact Wn|].
    split; [|split; [|split; [|split; [|split]]]].
    + intros K. rewrite (@add_dense_content _ _ _ _ W (Sp eq_refl) H).
      rewrite Cp, count_if_snoc, Ep. cbn [andb].
      now rewrite Z.eqb_sym.
    + intros K. rewrite Cn, count_if_snoc. unfold is_neg. rewrite Ep.
      cbn [negb andb]. lra.
    + rewrite Nn, count_if_snoc. unfold is_neg. rewrite Ep.
      cbn [negb andb]. lra.
    + rewrite Zc, count_if_snoc. unfold is_zero. rewrite Ep.
      cbn [negb andb]. lra.
    + rewrite Ct, length_snoc. reflexivity.
    + rewrite Sm, sum_snoc. lra.
  - destruct (Rltb' v (- min_possible m)) eqn:En.
    + (* below [- min_possible] *)
      assert (En' : is_neg v = true) by (unfold is_neg; now rewrite Ep, En).
      destruct (@add_dense (negative_store_ s) (key m (- v)) 1 Wn (Sn En'))
        as (st & H & W' & C' & _).
      rewrite H. simpl bind. eexists. split; [reflexivity|].
      unfold represents. cbn [mapping_ store_ negative_store_ zero_count_
                                count_ sum_].
      split; [first [exact Hm|reflexivity]|]. split; [exact W|].
      split; [exact W'|].
      split; [|split; [|split; [|split; [|split]]]].
      * intros K. rewrite Cp, count_if_snoc, Ep. cbn [andb]. lra.
      * intros K. rewrite (@add_dense_content _ _ _ _ Wn (Sn En') H).
        rewrite Cn, count_if_snoc, En'. cbn [andb].
        now rewrite Z.eqb_sym.
      * unfold Store.count in *. rewrite C', Nn, count_if_snoc, En'.
        reflexivity.
      * rewrite Zc, count_if_snoc. unfold is_zero. rewrite Ep, En.
        cbn [negb andb]. lra.
      * rewrite Ct, length_snoc. reflexivity.
      * rewrite Sm, sum_snoc. lra.
    + (* counted as zero *)
      simpl bind. eexists. split; [reflexivity|].
      unfold represents. cbn [mapping_ store_ negative_store_ zero_count_
                                count_ sum_].
      split; [first [exact Hm|reflexivity]|]. split; [exact W|].
      split; [exact Wn|].
      split; [|split; [|split; [|split; [|split]]]].
      * intros K. rewrite Cp, count_if_snoc, Ep. cbn [andb]. lra.
      * intros K. rewrite Cn, count_if_snoc. unfold is_neg.
        rewrite Ep, En. cbn [negb andb]. lra.
      * rewrite Nn, count_if_snoc. unfold is_neg. rewrite Ep, En.
        cbn [negb andb]. lra.
      * rewrite Zc, count_if_snoc. unfold is_zero. rewrite Ep, En.
        cbn [negb andb]. reflexivity.
      * rewrite Ct, length_snoc. reflexivity.
      * rewrite Sm, sum_snoc. lra.
Qed.

(** The loop of [add] calls of the tests. *)
Lemma add_values_represents (vs : list R) :
  forall (s : Sketch.t) (seen : list R),
    represents s seen -> Forall storable vs ->
    exists s', SketchTest.add_values Store.Dense s vs = Ok s'
               /\ represents s' (seen ++ vs).
Proof.
  induction vs as [|v vs IH]; intros s seen Hr Hs.
  - exists s. split; [reflexivity|]. now rewrite app_nil_r.
  - inversion Hs as [|? ? Hv Hvs]; subst.
    destruct (add_represents Hr Hv) as (s1 & H1 & R1).
    destruct (IH s1 (seen ++ [v]) R1 Hvs) as (s' & H' & R').
    exists s'. simpl SketchTest.add_values. rewrite H1. simpl bind.
    split; [exact H'|]. now rewrite <- app_assoc in R'.
Qed.


(** A value that the sketch can report with the promised accuracy: zero, or
    a magnitude above [min_possible]. *)
Definition admissible (v : R) : Prop := v = 0 \/ min_possible m < Rabs v.

Lemma not_pos_split (vs : list R) :
  count_if (fun v => negb (is_pos v)) vs
  = (count_if is_neg vs + count_if is_zero vs)%Z.
Proof.
  apply (count_if_split (fun v => negb (is_pos v))
           (fun v => Rltb' v (- min_possible m))).
Qed.

Section Answer.

(** The keys under which the two stores count a value: [kp] for a value
    above [min_possible], [kn] for a value below [- min_possible]. *)
Variables (kp kn : R -> Z).
Hypothesis kp_monotone :
  forall v w, min_possible m < v <= w -> (kp v <= kp w)%Z.
Hypothesis kn_monotone :
  forall v w, v <= w < - min_possible m -> (kn w <= kn v)%Z.

(** The two stores hold one unit of weight for each value, at the key that
    [kp] or [kn] gives it, and the counters agree with the list. *)
Definition holds_by (s : Sketch.t) (vs : list R) : Prop :=
  mapping_ s = m
  /\ (forall K, weight_at (store_ s) K
                = IZR (count_if (fun v => is_pos v && (kp v =? K)%Z) vs))
  /\ (forall K, weight_at (negative_store_ s) K
                = IZR (count_if (fun v => is_neg v && (kn v =? K)%Z) vs))
  /\ Store.count (negative_store_ s) = IZR (count_if is_neg vs)
  /\ zero_count_ s = IZR (count_if is_zero vs)
  /\ count_ s = IZR (Z.of_nat (length vs)).

(** What the sketch answers when the data holds [x] at the quantile. *)
Definition answer (x : R) : R :=
  if is_pos x then value m (kp x)
  else if is_neg x then - value m (kn x)
  else 0.

(** The quantile read from the sketch is the answer for the value that the
    sorted data holds at that quantile, for any data and any [q]. *)
Lemma quantile_answer (s : Sketch.t) (vs : list R) (q : R) :
  holds_by s vs -> vs <> [] -> 0 <= q <= 1 ->
  exists x,
    In x vs
    /\ DataSet.quantile vs q = Ok x
    /\ get_quantile_value s q = Finite (answer x).
Proof.
  intros (Hm & Cp & Cn & Nn & Zc & Ct) Hne Hq.
  set (N := Z.of_nat (length vs)) in *.
  assert (HN : (1 <= N)%Z).
  { unfold N. destruct vs; [congruence|simpl length; lia]. }
  pose proof (IZR_le _ _ HN) as HNr.
  set (rank := q * (IZR N - 1)).
  assert (Hr : 0 <= rank <= IZR N - 1) by (unfold rank; nra).
  destruct (Rtrunc_floor (proj1 Hr)) as ((F1 & F2) & F3).
  set (i := Rtrunc rank) in *.
  assert (Hi : (i <= N - 1)%Z).
  { apply le_IZR. rewrite minus_IZR. lra. }
  (* the data set *)
  set (xs := DataSet.sort vs). set (x := nth (Z.to_nat i) xs 0).
  assert (Q : DataSet.quantile vs q = Ok x).
  { unfold DataSet.quantile, DataSet.size_minus_one, DataSet.len. fold N.
    replace (N =? 0)%Z with false by (symmetry; apply Z.eqb_neq; lia).
    rewrite minus_IZR. fold rank. fold i.
    replace ((0 <=? i)%Z && (i <? N)%Z) with true; [reflexivity|].
    symmetry. apply andb_true_iff.
    split; [apply Z.leb_le|apply Z.ltb_lt]; lia. }
  assert (Lx : (Z.to_nat i < length xs)%nat)
    by (unfold xs; rewrite length_sort; fold N; lia).
  assert (Inx : In x vs) by (apply In_sort; apply nth_In; exact Lx).
  pose proof (@ascending_count_le xs (sort_ascending vs) _ Lx) as A.
  pose proof (@ascending_count_lt xs (sort_ascending vs) _ Lx) as B.
  fold x in A, B. unfold xs in A, B. rewrite count_if_sort in A, B.
  rewrite Z2Nat.id in A, B by exact F3.
  (* the sketch *)
  unfold get_quantile_value.
  replace (Rltb' q 0) with false by (symmetry; apply Rltb'_false; lra).
  replace (Rgtb q 1) with false by (symmetry; apply Rgtb_false; lra).
  replace (Reqb' (count_ s) 0) with false
    by (symmetry; apply Reqb'_false; rewrite Ct; lra).
  cbn [orb]. rewrite Ct. fold rank. rewrite Nn, Zc, Hm.
  set (cn := count_if is_neg vs) in *. set (cz := count_if is_zero vs) in *.
  pose proof (not_pos_split vs) as Hnp. fold cn cz in Hnp.
  pose proof (IZR_le _ _ (count_if_nonneg is_neg vs)) as P1. fold cn in P1.
  pose proof (IZR_le _ _ (count_if_nonneg is_zero vs)) as P2. fold cz in P2.
  pose proof min_possible_pos as Mp.
  exists x. split; [exact Inx|]. split; [exact Q|]. unfold answer.
  destruct (is_pos x) eqn:Ep.
  - (* the value of the data set is positive *)
    assert (Xp : x > min_possible m) by (apply Rgtb_true; exact Ep).
    assert (L1 : (cn + cz <= i)%Z).
    { rewrite <- Hnp. etransitivity; [|exact B]. apply count_if_mono.
      intros v _ Hv. apply Rltb'_true. apply negb_true_iff in Hv.
      apply Rgtb_false in Hv. lra. }
    apply IZR_le in L1. rewrite plus_IZR in L1.
    replace (Rltb' rank (IZR cn)) with false
      by (symmetry; apply Rltb'_false; lra).
    replace (Rltb' rank (IZR cz + IZR cn)) with false
      by (symmetry; apply Rltb'_false; lra).
    assert (K : Store.key_at_rank (store_ s) (rank - IZR cz - IZR cn) true
                = kp x).
    { apply RankFacts.key_at_rank_least.
      - exact (@value_in_window R (store_ s) is_pos kp vs Cp x Inx Ep).
      - unfold RankFacts.reached.
        rewrite (@cumulative_counts R (store_ s) is_pos kp vs Cp);
          [|exact (@value_in_window R (store_ s) is_pos kp vs Cp x Inx Ep)].
        assert (G : (i + 1 - cn - cz
                     <= count_if (fun v => is_pos v && (kp v <=? kp x)%Z)
                          vs)%Z).
        { rewrite (count_if_split (fun v => Rleb' v x) is_pos) in A.
          assert (G1 : (count_if (fun v => Rleb' v x && is_pos v) vs
                        <= count_if
                             (fun v => is_pos v && (kp v <=? kp x)%Z)
                             vs)%Z).
          { apply count_if_mono. intros v _ Hv.
            apply andb_true_iff in Hv. destruct Hv as (Hv1 & Hv2).
            rewrite Hv2. cbn [andb]. apply Z.leb_le. apply kp_monotone.
            apply Rleb'_true in Hv1. apply Rgtb_true in Hv2. lra. }
          assert (G2 : (count_if (fun v => Rleb' v x && negb (is_pos v)) vs
                        <= count_if (fun v => negb (is_pos v)) vs)%Z).
          { apply count_if_mono. intros v _ Hv.
            apply andb_true_iff in Hv. tauto. }
          lia. }
        apply IZR_le in G. rewrite !minus_IZR, plus_IZR in G. lra.
      - intros K' Hw Hlt. unfold RankFacts.reached.
        rewrite (@cumulative_counts R (store_ s) is_pos kp vs Cp _ Hw).
        assert (G : (count_if (fun v => is_pos v && (kp v <=? K')%Z) vs
                     <= i - cn - cz)%Z).
        { rewrite (count_if_split (fun v => Rltb' v x) is_pos) in B.
          assert (G1 : (count_if (fun v => is_pos v && (kp v <=? K')%Z) vs
                        <= count_if (fun v => Rltb' v x && is_pos v) vs)%Z).
          { apply count_if_mono. intros v _ Hv.
            apply andb_true_iff in Hv. destruct Hv as (Hv1 & Hv2).
            rewrite Hv1, andb_true_r. apply Rltb'_true.
            apply Z.leb_le in Hv2.
            destruct (Rlt_dec v x) as [L|G]; [exact L|exfalso].
            assert (Hk : (kp x <= kp v)%Z)
              by (apply kp_monotone; lra).
            lia. }
          assert (G2 : (count_if (fun v => negb (is_pos v)) vs
                        <= count_if (fun v => Rltb' v x && negb (is_pos v))
                             vs)%Z).
          { apply count_if_mono. intros v _ Hv. rewrite Hv, andb_true_r.
            apply Rltb'_true. apply negb_true_iff in Hv.
            apply Rgtb_false in Hv. lra. }
          lia. }
        apply IZR_le in G. rewrite !minus_IZR in G. lra. }
    now rewrite K.
  - assert (Xp : x <= min_possible m) by (apply Rgtb_false; exact Ep).
    destruct (Rltb' x (- min_possible m)) eqn:En.
    + (* the value of the data set is negative *)
      assert (Xn : x < - min_possible m) by (apply Rltb'_true; exact En).
      assert (Enx : is_neg x = true) by (unfold is_neg; now rewrite Ep, En).
      assert (L1 : (i + 1 <= cn)%Z).
      { etransitivity; [exact A|]. apply count_if_mono.
        intros v _ Hv. apply Rleb'_true in Hv. unfold is_neg, is_pos.
        apply andb_true_iff. split.
        - apply negb_true_iff. apply Rgtb_false. lra.
        - apply Rltb'_true. lra. }
      apply IZR_le in L1. rewrite plus_IZR in L1.
      replace (Rltb' rank (IZR cn)) with true
        by (symmetry; apply Rltb'_true; lra).
      assert (Wx : RankFacts.in_window (negative_store_ s) (kn x)).
      { exact (@value_in_window R (negative_store_ s) is_neg
                 kn vs Cn x Inx Enx). }
      assert (K : Store.key_at_rank (negative_store_ s)
                    (IZR cn - rank - 1) false
                  = kn x).
      { apply RankFacts.key_at_rank_least.
        - exact Wx.
        - unfold RankFacts.reached.
          rewrite (@cumulative_counts R (negative_store_ s) is_neg
                     kn vs Cn _ Wx).
          assert (G : (cn - i
                       <= count_if
                            (fun v => is_neg v
                                      && (kn v <=? kn x)%Z)
                            vs)%Z).
          { unfold cn at 1.
            rewrite (count_if_split is_neg (fun v => Rltb' v x)).
            assert (G1 : (count_if (fun v => is_neg v && Rltb' v x) vs
                          <= count_if (fun v => Rltb' v x) vs)%Z).
            { apply count_if_mono. intros v _ Hv.
              apply andb_true_iff in Hv. tauto. }
            assert (G2 : (count_if (fun v => is_neg v && negb (Rltb' v x)) vs
                          <= count_if
                               (fun v => is_neg v
                                         && (kn v <=? kn x)%Z)
                               vs)%Z).
            { apply count_if_mono. intros v _ Hv.
              apply andb_true_iff in Hv. destruct Hv as (Hv1 & Hv2).
              rewrite Hv1. cbn [andb]. apply Z.leb_le. apply kn_monotone.
              apply negb_true_iff in Hv2. apply Rltb'_false in Hv2.
              unfold is_neg in Hv1. apply andb_true_iff in Hv1.
              destruct Hv1 as (_ & Hv1). apply Rltb'_true in Hv1. lra. }
            lia. }
          apply IZR_le in G. rewrite minus_IZR in G. lra.
        - intros K' Hw Hlt. unfold RankFacts.reached.
          rewrite (@cumulative_counts R (negative_store_ s) is_neg
                     kn vs Cn _ Hw).
          assert (G : (count_if
                         (fun v => is_neg v && (kn v <=? K')%Z) vs
                       <= cn - i - 1)%Z).
          { unfold cn.
            rewrite (count_if_split is_neg (fun v => Rleb' v x)).
            assert (G1 : (count_if (fun v => Rleb' v x) vs
                          <= count_if (fun v => is_neg v && Rleb' v x) vs)%Z).
            { apply count_if_mono. intros v _ Hv. rewrite Hv, andb_true_r.
              apply Rleb'_true in Hv. unfold is_neg, is_pos.
              apply andb_true_iff. split.
              - apply negb_true_iff. apply Rgtb_false. lra.
              - apply Rltb'_true. lra. }
            assert (G2 : (count_if
                            (fun v => is_neg v && (kn v <=? K')%Z) vs
                          <= count_if
                               (fun v => is_neg v && negb (Rleb' v x)) vs)%Z).
            { apply count_if_mono. intros v _ Hv.
              apply andb_true_iff in Hv. destruct Hv as (Hv1 & Hv2).
              rewrite Hv1. cbn [andb]. apply negb_true_iff.
              apply Rleb'_false. apply Z.leb_le in Hv2.
              destruct (Rlt_dec x v) as [L|G]; [exact L|exfalso].
              assert (Hk : (kn x <= kn v)%Z)
                by (apply kn_monotone; lra).
              lia. }
            lia. }
          apply IZR_le in G. rewrite !minus_IZR in G. lra. }
      now rewrite K, Enx.
    + (* the value of the data set is counted as zero *)
      assert (Xn : - min_possible m <= x) by (apply Rltb'_false; exact En).
      assert (L1 : (cn <= i)%Z).
      { etransitivity; [|exact B]. apply count_if_mono.
        intros v _ Hv. unfold is_neg in Hv. apply andb_true_iff in Hv.
        destruct Hv as (_ & Hv). apply Rltb'_true in Hv.
        apply Rltb'_true. lra. }
      assert (L2 : (i + 1 <= cn + cz)%Z).
      { rewrite <- Hnp. etransitivity; [exact A|]. apply count_if_mono.
        intros v _ Hv. apply Rleb'_true in Hv.
        apply negb_true_iff. apply Rgtb_false. lra. }
      apply IZR_le in L1. apply IZR_le in L2.
      rewrite !plus_IZR in L2.
      replace (Rltb' rank (IZR cn)) with false
        by (symmetry; apply Rltb'_false; lra).
      replace (Rltb' rank (IZR cz + IZR cn)) with true
        by (symmetry; apply Rltb'_true; lra).
      unfold is_neg. now rewrite Ep, En.
Qed.

(** The answer does not decrease with the value. *)
Lemma answer_monotone (x1 x2 : R) : x1 <= x2 -> answer x1 <= answer x2.
Proof.
  intros H. pose proof min_possible_pos as Mp. unfold answer, is_neg.
  destruct (is_pos x1) eqn:E1, (is_pos x2) eqn:E2; cbn [negb andb].
  - apply Rgtb_true in E1. apply value_monotone. apply kp_monotone. lra.
  - apply Rgtb_true in E1. apply Rgtb_false in E2. lra.
  - pose proof (value_pos (kp x2)).
    destruct (Rltb' x1 (- min_possible m)); [|lra].
    pose proof (value_pos (kn x1)). lra.
  - apply Rgtb_false in E1. apply Rgtb_false in E2.
    destruct (Rltb' x1 (- min_possible m)) eqn:N1,
             (Rltb' x2 (- min_possible m)) eqn:N2.
    + apply Rltb'_true in N2. apply Ropp_le_contravar.
      apply value_monotone. apply kn_monotone. lra.
    + pose proof (value_pos (kn x1)). lra.
    + apply Rltb'_false in N1. apply Rltb'_true in N2. lra.
    + lra.
Qed.

(** The quantile of the data does not decrease with [q]. *)
Lemma data_quantile_monotone (vs : list R) (q1 q2 x1 x2 : R) :
  0 <= q1 <= q2 ->
  DataSet.quantile vs q1 = Ok x1 -> DataSet.quantile vs q2 = Ok x2 ->
  x1 <= x2.
Proof.
  intros Hq. unfold DataSet.quantile.
  set (n := DataSet.size_minus_one vs).
  assert (Hn : (0 <= n)%Z).
  { unfold n, DataSet.size_minus_one, DataSet.len.
    destruct (Z.eqb_spec (Z.of_nat (length vs)) 0); lia. }
  apply IZR_le in Hn.
  assert (R1 : 0 <= q1 * IZR n) by nra.
  assert (R2 : 0 <= q2 * IZR n) by nra.
  destruct (Rtrunc_floor R1) as ((A1 & A2) & A3).
  destruct (Rtrunc_floor R2) as ((B1 & B2) & B3).
  set (i1 := Rtrunc (q1 * IZR n)) in *.
  set (i2 := Rtrunc (q2 * IZR n)) in *.
  assert (Hi : (i1 <= i2)%Z).
  { assert (L : IZR i1 < IZR (i2 + 1)) by (rewrite plus_IZR; nra).
    apply lt_IZR in L. lia. }
  destruct ((0 <=? i1)%Z && (i1 <? DataSet.len vs)%Z) eqn:E1;
    [|discriminate].
  destruct ((0 <=? i2)%Z && (i2 <? DataSet.len vs)%Z) eqn:E2;
    [|discriminate].
  intros H1 H2. inversion H1; inversion H2; subst.
  apply andb_true_iff in E2. destruct E2 as (_ & E2).
  apply Z.ltb_lt in E2. unfold DataSet.len in E2.
  apply ascending_nth_le; [apply sort_ascending|lia|].
  rewrite length_sort. lia.
Qed.

(** The answers of the sketch do not decrease with [q]. *)
Lemma quantile_answer_monotone (s : Sketch.t) (vs : list R) (q1 q2 : R) :
  holds_by s vs -> vs <> [] -> 0 <= q1 -> q1 <= q2 -> q2 <= 1 ->
  exists y1 y2,
    get_quantile_value s q1 = Finite y1
    /\ get_quantile_value s q2 = Finite y2
    /\ y1 <= y2.
Proof.
  intros Hs Hne H1 H12 H2.
  destruct (@quantile_answer s vs q1 Hs Hne ltac:(lra))
    as (x1 & _ & Q1 & G1).
  destruct (@quantile_answer s vs q2 Hs Hne ltac:(lra))
    as (x2 & _ & Q2 & G2).
  exists (answer x1), (answer x2). split; [exact G1|]. split; [exact G2|].
  apply answer_monotone.
  apply (@data_quantile_monotone vs q1 q2 x1 x2); [lra|exact Q1|exact Q2].
Qed.

(** The answer is within the relative accuracy of [x] when the key that
    counts [x] is the key of the mapping. *)
Lemma answer_accurate (x : R) :
  admissible x ->
  (is_pos x = true -> kp x = key m x) ->
  (is_neg x = true -> kn x = key m (- x)) ->
  Rabs (answer x - x) <= alpha * Rabs x.
Proof.
  intros Ha Hp Hn. pose proof min_possible_pos as Mp. unfold answer.
  destruct (is_pos x) eqn:Ep.
  - assert (Xp : x > min_possible m) by (apply Rgtb_true; exact Ep).
    rewrite (Hp eq_refl).
    pose proof (@MappingFacts.round_trip_integer_offset alpha (IZR z) m
                  alpha_range mapping_built z x eq_refl ltac:(lra)) as RT.
    rewrite (Rabs_right x) by lra.
    apply Rmult_le_compat_r with (r := x) in RT; [|lra].
    unfold Rdiv in RT. rewrite Rmult_assoc, Rinv_l, Rmult_1_r in RT; lra.
  - assert (Xp : x <= min_possible m) by (apply Rgtb_false; exact Ep).
    destruct (is_neg x) eqn:Enx.
    + assert (Xn : x < - min_possible m).
      { unfold is_neg in Enx. rewrite Ep in Enx. cbn [negb andb] in Enx.
        now apply Rltb'_true. }
      rewrite (Hn eq_refl).
      pose proof (@MappingFacts.round_trip_integer_offset alpha (IZR z) m
                    alpha_range mapping_built z (- x) eq_refl ltac:(lra))
        as RT.
      rewrite (Rabs_left x) by lra.
      apply Rmult_le_compat_r with (r := - x) in RT; [|lra].
      unfold Rdiv in RT. rewrite Rmult_assoc, Rinv_l, Rmult_1_r in RT by lra.
      replace (- value m (key m (- x)) - x)
        with (- (value m (key m (- x)) - - x)) by lra.
      rewrite Rabs_Ropp. lra.
    + assert (Xn : - min_possible m <= x).
      { unfold is_neg in Enx. rewrite Ep in Enx. cbn [negb andb] in Enx.
        now apply Rltb'_false. }
      assert (X0 : x = 0).
      { destruct Ha as [E|G']; [exact E|].
        exfalso. unfold Rabs in G'. destruct (Rcase_abs x); lra. }
      rewrite X0, Rminus_diag, Rabs_R0. lra.
Qed.

End Answer.

(** The quantile read from a sketch that holds [vs] against the quantile of
    the data set, for any data and any [q]. *)
Lemma quantile_represented (s : Sketch.t) (vs : list R) (q : R) :
  represents s vs -> vs <> [] -> Forall admissible vs -> 0 <= q <= 1 ->
  exists x y,
    DataSet.quantile vs q = Ok x
    /\ get_quantile_value s q = Finite y
    /\ Rabs (y - x) <= alpha * Rabs x.
Proof.
  intros (Hm & W & Wn & Cp & Cn & Nn & Zc & Ct & Sm) Hne Ha Hq.
  pose proof min_possible_pos as Mp.
  destruct (@quantile_answer (key m) (fun v => key m (- v))
              ltac:(intros v w H; apply key_monotone; lra)
              ltac:(intros v w H; apply key_monotone; lra)
              s vs q
              ltac:(repeat (split; [assumption|]); assumption) Hne Hq)
    as (x & Inx & Q & G).
  exists x, (answer (key m) (fun v => key m (- v)) x).
  split; [exact Q|]. split; [exact G|].
  rewrite Forall_forall in Ha.
  apply answer_accurate; [now apply Ha|reflexivity|reflexivity].
Qed.


(** [merge] of two sketches with the same mapping: the result holds the
    values of both. *)
Lemma merge_represents (s o : Sketch.t) (vs ws : list R) :
  represents s vs -> represents o ws ->
  exists s', Sketch.merge Store.Dense s o = Ok s'
             /\ represents s' (vs ++ ws).
Proof.
  intros (Hm & W & Wn & Cp & Cn & Nn & Zc & Ct & Sm)
         (Hm' & W' & Wn' & Cp' & Cn' & Nn' & Zc' & Ct' & Sm').
  unfold Sketch.merge, mergeable.
  replace (Reqb' (gamma (mapping_ s)) (gamma (mapping_ o))) with true
    by (symmetry; apply Reqb'_true; now rewrite Hm, Hm').
  cbn [negb].
  assert (Hsum : DataSet.sum (vs ++ ws) = DataSet.sum vs + DataSet.sum ws).
  { unfold DataSet.sum. rewrite fold_left_app.
    rewrite BinListFacts.fold_left_Rplus. reflexivity. }
  assert (Hlen : IZR (Z.of_nat (length (vs ++ ws)))
                 = IZR (Z.of_nat (length vs)) + IZR (Z.of_nat (length ws))).
  { rewrite length_app, Nat2Z.inj_add, plus_IZR. reflexivity. }
  assert (Happ : forall P, IZR (count_if P (vs ++ ws))
                           = IZR (count_if P vs) + IZR (count_if P ws)).
  { intros P. now rewrite count_if_app, plus_IZR. }
  destruct (Req_dec_T (count_ o) 0) as [E0|N0].
  { (* nothing to merge *)
    assert (ws = []).
    { rewrite Ct' in E0. apply eq_IZR in E0.
      destruct ws; [reflexivity|simpl length in E0; lia]. }
    subst ws. exists s. split; [reflexivity|]. rewrite app_nil_r.
    repeat (split; [assumption|]). assumption. }
  destruct (Req_dec_T (count_ s) 0) as [E1|N1].
  { (* the receiver is empty: it becomes a copy *)
    assert (vs = []).
    { rewrite Ct in E1. apply eq_IZR in E1.
      destruct vs; [reflexivity|simpl length in E1; lia]. }
    subst vs. eexists. split; [reflexivity|]. rewrite app_nil_l.
    unfold represents, Sketch.copy.
    cbn [mapping_ store_ negative_store_ zero_count_ count_ sum_].
    split; [exact Hm|]. split; [|split].
    - destruct W as (Hc & _). destruct W' as (_ & Hs & Hsh).
      split; [exact Hc|]. split; [exact Hs|exact Hsh].
    - destruct Wn as (Hc & _). destruct Wn' as (_ & Hs & Hsh).
      split; [exact Hc|]. split; [exact Hs|exact Hsh].
    - repeat (split; [assumption|]). assumption. }
  assert (NN : forall st (f : Z -> R -> bool) l,
             (forall K, weight_at st K = IZR (count_if (f K) l)) ->
             nonneg st).
  { intros st f l H. apply nonneg_weights. intros K. rewrite H.
    apply IZR_le. apply count_if_nonneg. }
  pose proof (NN _ (fun K v => is_pos v && (key m v =? K)%Z) _ Cp) as N1p.
  pose proof (NN _ (fun K v => is_pos v && (key m v =? K)%Z) _ Cp') as N2p.
  pose proof (NN _ (fun K v => is_neg v && (key m (- v) =? K)%Z) _ Cn)
    as N1n.
  pose proof (NN _ (fun K v => is_neg v && (key m (- v) =? K)%Z) _ Cn')
    as N2n.
  destruct (@merge_dense_wf (store_ s) (store_ o) W W')
    as (st & H1 & W1 & C1 & _).
  destruct (@merge_dense_wf (negative_store_ s) (negative_store_ o) Wn Wn')
    as (nst & H2 & W2 & C2 & _).
  unfold from_store. rewrite H1, H2. cbn [lift bind].
  eexists. split; [reflexivity|].
  unfold represents.
  cbn [mapping_ store_ negative_store_ zero_count_ count_ sum_].
  split; [exact Hm|]. split; [exact W1|]. split; [exact W2|].
  split; [|split; [|split; [|split; [|split]]]].
  - intros K.
    rewrite (@merge_dense_content _ _ _ W W' N1p N2p H1), Cp, Cp', Happ.
    reflexivity.
  - intros K.
    rewrite (@merge_dense_content _ _ _ Wn Wn' N1n N2n H2), Cn, Cn', Happ.
    reflexivity.
  - unfold Store.count in *. rewrite C2, Nn, Nn', Happ. reflexivity.
  - rewrite Zc, Zc', Happ. reflexivity.
  - rewrite Ct, Ct', Hlen. reflexivity.
  - rewrite Sm, Sm', Hsum. reflexivity.
Qed.

End Represented.

(** A new [DDSketch] holds no value. *)
Lemma new_sketch_represents (alpha : R) (s0 : Sketch.t) :
  DDSketch alpha = Ok s0 ->
  LogarithmicMapping alpha (IZR 0) = Ok (mapping_ s0)
  /\ represents (mapping_ s0) s0 [].
Proof.
  unfold DDSketch.
  destruct (LogarithmicMapping alpha 0) as [m| |] eqn:Hm; try discriminate.
  simpl bind. intros E. inversion E; subst s0; clear E.
  cbn [mapping_ BaseDDSketch]. split; [reflexivity|].
  assert (W0 : wf Store.DenseStore)
    by (apply wf_new; unfold Store.kChunkSize; lia).
  unfold represents. cbn [mapping_ store_ negative_store_ zero_count_
                            count_ sum_ BaseDDSketch count_if length].
  split; [reflexivity|]. split; [exact W0|]. split; [exact W0|].
  split; [intros K; apply weight_at_new|].
  split; [intros K; apply weight_at_new|].
  repeat split; reflexivity.
Qed.

(** In the model.
    The accuracy test of [BaseDDSketchTest] holds for every data set:
    after the values have been added one by one to a new [DDSketch], the
    sketch answers every quantile query within the relative accuracy of the
    value the sorted data holds at that quantile, and its count, sum and
    average are those of the data. *)
Theorem ddsketch_quantile_accuracy (alpha q : R) (values : list R)
    (s0 : Sketch.t) :
  0 < alpha < 1 ->
  DDSketch alpha = Ok s0 ->
  values <> [] ->
  Forall (admissible (mapping_ s0)) values ->
  Forall (storable (mapping_ s0)) values ->
  0 <= q <= 1 ->
  exists s x y,
    SketchTest.add_values Store.Dense s0 values = Ok s
    /\ DataSet.quantile values q = Ok x
    /\ get_quantile_value s q = Finite y
    /\ Rabs (y - x) <= alpha * Rabs x
    /\ num_values s = IZR (DataSet.len values)
    /\ Sketch.sum s = DataSet.sum values
    /\ Sketch.avg s = DataSet.avg values.
Proof.
  intros Ha H0 Hne Hadm Hsto Hq.
  destruct (new_sketch_represents _ H0) as (Hm & R0).
  destruct (@add_values_represents (mapping_ s0) values s0 [] R0 Hsto)
    as (s & Hs & Rs).
  cbn [app] in Rs.
  destruct (@quantile_represented alpha 0 (mapping_ s0) Ha Hm s values q
              Rs Hne Hadm Hq) as (x & y & Q & G & E).
  exists s, x, y. split; [exact Hs|]. split; [exact Q|]. split; [exact G|].
  split; [exact E|].
  destruct Rs as (_ & _ & _ & _ & _ & _ & _ & Ct & Sm).
  unfold num_values, Sketch.sum, Sketch.avg, DataSet.avg, DataSet.len.
  rewrite Ct, Sm. repeat split; reflexivity.
Qed.

(** The mapping and the sketch that [DDSketch(0.01)] builds. *)
Definition mapping_0_01 : Mapping.t :=
  Mapping.mk Logarithmic (1 / 100) 0
    (1 + 2 * (1 / 100) / (1 - 1 / 100))
    (DBL_MIN * (1 + 2 * (1 / 100) / (1 - 1 / 100)))
    (DBL_MAX / (1 + 2 * (1 / 100) / (1 - 1 / 100)))
    (1 / log1p (2 * (1 / 100) / (1 - 1 / 100)) * ln 2).

Definition sketch_0_01 : Sketch.t :=
  BaseDDSketch mapping_0_01 Store.DenseStore Store.DenseStore.

Lemma mapping_0_01_built : LogarithmicMapping (1 / 100) 0 = Ok mapping_0_01.
Proof.
  unfold LogarithmicMapping, KeyMapping.
  replace (Rleb' (1 / 100) 0) with false
    by (symmetry; apply Rleb'_false; lra).
  replace (Rgeb (1 / 100) 1) with false by (symmetry; apply Rgeb_false; lra).
  reflexivity.
Qed.

Lemma sketch_0_01_built : DDSketch (1 / 100) = Ok sketch_0_01.
Proof. unfold DDSketch. rewrite mapping_0_01_built. reflexivity. Qed.

Lemma sample_values_ok :
  Forall (admissible mapping_0_01) [1; 0; -1]
  /\ Forall (storable mapping_0_01) [1; 0; -1].
Proof.
  pose proof (@SketchFacts.one_above_min_possible 0 mapping_0_01
                mapping_0_01_built) as (M1 & M2).
  assert (K1 : key mapping_0_01 1 = 0%Z).
  { rewrite MappingFacts.key_1. apply (Rtrunc_IZR 0). }
  assert (I0 : is_index 0)
    by (unfold is_index, INT64_MIN, INT64_MAX; lia).
  assert (S1 : storable mapping_0_01 1).
  { split; intros T; [now rewrite K1|exfalso].
    unfold is_neg in T. apply andb_true_iff in T. destruct T as (_ & T).
    apply Rltb'_true in T. lra. }
  assert (S0 : storable mapping_0_01 0).
  { split; intros T; exfalso.
    - apply Rgtb_true in T. lra.
    - unfold is_neg in T. apply andb_true_iff in T. destruct T as (_ & T).
      apply Rltb'_true in T. lra. }
  assert (S2 : storable mapping_0_01 (-1)).
  { split; intros T.
    - exfalso. apply Rgtb_true in T. lra.
    - replace (- -1) with 1 by lra. now rewrite K1. }
  split.
  - apply Forall_cons; [right; rewrite Rabs_R1; exact M2|].
    apply Forall_cons; [now left|].
    apply Forall_cons; [|apply Forall_nil].
    right. replace (-1) with (- (1)) by lra.
    rewrite Rabs_Ropp, Rabs_R1. exact M2.
  - apply Forall_cons; [exact S1|].
    apply Forall_cons; [exact S0|].
    apply Forall_cons; [exact S2|apply Forall_nil].
Qed.

Lemma ddsketch_quantile_accuracy_witness :
  exists s x y,
    SketchTest.add_values Store.Dense sketch_0_01 [1; 0; -1] = Ok s
    /\ DataSet.quantile [1; 0; -1] (1 / 2) = Ok x
    /\ get_quantile_value s (1 / 2) = Finite y
    /\ Rabs (y - x) <= 1 / 100 * Rabs x
    /\ num_values s = IZR (DataSet.len [1; 0; -1])
    /\ Sketch.sum s = DataSet.sum [1; 0; -1]
    /\ Sketch.avg s = DataSet.avg [1; 0; -1].
Proof.
  apply (@ddsketch_quantile_accuracy (1 / 100) (1 / 2) [1; 0; -1]
           sketch_0_01).
  - lra.
  - exact sketch_0_01_built.
  - discriminate.
  - exact (proj1 sample_values_ok).
  - exact (proj2 sample_values_ok).
  - lra.
Defined.

(** In the model.
    Merging keeps the accuracy: when two new sketches of the same
    accuracy are filled from two lists of values and the second is merged
    into the first, the result answers every quantile query within the
    relative accuracy of the quantile of the two lists together. *)
Theorem merged_sketch_quantile_accuracy (alpha q : R)
    (values others : list R) (s0 : Sketch.t) :
  0 < alpha < 1 ->
  DDSketch alpha = Ok s0 ->
  values ++ others <> [] ->
  Forall (admissible (mapping_ s0)) (values ++ others) ->
  Forall (storable (mapping_ s0)) (values ++ others) ->
  0 <= q <= 1 ->
  exists a b s x y,
    SketchTest.add_values Store.Dense s0 values = Ok a
    /\ SketchTest.add_values Store.Dense s0 others = Ok b
    /\ Sketch.merge Store.Dense a b = Ok s
    /\ DataSet.quantile (values ++ others) q = Ok x
    /\ get_quantile_value s q = Finite y
    /\ Rabs (y - x) <= alpha * Rabs x
    /\ num_values s = IZR (DataSet.len (values ++ others))
    /\ Sketch.sum s = DataSet.sum (values ++ others).
Proof.
  intros Ha H0 Hne Hadm Hsto Hq.
  destruct (new_sketch_represents _ H0) as (Hm & R0).
  apply Forall_app in Hsto. destruct Hsto as (St1 & St2).
  destruct (@add_values_represents (mapping_ s0) values s0 [] R0 St1)
    as (a & Ea & Ra).
  destruct (@add_values_represents (mapping_ s0) others s0 [] R0 St2)
    as (b & Eb & Rb).
  cbn [app] in Ra, Rb.
  destruct (merge_represents Ra Rb) as (s & Es & Rs).
  destruct (@quantile_represented alpha 0 (mapping_ s0) Ha Hm s
              (values ++ others) q Rs Hne Hadm Hq) as (x & y & Q & G & E).
  exists a, b, s, x, y.
  repeat (split; [assumption|]).
  destruct Rs as (_ & _ & _ & _ & _ & _ & _ & Ct & Sm).
  unfold num_values, Sketch.sum, DataSet.len. now rewrite Ct, Sm.
Qed.

Lemma merged_sketch_quantile_accuracy_witness :
  exists a b s x y,
    SketchTest.add_values Store.Dense sketch_0_01 [1; 0] = Ok a
    /\ SketchTest.add_values Store.Dense sketch_0_01 [-1] = Ok b
    /\ Sketch.merge Store.Dense a b = Ok s
    /\ DataSet.quantile ([1; 0] ++ [-1]) (1 / 2) = Ok x
    /\ get_quantile_value s (1 / 2) = Finite y
    /\ Rabs (y - x) <= 1 / 100 * Rabs x
    /\ num_values s = IZR (DataSet.len ([1; 0] ++ [-1]))
    /\ Sketch.sum s = DataSet.sum ([1; 0] ++ [-1]).
Proof.
  apply (@merged_sketch_quantile_accuracy (1 / 100) (1 / 2) [1; 0] [-1]
           sketch_0_01).
  - lra.
  - exact sketch_0_01_built.
  - discriminate.
  - exact (proj1 sample_values_ok).
  - exact (proj2 sample_values_ok).
  - lra.
Defined.

Lemma logarithmic_round_trip_witness :
  min_possible mapping_0_01 <= 1 <= max_possible mapping_0_01
  /\ Rabs (value mapping_0_01 (key mapping_0_01 1) - 1) / 1 <= 1 / 100.
Proof.
  assert (B : min_possible mapping_0_01 <= 1 <= max_possible mapping_0_01).
  { pose proof DBL_MIN_bounds. pose proof DBL_MAX_bound.
    unfold min_possible, max_possible, mapping_0_01. simpl.
    set (g := 1 + 2 * (1 / 100) / (1 - 1 / 100)).
    assert (G : 1 < g < 2) by (unfold g; lra).
    split; [nra|].
    apply Rmult_le_reg_r with (r := g); [lra|].
    replace (DBL_MAX / g * g) with DBL_MAX by (field; lra). lra. }
  split; [exact B|].
  apply (@MappingFacts.logarithmic_round_trip (1 / 100) 1 0 mapping_0_01).
  - lra.
  - exact mapping_0_01_built.
  - exact B.
Defined.

(** In the model.
    The keys of the logarithmic mapping are the indices of
    the buckets [(gamma ^ (k - 1), gamma ^ k]]: with an integer offset [z],
    [key v = k] exactly when [v] lies in the bucket of index [k - z]; the
    value of a key is the upper end of its bucket times [1 - alpha]; and
    the key does not decrease when the value grows. *)
Theorem logarithmic_key_is_the_bucket_index (alpha v : R) (z : Z)
    (m : Mapping.t) :
  0 < alpha < 1 ->
  LogarithmicMapping alpha (IZR z) = Ok m ->
  0 < v ->
  (forall k : Z,
      key m v = k
      <-> Rpower (gamma m) (IZR (k - z) - 1) < v
          <= Rpower (gamma m) (IZR (k - z)))
  /\ (forall k : Z,
         value m k = Rpower (gamma m) (IZR (k - z)) * (1 - alpha))
  /\ (forall w : R, v <= w -> (key m v <= key m w)%Z).
Proof.
  intros Ha Hm Hv.
  pose proof (@MappingFacts.L_pos alpha (IZR z) m Ha Hm) as HL.
  pose proof (@MappingFacts.key_integer_offset alpha (IZR z) m Ha Hm z v
                eq_refl) as Hk.
  set (L := ln (gamma_ m)) in *.
  assert (E : ln v / L * L = ln v) by (field; lra).
  split; [|split].
  - intros k. unfold Rpower, gamma. fold L. split.
    + intros Ek. rewrite Hk in Ek.
      destruct (Rceil_bounds (ln v / L)) as [B1 B2].
      assert (Ck : (k - z)%Z = Rceil (ln v / L)) by (rewrite <- Ek; ring).
      rewrite Ck. split.
      * apply Rlt_le_trans with (exp (ln v)); [|rewrite exp_ln; lra].
        apply exp_increasing.
        apply Rlt_le_trans with (ln v / L * L); [|rewrite E; lra].
        apply Rmult_lt_compat_r; lra.
      * apply Rle_trans with (exp (ln v)); [rewrite exp_ln; lra|].
        assert (X : ln v <= IZR (Rceil (ln v / L)) * L).
        { apply Rle_trans with (ln v / L * L); [rewrite E; lra|].
          apply Rmult_le_compat_r; lra. }
        destruct (Req_dec_T (ln v) (IZR (Rceil (ln v / L)) * L)) as [Q|N];
          [right; f_equal; exact Q|].
        left. apply exp_increasing. lra.
    + intros (B1 & B2). rewrite Hk.
      assert (C : Rceil (ln v / L) = (k - z)%Z); [|rewrite C; ring].
      apply Rceil_spec. split.
      * apply Rmult_lt_reg_r with (r := L); [exact HL|]. rewrite E.
        apply exp_lt_inv. now rewrite exp_ln.
      * apply Rmult_le_reg_r with (r := L); [exact HL|]. rewrite E.
        apply Rnot_lt_le. intros X. apply exp_increasing in X.
        rewrite exp_ln in X by exact Hv. lra.
  - intros k. unfold value, Rpower, gamma. fold L.
    rewrite (@MappingFacts.pow_gamma_log alpha (IZR z) m Ha Hm).
    rewrite (@MappingFacts.gamma_alpha alpha (IZR z) m Ha Hm).
    destruct (@MappingFacts.log_fields alpha (IZR z) m Ha Hm)
      as (_ & O & _).
    rewrite O, minus_IZR. reflexivity.
  - intros w Hw. apply (@key_monotone alpha z m Ha Hm). lra.
Qed.

Lemma logarithmic_key_is_the_bucket_index_witness :
  (forall k : Z,
      key mapping_0_01 2 = k
      <-> Rpower (gamma mapping_0_01) (IZR (k - 0) - 1) < 2
          <= Rpower (gamma mapping_0_01) (IZR (k - 0)))
  /\ (forall k : Z,
         value mapping_0_01 k
         = Rpower (gamma mapping_0_01) (IZR (k - 0)) * (1 - 1 / 100))
  /\ (forall w : R, 2 <= w -> (key mapping_0_01 2 <= key mapping_0_01 w)%Z).
Proof.
  apply (@logarithmic_key_is_the_bucket_index (1 / 100) 2 0 mapping_0_01).
  - lra.
  - exact mapping_0_01_built.
  - lra.
Defined.
End QuantileFacts.

(** ** The linearly interpolated mapping *)

Module LinearFacts.

Import Mapping.
Local Open Scope R_scope.

Lemma ln_le_minus_1 (x : R) : 0 < x -> ln x <= x - 1.
Proof.
  intros H. pose proof (exp_ineq1_le (ln x)) as E.
  rewrite exp_ln in E by exact H. lra.
Qed.

Lemma ln_monotone (x y : R) : 0 < x <= y -> ln x <= ln y.
Proof.
  intros (Hx & Hy). destruct (Req_dec_T x y) as [E|N]; [subst; lra|].
  left. apply ln_increasing; lra.
Qed.

Lemma ln_2_pos : 0 < ln 2.
Proof. rewrite <- ln_1. apply ln_increasing; lra. Qed.

Lemma ln_2_lt_1 : ln 2 < 1.
Proof.
  pose proof ln_2_pos as P.
  pose proof (exp_ineq1 (ln 2) ltac:(lra)) as X.
  rewrite exp_ln in X by lra. lra.
Qed.

Lemma pow2_exp (e : Z) : powerRZ 2 e = exp (IZR e * ln 2).
Proof. rewrite powerRZ_Rpower by lra. reflexivity. Qed.

Lemma pow2_pos (e : Z) : 0 < powerRZ 2 e.
Proof. apply powerRZ_lt. lra. Qed.

Lemma pow2_succ (e : Z) : powerRZ 2 (e + 1) = 2 * powerRZ 2 e.
Proof. rewrite powerRZ_add by lra. simpl. lra. Qed.

(** [frexp] on a positive number: the mantissa lies in [1/2, 1). *)
Lemma frexp_pos (v : R) :
  0 < v ->
  exists mant e,
    frexp v = (mant, e) /\ 1 / 2 <= mant < 1 /\ v = mant * powerRZ 2 e.
Proof.
  intros Hv. unfold frexp.
  destruct (Req_dec_T v 0) as [E|_]; [lra|].
  rewrite (Rabs_right v) by lra.
  set (e := up (log2 v)).
  exists (v / powerRZ 2 e), e. split; [reflexivity|].
  pose proof (pow2_pos e) as P.
  destruct (archimed (log2 v)) as [A1 A2]. fold e in A1, A2.
  pose proof ln_2_pos as L2.
  assert (B1 : ln v < IZR e * ln 2).
  { unfold log2 in A1. apply Rmult_lt_compat_r with (r := ln 2) in A1;
      [|exact L2].
    unfold Rdiv in A1. rewrite Rmult_assoc, Rinv_l, Rmult_1_r in A1; lra. }
  assert (B2 : (IZR e - 1) * ln 2 <= ln v).
  { unfold log2 in A2.
    assert (X : IZR e - 1 <= ln v / ln 2) by lra.
    apply Rmult_le_compat_r with (r := ln 2) in X; [|lra].
    unfold Rdiv in X. rewrite Rmult_assoc, Rinv_l, Rmult_1_r in X; lra. }
  assert (U : v < powerRZ 2 e).
  { rewrite pow2_exp. rewrite <- (exp_ln v Hv) at 1.
    now apply exp_increasing. }
  assert (D : powerRZ 2 e <= 2 * v).
  { replace e with ((e - 1) + 1)%Z at 1 by lia. rewrite pow2_succ.
    apply Rmult_le_compat_l; [lra|].
    rewrite pow2_exp, minus_IZR. rewrite <- (exp_ln v Hv) at 1.
    destruct (Req_dec_T ((IZR e - 1) * ln 2) (ln v)) as [E|N];
      [rewrite E; lra|].
    left. apply exp_increasing. lra. }
  split; [|field; lra].
  assert (E1 : v / powerRZ 2 e * powerRZ 2 e = v) by (field; lra).
  split.
  - apply Rmult_le_reg_r with (r := powerRZ 2 e); [exact P|].
    rewrite E1. lra.
  - apply Rmult_lt_reg_r with (r := powerRZ 2 e); [exact P|].
    rewrite E1. lra.
Qed.

(** [frexp] undoes [ldexp] on a mantissa of [1/2, 1). *)
Lemma frexp_ldexp (mant : R) (e : Z) :
  1 / 2 <= mant < 1 -> frexp (ldexp mant e) = (mant, e).
Proof.
  intros (M1 & M2). unfold ldexp.
  pose proof (pow2_pos e) as P.
  assert (Hv : 0 < mant * powerRZ 2 e) by nra.
  unfold frexp.
  destruct (Req_dec_T (mant * powerRZ 2 e) 0) as [E|_]; [lra|].
  rewrite (Rabs_right (mant * powerRZ 2 e)) by lra.
  pose proof ln_2_pos as L2.
  assert (Hl : log2 (mant * powerRZ 2 e) = ln mant / ln 2 + IZR e).
  { unfold log2. rewrite ln_mult by lra. rewrite pow2_exp, ln_exp.
    field. lra. }
  assert (N1 : - ln 2 <= ln mant).
  { replace (- ln 2) with (ln (1 / 2)).
    - apply ln_monotone. lra.
    - unfold Rdiv. rewrite Rmult_1_l, ln_Rinv by lra. reflexivity. }
  assert (N2 : ln mant < 0).
  { rewrite <- ln_1. apply ln_increasing; lra. }
  assert (E2 : ln mant / ln 2 * ln 2 = ln mant) by (field; lra).
  assert (Q1 : -1 <= ln mant / ln 2).
  { apply Rmult_le_reg_r with (r := ln 2); [exact L2|]. rewrite E2. lra. }
  assert (Q2 : ln mant / ln 2 < 0).
  { apply Rmult_lt_reg_r with (r := ln 2); [exact L2|]. rewrite E2. lra. }
  assert (Ue : e = up (log2 (mant * powerRZ 2 e))).
  { apply tech_up; rewrite Hl; lra. }
  rewrite <- Ue. f_equal. field. lra.
Qed.

(** [exp2_approx] is the inverse of [log2_approx], on both sides. *)
Lemma log2_approx_exp2_approx (y : R) : log2_approx (exp2_approx y) = y.
Proof.
  unfold exp2_approx.
  set (e := (Rfloor y + 1)%Z).
  destruct (base_Int_part y) as [F1 F2]. fold (Rfloor y) in F1, F2.
  assert (Ee : IZR e = IZR (Rfloor y) + 1) by (unfold e; now rewrite plus_IZR).
  unfold log2_approx. rewrite frexp_ldexp by lra. lra.
Qed.

Lemma exp2_approx_positive (y : R) : 0 < exp2_approx y.
Proof.
  unfold exp2_approx, ldexp.
  set (e := (Rfloor y + 1)%Z).
  destruct (base_Int_part y) as [F1 F2]. fold (Rfloor y) in F1, F2.
  assert (Ee : IZR e = IZR (Rfloor y) + 1) by (unfold e; now rewrite plus_IZR).
  pose proof (pow2_pos e). apply Rmult_lt_0_compat; lra.
Qed.

Lemma exp2_approx_log2_approx (v : R) :
  0 < v -> exp2_approx (log2_approx v) = v.
Proof.
  intros Hv. destruct (@frexp_pos v Hv) as (mant & e & F & (M1 & M2) & V).
  unfold log2_approx. rewrite F. unfold exp2_approx.
  assert (Fl : Rfloor (2 * mant - 1 + (IZR e - 1)) = (e - 1)%Z).
  { apply Rfloor_spec. rewrite minus_IZR. lra. }
  rewrite Fl. replace (e - 1 + 1)%Z with e by lia.
  unfold ldexp. rewrite V. f_equal. lra.
Qed.

(** [log2_approx] grows at least as fast as the natural logarithm. *)
Lemma log2_approx_growth (v w : R) :
  0 < v <= w -> ln w - ln v <= log2_approx w - log2_approx v.
Proof.
  intros (Hv & Hw).
  destruct (@frexp_pos v Hv) as (mv & ev & Fv & (V1 & V2) & Ev).
  destruct (@frexp_pos w ltac:(lra)) as (mw & ew & Fw & (W1 & W2) & Ew).
  unfold log2_approx. rewrite Fv, Fw.
  pose proof ln_2_pos as L2. pose proof ln_2_lt_1 as L21.
  assert (Lv : ln v = ln mv + IZR ev * ln 2).
  { rewrite Ev at 1. rewrite ln_mult by (pose proof (pow2_pos ev); lra).
    now rewrite pow2_exp, ln_exp. }
  assert (Lw : ln w = ln mw + IZR ew * ln 2).
  { rewrite Ew at 1. rewrite ln_mult by (pose proof (pow2_pos ew); lra).
    now rewrite pow2_exp, ln_exp. }
  assert (Half : ln (1 / 2) = - ln 2).
  { unfold Rdiv. rewrite Rmult_1_l, ln_Rinv by lra. reflexivity. }
  assert (Nv : - ln 2 <= ln mv < 0).
  { split; [rewrite <- Half; apply ln_monotone; lra|].
    rewrite <- ln_1. apply ln_increasing; lra. }
  assert (Nw : - ln 2 <= ln mw < 0).
  { split; [rewrite <- Half; apply ln_monotone; lra|].
    rewrite <- ln_1. apply ln_increasing; lra. }
  pose proof (@ln_monotone v w ltac:(lra)) as Lvw.
  rewrite Lv, Lw in *.
  destruct (Z_lt_le_dec ev ew) as [Lt|Ge].
  - (* [w] lies in a higher binade *)
    assert (Le : IZR ev + 1 <= IZR ew).
    { rewrite <- plus_IZR. apply IZR_le. lia. }
    assert (A : - ln mv <= 2 * (1 - mv)).
    { rewrite <- ln_Rinv by lra.
      pose proof (@ln_le_minus_1 (/ mv) ltac:(apply Rinv_0_lt_compat; lra))
        as X.
      assert (Y : / mv - 1 <= 2 * (1 - mv)).
      { apply Rmult_le_reg_r with (r := mv); [lra|].
        replace ((/ mv - 1) * mv) with (1 - mv) by (field; lra). nra. }
      lra. }
    assert (B : ln 2 + ln mw <= 2 * mw - 1).
    { rewrite <- ln_mult by lra.
      apply (@ln_le_minus_1 (2 * mw)). lra. }
    nra.
  - destruct (Z.eq_dec ev ew) as [Eq|Ne].
    + (* the same binade *)
      subst ew.
      assert (Mm : mv <= mw).
      { pose proof (pow2_pos ev) as P.
        apply Rmult_le_reg_r with (r := powerRZ 2 ev); [exact P|]. lra. }
      assert (A : ln mw - ln mv <= 2 * (mw - mv)).
      { assert (D : ln (mw / mv) = ln mw - ln mv).
        { unfold Rdiv. rewrite ln_mult, ln_Rinv; try lra.
          apply Rinv_0_lt_compat; lra. }
        rewrite <- D.
        pose proof (@ln_le_minus_1 (mw / mv)
                      ltac:(apply Rdiv_lt_0_compat; lra)) as X.
        assert (Y : mw / mv - 1 <= 2 * (mw - mv)).
        { apply Rmult_le_reg_r with (r := mv); [lra|].
          replace ((mw / mv - 1) * mv) with (mw - mv) by (field; lra). nra. }
        lra. }
      lra.
    + (* a lower binade is impossible *)
      exfalso.
      assert (Le : IZR ew + 1 <= IZR ev).
      { rewrite <- plus_IZR. apply IZR_le. lia. }
      nra.
Qed.

(** [log2_approx] is increasing on the positive numbers. *)
Lemma log2_approx_order (u w : R) :
  0 < u -> 0 < w -> log2_approx u <= log2_approx w -> u <= w.
Proof.
  intros Hu Hw H. destruct (Rle_dec u w) as [L|G]; [exact L|exfalso].
  pose proof (@log2_approx_growth w u ltac:(lra)) as X.
  pose proof (@ln_increasing w u Hw ltac:(lra)). lra.
Qed.

(** In the model.
    The linearly interpolated mapping keeps the
    promise of its constructor: with an integer offset, the value of the
    key of every positive [v] is within the relative accuracy of [v]. *)
Theorem linear_round_trip (alpha v : R) (z : Z) (m : Mapping.t) :
  0 < alpha < 1 ->
  LinearlyInterpolatedMapping alpha (IZR z) = Ok m ->
  0 < v ->
  Rabs (value m (key m v) - v) / v <= alpha.
Proof.
  intros Ha Hm Hv.
  destruct (@MappingFacts.KeyMapping_ok LinearlyInterpolated alpha (IZR z) Ha)
    as (m' & Hm' & Kd & Off & _ & G & _ & _ & Mu).
  unfold LinearlyInterpolatedMapping in Hm. rewrite Hm in Hm'.
  inversion Hm'; subst m'; clear Hm'.
  assert (G1 : 1 < gamma_ m).
  { rewrite G.
    assert (0 < 2 * alpha / (1 - alpha))
      by (apply Rdiv_lt_0_compat; lra).
    lra. }
  assert (GA : 2 / (1 + gamma_ m) = 1 - alpha) by (rewrite G; field; lra).
  assert (GM : gamma_ m * (1 - alpha) = 1 + alpha) by (rewrite G; field; lra).
  set (Lg := ln (gamma_ m)) in *.
  assert (HL : 0 < Lg).
  { unfold Lg. rewrite <- ln_1. apply ln_increasing; lra. }
  set (c := Rceil (log2_approx v * multiplier_ m)).
  assert (Hk : key m v = (c + z)%Z).
  { unfold key, log_gamma. rewrite Kd, Off. fold c.
    rewrite <- plus_IZR. apply Rtrunc_IZR. }
  rewrite Hk. unfold value, pow_gamma. rewrite Kd, Off, GA.
  replace ((IZR (c + z) - IZR z) / multiplier_ m) with (IZR c * Lg)
    by (rewrite plus_IZR, Mu; field; lra).
  set (u := exp2_approx (IZR c * Lg)).
  assert (Hu : 0 < u) by apply exp2_approx_positive.
  assert (Lu : log2_approx u = IZR c * Lg)
    by apply log2_approx_exp2_approx.
  destruct (Rceil_bounds (log2_approx v * multiplier_ m)) as [B1 B2].
  fold c in B1, B2. rewrite Mu in B1, B2.
  assert (E : log2_approx v * (1 / Lg) * Lg = log2_approx v)
    by (field; lra).
  assert (C1 : log2_approx v <= IZR c * Lg).
  { rewrite <- E. apply Rmult_le_compat_r; lra. }
  assert (C2 : IZR c * Lg < log2_approx v + Lg).
  { rewrite <- E at 1.
    replace (log2_approx v * (1 / Lg) * Lg + Lg)
      with ((log2_approx v * (1 / Lg) + 1) * Lg) by ring.
    apply Rmult_lt_compat_r; lra. }
  assert (U1 : v <= u).
  { apply log2_approx_order; [exact Hv|exact Hu|lra]. }
  assert (U2 : u <= gamma_ m * v).
  { apply log2_approx_order; [exact Hu|nra|].
    pose proof (@log2_approx_growth v (gamma_ m * v) ltac:(nra)) as X.
    rewrite ln_mult in X by lra. fold Lg in X. lra. }
  apply Rmult_le_reg_r with (r := v); [lra|].
  replace (Rabs (u * (1 - alpha) - v) / v * v)
    with (Rabs (u * (1 - alpha) - v)) by (field; lra).
  apply Rabs_le. split; nra.
Qed.

Definition linear_mapping_0_01 : Mapping.t :=
  Mapping.mk LinearlyInterpolated (1 / 100) 0
    (1 + 2 * (1 / 100) / (1 - 1 / 100))
    (DBL_MIN * (1 + 2 * (1 / 100) / (1 - 1 / 100)))
    (DBL_MAX / (1 + 2 * (1 / 100) / (1 - 1 / 100)))
    (1 / log1p (2 * (1 / 100) / (1 - 1 / 100))).

Lemma linear_mapping_0_01_built :
  LinearlyInterpolatedMapping (1 / 100) (IZR 0) = Ok linear_mapping_0_01.
Proof.
  unfold LinearlyInterpolatedMapping, KeyMapping.
  replace (Rleb' (1 / 100) 0) with false
    by (symmetry; apply Rleb'_false; lra).
  replace (Rgeb (1 / 100) 1) with false by (symmetry; apply Rgeb_false; lra).
  reflexivity.
Qed.

Lemma linear_round_trip_witness :
  Rabs (value linear_mapping_0_01 (key linear_mapping_0_01 3) - 3) / 3
  <= 1 / 100.
Proof.
  apply (@linear_round_trip (1 / 100) 3 0 linear_mapping_0_01).
  - lra.
  - exact linear_mapping_0_01_built.
  - lra.
Defined.


(** In the model.
    In a linearly interpolated mapping [pow_gamma] is
    the inverse of [log_gamma], as the comment on [exp2_approx] says: on
    both sides, for every positive value and for every exponent. *)
Theorem linear_pow_gamma_inverts_log_gamma (alpha offset : R)
    (m : Mapping.t) :
  0 < alpha < 1 ->
  LinearlyInterpolatedMapping alpha offset = Ok m ->
  (forall v, 0 < v -> pow_gamma m (log_gamma m v) = v)
  /\ (forall x, log_gamma m (pow_gamma m x) = x)
  /\ (forall v w, 0 < v <= w -> log_gamma m v <= log_gamma m w).
Proof.
  intros Ha Hm.
  destruct (@MappingFacts.KeyMapping_ok LinearlyInterpolated alpha offset Ha)
    as (m' & Hm' & Kd & _ & _ & G & _ & _ & Mu).
  unfold LinearlyInterpolatedMapping in Hm. rewrite Hm in Hm'.
  inversion Hm'; subst m'; clear Hm'.
  assert (G1 : 1 < gamma_ m).
  { rewrite G.
    assert (0 < 2 * alpha / (1 - alpha))
      by (apply Rdiv_lt_0_compat; lra).
    lra. }
  assert (HL : 0 < ln (gamma_ m)).
  { rewrite <- ln_1. apply ln_increasing; lra. }
  assert (M0 : 0 < multiplier_ m).
  { rewrite Mu. apply Rdiv_lt_0_compat; lra. }
  unfold pow_gamma, log_gamma. rewrite Kd. split; [|split].
  - intros v Hv.
    replace (log2_approx v * multiplier_ m / multiplier_ m)
      with (log2_approx v) by (field; lra).
    now apply exp2_approx_log2_approx.
  - intros x. rewrite log2_approx_exp2_approx. field. lra.
  - intros v w Hvw. apply Rmult_le_compat_r; [lra|].
    pose proof (@log2_approx_growth v w Hvw) as X.
    pose proof (@ln_monotone v w Hvw). lra.
Qed.

Lemma linear_pow_gamma_inverts_log_gamma_witness :
  (forall v, 0 < v ->
             pow_gamma linear_mapping_0_01 (log_gamma linear_mapping_0_01 v)
             = v)
  /\ (forall x,
         log_gamma linear_mapping_0_01 (pow_gamma linear_mapping_0_01 x) = x)
  /\ (forall v w, 0 < v <= w ->
                  log_gamma linear_mapping_0_01 v
                  <= log_gamma linear_mapping_0_01 w).
Proof.
  apply (@linear_pow_gamma_inverts_log_gamma (1 / 100) 0).
  - lra.
  - exact linear_mapping_0_01_built.
Defined.

End LinearFacts.

(** ** The cubically interpolated mapping *)

Module CubicFacts.

Import Mapping LinearFacts.
Local Open Scope R_scope.

(** The polynomial of [cubic_log2_approx]. *)
Definition poly (s : R) : R := ((A_ * s + B_) * s + C_) * s.

Lemma poly_0 : poly 0 = 0.
Proof. unfold poly. ring. Qed.

Lemma poly_1 : poly 1 = 1.
Proof. unfold poly, A_, B_, C_. field. Qed.

Lemma poly_increasing (a b : R) : a < b -> poly a < poly b.
Proof.
  intros H. unfold poly, A_, B_, C_.
  assert (Q : 0 < 6 * (a * a + a * b + b * b) - 21 * (a + b) + 50).
  { pose proof (Rle_0_sqr (a + b - 7 / 3)) as S1.
    pose proof (Rle_0_sqr (a - b)) as S2. unfold Rsqr in S1, S2. nra. }
  assert (P : 0 < (b - a)
                  * (6 * (a * a + a * b + b * b) - 21 * (a + b) + 50))
    by (apply Rmult_lt_0_compat; lra).
  nra.
Qed.

Lemma poly_injective (a b : R) : poly a = poly b -> a = b.
Proof.
  intros H. destruct (Rtotal_order a b) as [L|[E|G]]; [|exact E|].
  - apply poly_increasing in L. lra.
  - apply poly_increasing in G. lra.
Qed.

Lemma cbrt_neg (u : R) :
  u < 0 -> cbrt u < 0 /\ cbrt u * cbrt u * cbrt u = u.
Proof.
  intros H. unfold cbrt. destruct (Rlt_dec u 0) as [_|N]; [|lra].
  set (a := Rpower (- u) (1 / 3)).
  assert (Pa : 0 < a) by apply exp_pos.
  assert (Ca : a * a * a = - u).
  { unfold a. rewrite <- !Rpower_plus.
    replace (1 / 3 + 1 / 3 + 1 / 3) with 1 by lra.
    apply Rpower_1. lra. }
  split; [lra|].
  replace (- a * - a * - a) with (- (a * a * a)) by ring. lra.
Qed.

(** The significand that [cubic_exp2_approx] computes by Cardano's formula
    from the fractional part [t] of its argument. *)
Definition cardano_root (t : R) : R :=
  let delta_0 := B_ * B_ - 3 * A_ * C_ in
  let delta_1 :=
    2 * B_ * B_ * B_ - 9 * A_ * B_ * C_ - 27 * A_ * A_ * t in
  let cardano :=
    cbrt ((delta_1
           - sqrt (delta_1 * delta_1 - 4 * delta_0 * delta_0 * delta_0))
          / 2) in
  - (B_ + cardano + delta_0 / cardano) / (3 * A_).

Lemma cubic_exp2_approx_unfold (y : R) :
  cubic_exp2_approx y
  = ldexp ((cardano_root (y - IZR (Rfloor y)) + 1) / 2) (Rfloor y + 1).
Proof. reflexivity. Qed.

(** Cardano's formula gives a root of the polynomial. *)
Lemma cardano_root_spec (t : R) : poly (cardano_root t) = t.
Proof.
  unfold cardano_root.
  set (d0 := B_ * B_ - 3 * A_ * C_).
  set (d1 := 2 * B_ * B_ * B_ - 9 * A_ * B_ * C_ - 27 * A_ * A_ * t).
  set (rad := d1 * d1 - 4 * d0 * d0 * d0).
  set (r := sqrt rad).
  set (u := (d1 - r) / 2).
  set (c := cbrt u).
  assert (D0 : d0 = - 459 / 1225) by (unfold d0, A_, B_, C_; field).
  assert (Hrad : 0 < rad).
  { unfold rad. rewrite D0. pose proof (Rle_0_sqr d1) as S.
    unfold Rsqr in S. lra. }
  assert (Rr : r * r = rad) by (apply sqrt_sqrt; lra).
  assert (Pr : 0 < r) by (apply sqrt_lt_R0; exact Hrad).
  assert (Gr : d1 < r).
  { apply Rnot_le_lt. intros X.
    assert (r * r <= d1 * d1) by nra.
    unfold rad in Rr. rewrite D0 in Rr. lra. }
  assert (Un : u < 0) by (unfold u; lra).
  destruct (cbrt_neg Un) as (Cn & Cc). fold c in Cn, Cc.
  assert (Hq : u * u + d0 * d0 * d0 = d1 * u).
  { assert (X : u * u - d1 * u + d0 * d0 * d0 = (r * r - rad) / 4)
      by (unfold u, rad; field).
    rewrite Rr in X. lra. }
  set (w := c + d0 / c).
  assert (W : w * w * w - 3 * d0 * w = d1).
  { assert (W1 : w * w * w - 3 * d0 * w
                 = c * c * c + d0 * d0 * d0 / (c * c * c))
      by (unfold w; field; lra).
    rewrite W1, Cc.
    replace d1 with (d1 * u / u) by (field; lra).
    rewrite <- Hq. field. lra. }
  set (x := - (B_ + c + d0 / c) / (3 * A_)).
  assert (Xw : 3 * A_ * x + B_ = - w) by (unfold x, w, A_; field; lra).
  assert (Id : 27 * A_ * A_ * (poly x - t)
               = (3 * A_ * x + B_) * (3 * A_ * x + B_) * (3 * A_ * x + B_)
                 - 3 * d0 * (3 * A_ * x + B_) + d1)
    by (unfold poly, d0, d1; ring).
  rewrite Xw in Id.
  assert (Z : 27 * A_ * A_ * (poly x - t) = 0).
  { rewrite Id.
    replace (- w * - w * - w - 3 * d0 * - w + d1)
      with (- (w * w * w - 3 * d0 * w) + d1) by ring.
    rewrite W. ring. }
  unfold A_ in Z. lra.
Qed.

Lemma cardano_root_range (t : R) :
  0 <= t < 1 -> 0 <= cardano_root t < 1.
Proof.
  intros (T0 & T1). pose proof (cardano_root_spec t) as P.
  set (x := cardano_root t) in *. split.
  - apply Rnot_lt_le. intros X. apply poly_increasing in X.
    rewrite poly_0 in X. lra.
  - apply Rnot_le_lt. intros X. destruct X as [X|X].
    + apply poly_increasing in X. rewrite poly_1 in X. lra.
    + rewrite <- X, poly_1 in P. lra.
Qed.

Lemma cubic_log2_approx_poly (mant : R) (e : Z) (v : R) :
  frexp v = (mant, e) ->
  cubic_log2_approx v = poly (2 * mant - 1) + (IZR e - 1).
Proof. intros F. unfold cubic_log2_approx. rewrite F. reflexivity. Qed.

(** [cubic_exp2_approx] is the inverse of [cubic_log2_approx], on both
    sides. *)
Lemma cubic_log2_approx_exp2_approx (y : R) :
  cubic_log2_approx (cubic_exp2_approx y) = y.
Proof.
  rewrite cubic_exp2_approx_unfold.
  destruct (base_Int_part y) as [F1 F2]. fold (Rfloor y) in F1, F2.
  set (t := y - IZR (Rfloor y)).
  destruct (@cardano_root_range t ltac:(unfold t; lra)) as (X0 & X1).
  pose proof (cardano_root_spec t) as P.
  set (x := cardano_root t) in *.
  rewrite (@cubic_log2_approx_poly ((x + 1) / 2) (Rfloor y + 1)%Z)
    by (apply frexp_ldexp; lra).
  replace (2 * ((x + 1) / 2) - 1) with x by field.
  rewrite P, plus_IZR. unfold t. ring.
Qed.

Lemma cubic_exp2_approx_positive (y : R) : 0 < cubic_exp2_approx y.
Proof.
  rewrite cubic_exp2_approx_unfold.
  destruct (base_Int_part y) as [F1 F2]. fold (Rfloor y) in F1, F2.
  set (t := y - IZR (Rfloor y)).
  destruct (@cardano_root_range t ltac:(unfold t; lra)) as (X0 & X1).
  unfold ldexp. pose proof (pow2_pos (Rfloor y + 1)).
  apply Rmult_lt_0_compat; lra.
Qed.

Lemma cubic_exp2_approx_log2_approx (v : R) :
  0 < v -> cubic_exp2_approx (cubic_log2_approx v) = v.
Proof.
  intros Hv. destruct (@frexp_pos v Hv) as (mant & e & F & (M1 & M2) & V).
  rewrite (@cubic_log2_approx_poly mant e v F).
  set (s := 2 * mant - 1).
  assert (S0 : 0 <= poly s).
  { destruct (Req_dec_T s 0) as [E|N]; [rewrite E, poly_0; lra|].
    rewrite <- poly_0. left. apply poly_increasing. unfold s in *. lra. }
  assert (S1 : poly s < 1).
  { rewrite <- poly_1. apply poly_increasing. unfold s. lra. }
  rewrite cubic_exp2_approx_unfold.
  assert (Fl : Rfloor (poly s + (IZR e - 1)) = (e - 1)%Z).
  { apply Rfloor_spec. rewrite minus_IZR. lra. }
  rewrite Fl. replace (e - 1 + 1)%Z with e by lia.
  replace (poly s + (IZR e - 1) - IZR (e - 1)) with (poly s)
    by (rewrite minus_IZR; ring).
  rewrite (@poly_injective _ _ (cardano_root_spec (poly s))).
  unfold ldexp. rewrite V. f_equal. unfold s. field.
Qed.

(** *** Growth of [cubic_log2_approx] *)

Definition phi (s : R) : R := poly s - C_ * ln (1 + s).

Definition phi' (s : R) : R :=
  3 * A_ * s * s + 2 * B_ * s + C_ - C_ / (1 + s).

Lemma derivable_pt_lim_eq (f g : R -> R) (x l : R) :
  (forall y, f y = g y) -> derivable_pt_lim f x l -> derivable_pt_lim g x l.
Proof.
  intros E H eps He. destruct (H eps He) as (d & Hd). exists d.
  intros h H1 H2. rewrite <- !E. now apply Hd.
Qed.

Lemma phi_derivative (c : R) : -1 < c -> derivable_pt_lim phi c (phi' c).
Proof.
  intros Hc.
  apply derivable_pt_lim_eq
    with (f := (((mult_real_fct A_ (fun y => y ^ 3)
                  + mult_real_fct B_ (fun y => y ^ 2))
                 + mult_real_fct C_ id)
                - mult_real_fct C_ (comp ln (fct_cte 1 + id)))%F).
  - intros y. unfold phi, poly, plus_fct, minus_fct, mult_real_fct, comp,
      fct_cte, id. ring.
  - replace (phi' c)
      with (A_ * (INR 3 * c ^ pred 3) + B_ * (INR 2 * c ^ pred 2) + C_ * 1
            - C_ * (/ (1 + c) * (0 + 1)))
      by (unfold phi'; simpl; field; lra).
    apply derivable_pt_lim_minus.
    + apply derivable_pt_lim_plus.
      * apply derivable_pt_lim_plus.
        -- apply derivable_pt_lim_scal. apply derivable_pt_lim_pow.
        -- apply derivable_pt_lim_scal. apply derivable_pt_lim_pow.
      * apply derivable_pt_lim_scal. apply derivable_pt_lim_id.
    + apply derivable_pt_lim_scal.
      apply derivable_pt_lim_comp.
      * apply derivable_pt_lim_plus.
        -- apply derivable_pt_lim_const.
        -- apply derivable_pt_lim_id.
      * unfold plus_fct, fct_cte, id. apply derivable_pt_lim_ln. lra.
Qed.

Lemma phi'_nonneg (c : R) : 0 <= c -> 0 <= phi' c.
Proof.
  intros Hc.
  replace (phi' c)
    with (2 * c * ((3 * c - 2) * (3 * c - 2)) / (35 * (1 + c)))
    by (unfold phi', A_, B_, C_; field; lra).
  apply Rmult_le_pos.
  - apply Rmult_le_pos; [lra|]. apply Rle_0_sqr.
  - left. apply Rinv_0_lt_compat. lra.
Qed.

Lemma phi_monotone (a b : R) : 0 <= a <= b -> phi a <= phi b.
Proof.
  intros (Ha & Hb). destruct (Req_dec_T a b) as [E|N]; [subst; lra|].
  destruct (@MVT_cor2 phi phi' a b ltac:(lra)) as (c & Hc & Hab).
  - intros c Hc. apply phi_derivative. lra.
  - pose proof (@phi'_nonneg c ltac:(lra)) as P.
    assert (0 <= phi' c * (b - a)) by (apply Rmult_le_pos; lra). lra.
Qed.

Lemma ln_2_upper : ln 2 <= 7 / 10.
Proof.
  assert (E0 : 647 / 640 <= exp (7 / 640)).
  { pose proof (exp_ineq1_le (7 / 640)). lra. }
  assert (Dbl : forall x y b c : R,
             y = x + x -> 0 < b -> b <= exp x -> c <= b * b -> c <= exp y).
  { intros x y b c Hy Hb Hx Hcb. rewrite Hy, exp_plus. nra. }
  pose proof (Dbl (7 / 640) (7 / 320) (647 / 640) (102199 / 100000)
                ltac:(lra)
                ltac:(lra) E0 ltac:(lra)) as E1.
  pose proof (Dbl (7 / 320) (7 / 160) (102199 / 100000) (104446 / 100000)
                ltac:(lra)
                ltac:(lra) E1 ltac:(lra)) as E2.
  pose proof (Dbl (7 / 160) (7 / 80) (104446 / 100000) (109089 / 100000)
                ltac:(lra)
                ltac:(lra) E2 ltac:(lra)) as E3.
  pose proof (Dbl (7 / 80) (7 / 40) (109089 / 100000) (119004 / 100000)
                ltac:(lra)
                ltac:(lra) E3 ltac:(lra)) as E4.
  pose proof (Dbl (7 / 40) (7 / 20) (119004 / 100000) (141619 / 100000)
                ltac:(lra)
                ltac:(lra) E4 ltac:(lra)) as E5.
  pose proof (Dbl (7 / 20) (7 / 10) (141619 / 100000) 2 ltac:(lra) ltac:(lra) E5
                ltac:(lra)) as E6.
  apply Rnot_lt_le. intros X. apply exp_increasing in X.
  rewrite exp_ln in X by lra. lra.
Qed.

(** [cubic_log2_approx] grows at least [C_] times as fast as the natural
    logarithm; [C_] is the constant by which the constructor divides the
    multiplier. *)
Lemma cubic_log2_approx_growth (v w : R) :
  0 < v <= w ->
  C_ * (ln w - ln v) <= cubic_log2_approx w - cubic_log2_approx v.
Proof.
  intros (Hv & Hw).
  destruct (@frexp_pos v Hv) as (mv & ev & Fv & (V1 & V2) & Ev).
  destruct (@frexp_pos w ltac:(lra)) as (mw & ew & Fw & (W1 & W2) & Ew).
  rewrite (@cubic_log2_approx_poly mv ev v Fv).
  rewrite (@cubic_log2_approx_poly mw ew w Fw).
  pose proof ln_2_pos as L2. pose proof ln_2_upper as L2u.
  assert (HC : C_ = 10 / 7) by reflexivity.
  assert (Lv : ln v = ln mv + IZR ev * ln 2).
  { rewrite Ev at 1. rewrite ln_mult by (pose proof (pow2_pos ev); lra).
    now rewrite pow2_exp, ln_exp. }
  assert (Lw : ln w = ln mw + IZR ew * ln 2).
  { rewrite Ew at 1. rewrite ln_mult by (pose proof (pow2_pos ew); lra).
    now rewrite pow2_exp, ln_exp. }
  assert (Half : ln (1 / 2) = - ln 2).
  { unfold Rdiv. rewrite Rmult_1_l, ln_Rinv by lra. reflexivity. }
  assert (Nv : - ln 2 <= ln mv < 0).
  { split; [rewrite <- Half; apply ln_monotone; lra|].
    rewrite <- ln_1. apply ln_increasing; lra. }
  assert (Nw : - ln 2 <= ln mw < 0).
  { split; [rewrite <- Half; apply ln_monotone; lra|].
    rewrite <- ln_1. apply ln_increasing; lra. }
  pose proof (@ln_monotone v w ltac:(lra)) as Lvw.
  set (sv := 2 * mv - 1). set (sw := 2 * mw - 1).
  assert (Pv : phi sv = poly sv - C_ * (ln mv + ln 2)).
  { assert (X : ln (1 + sv) = ln mv + ln 2)
      by (rewrite <- ln_mult by lra; f_equal; unfold sv; ring).
    unfold phi. now rewrite X. }
  assert (Pw : phi sw = poly sw - C_ * (ln mw + ln 2)).
  { assert (X : ln (1 + sw) = ln mw + ln 2)
      by (rewrite <- ln_mult by lra; f_equal; unfold sw; ring).
    unfold phi. now rewrite X. }
  assert (P0 : phi 0 = 0).
  { unfold phi. rewrite poly_0, Rplus_0_r, ln_1. ring. }
  assert (P1 : phi 1 = 1 - C_ * ln 2).
  { unfold phi. rewrite poly_1. replace (1 + 1) with 2 by lra.
    reflexivity. }
  rewrite Lv, Lw in *.
  destruct (Z_lt_le_dec ev ew) as [Lt|Ge].
  - (* [w] lies in a higher binade *)
    assert (Le : IZR ev + 1 <= IZR ew).
    { rewrite <- plus_IZR. apply IZR_le. lia. }
    pose proof (@phi_monotone sv 1 ltac:(unfold sv; lra)) as M1.
    pose proof (@phi_monotone 0 sw ltac:(unfold sw; lra)) as M2.
    rewrite HC in *. nra.
  - destruct (Z.eq_dec ev ew) as [Eq|Ne].
    + (* the same binade *)
      subst ew.
      assert (Mm : mv <= mw).
      { pose proof (pow2_pos ev) as P.
        apply Rmult_le_reg_r with (r := powerRZ 2 ev); [exact P|]. lra. }
      pose proof (@phi_monotone sv sw ltac:(unfold sv, sw; lra)) as M.
      lra.
    + (* a lower binade is impossible *)
      exfalso.
      assert (Le : IZR ew + 1 <= IZR ev).
      { rewrite <- plus_IZR. apply IZR_le. lia. }
      nra.
Qed.

Lemma cubic_log2_approx_order (u w : R) :
  0 < u -> 0 < w -> cubic_log2_approx u <= cubic_log2_approx w -> u <= w.
Proof.
  intros Hu Hw H. destruct (Rle_dec u w) as [L|G]; [exact L|exfalso].
  pose proof (@cubic_log2_approx_growth w u ltac:(lra)) as X.
  pose proof (@ln_increasing w u Hw ltac:(lra)).
  assert (HC : C_ = 10 / 7) by reflexivity. rewrite HC in X. nra.
Qed.

(** In the model.
    The cubically interpolated mapping keeps the
    promise of its constructor: with an integer offset, the value of the
    key of every positive [v] is within the relative accuracy of [v]. *)
Theorem cubic_round_trip (alpha v : R) (z : Z) (m : Mapping.t) :
  0 < alpha < 1 ->
  CubicallyInterpolatedMapping alpha (IZR z) = Ok m ->
  0 < v ->
  Rabs (value m (key m v) - v) / v <= alpha.
Proof.
  intros Ha Hm Hv.
  destruct (@MappingFacts.KeyMapping_ok CubicallyInterpolated alpha (IZR z)
              Ha)
    as (m' & Hm' & Kd & Off & _ & G & _ & _ & Mu).
  unfold CubicallyInterpolatedMapping in Hm. rewrite Hm in Hm'.
  inversion Hm'; subst m'; clear Hm'.
  assert (G1 : 1 < gamma_ m).
  { rewrite G.
    assert (0 < 2 * alpha / (1 - alpha))
      by (apply Rdiv_lt_0_compat; lra).
    lra. }
  assert (GA : 2 / (1 + gamma_ m) = 1 - alpha) by (rewrite G; field; lra).
  assert (GM : gamma_ m * (1 - alpha) = 1 + alpha) by (rewrite G; field; lra).
  set (Lg := ln (gamma_ m)) in *.
  assert (HL : 0 < Lg).
  { unfold Lg. rewrite <- ln_1. apply ln_increasing; lra. }
  assert (HC : C_ = 10 / 7) by reflexivity.
  set (c := Rceil (cubic_log2_approx v * multiplier_ m)).
  assert (Hk : key m v = (c + z)%Z).
  { unfold key, log_gamma. rewrite Kd, Off. fold c.
    rewrite <- plus_IZR. apply Rtrunc_IZR. }
  rewrite Hk. unfold value, pow_gamma. rewrite Kd, Off, GA.
  replace ((IZR (c + z) - IZR z) / multiplier_ m) with (IZR c * (C_ * Lg))
    by (rewrite plus_IZR, Mu, HC; field; lra).
  set (u := cubic_exp2_approx (IZR c * (C_ * Lg))).
  assert (Hu : 0 < u) by apply cubic_exp2_approx_positive.
  assert (Lu : cubic_log2_approx u = IZR c * (C_ * Lg))
    by apply cubic_log2_approx_exp2_approx.
  destruct (Rceil_bounds (cubic_log2_approx v * multiplier_ m)) as [B1 B2].
  fold c in B1, B2. rewrite Mu in B1, B2.
  assert (CL : 0 < C_ * Lg) by (rewrite HC; lra).
  assert (E : cubic_log2_approx v * (1 / Lg / C_) * (C_ * Lg)
              = cubic_log2_approx v)
    by (rewrite HC; field; lra).
  assert (C1 : cubic_log2_approx v <= IZR c * (C_ * Lg)).
  { apply Rle_trans
      with (cubic_log2_approx v * (1 / Lg / C_) * (C_ * Lg));
      [rewrite E; lra|].
    apply Rmult_le_compat_r; lra. }
  assert (C2 : IZR c * (C_ * Lg) < cubic_log2_approx v + C_ * Lg).
  { apply Rlt_le_trans
      with ((cubic_log2_approx v * (1 / Lg / C_) + 1) * (C_ * Lg)).
    - apply Rmult_lt_compat_r; lra.
    - rewrite Rmult_plus_distr_r, E. lra. }
  assert (U1 : v <= u).
  { apply cubic_log2_approx_order; [exact Hv|exact Hu|lra]. }
  assert (U2 : u <= gamma_ m * v).
  { apply cubic_log2_approx_order; [exact Hu|nra|].
    pose proof (@cubic_log2_approx_growth v (gamma_ m * v) ltac:(nra)) as X.
    rewrite ln_mult in X by lra. fold Lg in X. lra. }
  apply Rmult_le_reg_r with (r := v); [lra|].
  replace (Rabs (u * (1 - alpha) - v) / v * v)
    with (Rabs (u * (1 - alpha) - v)) by (field; lra).
  apply Rabs_le. split; nra.
Qed.

Definition cubic_mapping_0_01 : Mapping.t :=
  Mapping.mk CubicallyInterpolated (1 / 100) 0
    (1 + 2 * (1 / 100) / (1 - 1 / 100))
    (DBL_MIN * (1 + 2 * (1 / 100) / (1 - 1 / 100)))
    (DBL_MAX / (1 + 2 * (1 / 100) / (1 - 1 / 100)))
    (1 / log1p (2 * (1 / 100) / (1 - 1 / 100)) / C_).

Lemma cubic_mapping_0_01_built :
  CubicallyInterpolatedMapping (1 / 100) (IZR 0) = Ok cubic_mapping_0_01.
Proof.
  unfold CubicallyInterpolatedMapping, KeyMapping.
  replace (Rleb' (1 / 100) 0) with false
    by (symmetry; apply Rleb'_false; lra).
  replace (Rgeb (1 / 100) 1) with false by (symmetry; apply Rgeb_false; lra).
  reflexivity.
Qed.

Lemma cubic_round_trip_witness :
  Rabs (value cubic_mapping_0_01 (key cubic_mapping_0_01 3) - 3) / 3
  <= 1 / 100.
Proof.
  apply (@cubic_round_trip (1 / 100) 3 0 cubic_mapping_0_01).
  - lra.
  - exact cubic_mapping_0_01_built.
  - lra.
Defined.

(** In the model.
    In a cubically interpolated mapping [pow_gamma],
    which solves the cubic by Cardano's formula, is the inverse of
    [log_gamma] on both sides, and [log_gamma] does not decrease. *)
Theorem cubic_pow_gamma_inverts_log_gamma (alpha offset : R)
    (m : Mapping.t) :
  0 < alpha < 1 ->
  CubicallyInterpolatedMapping alpha offset = Ok m ->
  (forall v, 0 < v -> pow_gamma m (log_gamma m v) = v)
  /\ (forall x, log_gamma m (pow_gamma m x) = x)
  /\ (forall v w, 0 < v <= w -> log_gamma m v <= log_gamma m w).
Proof.
  intros Ha Hm.
  destruct (@MappingFacts.KeyMapping_ok CubicallyInterpolated alpha offset
              Ha)
    as (m' & Hm' & Kd & _ & _ & G & _ & _ & Mu).
  unfold CubicallyInterpolatedMapping in Hm. rewrite Hm in Hm'.
  inversion Hm'; subst m'; clear Hm'.
  assert (G1 : 1 < gamma_ m).
  { rewrite G.
    assert (0 < 2 * alpha / (1 - alpha))
      by (apply Rdiv_lt_0_compat; lra).
    lra. }
  assert (HL : 0 < ln (gamma_ m)).
  { rewrite <- ln_1. apply ln_increasing; lra. }
  assert (HC : C_ = 10 / 7) by reflexivity.
  assert (M0 : 0 < multiplier_ m).
  { rewrite Mu, HC. apply Rdiv_lt_0_compat; [|lra].
    apply Rdiv_lt_0_compat; lra. }
  unfold pow_gamma, log_gamma. rewrite Kd. split; [|split].
  - intros v Hv.
    replace (cubic_log2_approx v * multiplier_ m / multiplier_ m)
      with (cubic_log2_approx v) by (field; lra).
    now apply cubic_exp2_approx_log2_approx.
  - intros x. rewrite cubic_log2_approx_exp2_approx. field. lra.
  - intros v w Hvw. apply Rmult_le_compat_r; [lra|].
    pose proof (@cubic_log2_approx_growth v w Hvw) as X.
    pose proof (@ln_monotone v w Hvw). rewrite HC in X. nra.
Qed.

Lemma cubic_pow_gamma_inverts_log_gamma_witness :
  (forall v, 0 < v ->
             pow_gamma cubic_mapping_0_01 (log_gamma cubic_mapping_0_01 v)
             = v)
  /\ (forall x,
         log_gamma cubic_mapping_0_01 (pow_gamma cubic_mapping_0_01 x) = x)
  /\ (forall v w, 0 < v <= w ->
                  log_gamma cubic_mapping_0_01 v
                  <= log_gamma cubic_mapping_0_01 w).
Proof.
  apply (@cubic_pow_gamma_inverts_log_gamma (1 / 100) 0).
  - lra.
  - exact cubic_mapping_0_01_built.
Defined.
End CubicFacts.

(** ** What the collapsing-lowest store holds *)

Module LowestFacts.

Import BinList BinListFacts Store DenseFacts CollapsingAddFacts.
Import ContentFacts CountFacts.
Local Open Scope Z_scope.

Local Arguments BinList.update : simpl never.
Local Arguments BinList.zeros : simpl never.

(** The weight of the keys up to [K]: the running count of [key_at_rank]. *)
Definition weight_upto (s : Store.t) (K : Z) : R := RankFacts.cumulative s K.

(** The weights after the keys below [lo] have been folded into [lo]. *)
Definition folded (s : Store.t) (lo K : Z) : R :=
  if K <? lo then 0%R
  else if K =? lo then weight_upto s lo
  else weight_at s K.

Lemma weight_upto_total (s : Store.t) (lo hi K : Z) :
  zero_outside (bins_ s) (offset_ s) lo hi -> hi <= K ->
  weight_upto s K = accumulate (bins_ s).
Proof.
  intros Z0 H. unfold weight_upto, RankFacts.cumulative.
  set (j := Z.to_nat (K - offset_ s + 1)).
  rewrite (accumulate_firstn_skipn j (bins_ s)).
  rewrite (@accumulate_all_zero (skipn j (bins_ s))); [lra|].
  intros i Hi. rewrite length_skipn in Hi. rewrite nth_skipn.
  apply Z0; [lia|]. right. unfold j. lia.
Qed.

Lemma weight_upto_below (s : Store.t) (K : Z) :
  K < offset_ s -> weight_upto s K = 0%R.
Proof.
  intros H. unfold weight_upto, RankFacts.cumulative.
  now replace (Z.to_nat (K - offset_ s + 1)) with O by lia.
Qed.

Lemma weight_upto_first (s : Store.t) :
  weight_upto s (offset_ s) = weight_at s (offset_ s).
Proof.
  unfold weight_upto, RankFacts.cumulative, weight_at, weight_in.
  rewrite Z.ltb_irrefl.
  replace (Z.to_nat (offset_ s - offset_ s + 1)) with 1%nat by lia.
  replace (Z.to_nat (offset_ s - offset_ s)) with O by lia.
  destruct (bins_ s) as [|x b]; simpl.
  - apply accumulate_nil.
  - rewrite accumulate_cons, accumulate_nil. lra.
Qed.

Lemma accumulate_firstn_parts (b : BinList.t) (a e : Z) :
  0 <= a <= e -> e <= size b ->
  accumulate (firstn (Z.to_nat e) b)
  = (accumulate (firstn (Z.to_nat a) b) + accumulate (slice b a e))%R.
Proof.
  intros H1 H2.
  pose proof (@accumulate_three_parts b a e H1 H2) as T.
  pose proof (accumulate_firstn_skipn (Z.to_nat e) b) as S. lra.
Qed.

(** A too wide range on a collapsing-lowest store, key by key: the keys
    below the new first key are folded into it, the others keep their
    weight. *)
Lemma adjust_lowest_collapse_content (s s' : Store.t) (new_min new_max : Z) :
  covers s (min_key_ s) (max_key_ s) ->
  zero_outside (bins_ s) (offset_ s) (min_key_ s) (max_key_ s) ->
  accumulate (bins_ s) = count_ s ->
  new_min <= min_key_ s -> max_key_ s <= new_max ->
  length s < new_max - new_min + 1 ->
  adjust_lowest s new_min new_max = Ok s' ->
  forall K, weight_at s' K = folded s (new_max - length s + 1) K.
Proof.
  intros Cov Z0 Hsum Hmin Hmax Hwide.
  pose proof Cov as (C1 & C2 & C3).
  unfold adjust_lowest.
  replace (new_max - new_min + 1 >? length s) with true
    by (symmetry; apply Z.gtb_lt; lia).
  set (nm := new_max - length s + 1).
  destruct (nm >=? max_key_ s) eqn:Ea.
  - (* everything goes to the first bin *)
    apply Z.geb_le in Ea.
    change (length (set_min_key (set_offset s nm) nm)) with (length s).
    unfold initialize_with_zeros.
    replace (0 <=? length s) with true by (symmetry; apply Z.leb_le; lia).
    simpl bind.
    assert (Lz : size (zeros (length s)) = length s).
    { unfold size, zeros. rewrite repeat_length. lia. }
    unfold set_first, set, in_bounds. rewrite Lz.
    replace ((0 <=? 0) && (0 <? length s)) with true
      by (symmetry; apply andb_true_iff; split;
          [apply Z.leb_le|apply Z.ltb_lt]; lia).
    simpl bind. intros H K. inversion H; subst s'; clear H.
    assert (L0 : (0 < List.length (zeros (length s)))%nat)
      by (unfold size in Lz; lia).
    unfold weight_at, folded. fields. unfold weight_in.
    destruct (K <? nm) eqn:E1; [reflexivity|]. apply Z.ltb_ge in E1.
    rewrite nth_update by exact L0.
    destruct (K =? nm) eqn:E2.
    + apply Z.eqb_eq in E2. subst K.
      replace (Z.to_nat (nm - nm)) with O by lia. simpl Nat.eqb. cbv iota.
      rewrite (@weight_upto_total s _ _ nm Z0 Ea). now rewrite Hsum.
    + apply Z.eqb_neq in E2.
      replace (Z.to_nat (K - nm) =? 0)%nat with false
        by (symmetry; apply Nat.eqb_neq; lia).
      unfold zeros. rewrite nth_repeat.
      symmetry. apply (@weight_in_zero_outside _ _ _ _ _ Z0). lia.
  - rewrite Z.geb_leb in Ea. apply Z.leb_gt in Ea.
    destruct (offset_ s - nm <? 0) eqn:Eb.
    + (* fold the lowest keys into the bin of [nm], then shift *)
      apply Z.ltb_lt in Eb.
      set (cs := min_key_ s - offset_ s).
      set (ce := nm - offset_ s).
      assert (Hnm : min_key_ s <= nm \/ nm < min_key_ s) by lia.
      unfold length in *.
      unfold collapsed_count, index_outside_bounds.
      replace ((cs <? 0) || (size (bins_ s) <? cs)) with false
        by (symmetry; apply orb_false_iff; split; apply Z.ltb_ge;
            unfold cs; lia).
      replace ((ce <? 0) || (size (bins_ s) <? ce)) with false
        by (symmetry; apply orb_false_iff; split; apply Z.ltb_ge;
            unfold ce; lia).
      simpl orb. cbv iota.
      destruct (cs <=? ce) eqn:Ec; [|discriminate].
      apply Z.leb_le in Ec.
      simpl bind. unfold replace_range_with_zeros.
      replace ((0 <=? cs) && (cs <=? ce) && (ce <=? size (bins_ s))
               && (0 <=? nm - min_key_ s)) with true
        by (symmetry; rewrite !andb_true_iff; repeat split; apply Z.leb_le;
            unfold cs, ce in *; lia).
      simpl bind.
      set (b1 := firstn (Z.to_nat cs) (bins_ s) ++ zeros (nm - min_key_ s)
                 ++ skipn (Z.to_nat ce) (bins_ s)).
      assert (Eb1 : b1 = firstn (Z.to_nat cs) (bins_ s)
                         ++ repeat 0%R (Z.to_nat ce - Z.to_nat cs)
                         ++ skipn (Z.to_nat ce) (bins_ s)).
      { unfold b1, zeros. do 3 f_equal. unfold cs, ce in *. lia. }
      assert (Lb1 : List.length b1 = List.length (bins_ s)).
      { rewrite Eb1.
        apply length_replace_range; unfold size, cs, ce in *; lia. }
      unfold add_at, in_bounds.
      replace ((0 <=? ce) && (ce <? size b1)) with true
        by (symmetry; apply andb_true_iff; split;
            [apply Z.leb_le|apply Z.ltb_lt]; unfold size, ce in *; lia).
      simpl bind.
      set (cc := accumulate (slice (bins_ s) cs ce)).
      set (b2 := update (Z.to_nat ce) (fun x => (x + cc)%R) b1).
      assert (Lce : (Z.to_nat ce < List.length b1)%nat)
        by (unfold size, ce in *; lia).
      assert (Lb2 : List.length b2 = List.length (bins_ s))
        by (unfold b2; now rewrite update_length).
      set (s2 := set_min_key (set_bins s b2) nm).
      destruct (shift_bins s2 (offset_ s - nm)) as [s3| |] eqn:Hs3;
        try discriminate.
      simpl bind. intros H K. inversion H; subst s'; clear H.
      destruct (shift_bins_content _ _ Hs3) as (O3 & L3 & _ & _ & _ & _ & W3).
      unfold s2 in O3, L3. fields.
      replace (offset_ s - (offset_ s - nm)) with nm in O3 by lia.
      change (weight_at s3 K = folded s nm K).
      rewrite W3. unfold in_window_b, length. rewrite O3, L3.
      unfold size. rewrite Lb2. unfold folded.
      destruct (K <? nm) eqn:E1.
      * apply Z.ltb_lt in E1.
        now replace (nm <=? K) with false by (symmetry; apply Z.leb_gt; lia).
      * apply Z.ltb_ge in E1.
        replace (nm <=? K) with true by (symmetry; apply Z.leb_le; lia).
        simpl andb. unfold size in C3.
        destruct (K <? nm + Z.of_nat (List.length (bins_ s))) eqn:E3.
        -- apply Z.ltb_lt in E3.
           unfold weight_at, s2. fields. rewrite weight_in_inside by lia.
           unfold b2. rewrite nth_update by exact Lce.
           rewrite Eb1, nth_replace_range by (unfold size, cs, ce in *; lia).
           replace ((Z.to_nat cs <=? Z.to_nat (K - offset_ s))%nat
                    && (Z.to_nat (K - offset_ s) <? Z.to_nat ce)%nat)
             with false
             by (symmetry; apply andb_false_iff; right; apply Nat.ltb_ge;
                 unfold ce; lia).
           destruct (K =? nm) eqn:E2.
           ++ apply Z.eqb_eq in E2. subst K. fold ce.
              rewrite Nat.eqb_refl.
              unfold weight_upto, RankFacts.cumulative.
              replace (Z.to_nat (nm - offset_ s + 1)) with (S (Z.to_nat ce))
                by (unfold ce; lia).
              rewrite accumulate_firstn_S by (rewrite <- Lb1; exact Lce).
              rewrite (@accumulate_firstn_parts (bins_ s) cs ce)
                by (unfold size, cs, ce in *; lia).
              fold cc.
              rewrite (@accumulate_all_zero (firstn (Z.to_nat cs) (bins_ s))).
              ** lra.
              ** intros i Hi. rewrite length_firstn in Hi. rewrite nth_firstn.
                 replace (i <? Z.to_nat cs)%nat with true
                   by (symmetry; apply Nat.ltb_lt; lia).
                 apply Z0; [lia|]. left. unfold cs in Hi. lia.
           ++ apply Z.eqb_neq in E2.
              replace (Z.to_nat (K - offset_ s) =? Z.to_nat ce)%nat with false
                by (symmetry; apply Nat.eqb_neq; unfold ce; lia).
              unfold weight_at. now rewrite weight_in_inside by lia.
        -- apply Z.ltb_ge in E3.
           replace (K =? nm) with false by (symmetry; apply Z.eqb_neq; lia).
           symmetry. apply (@weight_in_zero_outside _ _ _ _ _ Z0).
           unfold nm in E3. unfold size in *. lia.
    + (* no key to fold: shift only *)
      apply Z.ltb_ge in Eb.
      set (s2 := set_min_key s nm).
      destruct (shift_bins s2 (offset_ s - nm)) as [s3| |] eqn:Hs3;
        try discriminate.
      simpl bind. intros H K. inversion H; subst s'; clear H.
      destruct (shift_bins_content _ _ Hs3) as (O3 & L3 & _ & _ & _ & _ & W3).
      unfold s2 in O3, L3. fields.
      replace (offset_ s - (offset_ s - nm)) with nm in O3 by lia.
      change (weight_at s3 K = folded s nm K).
      rewrite W3. unfold in_window_b, length. rewrite O3, L3.
      change (weight_at s2 K) with (weight_at s K). unfold folded.
      destruct (K <? nm) eqn:E1.
      * apply Z.ltb_lt in E1.
        now replace (nm <=? K) with false by (symmetry; apply Z.leb_gt; lia).
      * apply Z.ltb_ge in E1.
        replace (nm <=? K) with true by (symmetry; apply Z.leb_le; lia).
        simpl andb. unfold size in *.
        destruct (K =? nm) eqn:E2.
        -- apply Z.eqb_eq in E2. subst K.
           replace (nm <? nm + Z.of_nat (List.length (bins_ s))) with true
             by (symmetry; apply Z.ltb_lt; lia).
           destruct (Z.eq_dec nm (offset_ s)) as [Eo|No].
           ++ rewrite Eo. symmetry. apply weight_upto_first.
           ++ rewrite weight_upto_below by lia.
              apply weight_in_outside. left. lia.
        -- destruct (K <? nm + Z.of_nat (List.length (bins_ s))) eqn:E3;
             [reflexivity|].
           apply Z.ltb_ge in E3.
           symmetry. apply (@weight_in_zero_outside _ _ _ _ _ Z0).
           unfold nm in E3. lia.
Qed.

Lemma weight_upto_app_zeros (s : Store.t) (n K : Z) :
  weight_upto (set_bins s (bins_ s ++ zeros n)) K = weight_upto s K.
Proof.
  unfold weight_upto, RankFacts.cumulative. fields.
  set (j := Z.to_nat (K - offset_ s + 1)).
  rewrite firstn_app, accumulate_app.
  rewrite (@accumulate_all_zero (firstn _ (zeros n))); [lra|].
  intros i Hi. rewrite nth_firstn.
  destruct (i <? j - List.length (bins_ s))%nat; [|reflexivity].
  unfold zeros. apply nth_repeat.
Qed.

(** The step of [extend_range] that lengthens the bins changes no weight. *)
Lemma grow_content (s : Store.t) (len lo hi : Z) :
  zero_outside (bins_ s) (offset_ s) lo hi ->
  exists s1,
    (if len >? length s
     then bind (extend_back_with_zeros (bins_ s) (len - length s))
            (fun b => Ok (set_bins s b))
     else Ok s) = Ok s1
    /\ accumulate (bins_ s1) = accumulate (bins_ s)
    /\ zero_outside (bins_ s1) (offset_ s1) lo hi
    /\ length s1 = Z.max len (length s)
    /\ offset_ s1 = offset_ s /\ min_key_ s1 = min_key_ s
    /\ max_key_ s1 = max_key_ s /\ count_ s1 = count_ s
    /\ chunk_size_ s1 = chunk_size_ s /\ bin_limit_ s1 = bin_limit_ s
    /\ is_collapsed_ s1 = is_collapsed_ s
    /\ (forall K, weight_at s1 K = weight_at s K)
    /\ (forall K, weight_upto s1 K = weight_upto s K).
Proof.
  intros Z0. destruct (len >? length s) eqn:E.
  - apply Z.gtb_lt in E. unfold extend_back_with_zeros.
    replace (0 <=? len - length s) with true
      by (symmetry; apply Z.leb_le; lia).
    simpl bind. eexists. split; [reflexivity|]. fields.
    split; [rewrite accumulate_app, accumulate_zeros; lra|].
    split; [now apply zero_outside_app_zeros|].
    split; [unfold size, zeros; rewrite length_app, repeat_length;
            unfold size in *; lia|].
    repeat (split; [reflexivity|]). split.
    + intros K. unfold weight_at. fields. apply weight_in_app_zeros.
    + intros K. apply weight_upto_app_zeros.
  - rewrite Z.gtb_ltb in E. apply Z.ltb_ge in E.
    exists s. split; [reflexivity|]. split; [reflexivity|].
    split; [exact Z0|]. split; [lia|].
    repeat (split; [reflexivity|]). split; reflexivity.
Qed.

Lemma folded_ext (s s1 : Store.t) (lo K : Z) :
  (forall K, weight_at s1 K = weight_at s K) ->
  (forall K, weight_upto s1 K = weight_upto s K) ->
  folded s1 lo K = folded s lo K.
Proof. intros H1 H2. unfold folded. now rewrite H1, H2. Qed.

(** [extend_range(key)] on a collapsing-lowest store, key by key: either
    the store has not collapsed and every key keeps its weight, or the keys
    below the new [min_key_] have been folded into it. *)
Lemma extend_range_lowest_content (s s' : Store.t) (key : Z) :
  wfc s -> length s <= bin_limit_ s ->
  (bins_ s = [] -> is_index key) ->
  (key < min_key_ s /\ is_collapsed_ s = false) \/ max_key_ s < key ->
  extend_range CollapsingLowest s key key = Ok s' ->
  length s' <= bin_limit_ s'
  /\ bin_limit_ s' = bin_limit_ s
  /\ max_key_ s' = Z.max key (max_key_ s)
  /\ (is_collapsed_ s' = false ->
      is_collapsed_ s = false
      /\ forall K, weight_at s' K = weight_at s K)
  /\ (is_collapsed_ s' = true ->
      Z.min key (min_key_ s) < min_key_ s'
      /\ forall K, weight_at s' K = folded s (min_key_ s') K).
Proof.
  intros (Hc & Hl & Hsum & Hshape) Hlen I Hpre.
  unfold extend_range.
  set (new_min := Z.min key (Z.min key (min_key_ s))).
  set (new_max := Z.max key (Z.max key (max_key_ s))).
  assert (Hcs : (chunk_size_ s =? 0) = false) by (apply Z.eqb_neq; lia).
  pose proof (@ceil_div_bounds (new_max - new_min + 1) _ Hc) as CB.
  unfold get_new_length. rewrite Hcs.
  set (len := Z.min (chunk_size_ s
                     * ceil_div (new_max - new_min + 1) (chunk_size_ s))
                (bin_limit_ s)) in *.
  destruct Hshape as [(Hnil & Hmin & Hmax & Hnc)|(Cov & Z0 & Hfull)].
  - (* no bins yet *)
    specialize (I Hnil). unfold is_index in I.
    unfold is_empty, length, kEmptyStoreLength. rewrite Hnil.
    change (size [] =? 0) with true. cbv iota. simpl bind.
    assert (Hrange : new_min = key /\ new_max = key)
      by (unfold new_min, new_max; lia).
    destruct Hrange as (En & Ex).
    unfold initialize_with_zeros.
    replace (0 <=? len) with true
      by (symmetry; apply Z.leb_le; unfold len; lia).
    simpl bind.
    set (s0 := set_offset (set_bins s (zeros len)) new_min).
    assert (L0 : length s0 = len).
    { unfold length, size, s0, zeros. simpl. rewrite repeat_length.
      unfold len. lia. }
    unfold adjust. rewrite adjust_lowest_fit by (rewrite L0; unfold len; lia).
    intros H.
    destruct (adjust_dense_content _ _ _ H) as (L' & _ & Mx & _ & _ & W').
    assert (Bl : bin_limit_ s' = bin_limit_ s /\ is_collapsed_ s' = false).
    { unfold adjust_dense, center_bins in H.
      destruct (shift_bins s0 _) as [s2| |] eqn:H2; try discriminate.
      simpl bind in H. inversion H; subst s'; clear H.
      unfold shift_bins in H2.
      destruct (if _ >? 0 then _ else _) as [b| |]; try discriminate.
      simpl bind in H2. inversion H2; subst s2. fields. now split. }
    destruct Bl as (Bl & Nc).
    split; [change (length s' <= bin_limit_ s');
            rewrite L', L0, Bl; unfold len; lia|].
    split; [exact Bl|].
    split; [rewrite Mx; unfold INT64_MIN in *; lia|].
    split.
    + intros _. split; [exact Hnc|]. intros K. rewrite W'.
      unfold weight_at at 1 2. unfold s0. fields. rewrite weight_in_zeros.
      rewrite Hnil, weight_in_nil. now destruct (in_window_b s' K).
    + rewrite Nc. discriminate.
  - (* some bins *)
    pose proof Cov as (C1 & C2 & C3).
    assert (Hne : is_empty s = false).
    { unfold is_empty, kEmptyStoreLength. apply Z.eqb_neq. lia. }
    rewrite Hne.
    destruct ((new_min >=? min_key_ s) && (new_max <? offset_ s + length s))
      eqn:E.
    + (* the range fits the bins as they are *)
      apply andb_true_iff in E. destruct E as (E1 & E2).
      apply Z.geb_le in E1. apply Z.ltb_lt in E2.
      assert (Hnc : is_collapsed_ s = false).
      { destruct (is_collapsed_ s) eqn:Ec; [|reflexivity].
        destruct (Hfull eq_refl) as (F1 & F2 & F3).
        unfold new_min, new_max in *. lia. }
      intros H. inversion H; subst s'; clear H. fields.
      split; [exact Hlen|]. split; [reflexivity|].
      split; [unfold new_max; lia|].
      split; [intros _; split; [exact Hnc|reflexivity]|].
      rewrite Hnc. discriminate.
    + (* grow the bins, then adjust *)
      clear E. simpl bind.
      destruct (@grow_content s len (min_key_ s) (max_key_ s) Z0)
        as (s1 & Hs1 & A1 & Z1 & L1 & O1 & Mi1 & Ma1 & Ct1 & Ch1 & Bl1
            & Co1 & W1 & U1).
      rewrite Hs1. simpl bind. unfold adjust.
      destruct (Z_lt_le_dec (length s1) (new_max - new_min + 1))
        as [Wide|Fit].
      * (* collapse *)
        assert (Cov1 : covers s1 (min_key_ s1) (max_key_ s1)).
        { unfold covers. rewrite O1, Mi1, Ma1, L1. lia. }
        assert (Z1' : zero_outside (bins_ s1) (offset_ s1)
                        (min_key_ s1) (max_key_ s1))
          by (now rewrite Mi1, Ma1).
        destruct (@adjust_lowest_collapse s1 new_min new_max)
          as (s2 & Hs2 & F1 & F2 & F3 & F4 & F5 & F6 & F7 & F8 & F9 & F10);
          [exact Cov1|exact Z1'|now rewrite A1, Ct1
          |rewrite Mi1; unfold new_min; lia
          |rewrite Ma1; unfold new_max; lia
          |rewrite Mi1, Ma1; unfold new_min, new_max; lia|exact Wide|].
        intros H.
        pose proof (@adjust_lowest_collapse_content s1 s' new_min new_max
                      Cov1 Z1' ltac:(now rewrite A1, Ct1)
                      ltac:(rewrite Mi1; unfold new_min; lia)
                      ltac:(rewrite Ma1; unfold new_max; lia) Wide H) as W'.
        rewrite Hs2 in H. inversion H; subst s2; clear H.
        split; [rewrite F8, F7, Bl1, L1; unfold len; lia|].
        split; [now rewrite F7, Bl1|].
        split; [rewrite F3; unfold new_max; lia|].
        split; [rewrite F4; discriminate|].
        intros _. rewrite F2. split.
        -- unfold new_min in Wide. lia.
        -- intros K. rewrite W'. now apply folded_ext.
      * (* the grown bins hold the range *)
        assert (Hnc : is_collapsed_ s = false).
        { destruct (is_collapsed_ s) eqn:Ec; [|reflexivity].
          destruct (Hfull eq_refl) as (G1 & G2 & G3).
          destruct Hpre as [(_ & Hpre)|Hpre]; [discriminate|].
          rewrite L1 in Fit. unfold new_min, new_max, len in *. lia. }
        rewrite adjust_lowest_fit by exact Fit.
        intros H.
        destruct (adjust_dense_content _ _ _ H)
          as (L' & Mn & Mx & _ & _ & W').
        assert (Cov1 : covers s1 (min_key_ s) (max_key_ s)).
        { unfold covers. rewrite O1, L1. lia. }
        destruct (@adjust_dense_spec s1 new_min new_max
                    (min_key_ s) (max_key_ s))
          as (b & o & Hadj & Lb & Ab & Zb & Q1 & Q2);
          [exact Z1|exact Cov1|unfold new_min; lia|unfold new_max; lia
          |exact Fit|].
        rewrite Hadj in H. inversion H; subst s'; clear H. fields.
        split; [unfold length, size in *; rewrite Bl1; unfold len; lia|].
        split; [exact Bl1|]. split; [unfold new_max; lia|].
        split; [|rewrite Co1, Hnc; discriminate].
        intros _. split; [exact Hnc|]. intros K. rewrite W', W1.
        unfold in_window_b. fields.
        destruct ((o <=? K) && (K <? o + size b)) eqn:B; [reflexivity|].
        symmetry. apply (@weight_in_zero_outside _ _ _ _ _ Z0).
        unfold size in *. rewrite Lb in B.
        apply andb_false_iff in B.
        destruct B as [B|B]; [apply Z.leb_gt in B|apply Z.ltb_ge in B];
          unfold new_min, new_max in *; lia.
Qed.

(** *** The keys a collapsing-lowest store has received *)

Ltac zbool :=
  repeat match goal with
         | |- context [?a =? ?b] => destruct (Z.eqb_spec a b)
         | |- context [?a <=? ?b] => destruct (Z.leb_spec a b)
         | |- context [?a <? ?b] => destruct (Z.ltb_spec a b)
         end;
  try reflexivity; try lia.

(** The greatest of the values, the least [Index] when there is none. *)
Definition maximum (vs : list Z) : Z := fold_left Z.max vs INT64_MIN.

Lemma fold_max_ge (vs : list Z) : forall a, a <= fold_left Z.max vs a.
Proof.
  induction vs as [|v vs IH]; intros a; simpl; [lia|].
  specialize (IH (Z.max a v)). lia.
Qed.

Lemma fold_max_upper (vs : list Z) :
  forall a v, In v vs -> v <= fold_left Z.max vs a.
Proof.
  induction vs as [|w vs IH]; intros a v Hin; [destruct Hin|].
  destruct Hin as [E|Hin]; simpl.
  - subst w. pose proof (fold_max_ge vs (Z.max a v)). lia.
  - now apply IH.
Qed.

Lemma fold_max_In (vs : list Z) :
  forall a, fold_left Z.max vs a = a \/ In (fold_left Z.max vs a) vs.
Proof.
  induction vs as [|v vs IH]; intros a; simpl; [now left|].
  destruct (IH (Z.max a v)) as [E|Hin]; [|now right; right].
  rewrite E. destruct (Z.max_spec a v) as [(_ & M)|(_ & M)]; rewrite M.
  - right. now left.
  - now left.
Qed.

Lemma maximum_snoc (vs : list Z) (v : Z) :
  maximum (vs ++ [v]) = Z.max (maximum vs) v.
Proof. unfold maximum. now rewrite fold_left_app. Qed.

Lemma maximum_upper (vs : list Z) (v : Z) : In v vs -> v <= maximum vs.
Proof. apply fold_max_upper. Qed.

Lemma maximum_In (vs : list Z) :
  vs <> [] -> Forall is_index vs -> In (maximum vs) vs.
Proof.
  intros Hne I. destruct (fold_max_In vs INT64_MIN) as [E|Hin]; [|exact Hin].
  destruct vs as [|v vs]; [contradiction|].
  pose proof (@maximum_upper (v :: vs) v ltac:(now left)) as U.
  inversion I as [|? ? Iv _]; subst. unfold is_index in Iv.
  unfold maximum in *. rewrite E in *.
  replace (INT64_MIN) with v by lia. now left.
Qed.

(** The link between a store and the list of keys added to it: the keys
    smaller than [min_key_] are counted at [min_key_]. *)
Definition holds (s : Store.t) (vs : list Z) : Prop :=
  wfc s
  /\ length s <= bin_limit_ s
  /\ max_key_ s = maximum vs
  /\ Forall is_index vs
  /\ (is_collapsed_ s = false -> Forall (fun v => min_key_ s <= v) vs)
  /\ forall K,
       weight_at s K
       = IZR (count_if (fun v => Z.max v (min_key_ s) =? K) vs).

(** Folding the keys below [nm] into [nm], on the side of the values. *)
Lemma folded_counts (s : Store.t) (vs : list Z) (m nm : Z) :
  (forall K, weight_at s K = IZR (count_if (fun v => Z.max v m =? K) vs)) ->
  m <= nm \/ Forall (fun v => m <= v) vs ->
  forall K, folded s nm K = IZR (count_if (fun v => Z.max v nm =? K) vs).
Proof.
  intros C Hm K.
  pose proof (@QuantileFacts.cumulative_counts_all Z s (fun _ => true)
                (fun v => Z.max v m) vs C nm) as U.
  assert (Hv : forall v, In v vs -> m <= nm \/ m <= v).
  { intros v Hin. destruct Hm as [Hm|Hm]; [now left|right].
    rewrite Forall_forall in Hm. now apply Hm. }
  unfold folded. destruct (Z.ltb_spec K nm) as [L|G].
  - rewrite count_if_none; [reflexivity|]. intros v _. zbool.
  - destruct (Z.eqb_spec K nm) as [E|N].
    + subst K. unfold weight_upto. rewrite U. f_equal.
      apply count_if_ext. intros v Hin. specialize (Hv v Hin).
      cbn [andb]. zbool.
    + rewrite C. f_equal. apply count_if_ext. intros v Hin.
      specialize (Hv v Hin). zbool.
Qed.

Lemma weight_in_add_at (b b' : BinList.t) (offset idx : Z) (w : R) (K : Z) :
  add_at b idx w = Ok b' ->
  weight_in b' offset K
  = (weight_in b offset K + if K =? offset + idx then w else 0)%R.
Proof.
  unfold add_at, in_bounds.
  destruct ((0 <=? idx) && (idx <? size b)) eqn:B; [|discriminate].
  apply andb_true_iff in B. destruct B as (B1 & B2).
  apply Z.leb_le in B1. apply Z.ltb_lt in B2. unfold size in B2.
  intros H. inversion H; subst b'; clear H. unfold weight_in.
  destruct (Z.ltb_spec K offset) as [L|G].
  - replace (K =? offset + idx) with false
      by (symmetry; apply Z.eqb_neq; lia).
    lra.
  - rewrite nth_update by lia.
    destruct (Z.eqb_spec K (offset + idx)) as [E|N].
    + subst K. replace (offset + idx - offset) with idx by lia.
      now rewrite Nat.eqb_refl.
    + replace (Z.to_nat (K - offset) =? Z.to_nat idx)%nat with false
        by (symmetry; apply Nat.eqb_neq; lia).
      lra.
Qed.

Lemma add_at_size (b b' : BinList.t) (idx : Z) (w : R) :
  add_at b idx w = Ok b' -> size b' = size b.
Proof.
  unfold add_at. destruct (in_bounds b idx); [|discriminate].
  intros H. inversion H. unfold size. now rewrite update_length.
Qed.

(** [get_index] on a collapsing-lowest store that holds the keys [vs]: the
    store it leaves still holds them, and the index is the one of the bin
    of [max(key, min_key_)]. *)
Lemma get_index_lowest_content (s : Store.t) (vs : list Z) (key : Z) :
  holds s vs -> is_index key ->
  exists idx s1,
    get_index CollapsingLowest s key = Ok (idx, s1)
    /\ wfc s1
    /\ covers s1 (min_key_ s1) (max_key_ s1)
    /\ count_ s1 = count_ s
    /\ bin_limit_ s1 = bin_limit_ s
    /\ length s1 <= bin_limit_ s1
    /\ max_key_ s1 = Z.max (max_key_ s) key
    /\ offset_ s1 + idx = Z.max key (min_key_ s1)
    /\ (is_collapsed_ s1 = false -> min_key_ s1 <= key)
    /\ (is_collapsed_ s1 = false -> Forall (fun v => min_key_ s1 <= v) vs)
    /\ forall K,
         weight_at s1 K
         = IZR (count_if (fun v => Z.max v (min_key_ s1) =? K) vs).
Proof.
  intros (W & Len & Mx & Iv & Low & C) I.
  unfold get_index.
  destruct (Z.ltb_spec key (min_key_ s)) as [E1|E1].
  - destruct (is_collapsed_ s) eqn:Ec.
    + (* collapsed already: the first bin *)
      exists 0, s. split; [reflexivity|]. split; [exact W|].
      destruct W as (_ & _ & _ & [(_ & _ & _ & Hnc)|(Cov & _ & Hfull)]);
        [congruence|].
      destruct (Hfull Ec) as (F1 & F2 & F3).
      pose proof Cov as (C1 & C2 & C3).
      split; [exact Cov|]. split; [reflexivity|]. split; [reflexivity|].
      split; [exact Len|]. split; [lia|]. split; [lia|].
      split; [congruence|]. split; [congruence|]. exact C.
    + destruct (@extend_range_lowest s key W (fun _ => I))
        as (s1 & H1 & W1 & C1 & Ct & Mxk & Mn); [left; auto|].
      destruct (@extend_range_lowest_content s s1 key W Len (fun _ => I)
                  ltac:(left; auto) H1) as (Len1 & Bl1 & Mx1 & NC & CC).
      rewrite H1. simpl bind.
      destruct (is_collapsed_ s1) eqn:Ec1.
      * exists 0, s1. split; [reflexivity|]. split; [exact W1|].
        split; [exact C1|]. split; [exact Ct|]. split; [exact Bl1|].
        split; [exact Len1|]. split; [lia|].
        destruct W1
          as (_ & _ & _ & [(_ & _ & _ & Hnc)|(_ & _ & Hfull)]);
          [congruence|].
        destruct (Hfull Ec1) as (F1 & F2 & F3).
        destruct (CC eq_refl) as (Lt & Wt).
        split; [lia|]. split; [congruence|]. split; [congruence|].
        intros K. rewrite Wt. apply (@folded_counts s vs (min_key_ s)).
        -- exact C.
        -- right. exact (Low eq_refl).
      * specialize (Mn eq_refl). destruct (NC eq_refl) as (_ & Wt).
        specialize (Low eq_refl). rewrite Forall_forall in Low.
        exists (key - offset_ s1), s1. split; [reflexivity|].
        split; [exact W1|]. split; [exact C1|]. split; [exact Ct|].
        split; [exact Bl1|]. split; [exact Len1|]. split; [lia|].
        split; [lia|]. split; [intros _; lia|]. split.
        -- intros _. apply Forall_forall. intros v Hin.
           specialize (Low v Hin). lia.
        -- intros K. rewrite Wt, C. f_equal. apply count_if_ext.
           intros v Hin. specialize (Low v Hin). zbool.
  - destruct (key >? max_key_ s) eqn:E2.
    + apply Z.gtb_lt in E2.
      destruct (@extend_range_lowest s key W (fun _ => I))
        as (s1 & H1 & W1 & C1 & Ct & Mxk & Mn); [right; exact E2|].
      destruct (@extend_range_lowest_content s s1 key W Len (fun _ => I)
                  ltac:(right; exact E2) H1) as (Len1 & Bl1 & Mx1 & NC & CC).
      rewrite H1. simpl bind.
      pose proof C1 as (C11 & C12 & C13).
      exists (key - offset_ s1), s1. split; [reflexivity|].
      split; [exact W1|]. split; [exact C1|]. split; [exact Ct|].
      split; [exact Bl1|]. split; [exact Len1|]. split; [lia|].
      split; [lia|]. split; [intros _; lia|].
      destruct (is_collapsed_ s1) eqn:Ec1.
      * split; [congruence|]. destruct (CC eq_refl) as (Lt & Wt).
        intros K. rewrite Wt. apply (@folded_counts s vs (min_key_ s)).
        -- exact C.
        -- left. lia.
      * specialize (Mn eq_refl). destruct (NC eq_refl) as (Ec & Wt).
        assert (Em : min_key_ s1 = min_key_ s) by lia.
        rewrite Em. split; [intros _; now apply Low|].
        intros K. now rewrite Wt.
    + rewrite Z.gtb_ltb in E2. apply Z.ltb_ge in E2.
      pose proof (@wfc_between s key W I ltac:(lia)) as Cov.
      exists (key - offset_ s), s. split; [reflexivity|].
      split; [exact W|]. split; [exact Cov|]. split; [reflexivity|].
      split; [reflexivity|]. split; [exact Len|]. split; [lia|].
      split; [lia|]. split; [intros _; lia|]. split; [exact Low|exact C].
Qed.

(** One [add] with the default weight. *)
Lemma add_lowest_holds (s : Store.t) (vs : list Z) (key : Z) :
  holds s vs -> is_index key ->
  exists s',
    add CollapsingLowest s key 1 = Ok s'
    /\ holds s' (vs ++ [key])
    /\ count_ s' = (count_ s + 1)%R
    /\ bin_limit_ s' = bin_limit_ s.
Proof.
  intros H I.
  destruct (get_index_lowest_content H I)
    as (idx & s1 & H1 & W1 & C1 & Ct & Bl & Len1 & Mx1 & Ix & Lk & Low1 & Wt).
  destruct H as (W & Len & Mx & Iv & Low & C).
  pose proof C1 as (C11 & C12 & C13).
  unfold add. rewrite H1. simpl bind.
  destruct (@add_at_wfc s1 idx 1%R W1 C1 ltac:(lia)) as (b & Hb & Wb).
  rewrite Hb. simpl bind. eexists. split; [reflexivity|].
  split; [|split; [simpl; now rewrite Ct|exact Bl]].
  split; [exact Wb|].
  split; [unfold length in *; simpl; now rewrite (add_at_size _ _ _ Hb)|].
  split; [simpl; now rewrite maximum_snoc, Mx1, Mx|].
  split; [apply Forall_app; split; [exact Iv|now constructor]|].
  split.
  - simpl. intros Ec. apply Forall_app. split; [now apply Low1|].
    constructor; [now apply Lk|constructor].
  - intros K. unfold weight_at. simpl.
    rewrite (@weight_in_add_at _ _ (offset_ s1) idx 1%R K Hb).
    fold (weight_at s1 K). rewrite Wt, count_if_app, plus_IZR.
    cbn [count_if]. rewrite Ix, (Z.eqb_sym K).
    destruct (Z.max key (min_key_ s1) =? K); simpl; lra.
Qed.

Lemma add_values_lowest (values : list Z) :
  forall (s : Store.t) (vs : list Z),
    holds s vs -> Forall is_index values ->
    exists s',
      StoreTest.add_values CollapsingLowest s values = Ok s'
      /\ holds s' (vs ++ values)
      /\ count_ s' = (count_ s + IZR (Z.of_nat (List.length values)))%R
      /\ bin_limit_ s' = bin_limit_ s.
Proof.
  induction values as [|v values IH]; intros s vs H I.
  - exists s. split; [reflexivity|]. rewrite app_nil_r.
    split; [exact H|]. split; [simpl; lra|reflexivity].
  - inversion I as [|? ? Iv Ir]; subst.
    destruct (add_lowest_holds H Iv) as (s1 & H1 & J1 & C1 & B1).
    destruct (IH s1 (vs ++ [v]) J1 Ir) as (s' & H' & J' & C' & B').
    exists s'. simpl StoreTest.add_values. rewrite H1. simpl bind.
    split; [exact H'|]. rewrite <- app_assoc in J'.
    split; [exact J'|]. split; [|congruence].
    rewrite C', C1. simpl List.length.
    rewrite Nat2Z.inj_succ, succ_IZR. lra.
Qed.

Lemma holds_new (bin_limit chunk_size : Z) :
  0 < bin_limit -> 0 < chunk_size ->
  holds (CollapsingDenseStore bin_limit chunk_size) [].
Proof.
  intros Hb Hc. unfold holds, CollapsingDenseStore, wfc. simpl.
  split; [split; [exact Hc|]; split; [exact Hb|]; split;
          [reflexivity|left; auto]|].
  split; [unfold length, size; simpl; lia|]. split; [reflexivity|].
  split; [constructor|]. split; [constructor|].
  intros K. unfold weight_at. simpl. apply weight_in_nil.
Qed.

(** A store that holds some keys has bins, and the keys are counted at
    [max(key, max_key_ - bin_limit_ + 1)]. *)
Lemma holds_covers (s : Store.t) (vs : list Z) :
  holds s vs -> vs <> [] ->
  covers s (min_key_ s) (max_key_ s) /\ In (max_key_ s) vs.
Proof.
  intros (W & Len & Mx & Iv & Low & C) Hne.
  pose proof (maximum_In Hne Iv) as Hin. rewrite <- Mx in Hin.
  split; [|exact Hin].
  destruct W as (_ & _ & _ & [(_ & Hmin & Hmax & Hnc)|(Cov & _)]);
    [|exact Cov].
  exfalso. specialize (Low Hnc). rewrite Forall_forall in Low.
  rewrite Forall_forall in Iv.
  pose proof (Low _ Hin). pose proof (Iv _ Hin) as Ik.
  unfold is_index, INT64_MAX, INT64_MIN in *. lia.
Qed.

Lemma holds_clamped (s : Store.t) (vs : list Z) :
  holds s vs ->
  forall K,
    weight_at s K
    = IZR (count_if
             (fun v => Z.max v (maximum vs - bin_limit_ s + 1) =? K) vs).
Proof.
  intros H K. destruct vs as [|v0 vs0];
    [now destruct H as (_ & _ & _ & _ & _ & C)|].
  destruct (holds_covers H ltac:(discriminate)) as ((C1 & C2 & C3) & _).
  destruct H as (W & Len & Mx & Iv & Low & C).
  rewrite C. f_equal. apply count_if_ext. intros v Hin. rewrite <- Mx.
  destruct (is_collapsed_ s) eqn:Ec.
  - destruct W as (_ & _ & _ & [(_ & _ & _ & Hnc)|(_ & _ & Hfull)]);
      [congruence|].
    destruct (Hfull Ec) as (F1 & F2 & F3).
    replace (max_key_ s - bin_limit_ s + 1) with (min_key_ s) by lia.
    reflexivity.
  - specialize (Low eq_refl). rewrite Forall_forall in Low.
    specialize (Low v Hin). zbool.
Qed.

(** In the model.
    The keys of a collapsing-lowest store after a
    sequence of [add] calls on a new store, whatever the keys, the bin limit
    and the chunk size: no call fails, the store never has more bins than
    [bin_limit], the count is the number of keys, and the weight of a key
    [K] is the number of added keys [v] with
    [max(v, m - bin_limit + 1) = K], where [m] is the greatest added key.
    The keys that are too small for the window are thus counted in its
    first bin, and no other key moves. *)
Theorem lowest_store_counts_the_clamped_keys (bin_limit chunk_size : Z)
    (values : list Z) :
  0 < bin_limit -> 0 < chunk_size -> Forall is_index values ->
  exists s,
    StoreTest.add_values CollapsingLowest
      (CollapsingDenseStore bin_limit chunk_size) values = Ok s
    /\ length s <= bin_limit
    /\ count_ s = IZR (Z.of_nat (List.length values))
    /\ max_key_ s = maximum values
    /\ forall K,
         weight_at s K
         = IZR (count_if
                  (fun v => Z.max v (maximum values - bin_limit + 1) =? K)
                  values).
Proof.
  intros Hb Hc I.
  destruct (@add_values_lowest values _ [] (holds_new Hb Hc) I)
    as (s & H & J & Ct & Bl).
  simpl app in J. exists s. split; [exact H|].
  change (bin_limit_ (CollapsingDenseStore bin_limit chunk_size))
    with bin_limit in Bl.
  split; [destruct J as (_ & Len & _); lia|].
  split; [rewrite Ct; simpl; lra|].
  split; [now destruct J as (_ & _ & Mx & _)|].
  intros K. rewrite (holds_clamped J K). now rewrite Bl.
Qed.

Lemma lowest_store_counts_the_clamped_keys_witness :
  exists s,
    StoreTest.add_values CollapsingLowest (CollapsingDenseStore 2 128)
      [5; 1; 7; 2] = Ok s
    /\ length s <= 2
    /\ count_ s = IZR (Z.of_nat (List.length [5; 1; 7; 2]))
    /\ max_key_ s = maximum [5; 1; 7; 2]
    /\ forall K,
         weight_at s K
         = IZR (count_if (fun v => Z.max v (maximum [5; 1; 7; 2] - 2 + 1) =? K)
                  [5; 1; 7; 2]).
Proof.
  apply (@lowest_store_counts_the_clamped_keys 2 128 [5; 1; 7; 2]);
    [lia|lia|].
  repeat constructor; unfold INT64_MIN, INT64_MAX; lia.
Defined.

(** The counter of the tests and the greatest value. *)
Lemma max_value_from (m : StoreTest.KeyValueContainer) :
  forall a, a <= fold_left (fun partial_max p => Z.max partial_max (fst p)) m a.
Proof.
  induction m as [|p m IH]; intros a; simpl; [lia|].
  specialize (IH (Z.max a (fst p))). lia.
Qed.

Lemma max_value_count_value (m : StoreTest.KeyValueContainer) (v : Z) :
  forall a,
    fold_left (fun partial_max p => Z.max partial_max (fst p))
      (StoreTest.count_value m v) a
    = Z.max (fold_left (fun partial_max p => Z.max partial_max (fst p)) m a)
        v.
Proof.
  induction m as [|(k, n) m IH]; intros a; simpl; [reflexivity|].
  destruct (Z.eqb_spec k v) as [E|N]; simpl.
  - subst k. pose proof (max_value_from m (Z.max a v)). lia.
  - apply IH.
Qed.

Lemma Counter_max_from (values : list Z) :
  forall (m : StoreTest.KeyValueContainer) (a : Z),
    fold_left (fun partial_max p => Z.max partial_max (fst p))
      (fold_left StoreTest.count_value values m) a
    = fold_left Z.max values
        (fold_left (fun partial_max p => Z.max partial_max (fst p)) m a).
Proof.
  induction values as [|v values IH]; intros m a; simpl; [reflexivity|].
  now rewrite IH, max_value_count_value.
Qed.

Lemma Counter_max_value (values : list Z) :
  StoreTest.max_value (StoreTest.Counter values) = maximum values.
Proof.
  unfold StoreTest.max_value, StoreTest.Counter.
  now rewrite Counter_max_from.
Qed.

Lemma occurrences_map (f : Z -> Z) (values : list Z) (K : Z) :
  occurrences (map f values) K = count_if (fun v => f v =? K) values.
Proof.
  induction values as [|v values IH]; [reflexivity|].
  simpl map. rewrite occurrences_cons, IH. cbn [count_if].
  now rewrite (Z.eqb_sym K).
Qed.

Lemma test_values_lowest (s : Store.t) (values : list Z) :
  holds s values ->
  count_ s = IZR (Z.of_nat (List.length values)) ->
  CollapsingLowestDenseStoreTest.test_values s values = Ok true.
Proof.
  intros J Ct.
  unfold CollapsingLowestDenseStoreTest.test_values, bins, offset.
  rewrite sum_ok. simpl bind.
  destruct (Counter_spec values) as (At & Sm). rewrite Sm.
  f_equal. apply andb_true_iff. split.
  - apply Reqb'_true. destruct J as ((_ & _ & Hsum & _) & _).
    now rewrite Hsum, Ct.
  - destruct values as [|v0 values0].
    + destruct J as ((_ & _ & Hsum & _) & _ & _ & _ & _ & C).
      change (Z.of_nat (List.length (@nil Z)) =? 0) with true. cbv iota.
      destruct (has_only_zeros (bins_ s)) eqn:E; [reflexivity|].
      exfalso. assert (E' : has_only_zeros (bins_ s) = true);
        [|congruence].
      apply has_only_zeros_iff. intros i Hi.
      rewrite <- (weight_in_nth (bins_ s) (offset_ s) i).
      fold (weight_at s (offset_ s + Z.of_nat i)). now rewrite C.
    + set (values := v0 :: values0) in *.
      replace (Z.of_nat (List.length values) =? 0) with false
        by (symmetry; apply Z.eqb_neq; unfold values; simpl List.length;
            lia).
      destruct (holds_covers J ltac:(discriminate))
        as ((C1 & C2 & C3) & Hin).
      pose proof (holds_clamped J) as Cl.
      destruct J as (W & Len & Mx & Iv & Low & C).
      apply andb_true_iff. split.
      * destruct (has_only_zeros (bins_ s)) eqn:E; [|reflexivity].
        exfalso. rewrite has_only_zeros_iff in E.
        assert (Z0 : weight_at s (max_key_ s) = 0%R).
        { unfold weight_at, weight_in. destruct (max_key_ s <? offset_ s);
            [reflexivity|].
          destruct (Nat.lt_ge_cases (Z.to_nat (max_key_ s - offset_ s))
                      (List.length (bins_ s))) as [L|G].
          - now apply E.
          - now apply nth_overflow. }
        rewrite C in Z0.
        pose proof (@count_if_In Z
                      (fun v => Z.max v (min_key_ s) =? max_key_ s)
                      values (max_key_ s) Hin
                      ltac:(apply Z.eqb_eq; lia)) as O.
        apply IZR_le in O. lra.
      * apply expect_bins_true. intros i Hi.
        rewrite (proj1 (Counter_spec _)).
        unfold CollapsingLowestDenseStoreTest.normalize_smaller_values.
        rewrite occurrences_map, Counter_max_value.
        replace (0 + Z.of_nat i + offset_ s) with (offset_ s + Z.of_nat i)
          by lia.
        rewrite <- (weight_in_nth (bins_ s) (offset_ s) i).
        fold (weight_at s (offset_ s + Z.of_nat i)). rewrite Cl.
        f_equal. apply count_if_ext. intros v Hv.
        rewrite Forall_forall in Iv. specialize (Iv v Hv).
        unfold is_index in Iv. zbool.
Qed.

(** In the model.
    [CollapsingLowestDenseStoreTest::test_store] passes on
    every list of keys, and so does the body of its loop for every positive
    bin limit, not only for the three limits of the test: the bins sum to
    the number of values, [has_only_zeros] tells whether the list was
    empty, and every bin that is not zero holds the number of values that
    [normalize_smaller_values] sends to its key. *)
Theorem lowest_test_store_passes (values : list Z) :
  Forall is_index values ->
  (forall bin_limit : Z,
      0 < bin_limit ->
      CollapsingLowestDenseStoreTest.test_store_with bin_limit values
      = Ok true)
  /\ CollapsingLowestDenseStoreTest.test_store values = Ok true.
Proof.
  intros I.
  assert (P : forall bin_limit : Z,
             0 < bin_limit ->
             CollapsingLowestDenseStoreTest.test_store_with bin_limit values
             = Ok true).
  { intros bin_limit Hb.
    destruct (@add_values_lowest values _ []
                (@holds_new bin_limit kChunkSize Hb
                   ltac:(unfold kChunkSize; lia)) I)
      as (s & H & J & Ct & _).
    unfold CollapsingLowestDenseStoreTest.test_store_with.
    rewrite H. simpl bind. simpl app in J.
    apply (test_values_lowest J). rewrite Ct. simpl. lra. }
  split; [exact P|].
  unfold CollapsingLowestDenseStoreTest.test_store.
  cbn [CollapsingLowestDenseStoreTest.test_store_loop].
  rewrite !P by lia. reflexivity.
Qed.

Lemma lowest_test_store_passes_witness :
  (forall bin_limit : Z,
      0 < bin_limit ->
      CollapsingLowestDenseStoreTest.test_store_with bin_limit [4; 10; 100; 10]
      = Ok true)
  /\ CollapsingLowestDenseStoreTest.test_store [4; 10; 100; 10] = Ok true.
Proof.
  apply (@lowest_test_store_passes [4; 10; 100; 10]).
  repeat constructor; unfold INT64_MIN, INT64_MAX; lia.
Defined.
End LowestFacts.

(** ** What the collapsing-highest store holds *)

Module HighestFacts.

Import BinList BinListFacts Store DenseFacts CollapsingAddFacts.
Import ContentFacts CountFacts LowestFacts.
Local Open Scope Z_scope.

Local Arguments BinList.update : simpl never.
Local Arguments BinList.zeros : simpl never.

(** The weight of the keys from [K] on. *)
Definition weight_from (s : Store.t) (K : Z) : R :=
  (accumulate (bins_ s) - weight_upto s (K - 1))%R.

(** The weights after the keys above [hi] have been folded into [hi]. *)
Definition folded_up (s : Store.t) (hi K : Z) : R :=
  if hi <? K then 0%R
  else if K =? hi then weight_from s hi
  else weight_at s K.

Lemma weight_upto_step (s : Store.t) (K : Z) :
  weight_upto s K = (weight_upto s (K - 1) + weight_at s K)%R.
Proof.
  unfold weight_upto, RankFacts.cumulative, weight_at, weight_in.
  destruct (Z.ltb_spec K (offset_ s)) as [L|G].
  - replace (Z.to_nat (K - offset_ s + 1)) with O by lia.
    replace (Z.to_nat (K - 1 - offset_ s + 1)) with O by lia.
    simpl. rewrite accumulate_nil. lra.
  - replace (Z.to_nat (K - offset_ s + 1)) with (S (Z.to_nat (K - offset_ s)))
      by lia.
    replace (Z.to_nat (K - 1 - offset_ s + 1)) with (Z.to_nat (K - offset_ s))
      by lia.
    destruct (Nat.lt_ge_cases (Z.to_nat (K - offset_ s))
                (List.length (bins_ s))) as [Lt|Ge].
    + now apply accumulate_firstn_S.
    + rewrite !firstn_all2 by lia. rewrite nth_overflow by lia. lra.
Qed.

Lemma weight_upto_none (s : Store.t) (lo hi K : Z) :
  zero_outside (bins_ s) (offset_ s) lo hi -> K < lo ->
  weight_upto s K = 0%R.
Proof.
  intros Z0 H. unfold weight_upto, RankFacts.cumulative.
  apply accumulate_all_zero. intros i Hi. rewrite length_firstn in Hi.
  rewrite nth_firstn.
  replace (i <? Z.to_nat (K - offset_ s + 1))%nat with true
    by (symmetry; apply Nat.ltb_lt; lia).
  apply Z0; [lia|]. left. lia.
Qed.

Lemma weight_from_last (s : Store.t) (lo hi K : Z) :
  zero_outside (bins_ s) (offset_ s) lo hi -> hi <= K ->
  weight_from s K = weight_at s K.
Proof.
  intros Z0 H. unfold weight_from.
  rewrite <- (@weight_upto_total s lo hi K Z0 H).
  rewrite (weight_upto_step s K). lra.
Qed.

Lemma weight_from_all (s : Store.t) (lo hi K : Z) :
  zero_outside (bins_ s) (offset_ s) lo hi -> K <= lo ->
  weight_from s K = accumulate (bins_ s).
Proof.
  intros Z0 H. unfold weight_from.
  rewrite (@weight_upto_none s lo hi (K - 1) Z0) by lia. lra.
Qed.

(** A too wide range on a collapsing-highest store, key by key: the keys
    above the new last key are folded into it, the others keep their
    weight. *)
Lemma adjust_highest_collapse_content (s s' : Store.t) (new_min new_max : Z) :
  covers s (min_key_ s) (max_key_ s) ->
  zero_outside (bins_ s) (offset_ s) (min_key_ s) (max_key_ s) ->
  accumulate (bins_ s) = count_ s ->
  new_min <= min_key_ s -> max_key_ s <= new_max ->
  length s < new_max - new_min + 1 ->
  adjust_highest s new_min new_max = Ok s' ->
  forall K, weight_at s' K = folded_up s (new_min + length s - 1) K.
Proof.
  intros Cov Z0 Hsum Hmin Hmax Hwide.
  pose proof Cov as (C1 & C2 & C3).
  unfold adjust_highest.
  replace (new_max - new_min + 1 >? length s) with true
    by (symmetry; apply Z.gtb_lt; lia).
  set (nx := new_min + length s - 1).
  destruct (nx <=? min_key_ s) eqn:Ea.
  - (* everything goes to the last bin *)
    apply Z.leb_le in Ea.
    change (length (set_max_key (set_offset s new_min) nx)) with (length s).
    unfold initialize_with_zeros.
    replace (0 <=? length s) with true by (symmetry; apply Z.leb_le; lia).
    simpl bind.
    assert (Lz : size (zeros (length s)) = length s).
    { unfold size, zeros. rewrite repeat_length. lia. }
    unfold set_last, set, in_bounds. rewrite Lz.
    replace ((0 <=? length s - 1) && (length s - 1 <? length s)) with true
      by (symmetry; apply andb_true_iff; split;
          [apply Z.leb_le|apply Z.ltb_lt]; lia).
    simpl bind. intros H K. inversion H; subst s'; clear H.
    assert (L0 : (Z.to_nat (length s - 1)
                  < List.length (zeros (length s)))%nat)
      by (unfold size in Lz; lia).
    unfold weight_at, folded_up. fields. unfold weight_in.
    destruct (Z.ltb_spec nx K) as [E1|E1].
    + destruct (K <? new_min); [reflexivity|].
      apply nth_overflow. rewrite update_length.
      unfold size in Lz. unfold nx, size in *. lia.
    + destruct (Z.eqb_spec K nx) as [E2|E2].
      * subst K.
        replace (nx <? new_min) with false
          by (symmetry; apply Z.ltb_ge; unfold nx, size in *; lia).
        rewrite nth_update by exact L0.
        replace (Z.to_nat (nx - new_min)) with (Z.to_nat (size (bins_ s) - 1))
          by (unfold nx; lia).
        rewrite Nat.eqb_refl.
        rewrite (@weight_from_all s _ _ nx Z0 Ea). now rewrite Hsum.
      * transitivity 0%R.
        -- destruct (K <? new_min) eqn:E3; [reflexivity|].
           apply Z.ltb_ge in E3. rewrite nth_update by exact L0.
           replace (Z.to_nat (K - new_min) =? Z.to_nat (size (bins_ s) - 1))%nat
             with false
             by (symmetry; apply Nat.eqb_neq; unfold nx, size in *; lia).
           unfold zeros. apply nth_repeat.
        -- symmetry. apply (@weight_in_zero_outside _ _ _ _ _ Z0). lia.
  - apply Z.leb_gt in Ea.
    destruct (offset_ s - new_min >? 0) eqn:Eb.
    + (* fold the highest keys into the bin of [nx], then shift *)
      apply Z.gtb_lt in Eb.
      set (cs := nx - offset_ s + 1).
      set (ce := max_key_ s - offset_ s + 1).
      unfold length in *.
      unfold collapsed_count, index_outside_bounds.
      replace ((cs <? 0) || (size (bins_ s) <? cs)) with false
        by (symmetry; apply orb_false_iff; split; apply Z.ltb_ge;
            unfold cs, nx in *; lia).
      replace ((ce <? 0) || (size (bins_ s) <? ce)) with false
        by (symmetry; apply orb_false_iff; split; apply Z.ltb_ge;
            unfold ce; lia).
      simpl orb. cbv iota.
      destruct (cs <=? ce) eqn:Ec; [|discriminate].
      apply Z.leb_le in Ec.
      simpl bind. unfold replace_range_with_zeros.
      replace ((0 <=? cs) && (cs <=? ce) && (ce <=? size (bins_ s))
               && (0 <=? max_key_ s - nx)) with true
        by (symmetry; rewrite !andb_true_iff; repeat split; apply Z.leb_le;
            unfold cs, ce in *; lia).
      simpl bind.
      set (b1 := firstn (Z.to_nat cs) (bins_ s) ++ zeros (max_key_ s - nx)
                 ++ skipn (Z.to_nat ce) (bins_ s)).
      assert (Eb1 : b1 = firstn (Z.to_nat cs) (bins_ s)
                         ++ repeat 0%R (Z.to_nat ce - Z.to_nat cs)
                         ++ skipn (Z.to_nat ce) (bins_ s)).
      { unfold b1, zeros. do 3 f_equal. unfold cs, ce in *. lia. }
      assert (Lb1 : List.length b1 = List.length (bins_ s)).
      { rewrite Eb1.
        apply length_replace_range; unfold size, cs, ce in *; lia. }
      unfold add_at, in_bounds.
      replace ((0 <=? cs - 1) && (cs - 1 <? size b1)) with true
        by (symmetry; apply andb_true_iff; split;
            [apply Z.leb_le|apply Z.ltb_lt]; unfold size, cs in *; lia).
      simpl bind.
      set (cc := accumulate (slice (bins_ s) cs ce)).
      set (b2 := update (Z.to_nat (cs - 1)) (fun x => (x + cc)%R) b1).
      assert (Lcs : (Z.to_nat (cs - 1) < List.length b1)%nat)
        by (unfold size, cs in *; lia).
      assert (Lb2 : List.length b2 = List.length (bins_ s))
        by (unfold b2; now rewrite update_length).
      set (s2 := set_max_key (set_bins s b2) nx).
      destruct (shift_bins s2 (offset_ s - new_min)) as [s3| |] eqn:Hs3;
        try discriminate.
      simpl bind. intros H K. inversion H; subst s'; clear H.
      destruct (shift_bins_content _ _ Hs3) as (O3 & L3 & _ & _ & _ & _ & W3).
      unfold s2 in O3, L3. fields.
      replace (offset_ s - (offset_ s - new_min)) with new_min in O3 by lia.
      change (weight_at s3 K = folded_up s nx K).
      rewrite W3. unfold in_window_b, length. rewrite O3, L3.
      unfold size. rewrite Lb2. unfold folded_up. unfold size in C3.
      destruct (Z.ltb_spec nx K) as [E1|E1].
      * replace (K <? new_min + Z.of_nat (List.length (bins_ s))) with false
          by (symmetry; apply Z.ltb_ge; unfold nx, size in *; lia).
        now rewrite andb_false_r.
      * replace (K <? new_min + Z.of_nat (List.length (bins_ s))) with true
          by (symmetry; apply Z.ltb_lt; unfold nx, size in *; lia).
        rewrite andb_true_r.
        destruct (Z.eqb_spec K nx) as [E2|E2].
        -- subst K.
           replace (new_min <=? nx) with true
             by (symmetry; apply Z.leb_le; unfold nx, size in *; lia).
           unfold weight_at, s2. fields.
           rewrite weight_in_inside by lia.
           replace (nx - offset_ s) with (cs - 1) by (unfold cs; lia).
           unfold b2. rewrite nth_update by exact Lcs.
           rewrite Nat.eqb_refl.
           rewrite Eb1, nth_replace_range by (unfold size, cs, ce in *; lia).
           replace ((Z.to_nat cs <=? Z.to_nat (cs - 1))%nat
                    && (Z.to_nat (cs - 1) <? Z.to_nat ce)%nat)
             with false
             by (symmetry; apply andb_false_iff; left; apply Nat.leb_gt;
                 unfold cs in *; lia).
           unfold weight_from, weight_upto, RankFacts.cumulative.
           replace (Z.to_nat (nx - 1 - offset_ s + 1))
             with (Z.to_nat (cs - 1)) by (unfold cs; lia).
           rewrite (@accumulate_three_parts (bins_ s) cs ce)
             by (unfold size, cs, ce in *; lia).
           fold cc.
           replace (Z.to_nat cs) with (S (Z.to_nat (cs - 1)))
             by (unfold cs in *; lia).
           rewrite accumulate_firstn_S by (rewrite <- Lb1; exact Lcs).
           rewrite (@accumulate_all_zero (skipn (Z.to_nat ce) (bins_ s))).
           ++ lra.
           ++ intros i Hi. rewrite length_skipn in Hi. rewrite nth_skipn.
              apply Z0; [lia|]. right. unfold ce. lia.
        -- destruct (Z.leb_spec new_min K) as [E3|E3].
           ++ unfold weight_at, s2. fields.
              destruct (Z.ltb_spec K (offset_ s)) as [E4|E4].
              ** rewrite !weight_in_outside by (left; lia). reflexivity.
              ** rewrite !weight_in_inside by lia.
                 unfold b2. rewrite nth_update by exact Lcs.
                 replace (Z.to_nat (K - offset_ s) =? Z.to_nat (cs - 1))%nat
                   with false
                   by (symmetry; apply Nat.eqb_neq; unfold cs; lia).
                 rewrite Eb1, nth_replace_range
                   by (unfold size, cs, ce in *; lia).
                 replace ((Z.to_nat cs <=? Z.to_nat (K - offset_ s))%nat
                          && (Z.to_nat (K - offset_ s) <? Z.to_nat ce)%nat)
                   with false
                   by (symmetry; apply andb_false_iff; left;
                       apply Nat.leb_gt; unfold cs; lia).
                 reflexivity.
           ++ symmetry. apply (@weight_in_zero_outside _ _ _ _ _ Z0). lia.
    + (* no key to fold: shift only *)
      rewrite Z.gtb_ltb in Eb. apply Z.ltb_ge in Eb.
      set (s2 := set_max_key s nx).
      destruct (shift_bins s2 (offset_ s - new_min)) as [s3| |] eqn:Hs3;
        try discriminate.
      simpl bind. intros H K. inversion H; subst s'; clear H.
      destruct (shift_bins_content _ _ Hs3) as (O3 & L3 & _ & _ & _ & _ & W3).
      unfold s2 in O3, L3. fields.
      replace (offset_ s - (offset_ s - new_min)) with new_min in O3 by lia.
      change (weight_at s3 K = folded_up s nx K).
      rewrite W3. unfold in_window_b, length. rewrite O3, L3.
      change (weight_at s2 K) with (weight_at s K). unfold folded_up.
      unfold size in *.
      destruct (Z.ltb_spec nx K) as [E1|E1].
      * replace (K <? new_min + Z.of_nat (List.length (bins_ s))) with false
          by (symmetry; apply Z.ltb_ge; unfold nx, size in *; lia).
        now rewrite andb_false_r.
      * replace (K <? new_min + Z.of_nat (List.length (bins_ s))) with true
          by (symmetry; apply Z.ltb_lt; unfold nx, size in *; lia).
        rewrite andb_true_r.
        destruct (Z.eqb_spec K nx) as [E2|E2].
        -- subst K.
           replace (new_min <=? nx) with true
             by (symmetry; apply Z.leb_le; unfold nx, size in *; lia).
           symmetry. apply (@weight_from_last s _ _ nx Z0).
           unfold nx, size in *. lia.
        -- destruct (Z.leb_spec new_min K) as [E3|E3]; [reflexivity|].
           symmetry. apply (@weight_in_zero_outside _ _ _ _ _ Z0). lia.
Qed.

Lemma folded_up_ext (s s1 : Store.t) (hi K : Z) :
  accumulate (bins_ s1) = accumulate (bins_ s) ->
  (forall K, weight_at s1 K = weight_at s K) ->
  (forall K, weight_upto s1 K = weight_upto s K) ->
  folded_up s1 hi K = folded_up s hi K.
Proof.
  intros H0 H1 H2. unfold folded_up, weight_from. now rewrite H0, H1, H2.
Qed.

(** [extend_range(key)] on a collapsing-highest store, key by key: either
    the store has not collapsed and every key keeps its weight, or the keys
    above the new [max_key_] have been folded into it. *)
Lemma extend_range_highest_content (s s' : Store.t) (key : Z) :
  wfc s -> length s <= bin_limit_ s ->
  (bins_ s = [] -> is_index key) ->
  (max_key_ s < key /\ is_collapsed_ s = false) \/ key < min_key_ s ->
  extend_range CollapsingHighest s key key = Ok s' ->
  length s' <= bin_limit_ s'
  /\ bin_limit_ s' = bin_limit_ s
  /\ min_key_ s' = Z.min key (min_key_ s)
  /\ (is_collapsed_ s' = false ->
      is_collapsed_ s = false
      /\ forall K, weight_at s' K = weight_at s K)
  /\ (is_collapsed_ s' = true ->
      max_key_ s' < Z.max key (max_key_ s)
      /\ forall K, weight_at s' K = folded_up s (max_key_ s') K).
Proof.
  intros (Hc & Hl & Hsum & Hshape) Hlen I Hpre.
  unfold extend_range.
  set (new_min := Z.min key (Z.min key (min_key_ s))).
  set (new_max := Z.max key (Z.max key (max_key_ s))).
  assert (Hcs : (chunk_size_ s =? 0) = false) by (apply Z.eqb_neq; lia).
  pose proof (@ceil_div_bounds (new_max - new_min + 1) _ Hc) as CB.
  unfold get_new_length. rewrite Hcs.
  set (len := Z.min (chunk_size_ s
                     * ceil_div (new_max - new_min + 1) (chunk_size_ s))
                (bin_limit_ s)) in *.
  destruct Hshape as [(Hnil & Hmin & Hmax & Hnc)|(Cov & Z0 & Hfull)].
  - (* no bins yet *)
    specialize (I Hnil). unfold is_index in I.
    unfold is_empty, length, kEmptyStoreLength. rewrite Hnil.
    change (size [] =? 0) with true. cbv iota. simpl bind.
    assert (Hrange : new_min = key /\ new_max = key)
      by (unfold new_min, new_max; lia).
    destruct Hrange as (En & Ex).
    unfold initialize_with_zeros.
    replace (0 <=? len) with true
      by (symmetry; apply Z.leb_le; unfold len; lia).
    simpl bind.
    set (s0 := set_offset (set_bins s (zeros len)) new_min).
    assert (L0 : length s0 = len).
    { unfold length, size, s0, zeros. simpl. rewrite repeat_length.
      unfold len. lia. }
    unfold adjust. rewrite adjust_highest_fit by (rewrite L0; unfold len; lia).
    intros H.
    destruct (adjust_dense_content _ _ _ H) as (L' & Mn & _ & _ & _ & W').
    assert (Bl : bin_limit_ s' = bin_limit_ s /\ is_collapsed_ s' = false).
    { unfold adjust_dense, center_bins in H.
      destruct (shift_bins s0 _) as [s2| |] eqn:H2; try discriminate.
      simpl bind in H. inversion H; subst s'; clear H.
      unfold shift_bins in H2.
      destruct (if _ >? 0 then _ else _) as [b| |]; try discriminate.
      simpl bind in H2. inversion H2; subst s2. fields. now split. }
    destruct Bl as (Bl & Nc).
    split; [change (length s' <= bin_limit_ s');
            rewrite L', L0, Bl; unfold len; lia|].
    split; [exact Bl|].
    split; [rewrite Mn; unfold INT64_MAX in *; lia|].
    split.
    + intros _. split; [exact Hnc|]. intros K. rewrite W'.
      unfold weight_at at 1 2. unfold s0. fields. rewrite weight_in_zeros.
      rewrite Hnil, weight_in_nil. now destruct (in_window_b s' K).
    + rewrite Nc. discriminate.
  - (* some bins *)
    pose proof Cov as (C1 & C2 & C3).
    assert (Hne : is_empty s = false).
    { unfold is_empty, kEmptyStoreLength. apply Z.eqb_neq. lia. }
    rewrite Hne.
    destruct ((new_min >=? min_key_ s) && (new_max <? offset_ s + length s))
      eqn:E.
    + (* the range fits the bins as they are *)
      apply andb_true_iff in E. destruct E as (E1 & E2).
      apply Z.geb_le in E1. apply Z.ltb_lt in E2.
      assert (Hnc : is_collapsed_ s = false).
      { destruct (is_collapsed_ s) eqn:Ec; [|reflexivity].
        destruct (Hfull eq_refl) as (F1 & F2 & F3).
        unfold new_min, new_max in *. lia. }
      intros H. inversion H; subst s'; clear H. fields.
      split; [exact Hlen|]. split; [reflexivity|].
      split; [unfold new_min; lia|].
      split; [intros _; split; [exact Hnc|reflexivity]|].
      rewrite Hnc. discriminate.
    + (* grow the bins, then adjust *)
      clear E. simpl bind.
      destruct (@grow_content s len (min_key_ s) (max_key_ s) Z0)
        as (s1 & Hs1 & A1 & Z1 & L1 & O1 & Mi1 & Ma1 & Ct1 & Ch1 & Bl1
            & Co1 & W1 & U1).
      rewrite Hs1. simpl bind. unfold adjust.
      destruct (Z_lt_le_dec (length s1) (new_max - new_min + 1))
        as [Wide|Fit].
      * (* collapse *)
        assert (Cov1 : covers s1 (min_key_ s1) (max_key_ s1)).
        { unfold covers. rewrite O1, Mi1, Ma1, L1. lia. }
        assert (Z1' : zero_outside (bins_ s1) (offset_ s1)
                        (min_key_ s1) (max_key_ s1))
          by (now rewrite Mi1, Ma1).
        destruct (@adjust_highest_collapse s1 new_min new_max)
          as (s2 & Hs2 & F1 & F2 & F3 & F4 & F5 & F6 & F7 & F8 & F9 & F10);
          [exact Cov1|exact Z1'|now rewrite A1, Ct1
          |rewrite Mi1; unfold new_min; lia
          |rewrite Ma1; unfold new_max; lia
          |rewrite Mi1, Ma1; unfold new_min, new_max; lia|exact Wide|].
        intros H.
        pose proof (@adjust_highest_collapse_content s1 s' new_min new_max
                      Cov1 Z1' ltac:(now rewrite A1, Ct1)
                      ltac:(rewrite Mi1; unfold new_min; lia)
                      ltac:(rewrite Ma1; unfold new_max; lia) Wide H) as W'.
        rewrite Hs2 in H. inversion H; subst s2; clear H.
        split; [rewrite F8, F7, Bl1, L1; unfold len; lia|].
        split; [now rewrite F7, Bl1|].
        split; [rewrite F2; unfold new_min; lia|].
        split; [rewrite F4; discriminate|].
        intros _. rewrite F3. split.
        -- unfold new_max in Wide. lia.
        -- intros K. rewrite W'. now apply folded_up_ext.
      * (* the grown bins hold the range *)
        assert (Hnc : is_collapsed_ s = false).
        { destruct (is_collapsed_ s) eqn:Ec; [|reflexivity].
          destruct (Hfull eq_refl) as (G1 & G2 & G3).
          destruct Hpre as [(_ & Hpre)|Hpre]; [discriminate|].
          rewrite L1 in Fit. unfold new_min, new_max, len in *. lia. }
        rewrite adjust_highest_fit by exact Fit.
        intros H.
        destruct (adjust_dense_content _ _ _ H)
          as (L' & Mn & Mx & _ & _ & W').
        assert (Cov1 : covers s1 (min_key_ s) (max_key_ s)).
        { unfold covers. rewrite O1, L1. lia. }
        destruct (@adjust_dense_spec s1 new_min new_max
                    (min_key_ s) (max_key_ s))
          as (b & o & Hadj & Lb & Ab & Zb & Q1 & Q2);
          [exact Z1|exact Cov1|unfold new_min; lia|unfold new_max; lia
          |exact Fit|].
        rewrite Hadj in H. inversion H; subst s'; clear H. fields.
        split; [unfold length, size in *; rewrite Bl1; unfold len; lia|].
        split; [exact Bl1|]. split; [unfold new_min; lia|].
        split; [|rewrite Co1, Hnc; discriminate].
        intros _. split; [exact Hnc|]. intros K. rewrite W', W1.
        unfold in_window_b. fields.
        destruct ((o <=? K) && (K <? o + size b)) eqn:B; [reflexivity|].
        symmetry. apply (@weight_in_zero_outside _ _ _ _ _ Z0).
        unfold size in *. rewrite Lb in B.
        apply andb_false_iff in B.
        destruct B as [B|B]; [apply Z.leb_gt in B|apply Z.ltb_ge in B];
          unfold new_min, new_max in *; lia.
Qed.

(** *** The keys a collapsing-highest store has received *)

(** The least of the values, the greatest [Index] when there is none. *)
Definition minimum (vs : list Z) : Z := fold_left Z.min vs INT64_MAX.

Lemma fold_min_le (vs : list Z) : forall a, fold_left Z.min vs a <= a.
Proof.
  induction vs as [|v vs IH]; intros a; simpl; [lia|].
  specialize (IH (Z.min a v)). lia.
Qed.

Lemma fold_min_lower (vs : list Z) :
  forall a v, In v vs -> fold_left Z.min vs a <= v.
Proof.
  induction vs as [|w vs IH]; intros a v Hin; [destruct Hin|].
  destruct Hin as [E|Hin]; simpl.
  - subst w. pose proof (fold_min_le vs (Z.min a v)). lia.
  - now apply IH.
Qed.

Lemma fold_min_In (vs : list Z) :
  forall a, fold_left Z.min vs a = a \/ In (fold_left Z.min vs a) vs.
Proof.
  induction vs as [|v vs IH]; intros a; simpl; [now left|].
  destruct (IH (Z.min a v)) as [E|Hin]; [|now right; right].
  rewrite E. destruct (Z.min_spec a v) as [(_ & M)|(_ & M)]; rewrite M.
  - now left.
  - right. now left.
Qed.

Lemma minimum_snoc (vs : list Z) (v : Z) :
  minimum (vs ++ [v]) = Z.min (minimum vs) v.
Proof. unfold minimum. now rewrite fold_left_app. Qed.

Lemma minimum_lower (vs : list Z) (v : Z) : In v vs -> minimum vs <= v.
Proof. apply fold_min_lower. Qed.

Lemma minimum_In (vs : list Z) :
  vs <> [] -> Forall is_index vs -> In (minimum vs) vs.
Proof.
  intros Hne I. destruct (fold_min_In vs INT64_MAX) as [E|Hin]; [|exact Hin].
  destruct vs as [|v vs]; [contradiction|].
  pose proof (@minimum_lower (v :: vs) v ltac:(now left)) as U.
  inversion I as [|? ? Iv _]; subst. unfold is_index in Iv.
  unfold minimum in *. rewrite E in *.
  replace (INT64_MAX) with v by lia. now left.
Qed.

(** The link between a store and the list of keys added to it: the keys
    greater than [max_key_] are counted at [max_key_]. *)
Definition holds_high (s : Store.t) (vs : list Z) : Prop :=
  wfc s
  /\ length s <= bin_limit_ s
  /\ min_key_ s = minimum vs
  /\ Forall is_index vs
  /\ (is_collapsed_ s = false -> Forall (fun v => v <= max_key_ s) vs)
  /\ forall K,
       weight_at s K
       = IZR (count_if (fun v => Z.min v (max_key_ s) =? K) vs).

(** The bins sum to the number of values they count. *)
Lemma total_counts (s : Store.t) (vs : list Z) (keyf : Z -> Z) :
  (forall K, weight_at s K = IZR (count_if (fun v => keyf v =? K) vs)) ->
  accumulate (bins_ s) = IZR (Z.of_nat (List.length vs)).
Proof.
  intros C.
  pose proof (@QuantileFacts.cumulative_counts_all Z s (fun _ => true)
                keyf vs C (offset_ s + length s)) as U.
  unfold RankFacts.cumulative in U.
  rewrite firstn_all2 in U by (unfold length, size; lia).
  rewrite U, <- count_if_all. f_equal. apply count_if_ext. intros v Hin.
  destruct (@QuantileFacts.value_in_window Z s (fun _ => true) keyf vs C
              v Hin eq_refl) as (_ & L).
  cbn [andb]. apply Z.leb_le. lia.
Qed.

(** Folding the keys above [nx] into [nx], on the side of the values. *)
Lemma folded_up_counts (s : Store.t) (vs : list Z) (m nx : Z) :
  (forall K, weight_at s K = IZR (count_if (fun v => Z.min v m =? K) vs)) ->
  nx <= m \/ Forall (fun v => v <= m) vs ->
  forall K, folded_up s nx K = IZR (count_if (fun v => Z.min v nx =? K) vs).
Proof.
  intros C Hm K.
  pose proof (@QuantileFacts.cumulative_counts_all Z s (fun _ => true)
                (fun v => Z.min v m) vs C (nx - 1)) as U.
  pose proof (total_counts s vs (fun v => Z.min v m) C) as T.
  assert (Hv : forall v, In v vs -> nx <= m \/ v <= m).
  { intros v Hin. destruct Hm as [Hm|Hm]; [now left|right].
    rewrite Forall_forall in Hm. now apply Hm. }
  unfold folded_up. destruct (Z.ltb_spec nx K) as [L|G].
  - rewrite count_if_none; [reflexivity|]. intros v _. zbool.
  - destruct (Z.eqb_spec K nx) as [E|N].
    + subst K. unfold weight_from, weight_upto. rewrite U, T.
      rewrite <- count_if_all, <- minus_IZR. f_equal.
      rewrite (count_if_split (fun _ : Z => true)
                 (fun v => Z.min v m <=? nx - 1) vs).
      cbn [andb].
      match goal with
      | |- ?a + ?b - ?c = ?d => assert (Eq1 : a = c); [|assert (Eq2 : b = d)]
      end.
      * apply count_if_ext. intros v _. reflexivity.
      * apply count_if_ext. intros v Hin. specialize (Hv v Hin).
        unfold negb. zbool.
      * lia.
    + rewrite C. f_equal. apply count_if_ext. intros v Hin.
      specialize (Hv v Hin). zbool.
Qed.

(** [get_index] on a collapsing-highest store that holds the keys [vs]:
    the store it leaves still holds them, and the index is the one of the
    bin of [min(key, max_key_)]. *)
Lemma get_index_highest_content (s : Store.t) (vs : list Z) (key : Z) :
  holds_high s vs -> is_index key ->
  exists idx s1,
    get_index CollapsingHighest s key = Ok (idx, s1)
    /\ wfc s1
    /\ covers s1 (min_key_ s1) (max_key_ s1)
    /\ count_ s1 = count_ s
    /\ bin_limit_ s1 = bin_limit_ s
    /\ length s1 <= bin_limit_ s1
    /\ min_key_ s1 = Z.min (min_key_ s) key
    /\ offset_ s1 + idx = Z.min key (max_key_ s1)
    /\ (is_collapsed_ s1 = false -> key <= max_key_ s1)
    /\ (is_collapsed_ s1 = false -> Forall (fun v => v <= max_key_ s1) vs)
    /\ forall K,
         weight_at s1 K
         = IZR (count_if (fun v => Z.min v (max_key_ s1) =? K) vs).
Proof.
  intros (W & Len & Mn & Iv & High & C) I.
  unfold get_index.
  destruct (key >? max_key_ s) eqn:E1.
  - apply Z.gtb_lt in E1. destruct (is_collapsed_ s) eqn:Ec.
    + (* collapsed already: the last bin *)
      exists (length s - 1), s. split; [reflexivity|]. split; [exact W|].
      destruct W as (_ & _ & _ & [(_ & _ & _ & Hnc)|(Cov & _ & Hfull)]);
        [congruence|].
      destruct (Hfull Ec) as (F1 & F2 & F3).
      pose proof Cov as (C1 & C2 & C3).
      split; [exact Cov|]. split; [reflexivity|]. split; [reflexivity|].
      split; [exact Len|]. split; [lia|]. split; [lia|].
      split; [congruence|]. split; [congruence|]. exact C.
    + destruct (@extend_range_highest s key W (fun _ => I))
        as (s1 & H1 & W1 & C1 & Ct & Mnk & Mx); [left; auto|].
      destruct (@extend_range_highest_content s s1 key W Len (fun _ => I)
                  ltac:(left; auto) H1) as (Len1 & Bl1 & Mn1 & NC & CC).
      rewrite H1. simpl bind.
      destruct (is_collapsed_ s1) eqn:Ec1.
      * exists (length s1 - 1), s1. split; [reflexivity|].
        split; [exact W1|].
        split; [exact C1|]. split; [exact Ct|]. split; [exact Bl1|].
        split; [exact Len1|]. split; [lia|].
        destruct W1
          as (_ & _ & _ & [(_ & _ & _ & Hnc)|(_ & _ & Hfull)]);
          [congruence|].
        destruct (Hfull Ec1) as (F1 & F2 & F3).
        destruct (CC eq_refl) as (Lt & Wt).
        split; [lia|]. split; [congruence|]. split; [congruence|].
        intros K. rewrite Wt. apply (@folded_up_counts s vs (max_key_ s)).
        -- exact C.
        -- right. exact (High eq_refl).
      * specialize (Mx eq_refl). destruct (NC eq_refl) as (_ & Wt).
        specialize (High eq_refl). rewrite Forall_forall in High.
        exists (key - offset_ s1), s1. split; [reflexivity|].
        split; [exact W1|]. split; [exact C1|]. split; [exact Ct|].
        split; [exact Bl1|]. split; [exact Len1|]. split; [lia|].
        split; [lia|]. split; [intros _; lia|]. split.
        -- intros _. apply Forall_forall. intros v Hin.
           specialize (High v Hin). lia.
        -- intros K. rewrite Wt, C. f_equal. apply count_if_ext.
           intros v Hin. specialize (High v Hin). zbool.
  - rewrite Z.gtb_ltb in E1. apply Z.ltb_ge in E1.
    destruct (Z.ltb_spec key (min_key_ s)) as [E2|E2].
    + destruct (@extend_range_highest s key W (fun _ => I))
        as (s1 & H1 & W1 & C1 & Ct & Mnk & Mx); [right; exact E2|].
      destruct (@extend_range_highest_content s s1 key W Len (fun _ => I)
                  ltac:(right; exact E2) H1) as (Len1 & Bl1 & Mn1 & NC & CC).
      rewrite H1. simpl bind.
      pose proof C1 as (C11 & C12 & C13).
      exists (key - offset_ s1), s1. split; [reflexivity|].
      split; [exact W1|]. split; [exact C1|]. split; [exact Ct|].
      split; [exact Bl1|]. split; [exact Len1|]. split; [lia|].
      split; [lia|]. split; [intros _; lia|].
      destruct (is_collapsed_ s1) eqn:Ec1.
      * split; [congruence|]. destruct (CC eq_refl) as (Lt & Wt).
        intros K. rewrite Wt. apply (@folded_up_counts s vs (max_key_ s)).
        -- exact C.
        -- left. lia.
      * specialize (Mx eq_refl). destruct (NC eq_refl) as (Ec & Wt).
        assert (Em : max_key_ s1 = max_key_ s) by lia.
        rewrite Em. split; [intros _; now apply High|].
        intros K. now rewrite Wt.
    + pose proof (@wfc_between s key W I ltac:(lia)) as Cov.
      exists (key - offset_ s), s. split; [reflexivity|].
      split; [exact W|]. split; [exact Cov|]. split; [reflexivity|].
      split; [reflexivity|]. split; [exact Len|]. split; [lia|].
      split; [lia|]. split; [intros _; lia|]. split; [exact High|exact C].
Qed.

(** One [add] with the default weight. *)
Lemma add_highest_holds (s : Store.t) (vs : list Z) (key : Z) :
  holds_high s vs -> is_index key ->
  exists s',
    add CollapsingHighest s key 1 = Ok s'
    /\ holds_high s' (vs ++ [key])
    /\ count_ s' = (count_ s + 1)%R
    /\ bin_limit_ s' = bin_limit_ s.
Proof.
  intros H I.
  destruct (get_index_highest_content H I)
    as (idx & s1 & H1 & W1 & C1 & Ct & Bl & Len1 & Mn1 & Ix & Lk & High1 & Wt).
  destruct H as (W & Len & Mn & Iv & High & C).
  pose proof C1 as (C11 & C12 & C13).
  unfold add. rewrite H1. simpl bind.
  destruct (@add_at_wfc s1 idx 1%R W1 C1 ltac:(lia)) as (b & Hb & Wb).
  rewrite Hb. simpl bind. eexists. split; [reflexivity|].
  split; [|split; [simpl; now rewrite Ct|exact Bl]].
  split; [exact Wb|].
  split; [unfold length in *; simpl; now rewrite (add_at_size _ _ _ Hb)|].
  split; [simpl; now rewrite minimum_snoc, Mn1, Mn|].
  split; [apply Forall_app; split; [exact Iv|now constructor]|].
  split.
  - simpl. intros Ec. apply Forall_app. split; [now apply High1|].
    constructor; [now apply Lk|constructor].
  - intros K. unfold weight_at. simpl.
    rewrite (@weight_in_add_at _ _ (offset_ s1) idx 1%R K Hb).
    fold (weight_at s1 K). rewrite Wt, count_if_app, plus_IZR.
    cbn [count_if]. rewrite Ix, (Z.eqb_sym K).
    destruct (Z.min key (max_key_ s1) =? K); simpl; lra.
Qed.

Lemma add_values_highest (values : list Z) :
  forall (s : Store.t) (vs : list Z),
    holds_high s vs -> Forall is_index values ->
    exists s',
      StoreTest.add_values CollapsingHighest s values = Ok s'
      /\ holds_high s' (vs ++ values)
      /\ count_ s' = (count_ s + IZR (Z.of_nat (List.length values)))%R
      /\ bin_limit_ s' = bin_limit_ s.
Proof.
  induction values as [|v values IH]; intros s vs H I.
  - exists s. split; [reflexivity|]. rewrite app_nil_r.
    split; [exact H|]. split; [simpl; lra|reflexivity].
  - inversion I as [|? ? Iv Ir]; subst.
    destruct (add_highest_holds H Iv) as (s1 & H1 & J1 & C1 & B1).
    destruct (IH s1 (vs ++ [v]) J1 Ir) as (s' & H' & J' & C' & B').
    exists s'. simpl StoreTest.add_values. rewrite H1. simpl bind.
    split; [exact H'|]. rewrite <- app_assoc in J'.
    split; [exact J'|]. split; [|congruence].
    rewrite C', C1. simpl List.length.
    rewrite Nat2Z.inj_succ, succ_IZR. lra.
Qed.

Lemma holds_high_new (bin_limit chunk_size : Z) :
  0 < bin_limit -> 0 < chunk_size ->
  holds_high (CollapsingDenseStore bin_limit chunk_size) [].
Proof.
  intros Hb Hc. unfold holds_high, CollapsingDenseStore, wfc. simpl.
  split; [split; [exact Hc|]; split; [exact Hb|]; split;
          [reflexivity|left; auto]|].
  split; [unfold length, size; simpl; lia|]. split; [reflexivity|].
  split; [constructor|]. split; [constructor|].
  intros K. unfold weight_at. simpl. apply weight_in_nil.
Qed.

Lemma holds_high_covers (s : Store.t) (vs : list Z) :
  holds_high s vs -> vs <> [] ->
  covers s (min_key_ s) (max_key_ s) /\ In (min_key_ s) vs.
Proof.
  intros (W & Len & Mn & Iv & High & C) Hne.
  pose proof (minimum_In Hne Iv) as Hin. rewrite <- Mn in Hin.
  split; [|exact Hin].
  destruct W as (_ & _ & _ & [(_ & Hmin & Hmax & Hnc)|(Cov & _)]);
    [|exact Cov].
  exfalso. specialize (High Hnc). rewrite Forall_forall in High.
  rewrite Forall_forall in Iv.
  pose proof (High _ Hin). pose proof (Iv _ Hin) as Ik.
  unfold is_index, INT64_MAX, INT64_MIN in *. lia.
Qed.

Lemma holds_high_clamped (s : Store.t) (vs : list Z) :
  holds_high s vs ->
  forall K,
    weight_at s K
    = IZR (count_if
             (fun v => Z.min v (minimum vs + bin_limit_ s - 1) =? K) vs).
Proof.
  intros H K. destruct vs as [|v0 vs0];
    [now destruct H as (_ & _ & _ & _ & _ & C)|].
  destruct (holds_high_covers H ltac:(discriminate)) as ((C1 & C2 & C3) & _).
  destruct H as (W & Len & Mn & Iv & High & C).
  rewrite C. f_equal. apply count_if_ext. intros v Hin. rewrite <- Mn.
  destruct (is_collapsed_ s) eqn:Ec.
  - destruct W as (_ & _ & _ & [(_ & _ & _ & Hnc)|(_ & _ & Hfull)]);
      [congruence|].
    destruct (Hfull Ec) as (F1 & F2 & F3).
    replace (min_key_ s + bin_limit_ s - 1) with (max_key_ s) by lia.
    reflexivity.
  - specialize (High eq_refl). rewrite Forall_forall in High.
    specialize (High v Hin). zbool.
Qed.

(** In the model.
    The keys of a collapsing-highest store after a
    sequence of [add] calls on a new store, whatever the keys, the bin limit
    and the chunk size: no call fails, the store never has more bins than
    [bin_limit], the count is the number of keys, and the weight of a key
    [K] is the number of added keys [v] with
    [min(v, m + bin_limit - 1) = K], where [m] is the least added key.  The
    keys that are too great for the window are thus counted in its last
    bin, and no other key moves. *)
Theorem highest_store_counts_the_clamped_keys (bin_limit chunk_size : Z)
    (values : list Z) :
  0 < bin_limit -> 0 < chunk_size -> Forall is_index values ->
  exists s,
    StoreTest.add_values CollapsingHighest
      (CollapsingDenseStore bin_limit chunk_size) values = Ok s
    /\ length s <= bin_limit
    /\ count_ s = IZR (Z.of_nat (List.length values))
    /\ min_key_ s = minimum values
    /\ forall K,
         weight_at s K
         = IZR (count_if
                  (fun v => Z.min v (minimum values + bin_limit - 1) =? K)
                  values).
Proof.
  intros Hb Hc I.
  destruct (@add_values_highest values _ [] (holds_high_new Hb Hc) I)
    as (s & H & J & Ct & Bl).
  simpl app in J. exists s. split; [exact H|].
  change (bin_limit_ (CollapsingDenseStore bin_limit chunk_size))
    with bin_limit in Bl.
  split; [destruct J as (_ & Len & _); lia|].
  split; [rewrite Ct; simpl; lra|].
  split; [now destruct J as (_ & _ & Mn & _)|].
  intros K. rewrite (holds_high_clamped J K). now rewrite Bl.
Qed.

Lemma highest_store_counts_the_clamped_keys_witness :
  exists s,
    StoreTest.add_values CollapsingHighest (CollapsingDenseStore 2 128)
      [5; 1; 7; 2] = Ok s
    /\ length s <= 2
    /\ count_ s = IZR (Z.of_nat (List.length [5; 1; 7; 2]))
    /\ min_key_ s = minimum [5; 1; 7; 2]
    /\ forall K,
         weight_at s K
         = IZR (count_if (fun v => Z.min v (minimum [5; 1; 7; 2] + 2 - 1) =? K)
                  [5; 1; 7; 2]).
Proof.
  apply (@highest_store_counts_the_clamped_keys 2 128 [5; 1; 7; 2]);
    [lia|lia|].
  repeat constructor; unfold INT64_MIN, INT64_MAX; lia.
Defined.

(** The counter of the tests and the least value. *)
Lemma min_value_from (m : StoreTest.KeyValueContainer) :
  forall a, fold_left (fun partial_min p => Z.min partial_min (fst p)) m a <= a.
Proof.
  induction m as [|p m IH]; intros a; simpl; [lia|].
  specialize (IH (Z.min a (fst p))). lia.
Qed.

Lemma min_value_count_value (m : StoreTest.KeyValueContainer) (v : Z) :
  forall a,
    fold_left (fun partial_min p => Z.min partial_min (fst p))
      (StoreTest.count_value m v) a
    = Z.min (fold_left (fun partial_min p => Z.min partial_min (fst p)) m a)
        v.
Proof.
  induction m as [|(k, n) m IH]; intros a; simpl; [reflexivity|].
  destruct (Z.eqb_spec k v) as [E|N]; simpl.
  - subst k. pose proof (min_value_from m (Z.min a v)). lia.
  - apply IH.
Qed.

Lemma Counter_min_from (values : list Z) :
  forall (m : StoreTest.KeyValueContainer) (a : Z),
    fold_left (fun partial_min p => Z.min partial_min (fst p))
      (fold_left StoreTest.count_value values m) a
    = fold_left Z.min values
        (fold_left (fun partial_min p => Z.min partial_min (fst p)) m a).
Proof.
  induction values as [|v values IH]; intros m a; simpl; [reflexivity|].
  now rewrite IH, min_value_count_value.
Qed.

Lemma Counter_min_value (values : list Z) :
  StoreTest.min_value (StoreTest.Counter values) = minimum values.
Proof.
  unfold StoreTest.min_value, StoreTest.Counter.
  now rewrite Counter_min_from.
Qed.

Lemma test_values_highest (s : Store.t) (values : list Z) :
  holds_high s values ->
  count_ s = IZR (Z.of_nat (List.length values)) ->
  CollapsingHighestDenseStoreTest.test_values s values = Ok true.
Proof.
  intros J Ct.
  unfold CollapsingHighestDenseStoreTest.test_values, bins, offset.
  rewrite sum_ok. simpl bind.
  destruct (Counter_spec values) as (At & Sm). rewrite Sm.
  f_equal. apply andb_true_iff. split.
  - apply Reqb'_true. destruct J as ((_ & _ & Hsum & _) & _).
    now rewrite Hsum, Ct.
  - destruct values as [|v0 values0].
    + destruct J as ((_ & _ & Hsum & _) & _ & _ & _ & _ & C).
      change (Z.of_nat (List.length (@nil Z)) =? 0) with true. cbv iota.
      destruct (has_only_zeros (bins_ s)) eqn:E; [reflexivity|].
      exfalso. assert (E' : has_only_zeros (bins_ s) = true);
        [|congruence].
      apply has_only_zeros_iff. intros i Hi.
      rewrite <- (weight_in_nth (bins_ s) (offset_ s) i).
      fold (weight_at s (offset_ s + Z.of_nat i)). now rewrite C.
    + set (values := v0 :: values0) in *.
      replace (Z.of_nat (List.length values) =? 0) with false
        by (symmetry; apply Z.eqb_neq; unfold values; simpl List.length;
            lia).
      destruct (holds_high_covers J ltac:(discriminate))
        as ((C1 & C2 & C3) & Hin).
      pose proof (holds_high_clamped J) as Cl.
      destruct J as (W & Len & Mn & Iv & High & C).
      apply andb_true_iff. split.
      * destruct (has_only_zeros (bins_ s)) eqn:E; [|reflexivity].
        exfalso. rewrite has_only_zeros_iff in E.
        assert (Z0 : weight_at s (min_key_ s) = 0%R).
        { unfold weight_at, weight_in. destruct (min_key_ s <? offset_ s);
            [reflexivity|].
          destruct (Nat.lt_ge_cases (Z.to_nat (min_key_ s - offset_ s))
                      (List.length (bins_ s))) as [L|G].
          - now apply E.
          - now apply nth_overflow. }
        rewrite C in Z0.
        pose proof (@count_if_In Z
                      (fun v => Z.min v (max_key_ s) =? min_key_ s)
                      values (min_key_ s) Hin
                      ltac:(apply Z.eqb_eq; lia)) as O.
        apply IZR_le in O. lra.
      * apply expect_bins_true. intros i Hi.
        rewrite (proj1 (Counter_spec _)).
        unfold CollapsingHighestDenseStoreTest.normalize_bigger_values.
        rewrite occurrences_map, Counter_min_value.
        replace (0 + Z.of_nat i + offset_ s) with (offset_ s + Z.of_nat i)
          by lia.
        rewrite <- (weight_in_nth (bins_ s) (offset_ s) i).
        fold (weight_at s (offset_ s + Z.of_nat i)). rewrite Cl.
        f_equal. apply count_if_ext. intros v Hv.
        rewrite Forall_forall in Iv. specialize (Iv v Hv).
        unfold is_index in Iv. zbool.
Qed.

(** In the model.
    [CollapsingHighestDenseStoreTest::test_store] passes
    on every list of keys, and so does the body of its loop for every
    positive bin limit, not only for the limit 20 of the test: the bins sum
    to the number of values, [has_only_zeros] tells whether the list was
    empty, and every bin that is not zero holds the number of values that
    [normalize_bigger_values] sends to its key. *)
Theorem highest_test_store_passes (values : list Z) :
  Forall is_index values ->
  (forall bin_limit : Z,
      0 < bin_limit ->
      CollapsingHighestDenseStoreTest.test_store_with bin_limit values
      = Ok true)
  /\ CollapsingHighestDenseStoreTest.test_store values = Ok true.
Proof.
  intros I.
  assert (P : forall bin_limit : Z,
             0 < bin_limit ->
             CollapsingHighestDenseStoreTest.test_store_with bin_limit values
             = Ok true).
  { intros bin_limit Hb.
    destruct (@add_values_highest values _ []
                (@holds_high_new bin_limit kChunkSize Hb
                   ltac:(unfold kChunkSize; lia)) I)
      as (s & H & J & Ct & _).
    unfold CollapsingHighestDenseStoreTest.test_store_with.
    rewrite H. simpl bind. simpl app in J.
    apply (test_values_highest J). rewrite Ct. simpl. lra. }
  split; [exact P|].
  unfold CollapsingHighestDenseStoreTest.test_store.
  cbn [CollapsingHighestDenseStoreTest.test_store_loop].
  rewrite !P by lia. reflexivity.
Qed.

Lemma highest_test_store_passes_witness :
  (forall bin_limit : Z,
      0 < bin_limit ->
      CollapsingHighestDenseStoreTest.test_store_with bin_limit
        [4; 10; 100; 10] = Ok true)
  /\ CollapsingHighestDenseStoreTest.test_store [4; 10; 100; 10] = Ok true.
Proof.
  apply (@highest_test_store_passes [4; 10; 100; 10]).
  repeat constructor; unfold INT64_MIN, INT64_MAX; lia.
Defined.
End HighestFacts.

(** ** The collapsing sketches against the data they have seen *)

Module CollapsingSketchFacts.

Import CountFacts ContentFacts DenseFacts.
Import Mapping Sketch QuantileFacts.
Local Open Scope R_scope.

(** The keys that [add] sends to the store of the positive values and to
    the store of the negative values. *)
Definition pos_keys (m : Mapping.t) (vs : list R) : list Z :=
  map (key m) (filter (is_pos m) vs).

Definition neg_keys (m : Mapping.t) (vs : list R) : list Z :=
  map (fun v => key m (- v)) (filter (is_neg m) vs).

Lemma pos_keys_snoc (m : Mapping.t) (vs : list R) (v : R) :
  pos_keys m (vs ++ [v])
  = pos_keys m vs ++ (if is_pos m v then [key m v] else []).
Proof.
  unfold pos_keys. rewrite filter_app, map_app. cbn [filter].
  now destruct (is_pos m v).
Qed.

Lemma neg_keys_snoc (m : Mapping.t) (vs : list R) (v : R) :
  neg_keys m (vs ++ [v])
  = neg_keys m vs ++ (if is_neg m v then [key m (- v)] else []).
Proof.
  unfold neg_keys. rewrite filter_app, map_app. cbn [filter].
  now destruct (is_neg m v).
Qed.

Lemma count_if_map_filter (P : Z -> bool) (f : R -> Z) (Q : R -> bool)
    (l : list R) :
  count_if P (map f (filter Q l)) = count_if (fun v => Q v && P (f v)) l.
Proof.
  induction l as [|v l IH]; [reflexivity|].
  cbn [filter count_if]. destruct (Q v); cbn [map count_if andb];
    now rewrite IH.
Qed.

Section Collapsing.

Variables (alpha : R) (z : Z) (m : Mapping.t).
Hypothesis alpha_range : 0 < alpha < 1.
Hypothesis mapping_built : LogarithmicMapping alpha (IZR z) = Ok m.

(** The store kind, the link between a store and the keys added to it, and
    the key under which a store with the limit [bl] counts a key. *)
Variable k : Store.kind.
Variable inv : Store.t -> list Z -> Prop.
Variable clamp : list Z -> Z -> Z -> Z.
Variable bl : Z.

Hypothesis inv_add :
  forall (s : Store.t) (keys : list Z) (key : Z),
    inv s keys -> is_index key ->
    exists s',
      Store.add k s key 1 = Ok s'
      /\ inv s' (keys ++ [key])
      /\ Store.count_ s' = Store.count_ s + 1
      /\ Store.bin_limit_ s' = Store.bin_limit_ s.

Hypothesis inv_content :
  forall (s : Store.t) (keys : list Z),
    inv s keys ->
    forall K, weight_at s K
              = IZR (count_if
                       (fun v => (clamp keys (Store.bin_limit_ s) v =? K)%Z)
                       keys).

Hypothesis clamp_monotone :
  forall (keys : list Z) (a b : Z),
    (a <= b)%Z -> (clamp keys bl a <= clamp keys bl b)%Z.

(** The sketch [s] has received the values [vs]. *)
Definition held (s : Sketch.t) (vs : list R) : Prop :=
  mapping_ s = m
  /\ inv (store_ s) (pos_keys m vs)
  /\ inv (negative_store_ s) (neg_keys m vs)
  /\ Store.bin_limit_ (store_ s) = bl
  /\ Store.bin_limit_ (negative_store_ s) = bl
  /\ Store.count (negative_store_ s) = IZR (count_if (is_neg m) vs)
  /\ zero_count_ s = IZR (count_if (is_zero m) vs)
  /\ count_ s = IZR (Z.of_nat (length vs))
  /\ sum_ s = DataSet.sum vs.

(** One [add] with the default weight. *)
Lemma add_held (s : Sketch.t) (vs : list R) (v : R) :
  held s vs -> storable m v ->
  exists s', Sketch.add k s v 1 = Ok s' /\ held s' (vs ++ [v]).
Proof.
  intros (Hm & Ip & In' & Bp & Bn & Nn & Zc & Ct & Sm) (Sp & Sn).
  unfold Sketch.add.
  replace (Rleb' 1 0) with false by (symmetry; apply Rleb'_false; lra).
  rewrite Hm. fold (is_pos m v).
  destruct (is_pos m v) eqn:Ep.
  - (* above [min_possible] *)
    destruct (inv_add Ip (Sp eq_refl)) as (st & H & I' & C' & B').
    rewrite H. simpl bind. eexists. split; [reflexivity|].
    unfold held. cbn [mapping_ store_ negative_store_ zero_count_
                        count_ sum_].
    rewrite pos_keys_snoc, neg_keys_snoc. unfold is_neg at 1. rewrite Ep.
    cbn [negb andb]. rewrite app_nil_r.
    split; [first [exact Hm|reflexivity]|]. split; [exact I'|].
    split; [exact In'|]. split; [congruence|]. split; [exact Bn|].
    split; [|split; [|split]].
    + rewrite Nn, count_if_snoc. unfold is_neg. rewrite Ep.
      cbn [negb andb]. lra.
    + rewrite Zc, count_if_snoc. unfold is_zero. rewrite Ep.
      cbn [negb andb]. lra.
    + rewrite Ct, length_snoc. reflexivity.
    + rewrite Sm, sum_snoc. lra.
  - destruct (Rltb' v (- min_possible m)) eqn:En.
    + (* below [- min_possible] *)
      assert (En' : is_neg m v = true) by (unfold is_neg; now rewrite Ep, En).
      destruct (inv_add In' (Sn En')) as (st & H & I' & C' & B').
      rewrite H. simpl bind. eexists. split; [reflexivity|].
      unfold held. cbn [mapping_ store_ negative_store_ zero_count_
                          count_ sum_].
      rewrite pos_keys_snoc, neg_keys_snoc, Ep, En', app_nil_r.
      split; [first [exact Hm|reflexivity]|]. split; [exact Ip|].
      split; [exact I'|]. split; [exact Bp|]. split; [congruence|].
      split; [|split; [|split]].
      * unfold Store.count in *. rewrite C', Nn, count_if_snoc, En'.
        reflexivity.
      * rewrite Zc, count_if_snoc. unfold is_zero. rewrite Ep, En.
        cbn [negb andb]. lra.
      * rewrite Ct, length_snoc. reflexivity.
      * rewrite Sm, sum_snoc. lra.
    + (* counted as zero *)
      assert (En' : is_neg m v = false) by (unfold is_neg; now rewrite Ep, En).
      simpl bind. eexists. split; [reflexivity|].
      unfold held. cbn [mapping_ store_ negative_store_ zero_count_
                          count_ sum_].
      rewrite pos_keys_snoc, neg_keys_snoc, Ep, En', !app_nil_r.
      split; [first [exact Hm|reflexivity]|]. split; [exact Ip|].
      split; [exact In'|]. split; [exact Bp|]. split; [exact Bn|].
      split; [|split; [|split]].
      * rewrite Nn, count_if_snoc, En'. lra.
      * rewrite Zc, count_if_snoc. unfold is_zero. rewrite Ep, En.
        cbn [negb andb]. reflexivity.
      * rewrite Ct, length_snoc. reflexivity.
      * rewrite Sm, sum_snoc. lra.
Qed.

(** The loop of [add] calls of the tests. *)
Lemma add_values_held (vs : list R) :
  forall (s : Sketch.t) (seen : list R),
    held s seen -> Forall (storable m) vs ->
    exists s', SketchTest.add_values k s vs = Ok s' /\ held s' (seen ++ vs).
Proof.
  induction vs as [|v vs IH]; intros s seen Hr Hs.
  - exists s. split; [reflexivity|]. now rewrite app_nil_r.
  - inversion Hs as [|? ? Hv Hvs]; subst.
    destruct (add_held Hr Hv) as (s1 & H1 & R1).
    destruct (IH s1 (seen ++ [v]) R1 Hvs) as (s' & H' & R').
    exists s'. simpl SketchTest.add_values. rewrite H1. simpl bind.
    split; [exact H'|]. now rewrite <- app_assoc in R'.
Qed.

(** The key under which the sketch counts a value. *)
Definition counted_pos (vs : list R) (v : R) : Z :=
  clamp (pos_keys m vs) bl (key m v).

Definition counted_neg (vs : list R) (v : R) : Z :=
  clamp (neg_keys m vs) bl (key m (- v)).

Lemma counted_pos_monotone (vs : list R) (v w : R) :
  min_possible m < v <= w -> (counted_pos vs v <= counted_pos vs w)%Z.
Proof.
  intros Hvw.
  pose proof (@min_possible_pos alpha z m alpha_range mapping_built) as Mp.
  apply clamp_monotone.
  apply (@key_monotone alpha z m alpha_range mapping_built). lra.
Qed.

Lemma counted_neg_monotone (vs : list R) (v w : R) :
  v <= w < - min_possible m -> (counted_neg vs w <= counted_neg vs v)%Z.
Proof.
  intros Hvw.
  pose proof (@min_possible_pos alpha z m alpha_range mapping_built) as Mp.
  apply clamp_monotone.
  apply (@key_monotone alpha z m alpha_range mapping_built). lra.
Qed.

Lemma held_holds_by (s : Sketch.t) (vs : list R) :
  held s vs -> holds_by m (counted_pos vs) (counted_neg vs) s vs.
Proof.
  intros (Hm & Ip & In' & Bp & Bn & Nn & Zc & Ct & Sm).
  split; [exact Hm|]. split; [|split].
  - intros K. rewrite (inv_content Ip), Bp. unfold pos_keys at 2.
    now rewrite count_if_map_filter.
  - intros K. rewrite (inv_content In'), Bn. unfold neg_keys at 2.
    now rewrite count_if_map_filter.
  - repeat (split; [assumption|]). assumption.
Qed.

(** The quantile read from a sketch that has received [vs]. *)
Lemma quantile_held (s : Sketch.t) (vs : list R) (q : R) :
  held s vs -> vs <> [] -> 0 <= q <= 1 ->
  exists x,
    In x vs
    /\ DataSet.quantile vs q = Ok x
    /\ get_quantile_value s q
       = Finite (answer m (counted_pos vs) (counted_neg vs) x).
Proof.
  intros Hs Hne Hq.
  exact (@quantile_answer alpha z m alpha_range mapping_built
           (counted_pos vs) (counted_neg vs)
           (counted_pos_monotone vs) (counted_neg_monotone vs)
           s vs q (held_holds_by Hs) Hne Hq).
Qed.

Lemma quantile_held_monotone (s : Sketch.t) (vs : list R) (q1 q2 : R) :
  held s vs -> vs <> [] -> 0 <= q1 -> q1 <= q2 -> q2 <= 1 ->
  exists y1 y2,
    get_quantile_value s q1 = Finite y1
    /\ get_quantile_value s q2 = Finite y2
    /\ y1 <= y2.
Proof.
  intros Hs Hne H1 H12 H2.
  exact (@quantile_answer_monotone alpha z m alpha_range mapping_built
           (counted_pos vs) (counted_neg vs)
           (counted_pos_monotone vs) (counted_neg_monotone vs)
           s vs q1 q2 (held_holds_by Hs) Hne H1 H12 H2).
Qed.

End Collapsing.

(** A new collapsing sketch has received no value. *)
Lemma adjust_bin_limit_pos (bin_limit : Z) : (0 < adjust_bin_limit bin_limit)%Z.
Proof.
  unfold adjust_bin_limit, kDefaultBinLimit.
  destruct (Z.leb_spec bin_limit 0); lia.
Qed.

Lemma new_collapsing_sketch (alpha : R) (bin_limit : Z) (s0 : Sketch.t)
    (inv : Store.t -> list Z -> Prop) :
  (forall b c : Z, (0 < b)%Z -> (0 < c)%Z ->
                   inv (Store.CollapsingDenseStore b c) []) ->
  LogCollapsingDenseDDSketch alpha bin_limit = Ok s0 ->
  LogarithmicMapping alpha (IZR 0) = Ok (mapping_ s0)
  /\ held (mapping_ s0) inv (adjust_bin_limit bin_limit) s0 [].
Proof.
  intros Hnew. unfold LogCollapsingDenseDDSketch.
  destruct (LogarithmicMapping alpha 0) as [m| |] eqn:Hm; try discriminate.
  simpl bind. intros E. inversion E; subst s0; clear E.
  cbn [mapping_ BaseDDSketch]. split; [reflexivity|].
  pose proof (adjust_bin_limit_pos bin_limit) as Hb.
  assert (I0 : inv (Store.CollapsingDenseStore (adjust_bin_limit bin_limit)
                      Store.kChunkSize) [])
    by (apply Hnew; [exact Hb|unfold Store.kChunkSize; lia]).
  unfold held. cbn [mapping_ store_ negative_store_ zero_count_
                      count_ sum_ BaseDDSketch count_if length].
  split; [reflexivity|]. split; [exact I0|]. split; [exact I0|].
  repeat split; reflexivity.
Qed.

(** The first key that a collapsing-lowest store with the limit [bl] keeps
    apart, and the last one for a collapsing-highest store. *)
Definition first_kept (bl : Z) (keys : list Z) : Z :=
  (LowestFacts.maximum keys - bl + 1)%Z.

Definition last_kept (bl : Z) (keys : list Z) : Z :=
  (HighestFacts.minimum keys + bl - 1)%Z.

Definition clamp_lowest (keys : list Z) (bl key : Z) : Z :=
  Z.max key (first_kept bl keys).

Definition clamp_highest (keys : list Z) (bl key : Z) : Z :=
  Z.min key (last_kept bl keys).

(** In the model.
    The accuracy of [LogCollapsingLowestDenseDDSketch],
    for every data set, every bin limit and every quantile: after the
    values have been added one by one to a new sketch, the answer to a
    quantile query is the value of the bucket under which the sketch counts
    the value [x] that the sorted data holds at that quantile, which is the
    bucket of [x] or, for a bucket that has been collapsed, the first
    bucket that the store keeps apart.  When the bucket of [x] is among the
    [bin_limit] highest ones, the answer is within the relative accuracy of
    [x].  The count and the sum are those of the data. *)
Theorem collapsing_lowest_sketch_quantile (alpha q : R) (bin_limit : Z)
    (values : list R) (s0 : Sketch.t) :
  0 < alpha < 1 ->
  LogCollapsingLowestDenseDDSketch alpha bin_limit = Ok s0 ->
  values <> [] ->
  Forall (storable (mapping_ s0)) values ->
  0 <= q <= 1 ->
  let m := mapping_ s0 in
  let bl := adjust_bin_limit bin_limit in
  exists s x y,
    SketchTest.add_values Store.CollapsingLowest s0 values = Ok s
    /\ DataSet.quantile values q = Ok x
    /\ get_quantile_value s q = Finite y
    /\ y = answer m
             (fun v => Z.max (key m v) (first_kept bl (pos_keys m values)))
             (fun v => Z.max (key m (- v))
                         (first_kept bl (neg_keys m values)))
             x
    /\ (admissible m x ->
        (is_pos m x = true ->
         (first_kept bl (pos_keys m values) <= key m x)%Z) ->
        (is_neg m x = true ->
         (first_kept bl (neg_keys m values) <= key m (- x))%Z) ->
        Rabs (y - x) <= alpha * Rabs x)
    /\ num_values s = IZR (DataSet.len values)
    /\ Sketch.sum s = DataSet.sum values.
Proof.
  intros Ha H0 Hne Hsto Hq m bl.
  destruct (@new_collapsing_sketch alpha bin_limit s0 LowestFacts.holds
              (@LowestFacts.holds_new) H0) as (Hm & R0).
  fold m bl in Hm, R0.
  assert (Hadd : forall (s : Store.t) (keys : list Z) (key : Z),
             LowestFacts.holds s keys -> is_index key ->
             exists s',
               Store.add Store.CollapsingLowest s key 1 = Ok s'
               /\ LowestFacts.holds s' (keys ++ [key])
               /\ Store.count_ s' = Store.count_ s + 1
               /\ Store.bin_limit_ s' = Store.bin_limit_ s)
    by (intros s keys key; apply LowestFacts.add_lowest_holds).
  destruct (@add_values_held m Store.CollapsingLowest LowestFacts.holds bl
              Hadd values s0 [] R0 Hsto) as (s & Hs & Rs).
  cbn [app] in Rs.
  destruct (@quantile_held alpha 0 m Ha Hm LowestFacts.holds clamp_lowest bl
              (fun s keys I K => LowestFacts.holds_clamped I K)
              ltac:(intros keys a b Hab; unfold clamp_lowest; lia)
              s values q Rs Hne Hq) as (x & Inx & Q & G).
  exists s, x, (answer m (counted_pos m clamp_lowest bl values)
                  (counted_neg m clamp_lowest bl values) x).
  split; [exact Hs|]. split; [exact Q|]. split; [exact G|].
  split; [reflexivity|]. split.
  - intros Adm Kp Kn.
    apply (@answer_accurate alpha 0 m Ha Hm); [exact Adm| |].
    + intros E. unfold counted_pos, clamp_lowest. specialize (Kp E). lia.
    + intros E. unfold counted_neg, clamp_lowest. specialize (Kn E). lia.
  - destruct Rs as (_ & _ & _ & _ & _ & _ & _ & Ct & Sm).
    unfold num_values, Sketch.sum, DataSet.len. now rewrite Ct, Sm.
Qed.

(** The collapsing sketch that [LogCollapsingLowestDenseDDSketch(0.01, 2)]
    and [LogCollapsingHighestDenseDDSketch(0.01, 2)] build. *)
Definition collapsing_sketch_0_01 : Sketch.t :=
  BaseDDSketch mapping_0_01 (Store.CollapsingDenseStore 2 Store.kChunkSize)
    (Store.CollapsingDenseStore 2 Store.kChunkSize).

Definition sample_values : list R := [1; 0; -1].

Lemma collapsing_sketch_0_01_built :
  LogCollapsingDenseDDSketch (1 / 100) 2 = Ok collapsing_sketch_0_01.
Proof.
  unfold LogCollapsingDenseDDSketch. rewrite mapping_0_01_built. reflexivity.
Qed.

Lemma collapsing_lowest_sketch_quantile_witness :
  exists s x y,
    SketchTest.add_values Store.CollapsingLowest collapsing_sketch_0_01
      sample_values = Ok s
    /\ DataSet.quantile sample_values (1 / 2) = Ok x
    /\ get_quantile_value s (1 / 2) = Finite y
    /\ y = answer mapping_0_01
             (fun v => Z.max (key mapping_0_01 v)
                         (first_kept 2 (pos_keys mapping_0_01 sample_values)))
             (fun v => Z.max (key mapping_0_01 (- v))
                         (first_kept 2
                            (neg_keys mapping_0_01 sample_values)))
             x
    /\ (admissible mapping_0_01 x ->
        (is_pos mapping_0_01 x = true ->
         (first_kept 2 (pos_keys mapping_0_01 sample_values)
          <= key mapping_0_01 x)%Z) ->
        (is_neg mapping_0_01 x = true ->
         (first_kept 2 (neg_keys mapping_0_01 sample_values)
          <= key mapping_0_01 (- x))%Z) ->
        Rabs (y - x) <= 1 / 100 * Rabs x)
    /\ num_values s = IZR (DataSet.len sample_values)
    /\ Sketch.sum s = DataSet.sum sample_values.
Proof.
  apply (@collapsing_lowest_sketch_quantile (1 / 100) (1 / 2) 2 sample_values
           collapsing_sketch_0_01).
  - lra.
  - exact collapsing_sketch_0_01_built.
  - discriminate.
  - exact (proj2 sample_values_ok).
  - lra.
Defined.

(** In the model.
    The accuracy of
    [LogCollapsingHighestDenseDDSketch], for every data set, every bin
    limit and every quantile: the answer to a quantile query is the value
    of the bucket under which the sketch counts the value [x] that the
    sorted data holds at that quantile, which is the bucket of [x] or, for
    a bucket that has been collapsed, the last bucket that the store keeps
    apart.  When the bucket of [x] is among the [bin_limit] lowest ones,
    the answer is within the relative accuracy of [x].  The count and the
    sum are those of the data. *)
Theorem collapsing_highest_sketch_quantile (alpha q : R) (bin_limit : Z)
    (values : list R) (s0 : Sketch.t) :
  0 < alpha < 1 ->
  LogCollapsingHighestDenseDDSketch alpha bin_limit = Ok s0 ->
  values <> [] ->
  Forall (storable (mapping_ s0)) values ->
  0 <= q <= 1 ->
  let m := mapping_ s0 in
  let bl := adjust_bin_limit bin_limit in
  exists s x y,
    SketchTest.add_values Store.CollapsingHighest s0 values = Ok s
    /\ DataSet.quantile values q = Ok x
    /\ get_quantile_value s q = Finite y
    /\ y = answer m
             (fun v => Z.min (key m v) (last_kept bl (pos_keys m values)))
             (fun v => Z.min (key m (- v))
                         (last_kept bl (neg_keys m values)))
             x
    /\ (admissible m x ->
        (is_pos m x = true ->
         (key m x <= last_kept bl (pos_keys m values))%Z) ->
        (is_neg m x = true ->
         (key m (- x) <= last_kept bl (neg_keys m values))%Z) ->
        Rabs (y - x) <= alpha * Rabs x)
    /\ num_values s = IZR (DataSet.len values)
    /\ Sketch.sum s = DataSet.sum values.
Proof.
  intros Ha H0 Hne Hsto Hq m bl.
  destruct (@new_collapsing_sketch alpha bin_limit s0 HighestFacts.holds_high
              (@HighestFacts.holds_high_new) H0) as (Hm & R0).
  fold m bl in Hm, R0.
  assert (Hadd : forall (s : Store.t) (keys : list Z) (key : Z),
             HighestFacts.holds_high s keys -> is_index key ->
             exists s',
               Store.add Store.CollapsingHighest s key 1 = Ok s'
               /\ HighestFacts.holds_high s' (keys ++ [key])
               /\ Store.count_ s' = Store.count_ s + 1
               /\ Store.bin_limit_ s' = Store.bin_limit_ s)
    by (intros s keys key; apply HighestFacts.add_highest_holds).
  destruct (@add_values_held m Store.CollapsingHighest
              HighestFacts.holds_high bl Hadd values s0 [] R0 Hsto)
    as (s & Hs & Rs).
  cbn [app] in Rs.
  destruct (@quantile_held alpha 0 m Ha Hm HighestFacts.holds_high
              clamp_highest bl
              (fun s keys I K => HighestFacts.holds_high_clamped I K)
              ltac:(intros keys a b Hab; unfold clamp_highest; lia)
              s values q Rs Hne Hq) as (x & Inx & Q & G).
  exists s, x, (answer m (counted_pos m clamp_highest bl values)
                  (counted_neg m clamp_highest bl values) x).
  split; [exact Hs|]. split; [exact Q|]. split; [exact G|].
  split; [reflexivity|]. split.
  - intros Adm Kp Kn.
    apply (@answer_accurate alpha 0 m Ha Hm); [exact Adm| |].
    + intros E. unfold counted_pos, clamp_highest. specialize (Kp E). lia.
    + intros E. unfold counted_neg, clamp_highest. specialize (Kn E). lia.
  - destruct Rs as (_ & _ & _ & _ & _ & _ & _ & Ct & Sm).
    unfold num_values, Sketch.sum, DataSet.len. now rewrite Ct, Sm.
Qed.

Lemma collapsing_highest_sketch_quantile_witness :
  exists s x y,
    SketchTest.add_values Store.CollapsingHighest collapsing_sketch_0_01
      sample_values = Ok s
    /\ DataSet.quantile sample_values (1 / 2) = Ok x
    /\ get_quantile_value s (1 / 2) = Finite y
    /\ y = answer mapping_0_01
             (fun v => Z.min (key mapping_0_01 v)
                         (last_kept 2 (pos_keys mapping_0_01 sample_values)))
             (fun v => Z.min (key mapping_0_01 (- v))
                         (last_kept 2
                            (neg_keys mapping_0_01 sample_values)))
             x
    /\ (admissible mapping_0_01 x ->
        (is_pos mapping_0_01 x = true ->
         (key mapping_0_01 x
          <= last_kept 2 (pos_keys mapping_0_01 sample_values))%Z) ->
        (is_neg mapping_0_01 x = true ->
         (key mapping_0_01 (- x)
          <= last_kept 2 (neg_keys mapping_0_01 sample_values))%Z) ->
        Rabs (y - x) <= 1 / 100 * Rabs x)
    /\ num_values s = IZR (DataSet.len sample_values)
    /\ Sketch.sum s = DataSet.sum sample_values.
Proof.
  apply (@collapsing_highest_sketch_quantile (1 / 100) (1 / 2) 2 sample_values
           collapsing_sketch_0_01).
  - lra.
  - exact collapsing_sketch_0_01_built.
  - discriminate.
  - exact (proj2 sample_values_ok).
  - lra.
Defined.

(** The constructor of the sketch that goes with a store kind. *)
Definition new_sketch (k : Store.kind) (alpha : R) (bin_limit : Z)
  : Sketch.M Sketch.t :=
  match k with
  | Store.Dense => DDSketch alpha
  | Store.CollapsingLowest => LogCollapsingLowestDenseDDSketch alpha bin_limit
  | Store.CollapsingHighest =>
      LogCollapsingHighestDenseDDSketch alpha bin_limit
  end.

(** In the model.
    The answers of a sketch do not decrease with the
    quantile, for each of the three sketches, every data set and every bin
    limit: after the values have been added one by one to a new sketch, a
    query at [q1] and a query at [q2 >= q1] both return a number, and the
    first is at most the second.  This holds for the collapsed buckets
    too. *)
Theorem quantiles_do_not_decrease (k : Store.kind) (alpha q1 q2 : R)
    (bin_limit : Z) (values : list R) (s0 : Sketch.t) :
  0 < alpha < 1 ->
  new_sketch k alpha bin_limit = Ok s0 ->
  values <> [] ->
  Forall (storable (mapping_ s0)) values ->
  0 <= q1 -> q1 <= q2 -> q2 <= 1 ->
  exists s y1 y2,
    SketchTest.add_values k s0 values = Ok s
    /\ get_quantile_value s q1 = Finite y1
    /\ get_quantile_value s q2 = Finite y2
    /\ y1 <= y2.
Proof.
  intros Ha H0 Hne Hsto H1 H12 H2.
  destruct k; cbn [new_sketch] in H0.
  - (* the dense sketch *)
    destruct (new_sketch_represents _ H0) as (Hm & R0).
    destruct (@add_values_represents (mapping_ s0) values s0 [] R0 Hsto)
      as (s & Hs & Rs).
    cbn [app] in Rs.
    pose proof (@min_possible_pos alpha 0 (mapping_ s0) Ha Hm) as Mp.
    destruct Rs as (Em & _ & _ & Cp & Cn & Nn & Zc & Ct & _).
    destruct (@quantile_answer_monotone alpha 0 (mapping_ s0) Ha Hm
                (key (mapping_ s0)) (fun v => key (mapping_ s0) (- v))
                ltac:(intros v w Hvw;
                      apply (@key_monotone alpha 0 (mapping_ s0) Ha Hm); lra)
                ltac:(intros v w Hvw;
                      apply (@key_monotone alpha 0 (mapping_ s0) Ha Hm); lra)
                s values q1 q2
                ltac:(repeat (split; [assumption|]); assumption)
                Hne H1 H12 H2) as (y1 & y2 & G).
    exists s, y1, y2. split; [exact Hs|exact G].
  - (* the collapsing-lowest sketch *)
    destruct (@new_collapsing_sketch alpha bin_limit s0 LowestFacts.holds
                (@LowestFacts.holds_new) H0) as (Hm & R0).
    destruct (@add_values_held (mapping_ s0) Store.CollapsingLowest
                LowestFacts.holds (adjust_bin_limit bin_limit)
                (fun s keys key => @LowestFacts.add_lowest_holds s keys key)
                values s0 [] R0 Hsto) as (s & Hs & Rs).
    cbn [app] in Rs.
    destruct (@quantile_held_monotone alpha 0 (mapping_ s0) Ha Hm
                LowestFacts.holds clamp_lowest (adjust_bin_limit bin_limit)
                (fun s keys I K => LowestFacts.holds_clamped I K)
                ltac:(intros keys a b Hab; unfold clamp_lowest; lia)
                s values q1 q2 Rs Hne H1 H12 H2) as (y1 & y2 & G).
    exists s, y1, y2. split; [exact Hs|exact G].
  - (* the collapsing-highest sketch *)
    destruct (@new_collapsing_sketch alpha bin_limit s0
                HighestFacts.holds_high (@HighestFacts.holds_high_new) H0)
      as (Hm & R0).
    destruct (@add_values_held (mapping_ s0) Store.CollapsingHighest
                HighestFacts.holds_high (adjust_bin_limit bin_limit)
                (fun s keys key => @HighestFacts.add_highest_holds s keys key)
                values s0 [] R0 Hsto) as (s & Hs & Rs).
    cbn [app] in Rs.
    destruct (@quantile_held_monotone alpha 0 (mapping_ s0) Ha Hm
                HighestFacts.holds_high clamp_highest
                (adjust_bin_limit bin_limit)
                (fun s keys I K => HighestFacts.holds_high_clamped I K)
                ltac:(intros keys a b Hab; unfold clamp_highest; lia)
                s values q1 q2 Rs Hne H1 H12 H2) as (y1 & y2 & G).
    exists s, y1, y2. split; [exact Hs|exact G].
Qed.

Lemma quantiles_do_not_decrease_witness :
  exists s y1 y2,
    SketchTest.add_values Store.CollapsingLowest collapsing_sketch_0_01
      sample_values = Ok s
    /\ get_quantile_value s (1 / 4) = Finite y1
    /\ get_quantile_value s (3 / 4) = Finite y2
    /\ y1 <= y2.
Proof.
  apply (@quantiles_do_not_decrease Store.CollapsingLowest (1 / 100)
           (1 / 4) (3 / 4) 2 sample_values collapsing_sketch_0_01).
  - lra.
  - exact collapsing_sketch_0_01_built.
  - discriminate.
  - exact (proj2 sample_values_ok).
  - lra.
  - lra.
  - lra.
Defined.

End CollapsingSketchFacts.

(** * The stores within the range of the machine types

    The theorems of this part are those that the test suite checks on a few
    inputs, stated for all inputs of a range in which the mathematical
    model and the program compute the same thing: keys, bin limits and chunk
    sizes of magnitude at most [2 ^ 20], so that no [Index] expression
    leaves the 64-bit integers, no [int] index is narrowed and the bins stay
    a few megabytes; fewer than [2 ^ 31] values, each added with the weight
    1, so that every counter is a whole number below [2 ^ 53] and its
    [double] is exact, and the [int] sum of [Counter] does not overflow. *)

Module StoreRangeFacts.

Import BinList Store DenseFacts ContentFacts CountFacts.
Local Open Scope Z_scope.

(** A key, bin limit or chunk size of magnitude at most [2 ^ 20]. *)
Definition small (k : Z) : Prop := - 2 ^ 20 <= k <= 2 ^ 20.

(** A list with fewer than [2 ^ 31] elements. *)
Definition few (A : Type) (values : list A) : Prop :=
  Z.of_nat (List.length values) < 2 ^ 31.

Lemma small_is_index (k : Z) : small k -> is_index k.
Proof. unfold small, is_index, INT64_MIN, INT64_MAX. lia. Qed.

Lemma small_are_indices (values : list Z) :
  Forall small values -> Forall is_index values.
Proof. apply Forall_impl. exact small_is_index. Qed.

Lemma occurrences_app (values others : list Z) (K : Z) :
  occurrences (values ++ others) K
  = occurrences values K + occurrences others K.
Proof. unfold occurrences. rewrite count_occ_app. lia. Qed.

(** X3. [DenseStoreTest::test_store] passes on every list of fewer than
    [2 ^ 31] keys of magnitude at most [2 ^ 20], not only on the lists of
    the tests: after the loop of [add] calls on a new [DenseStore] the bins
    sum to the number of values, [has_only_zeros] tells whether the list
    was empty, and every bin that is not zero holds the number of
    occurrences of its key. *)
Theorem dense_test_store_passes_in_range (values : list Z) :
  Forall small values -> few values ->
  StoreTest.test_store values = Ok true.
Proof.
  intros S _. apply dense_test_store_passes. now apply small_are_indices.
Qed.

Lemma dense_test_store_passes_in_range_witness :
  StoreTest.test_store [4; 10; 100; 10] = Ok true.
Proof.
  apply (@dense_test_store_passes_in_range [4; 10; 100; 10]).
  - repeat constructor; unfold small; lia.
  - unfold few. simpl. lia.
Defined.

(** X4. [merge] on dense stores is equivalent to replaying the [add] calls
    of the other store, as the comment of [BaseStore::merge] promises.  For
    two lists of keys of magnitude at most [2 ^ 20], fewer than [2 ^ 31]
    together: filling two new stores from the lists and merging the second
    into the first fails nowhere, and the merged store has the count and,
    key by key, the weights of the store filled from the first list followed
    by the second, which are the numbers of occurrences of the keys. *)
Theorem merge_dense_replays_the_adds (values others : list Z) :
  Forall small values -> Forall small others -> few (values ++ others) ->
  exists a b s r,
    StoreTest.add_values Dense DenseStore values = Ok a
    /\ StoreTest.add_values Dense DenseStore others = Ok b
    /\ merge Dense a b = Ok s
    /\ StoreTest.add_values Dense DenseStore (values ++ others) = Ok r
    /\ count s = count r
    /\ count s = IZR (Z.of_nat (List.length (values ++ others)))
    /\ forall K,
         weight_at s K = weight_at r K
         /\ weight_at s K = IZR (occurrences (values ++ others) K).
Proof.
  intros S1 S2 _.
  apply small_are_indices in S1, S2.
  assert (I : Forall is_index (values ++ others))
    by (apply Forall_app; split; assumption).
  assert (W0 : wf DenseStore) by (apply wf_new; unfold kChunkSize; lia).
  assert (B0 : built DenseStore)
    by (apply built_new; unfold kChunkSize; lia).
  destruct (@add_values_dense values DenseStore W0 S1)
    as (a & Ha & _ & Ca & _ & Wa).
  destruct (@add_values_dense others DenseStore W0 S2)
    as (b & Hb & _ & Cb & _ & Wb).
  destruct (@add_values_dense (values ++ others) DenseStore W0 I)
    as (r & Hr & _ & Cr & _ & Wr).
  pose proof (@built_add_values values DenseStore a B0 S1 Ha) as Ba.
  pose proof (@built_add_values others DenseStore b B0 S2 Hb) as Bb.
  destruct (merge_dense_adds_the_bins Ba Bb) as (s & Hs & Cs & Ws).
  exists a, b, s, r.
  repeat (split; [assumption|]).
  assert (C0 : count_ DenseStore = 0%R) by reflexivity.
  assert (Len : IZR (Z.of_nat (List.length (values ++ others)))
                = (IZR (Z.of_nat (List.length values))
                   + IZR (Z.of_nat (List.length others)))%R).
  { rewrite length_app, Nat2Z.inj_add, plus_IZR. reflexivity. }
  unfold count in *.
  split; [rewrite Cs, Ca, Cb, Cr, Len, C0; lra|].
  split; [rewrite Cs, Ca, Cb, Len, C0; lra|].
  intros K. rewrite Ws, Wa, Wb, Wr, occurrences_app, plus_IZR.
  unfold DenseStore. rewrite weight_at_new. split; lra.
Qed.

Lemma merge_dense_replays_the_adds_witness :
  exists a b s r,
    StoreTest.add_values Dense DenseStore [4; 10] = Ok a
    /\ StoreTest.add_values Dense DenseStore [10; 12] = Ok b
    /\ merge Dense a b = Ok s
    /\ StoreTest.add_values Dense DenseStore ([4; 10] ++ [10; 12]) = Ok r
    /\ count s = count r
    /\ count s = IZR (Z.of_nat (List.length ([4; 10] ++ [10; 12])))
    /\ forall K,
         weight_at s K = weight_at r K
         /\ weight_at s K = IZR (occurrences ([4; 10] ++ [10; 12]) K).
Proof.
  apply (@merge_dense_replays_the_adds [4; 10] [10; 12]).
  - repeat constructor; unfold small; lia.
  - repeat constructor; unfold small; lia.
  - unfold few. simpl. lia.
Defined.

(** X14. The keys of a collapsing-lowest store after a sequence of [add]
    calls on a new store, for keys, a bin limit and a chunk size of
    magnitude at most [2 ^ 20] and fewer than [2 ^ 31] keys: no call fails,
    the store never has more bins than [bin_limit], the count is the number
    of keys, [max_key] is the greatest key, and the weight of a key [K] is
    the number of added keys [v] with [max(v, m - bin_limit + 1) = K],
    where [m] is the greatest added key.  The keys that are too small for
    the window are thus counted in its first bin, and no other key
    moves. *)
Theorem lowest_store_clamps_the_keys (bin_limit chunk_size : Z)
    (values : list Z) :
  0 < bin_limit <= 2 ^ 20 -> 0 < chunk_size <= 2 ^ 20 ->
  Forall small values -> few values ->
  exists s,
    StoreTest.add_values CollapsingLowest
      (CollapsingDenseStore bin_limit chunk_size) values = Ok s
    /\ length s <= bin_limit
    /\ count_ s = IZR (Z.of_nat (List.length values))
    /\ max_key_ s = LowestFacts.maximum values
    /\ forall K,
         weight_at s K
         = IZR (count_if
                  (fun v =>
                     Z.max v (LowestFacts.maximum values - bin_limit + 1)
                     =? K)
                  values).
Proof.
  intros Hb Hc S _.
  apply LowestFacts.lowest_store_counts_the_clamped_keys;
    [lia|lia|now apply small_are_indices].
Qed.

Lemma lowest_store_clamps_the_keys_witness :
  exists s,
    StoreTest.add_values CollapsingLowest (CollapsingDenseStore 2 128)
      [5; 1; 7; 2] = Ok s
    /\ length s <= 2
    /\ count_ s = IZR (Z.of_nat (List.length [5; 1; 7; 2]))
    /\ max_key_ s = LowestFacts.maximum [5; 1; 7; 2]
    /\ forall K,
         weight_at s K
         = IZR (count_if
                  (fun v =>
                     Z.max v (LowestFacts.maximum [5; 1; 7; 2] - 2 + 1) =? K)
                  [5; 1; 7; 2]).
Proof.
  apply (@lowest_store_clamps_the_keys 2 128 [5; 1; 7; 2]).
  - lia.
  - lia.
  - repeat constructor; unfold small; lia.
  - unfold few. simpl. lia.
Defined.

(** X15. [CollapsingLowestDenseStoreTest::test_store] passes on every list
    of fewer than [2 ^ 31] keys of magnitude at most [2 ^ 20], and so does
    the body of its loop for every bin limit from 1 to [2 ^ 20], not only
    for the three limits of the test: the bins sum to the number of values,
    [has_only_zeros] tells whether the list was empty, and every bin that
    is not zero holds the number of values that [normalize_smaller_values]
    sends to its key. *)
Theorem lowest_test_store_passes_in_range (values : list Z) :
  Forall small values -> few values ->
  (forall bin_limit : Z,
      0 < bin_limit <= 2 ^ 20 ->
      CollapsingLowestDenseStoreTest.test_store_with bin_limit values
      = Ok true)
  /\ CollapsingLowestDenseStoreTest.test_store values = Ok true.
Proof.
  intros S _.
  destruct (@LowestFacts.lowest_test_store_passes values
              (small_are_indices S)) as (P & T).
  split; [|exact T]. intros bin_limit Hb. apply P. lia.
Qed.

Lemma lowest_test_store_passes_in_range_witness :
  (forall bin_limit : Z,
      0 < bin_limit <= 2 ^ 20 ->
      CollapsingLowestDenseStoreTest.test_store_with bin_limit [4; 10; 100; 10]
      = Ok true)
  /\ CollapsingLowestDenseStoreTest.test_store [4; 10; 100; 10] = Ok true.
Proof.
  apply (@lowest_test_store_passes_in_range [4; 10; 100; 10]).
  - repeat constructor; unfold small; lia.
  - unfold few. simpl. lia.
Defined.

(** X16. The keys of a collapsing-highest store after a sequence of [add]
    calls on a new store, for keys, a bin limit and a chunk size of
    magnitude at most [2 ^ 20] and fewer than [2 ^ 31] keys: no call fails,
    the store never has more bins than [bin_limit], the count is the number
    of keys, [min_key] is the least key, and the weight of a key [K] is the
    number of added keys [v] with [min(v, m + bin_limit - 1) = K], where
    [m] is the least added key.  The keys that are too great for the window
    are thus counted in its last bin, and no other key moves. *)
Theorem highest_store_clamps_the_keys (bin_limit chunk_size : Z)
    (values : list Z) :
  0 < bin_limit <= 2 ^ 20 -> 0 < chunk_size <= 2 ^ 20 ->
  Forall small values -> few values ->
  exists s,
    StoreTest.add_values CollapsingHighest
      (CollapsingDenseStore bin_limit chunk_size) values = Ok s
    /\ length s <= bin_limit
    /\ count_ s = IZR (Z.of_nat (List.length values))
    /\ min_key_ s = HighestFacts.minimum values
    /\ forall K,
         weight_at s K
         = IZR (count_if
                  (fun v =>
                     Z.min v (HighestFacts.minimum values + bin_limit - 1)
                     =? K)
                  values).
Proof.
  intros Hb Hc S _.
  apply HighestFacts.highest_store_counts_the_clamped_keys;
    [lia|lia|now apply small_are_indices].
Qed.

Lemma highest_store_clamps_the_keys_witness :
  exists s,
    StoreTest.add_values CollapsingHighest (CollapsingDenseStore 2 128)
      [5; 1; 7; 2] = Ok s
    /\ length s <= 2
    /\ count_ s = IZR (Z.of_nat (List.length [5; 1; 7; 2]))
    /\ min_key_ s = HighestFacts.minimum [5; 1; 7; 2]
    /\ forall K,
         weight_at s K
         = IZR (count_if
                  (fun v =>
                     Z.min v (HighestFacts.minimum [5; 1; 7; 2] + 2 - 1) =? K)
                  [5; 1; 7; 2]).
Proof.
  apply (@highest_store_clamps_the_keys 2 128 [5; 1; 7; 2]).
  - lia.
  - lia.
  - repeat constructor; unfold small; lia.
  - unfold few. simpl. lia.
Defined.

(** X17. [CollapsingHighestDenseStoreTest::test_store] passes on every list
    of fewer than [2 ^ 31] keys of magnitude at most [2 ^ 20], and so does
    the body of its loop for every bin limit from 1 to [2 ^ 20], not only
    for the limit 20 of the test: the bins sum to the number of values,
    [has_only_zeros] tells whether the list was empty, and every bin that
    is not zero holds the number of values that [normalize_bigger_values]
    sends to its key. *)
Theorem highest_test_store_passes_in_range (values : list Z) :
  Forall small values -> few values ->
  (forall bin_limit : Z,
      0 < bin_limit <= 2 ^ 20 ->
      CollapsingHighestDenseStoreTest.test_store_with bin_limit values
      = Ok true)
  /\ CollapsingHighestDenseStoreTest.test_store values = Ok true.
Proof.
  intros S _.
  destruct (@HighestFacts.highest_test_store_passes values
              (small_are_indices S)) as (P & T).
  split; [|exact T]. intros bin_limit Hb. apply P. lia.
Qed.

Lemma highest_test_store_passes_in_range_witness :
  (forall bin_limit : Z,
      0 < bin_limit <= 2 ^ 20 ->
      CollapsingHighestDenseStoreTest.test_store_with bin_limit
        [4; 10; 100; 10] = Ok true)
  /\ CollapsingHighestDenseStoreTest.test_store [4; 10; 100; 10] = Ok true.
Proof.
  apply (@highest_test_store_passes_in_range [4; 10; 100; 10]).
  - repeat constructor; unfold small; lia.
  - unfold few. simpl. lia.
Defined.

End StoreRangeFacts.

(** * The mappings within the range of binary64

    The model computes [key] and [value] with real numbers; the program
    rounds each operation to binary64.  The theorems of this part keep to
    the inputs on which rounding cannot change what they state:
    - a relative accuracy between 10^-6 and 0.9 and an integer offset of
      magnitude at most [2 ^ 31], so that the keys lie within 32 bits, the
      sum [ceil(log_gamma(v)) + offset] and the difference [key - offset]
      are whole numbers below [2 ^ 53] and the offset cancels exactly;
    - a value between [min_possible] and half of [max_possible], so that
      neither the value nor the power of gamma above it overflows;
    - a bound that leaves a margin of 10^-9 around the quantity the model
      computes exactly.  The relative error of one operation of binary64 is
      at most 2^-53, about 1.1 * 10^-16, and the logarithm of a finite
      [double] is below 710 in magnitude, so the rounding of [log_gamma],
      [pow_gamma] and the products moves the result by a relative 10^-12 at
      most; the proofs are about the model and do not derive the margin,
      which is an allowance with three orders of magnitude to spare. *)

Module MappingRangeFacts.

Import Mapping.
Local Open Scope R_scope.

(** The allowance for rounding. *)
Definition margin : R := / 10 ^ 9.

(** The relative accuracies and the offsets of the range. *)
Definition accuracy_in_range (alpha : R) : Prop :=
  1 / 1000000 <= alpha <= 9 / 10.

Definition offset_in_range (z : Z) : Prop := (- 2 ^ 31 <= z <= 2 ^ 31)%Z.

(** The values that the mapping [m] sends to a key and back without
    leaving the finite numbers. *)
Definition value_in_range (m : Mapping.t) (v : R) : Prop :=
  min_possible m <= v <= max_possible m / 2.

Lemma margin_pos : 0 < margin < 1.
Proof.
  unfold margin.
  assert (P : 1 < 10 ^ 9) by (simpl; lra).
  split; [apply Rinv_0_lt_compat; lra|].
  rewrite <- Rinv_1. apply Rinv_lt_contravar; lra.
Qed.

Lemma accuracy_in_range_open (alpha : R) :
  accuracy_in_range alpha -> 0 < alpha < 1.
Proof. unfold accuracy_in_range. lra. Qed.

Lemma min_possible_positive (k : kind) (alpha offset : R) (m : Mapping.t) :
  0 < alpha < 1 -> KeyMapping k alpha offset = Ok m -> 0 < min_possible m.
Proof.
  intros Ha Hm.
  destruct (@MappingFacts.KeyMapping_ok k alpha offset Ha)
    as (m' & Hm' & _ & _ & _ & G & Mi & _).
  rewrite Hm in Hm'. inversion Hm'; subst m'; clear Hm'.
  unfold min_possible. rewrite Mi, G.
  assert (0 < 2 * alpha / (1 - alpha)) by (apply Rdiv_lt_0_compat; lra).
  pose proof DBL_MIN_bounds. nra.
Qed.

Lemma DBL_MIN_small : DBL_MIN <= 1 / 8.
Proof.
  unfold DBL_MIN.
  change (2 ^ 1022) with (2 * (2 * (2 * 2 ^ 1019))).
  pose proof (pow2_ge_1 1019) as H.
  replace (1 / 8) with (/ 8) by lra.
  apply Rinv_le_contravar; lra.
Qed.

Lemma DBL_MAX_large : 32 <= DBL_MAX.
Proof.
  unfold DBL_MAX.
  change (2 ^ 1023) with (2 * (2 * (2 * (2 * (2 * 2 ^ 1018))))).
  pose proof (pow2_ge_1 1018) as H.
  pose proof (pow2_ge_1 52) as H52.
  assert (I : 0 < / 2 ^ 52 <= 1).
  { split; [apply Rinv_0_lt_compat; lra|].
    rewrite <- Rinv_1. apply Rinv_le_contravar; lra. }
  nra.
Qed.

(** With the accuracy 0.01, whatever the kind and the offset, the numbers
    from 1 to 4 are values of the range. *)
Lemma value_in_range_0_01 (k : kind) (offset v : R) (m : Mapping.t) :
  KeyMapping k (1 / 100) offset = Ok m ->
  1 <= v <= 4 -> value_in_range m v.
Proof.
  intros Hm Hv.
  assert (Ha : 0 < 1 / 100 < 1) by lra.
  destruct (@MappingFacts.KeyMapping_ok k (1 / 100) offset Ha)
    as (m' & Hm' & _ & _ & _ & G & Mi & Ma & _).
  rewrite Hm in Hm'. inversion Hm'; subst m'; clear Hm'.
  unfold value_in_range, min_possible, max_possible. rewrite Mi, Ma, G.
  set (g := 1 + 2 * (1 / 100) / (1 - 1 / 100)).
  assert (Hg : 1 < g < 2) by (unfold g; lra).
  pose proof DBL_MIN_small. pose proof DBL_MIN_bounds.
  pose proof DBL_MAX_large.
  split; [nra|].
  apply Rmult_le_reg_r with (r := 2 * g); [lra|].
  replace (DBL_MAX / g / 2 * (2 * g)) with DBL_MAX by (field; lra). nra.
Qed.

(** From the relative error of the model to the bound with the margin. *)
Lemma with_margin (alpha y v : R) :
  0 < v -> Rabs (y - v) / v <= alpha ->
  Rabs (y - v) <= (alpha + margin) * v.
Proof.
  intros Hv H. pose proof margin_pos as Mp.
  apply Rmult_le_compat_r with (r := v) in H; [|lra].
  unfold Rdiv in H. rewrite Rmult_assoc, Rinv_l, Rmult_1_r in H by lra.
  nra.
Qed.

(** X7. The logarithmic mapping, with a relative accuracy [alpha] between
    10^-6 and 0.9 and an integer offset of magnitude at most [2 ^ 31] (the
    constructors of the sketches use the offset 0): the value of the key
    of every [v] between [min_possible] and half of [max_possible] differs
    from [v] by at most [(alpha + 10^-9) * v]. *)
Theorem logarithmic_round_trip_in_range (alpha v : R) (z : Z)
    (m : Mapping.t) :
  accuracy_in_range alpha -> offset_in_range z ->
  LogarithmicMapping alpha (IZR z) = Ok m ->
  value_in_range m v ->
  Rabs (value m (key m v) - v) <= (alpha + margin) * v.
Proof.
  intros Ha _ Hm Hv. apply accuracy_in_range_open in Ha.
  pose proof (@min_possible_positive _ _ _ _ Ha Hm) as Mp.
  destruct Hv as (V1 & V2).
  apply with_margin; [lra|].
  apply (@MappingFacts.round_trip_integer_offset alpha (IZR z) m Ha Hm z v
           eq_refl).
  lra.
Qed.

Lemma logarithmic_round_trip_in_range_witness :
  Rabs (value QuantileFacts.mapping_0_01 (key QuantileFacts.mapping_0_01 3)
        - 3)
  <= (1 / 100 + margin) * 3.
Proof.
  apply (@logarithmic_round_trip_in_range (1 / 100) 3 0
           QuantileFacts.mapping_0_01).
  - unfold accuracy_in_range. lra.
  - unfold offset_in_range. lia.
  - exact QuantileFacts.mapping_0_01_built.
  - apply (@value_in_range_0_01 Logarithmic 0);
      [exact QuantileFacts.mapping_0_01_built|lra].
Defined.

(** X5. The linearly interpolated mapping, with a relative accuracy
    [alpha] between 10^-6 and 0.9 and an integer offset of magnitude at
    most [2 ^ 31]: the value of the key of every [v] between
    [min_possible] and half of [max_possible] differs from [v] by at most
    [(alpha + 10^-9) * v]. *)
Theorem linear_round_trip_in_range (alpha v : R) (z : Z) (m : Mapping.t) :
  accuracy_in_range alpha -> offset_in_range z ->
  LinearlyInterpolatedMapping alpha (IZR z) = Ok m ->
  value_in_range m v ->
  Rabs (value m (key m v) - v) <= (alpha + margin) * v.
Proof.
  intros Ha _ Hm Hv. apply accuracy_in_range_open in Ha.
  pose proof (@min_possible_positive _ _ _ _ Ha Hm) as Mp.
  destruct Hv as (V1 & V2).
  apply with_margin; [lra|].
  apply (@LinearFacts.linear_round_trip alpha v z m Ha Hm). lra.
Qed.

Lemma linear_round_trip_in_range_witness :
  Rabs (value LinearFacts.linear_mapping_0_01
          (key LinearFacts.linear_mapping_0_01 3) - 3)
  <= (1 / 100 + margin) * 3.
Proof.
  apply (@linear_round_trip_in_range (1 / 100) 3 0
           LinearFacts.linear_mapping_0_01).
  - unfold accuracy_in_range. lra.
  - unfold offset_in_range. lia.
  - exact LinearFacts.linear_mapping_0_01_built.
  - apply (@value_in_range_0_01 LinearlyInterpolated 0);
      [exact LinearFacts.linear_mapping_0_01_built|lra].
Defined.

(** X6. The cubically interpolated mapping, with a relative accuracy
    [alpha] between 10^-6 and 0.9 and an integer offset of magnitude at
    most [2 ^ 31]: the value of the key of every [v] between
    [min_possible] and half of [max_possible] differs from [v] by at most
    [(alpha + 10^-9) * v].  The cubic polynomial with the constants [A],
    [B] and [C] grows at least [C] times as fast as the natural logarithm,
    which is what dividing the multiplier by [C] needs. *)
Theorem cubic_round_trip_in_range (alpha v : R) (z : Z) (m : Mapping.t) :
  accuracy_in_range alpha -> offset_in_range z ->
  CubicallyInterpolatedMapping alpha (IZR z) = Ok m ->
  value_in_range m v ->
  Rabs (value m (key m v) - v) <= (alpha + margin) * v.
Proof.
  intros Ha _ Hm Hv. apply accuracy_in_range_open in Ha.
  pose proof (@min_possible_positive _ _ _ _ Ha Hm) as Mp.
  destruct Hv as (V1 & V2).
  apply with_margin; [lra|].
  apply (@CubicFacts.cubic_round_trip alpha v z m Ha Hm). lra.
Qed.

Lemma cubic_round_trip_in_range_witness :
  Rabs (value CubicFacts.cubic_mapping_0_01
          (key CubicFacts.cubic_mapping_0_01 3) - 3)
  <= (1 / 100 + margin) * 3.
Proof.
  apply (@cubic_round_trip_in_range (1 / 100) 3 0
           CubicFacts.cubic_mapping_0_01).
  - unfold accuracy_in_range. lra.
  - unfold offset_in_range. lia.
  - exact CubicFacts.cubic_mapping_0_01_built.
  - apply (@value_in_range_0_01 CubicallyInterpolated 0);
      [exact CubicFacts.cubic_mapping_0_01_built|lra].
Defined.



(** X11. In a linearly interpolated mapping [pow_gamma] undoes
    [log_gamma], as the comment on [exp2_approx] says: for a relative
    accuracy between 10^-6 and 0.9, any offset and every [v] of the range,
    [pow_gamma(log_gamma(v))] differs from [v] by at most [10^-9 * v] (in
    the model the two are equal). *)
Theorem linear_pow_gamma_undoes_log_gamma (alpha offset v : R)
    (m : Mapping.t) :
  accuracy_in_range alpha ->
  LinearlyInterpolatedMapping alpha offset = Ok m ->
  value_in_range m v ->
  Rabs (pow_gamma m (log_gamma m v) - v) <= margin * v.
Proof.
  intros Ha Hm Hv. apply accuracy_in_range_open in Ha.
  pose proof (@min_possible_positive _ _ _ _ Ha Hm) as Mp.
  pose proof margin_pos as Mg.
  destruct Hv as (V1 & V2).
  destruct (@LinearFacts.linear_pow_gamma_inverts_log_gamma alpha offset m
              Ha Hm) as (I & _).
  rewrite I by lra. rewrite Rminus_diag, Rabs_R0. nra.
Qed.

Lemma linear_pow_gamma_undoes_log_gamma_witness :
  Rabs (pow_gamma LinearFacts.linear_mapping_0_01
          (log_gamma LinearFacts.linear_mapping_0_01 3) - 3)
  <= margin * 3.
Proof.
  apply (@linear_pow_gamma_undoes_log_gamma (1 / 100) 0 3
           LinearFacts.linear_mapping_0_01).
  - unfold accuracy_in_range. lra.
  - exact LinearFacts.linear_mapping_0_01_built.
  - apply (@value_in_range_0_01 LinearlyInterpolated 0);
      [exact LinearFacts.linear_mapping_0_01_built|lra].
Defined.

(** X12. In a cubically interpolated mapping [pow_gamma], which solves the
    cubic of [cubic_log2_approx] by Cardano's formula, undoes [log_gamma]:
    for a relative accuracy between 10^-6 and 0.9, any offset and every [v]
    of the range, [pow_gamma(log_gamma(v))] differs from [v] by at most
    [10^-9 * v] (in the model the two are equal). *)
Theorem cubic_pow_gamma_undoes_log_gamma (alpha offset v : R)
    (m : Mapping.t) :
  accuracy_in_range alpha ->
  CubicallyInterpolatedMapping alpha offset = Ok m ->
  value_in_range m v ->
  Rabs (pow_gamma m (log_gamma m v) - v) <= margin * v.
Proof.
  intros Ha Hm Hv. apply accuracy_in_range_open in Ha.
  pose proof (@min_possible_positive _ _ _ _ Ha Hm) as Mp.
  pose proof margin_pos as Mg.
  destruct Hv as (V1 & V2).
  destruct (@CubicFacts.cubic_pow_gamma_inverts_log_gamma alpha offset m
              Ha Hm) as (I & _).
  rewrite I by lra. rewrite Rminus_diag, Rabs_R0. nra.
Qed.

Lemma cubic_pow_gamma_undoes_log_gamma_witness :
  Rabs (pow_gamma CubicFacts.cubic_mapping_0_01
          (log_gamma CubicFacts.cubic_mapping_0_01 3) - 3)
  <= margin * 3.
Proof.
  apply (@cubic_pow_gamma_undoes_log_gamma (1 / 100) 0 3
           CubicFacts.cubic_mapping_0_01).
  - unfold accuracy_in_range. lra.
  - exact CubicFacts.cubic_mapping_0_01_built.
  - apply (@value_in_range_0_01 CubicallyInterpolated 0);
      [exact CubicFacts.cubic_mapping_0_01_built|lra].
Defined.

End MappingRangeFacts.

(** * The sketches within the range of the machine types

    The accuracy of the quantiles, for the data on which the program and
    the model agree: values that are 0 or of a magnitude between twice
    [min_possible] and half of [max_possible], whose keys have a magnitude
    of at most [2 ^ 20]; fewer than [2 ^ 31] of them; a relative accuracy
    between 10^-6 and 0.9; and the margin of 10^-9 of the mappings.

    The theorems on the accuracy are about data without negative values.
    For a negative value [get_quantile_value] computes
    [negative_store_.count() - rank - 1] and the store compares the running
    count with that number plus one; both sums are rounded, the rank that
    the store uses can differ from the rank of [DataSet::quantile], and the
    program can answer with the neighbour of the value that the model
    returns.  The branch of the values above [min_possible] subtracts whole
    numbers from the rank, which is exact. *)

Module SketchRangeFacts.

Import CountFacts ContentFacts DenseFacts.
Import Mapping Sketch QuantileFacts CollapsingSketchFacts.
Import StoreRangeFacts MappingRangeFacts.
Local Open Scope R_scope.

(** The values of the range of the mapping [m]. *)
Definition in_range (m : Mapping.t) (v : R) : Prop :=
  v = 0
  \/ (2 * min_possible m <= Rabs v <= max_possible m / 2
      /\ small (key m (Rabs v))).

Definition nonnegative (values : list R) : Prop :=
  Forall (fun v => 0 <= v) values.

Section InRange.

Variables (alpha : R) (m : Mapping.t).
Hypothesis alpha_range : 0 < alpha < 1.
Hypothesis mapping_built : LogarithmicMapping alpha (IZR 0) = Ok m.

Lemma in_range_admissible (v : R) : in_range m v -> admissible m v.
Proof.
  pose proof (@min_possible_pos alpha 0 m alpha_range mapping_built) as Mp.
  intros [E|((L & _) & _)]; [now left|right; lra].
Qed.

Lemma in_range_storable (v : R) : in_range m v -> storable m v.
Proof.
  pose proof (@min_possible_pos alpha 0 m alpha_range mapping_built) as Mp.
  intros H. split; intros T.
  - apply Rgtb_true in T.
    destruct H as [E|(_ & S)]; [lra|].
    rewrite Rabs_right in S by lra. now apply small_is_index.
  - unfold is_neg in T. apply andb_true_iff in T. destruct T as (_ & T).
    apply Rltb'_true in T.
    destruct H as [E|(_ & S)]; [lra|].
    rewrite Rabs_left in S by lra. now apply small_is_index.
Qed.

Lemma in_range_all (values : list R) :
  Forall (in_range m) values ->
  Forall (admissible m) values /\ Forall (storable m) values.
Proof.
  intros H. split; (eapply Forall_impl; [|exact H]); intros v Hv.
  - now apply in_range_admissible.
  - now apply in_range_storable.
Qed.


Lemma widen (y x : R) :
  Rabs (y - x) <= alpha * Rabs x -> Rabs (y - x) <= (alpha + margin) * Rabs x.
Proof.
  intros H. pose proof margin_pos as Mg. pose proof (Rabs_pos x). nra.
Qed.

End InRange.

(** A sample without negative values. *)
Definition sample_nonnegative : list R := [1; 0; 1].

(** The values 1, 0 and -1 are in the range of the mapping of
    [DDSketch(0.01)]. *)
Lemma sample_in_range :
  Forall (in_range mapping_0_01) sample_values
  /\ Forall (in_range mapping_0_01) sample_nonnegative.
Proof.
  assert (K1 : key mapping_0_01 1 = 0%Z).
  { rewrite MappingFacts.key_1. apply (Rtrunc_IZR 0). }
  assert (V : 2 * min_possible mapping_0_01 <= 1
              <= max_possible mapping_0_01 / 2).
  { destruct (@value_in_range_0_01 Logarithmic 0 1 mapping_0_01
                mapping_0_01_built ltac:(lra)) as (_ & V2).
    split; [|exact V2].
    unfold min_possible, mapping_0_01. simpl.
    pose proof DBL_MIN_small. pose proof DBL_MIN_bounds.
    set (g := 1 + 2 * (1 / 100) / (1 - 1 / 100)).
    assert (Hg : 1 < g < 2) by (unfold g; lra). nra. }
  assert (I1 : in_range mapping_0_01 1).
  { right. rewrite Rabs_R1, K1. split; [exact V|]. unfold small. lia. }
  assert (I0 : in_range mapping_0_01 0) by now left.
  assert (I2 : in_range mapping_0_01 (-1)).
  { right. replace (Rabs (-1)) with 1
      by (replace (-1) with (- (1)) by lra; now rewrite Rabs_Ropp, Rabs_R1).
    rewrite K1. split; [exact V|]. unfold small. lia. }
  split; repeat (apply Forall_cons; [assumption|]); apply Forall_nil.
Qed.

(** X1. The accuracy test of [BaseDDSketchTest], for every data set of the
    range without negative values: after the values have been added one by
    one to a new [DDSketch], none of the calls fails, the sketch answers
    every quantile query [q] with a number [y] such that
    [|y - x| <= (alpha + 10^-9) * |x|], where [x] is the value that the
    sorted data holds at that quantile, and its count and its sum are those
    of the data. *)
Theorem ddsketch_accuracy_on_nonnegative_data (alpha q : R)
    (values : list R) (s0 : Sketch.t) :
  accuracy_in_range alpha ->
  DDSketch alpha = Ok s0 ->
  values <> [] -> few values ->
  Forall (in_range (mapping_ s0)) values -> nonnegative values ->
  0 <= q <= 1 ->
  exists s x y,
    SketchTest.add_values Store.Dense s0 values = Ok s
    /\ DataSet.quantile values q = Ok x
    /\ get_quantile_value s q = Finite y
    /\ Rabs (y - x) <= (alpha + margin) * Rabs x
    /\ num_values s = IZR (DataSet.len values)
    /\ Sketch.sum s = DataSet.sum values.
Proof.
  intros Har H0 Hne _ Hin _ Hq.
  pose proof (accuracy_in_range_open Har) as Ha.
  destruct (new_sketch_represents _ H0) as (Hm & _).
  destruct (in_range_all Ha Hm Hin) as (Hadm & Hsto).
  destruct (@ddsketch_quantile_accuracy alpha q values s0 Ha H0 Hne Hadm
              Hsto Hq) as (s & x & y & Hs & Q & G & E & N & S & _).
  exists s, x, y. repeat (split; [assumption|]).
  split; [now apply widen|]. split; assumption.
Qed.

Lemma ddsketch_accuracy_on_nonnegative_data_witness :
  exists s x y,
    SketchTest.add_values Store.Dense sketch_0_01 [1; 0; 1] = Ok s
    /\ DataSet.quantile [1; 0; 1] (1 / 2) = Ok x
    /\ get_quantile_value s (1 / 2) = Finite y
    /\ Rabs (y - x) <= (1 / 100 + margin) * Rabs x
    /\ num_values s = IZR (DataSet.len [1; 0; 1])
    /\ Sketch.sum s = DataSet.sum [1; 0; 1].
Proof.
  apply (@ddsketch_accuracy_on_nonnegative_data (1 / 100) (1 / 2) [1; 0; 1]
           sketch_0_01).
  - unfold accuracy_in_range. lra.
  - exact sketch_0_01_built.
  - discriminate.
  - unfold few. simpl. lia.
  - exact (proj2 sample_in_range).
  - unfold nonnegative. repeat constructor; lra.
  - lra.
Defined.

(** X2. Merging keeps the accuracy, for data of the range without negative
    values: when two new sketches of the same accuracy are filled from two
    lists of values and the second is merged into the first, no call fails
    and the result answers every quantile query [q] with a number [y] such
    that [|y - x| <= (alpha + 10^-9) * |x|], where [x] is the value that
    the two lists together hold at that quantile; its count is the number
    of values of the two lists. *)
Theorem merged_sketch_accuracy_on_nonnegative_data (alpha q : R)
    (values others : list R) (s0 : Sketch.t) :
  accuracy_in_range alpha ->
  DDSketch alpha = Ok s0 ->
  values ++ others <> [] -> few (values ++ others) ->
  Forall (in_range (mapping_ s0)) (values ++ others) ->
  nonnegative (values ++ others) ->
  0 <= q <= 1 ->
  exists a b s x y,
    SketchTest.add_values Store.Dense s0 values = Ok a
    /\ SketchTest.add_values Store.Dense s0 others = Ok b
    /\ Sketch.merge Store.Dense a b = Ok s
    /\ DataSet.quantile (values ++ others) q = Ok x
    /\ get_quantile_value s q = Finite y
    /\ Rabs (y - x) <= (alpha + margin) * Rabs x
    /\ num_values s = IZR (DataSet.len (values ++ others)).
Proof.
  intros Har H0 Hne _ Hin _ Hq.
  pose proof (accuracy_in_range_open Har) as Ha.
  destruct (new_sketch_represents _ H0) as (Hm & _).
  destruct (in_range_all Ha Hm Hin) as (Hadm & Hsto).
  destruct (@merged_sketch_quantile_accuracy alpha q values others s0 Ha H0
              Hne Hadm Hsto Hq)
    as (a & b & s & x & y & Ea & Eb & Es & Q & G & E & N & _).
  exists a, b, s, x, y. repeat (split; [assumption|]).
  split; [now apply widen|assumption].
Qed.

Lemma merged_sketch_accuracy_on_nonnegative_data_witness :
  exists a b s x y,
    SketchTest.add_values Store.Dense sketch_0_01 [1; 0] = Ok a
    /\ SketchTest.add_values Store.Dense sketch_0_01 [1] = Ok b
    /\ Sketch.merge Store.Dense a b = Ok s
    /\ DataSet.quantile ([1; 0] ++ [1]) (1 / 2) = Ok x
    /\ get_quantile_value s (1 / 2) = Finite y
    /\ Rabs (y - x) <= (1 / 100 + margin) * Rabs x
    /\ num_values s = IZR (DataSet.len ([1; 0] ++ [1])).
Proof.
  apply (@merged_sketch_accuracy_on_nonnegative_data (1 / 100) (1 / 2)
           [1; 0] [1] sketch_0_01).
  - unfold accuracy_in_range. lra.
  - exact sketch_0_01_built.
  - discriminate.
  - unfold few. simpl. lia.
  - exact (proj2 sample_in_range).
  - unfold nonnegative. simpl. repeat constructor; lra.
  - lra.
Defined.





(** X20. The answers of a sketch do not decrease with the quantile, for
    each of the three sketches, every data set of the range (negative
    values included) and every bin limit of magnitude at most [2 ^ 20]:
    after the values have been added one by one to a new sketch, a query
    at [q1] and a query at [q2 >= q1] both return a number, and the first
    is at most the second.  This holds for the collapsed buckets too. *)
Theorem quantiles_do_not_decrease_in_range (k : Store.kind)
    (alpha q1 q2 : R) (bin_limit : Z) (values : list R) (s0 : Sketch.t) :
  accuracy_in_range alpha -> small bin_limit ->
  new_sketch k alpha bin_limit = Ok s0 ->
  values <> [] -> few values ->
  Forall (in_range (mapping_ s0)) values ->
  0 <= q1 -> q1 <= q2 -> q2 <= 1 ->
  exists s y1 y2,
    SketchTest.add_values k s0 values = Ok s
    /\ get_quantile_value s q1 = Finite y1
    /\ get_quantile_value s q2 = Finite y2
    /\ y1 <= y2.
Proof.
  intros Har _ H0 Hne _ Hin H1 H12 H2.
  pose proof (accuracy_in_range_open Har) as Ha.
  assert (Hm : LogarithmicMapping alpha (IZR 0) = Ok (mapping_ s0)).
  { destruct k; cbn [new_sketch] in H0.
    - exact (proj1 (new_sketch_represents _ H0)).
    - exact (proj1 (@new_collapsing_sketch alpha bin_limit s0
                      LowestFacts.holds (@LowestFacts.holds_new) H0)).
    - exact (proj1 (@new_collapsing_sketch alpha bin_limit s0
                      HighestFacts.holds_high
                      (@HighestFacts.holds_high_new) H0)). }
  destruct (in_range_all Ha Hm Hin) as (_ & Hsto).
  exact (@quantiles_do_not_decrease k alpha q1 q2 bin_limit values s0 Ha H0
           Hne Hsto H1 H12 H2).
Qed.

Lemma quantiles_do_not_decrease_in_range_witness :
  exists s y1 y2,
    SketchTest.add_values Store.CollapsingLowest collapsing_sketch_0_01
      sample_values = Ok s
    /\ get_quantile_value s (1 / 4) = Finite y1
    /\ get_quantile_value s (3 / 4) = Finite y2
    /\ y1 <= y2.
Proof.
  apply (@quantiles_do_not_decrease_in_range Store.CollapsingLowest
           (1 / 100) (1 / 4) (3 / 4) 2 sample_values collapsing_sketch_0_01).
  - unfold accuracy_in_range. lra.
  - unfold small. lia.
  - exact collapsing_sketch_0_01_built.
  - discriminate.
  - unfold few. simpl. lia.
  - exact (proj1 sample_in_range).
  - lra.
  - lra.
  - lra.
Defined.

End SketchRangeFacts.
